(** * An active-set QP solver: the runtime kernel [casadi_qp.hpp]

    A shallow embedding of the functions of
    [casadi/core/runtime/casadi_qp.hpp] and the properties that the
    design document states about them.

    The kernel is a C++ template over the scalar type [T1].  It is
    embedded here at an exact scalar type: rational numbers completed with
    the IEEE special values [+inf], [-inf] and [NaN], which the code tests
    for ([isinf]) and produces ([inf], division by zero).  Finite arithmetic
    is exact (no rounding) and there is a single zero.  [casadi_int] indices
    and signs are [Z]; array positions and dimensions, which are never
    negative, are [nat].  Arrays are lists; a read outside an array yields
    the default element and a write outside an array is dropped (both are
    undefined behaviour in the source). *)

From Stdlib Require Import String ZArith QArith Qabs List Bool Lia Lqa Permutation Sorted.
Import ListNotations.


(** ** The scalar type

    Comparisons, negation, [fabs], [fmin], [fmax] and the tests for the
    special values give the same results at every instance of [T1].  Sums,
    differences, products and quotients are exact at this instance, where
    [double] rounds them: a property that relies on their exact value is
    stated over exact scalars and holds at [double] only up to rounding. *)

Inductive T1 : Type :=
| Fin (q : Q)
| PInf
| NInf
| NaN.

Declare Scope T1_scope.
Delimit Scope T1_scope with T1.
Bind Scope T1_scope with T1.

Definition T1opp (x : T1) : T1 :=
  match x with
  | Fin q => Fin (- q)
  | PInf => NInf
  | NInf => PInf
  | NaN => NaN
  end.

Definition T1add (x y : T1) : T1 :=
  match x, y with
  | Fin a, Fin b => Fin (a + b)
  | NaN, _ | _, NaN => NaN
  | PInf, NInf | NInf, PInf => NaN
  | PInf, _ | _, PInf => PInf
  | NInf, _ | _, NInf => NInf
  end.

Definition T1sub (x y : T1) : T1 := T1add x (T1opp y).

(** The infinity of the sign of [c], and [NaN] for a zero. *)
Definition inf_of_sign (c : comparison) : T1 :=
  match c with
  | Gt => PInf
  | Lt => NInf
  | Eq => NaN
  end.

Definition T1mul (x y : T1) : T1 :=
  match x, y with
  | Fin a, Fin b => Fin (a * b)
  | NaN, _ | _, NaN => NaN
  | Fin a, PInf | PInf, Fin a => inf_of_sign (a ?= 0)
  | Fin a, NInf | NInf, Fin a => inf_of_sign (0 ?= a)
  | PInf, PInf | NInf, NInf => PInf
  | PInf, NInf | NInf, PInf => NInf
  end.

Definition T1div (x y : T1) : T1 :=
  match x, y with
  | Fin a, Fin b =>
      if Qeq_bool b 0 then inf_of_sign (a ?= 0) else Fin (a / b)
  | NaN, _ | _, NaN => NaN
  | Fin _, (PInf | NInf) => Fin 0
  | PInf, Fin b => match b ?= 0 with Lt => NInf | _ => PInf end
  | NInf, Fin b => match b ?= 0 with Lt => PInf | _ => NInf end
  | (PInf | NInf), (PInf | NInf) => NaN
  end.

(** Comparison; [None] when an operand is [NaN] (every ordered comparison
    with a [NaN] is false, [!=] is true). *)
Definition T1compare (x y : T1) : option comparison :=
  match x, y with
  | NaN, _ | _, NaN => None
  | Fin a, Fin b => Some (a ?= b)
  | PInf, PInf | NInf, NInf => Some Eq
  | _, PInf | NInf, _ => Some Lt
  | PInf, _ | _, NInf => Some Gt
  end.

Definition T1ltb (x y : T1) : bool :=
  match T1compare x y with Some Lt => true | _ => false end.
Definition T1leb (x y : T1) : bool :=
  match T1compare x y with Some Lt | Some Eq => true | _ => false end.
Definition T1eqb (x y : T1) : bool :=
  match T1compare x y with Some Eq => true | _ => false end.
Definition T1gtb (x y : T1) : bool := T1ltb y x.
Definition T1geb (x y : T1) : bool := T1leb y x.

Definition fabs (x : T1) : T1 :=
  match x with
  | Fin q => Fin (Qabs q)
  | PInf | NInf => PInf
  | NaN => NaN
  end.

(** [fmin] and [fmax] return the other operand when one is [NaN]. *)
Definition fmin (x y : T1) : T1 :=
  match x, y with
  | NaN, _ => y
  | _, NaN => x
  | _, _ => if T1ltb y x then y else x
  end.

Definition fmax (x y : T1) : T1 :=
  match x, y with
  | NaN, _ => y
  | _, NaN => x
  | _, _ => if T1ltb x y then y else x
  end.

Definition isinf (x : T1) : bool :=
  match x with
  | PInf | NInf => true
  | _ => false
  end.

Definition isnan (x : T1) : bool :=
  match x with
  | NaN => true
  | _ => false
  end.

Definition is_finite (x : T1) : bool :=
  match x with
  | Fin _ => true
  | _ => false
  end.

Notation "0" := (Fin 0) : T1_scope.
Notation "1" := (Fin 1) : T1_scope.
Infix "+" := T1add : T1_scope.
Infix "-" := T1sub : T1_scope.
Infix "*" := T1mul : T1_scope.
Infix "/" := T1div : T1_scope.
Notation "- x" := (T1opp x) : T1_scope.
Infix "<?" := T1ltb : T1_scope.
Infix "<=?" := T1leb : T1_scope.
Infix "=?" := T1eqb : T1_scope.
Infix ">?" := T1gtb : T1_scope.
Infix ">=?" := T1geb : T1_scope.

(** Equality of scalars as numbers: [Fin (1#2)] and [Fin (2#4)] are the
    same number. *)
Definition T1eq (x y : T1) : Prop :=
  match x, y with
  | Fin a, Fin b => a == b
  | PInf, PInf | NInf, NInf | NaN, NaN => True
  | _, _ => False
  end.

(** The literal thresholds of the source. *)
Definition eps12 : T1 := Fin (1 # 1000000000000).
Definition eps14 : T1 := Fin (1 # 100000000000000).
Definition eps16 : T1 := Fin (1 # 10000000000000000).

(** ** Arrays *)

Fixpoint upd {A : Type} (l : list A) (i : nat) (v : A) : list A :=
  match l, i with
  | [], _ => []
  | _ :: t, O => v :: t
  | h :: t, S i' => h :: upd t i' v
  end.

(** Arrays of scalars, of [casadi_int] and of flags, read at a position. *)
Definition rd (l : list T1) (i : nat) : T1 := nth i l 0%T1.
Definition rdi (l : list Z) (i : nat) : Z := nth i l 0%Z.
Definition rdn (l : list nat) (i : nat) : nat := nth i l 0%nat.
Definition rdb (l : list bool) (i : nat) : bool := nth i l false.

Definition zeros (n : nat) : list T1 := repeat 0%T1 n.

(** Access at a [casadi_int] index, which may be the sentinel [-1]. *)
Definition rdz (l : list T1) (i : Z) : T1 :=
  if (i <? 0)%Z then 0%T1 else rd l (Z.to_nat i).
Definition updz {A : Type} (l : list A) (i : Z) (v : A) : list A :=
  if (i <? 0)%Z then l else upd l (Z.to_nat i) v.

(** [for (k = a; k < b; ++k) s = body k s]. *)
Definition for_range {St : Type} (a b : nat) (body : nat -> St -> St) (s : St) : St :=
  fold_left (fun s k => body k s) (seq a (b - a)) s.

(** ** Sparsity patterns

    A pattern is the integer array [nrow, ncol, colind[0..ncol], row[0..nnz)]
    (compressed column storage). *)

Definition sparsity := list nat.

Definition sp_ncol (sp : sparsity) : nat := rdn sp 1.
(** [colind = sp + 2]. *)
Definition sp_colind (sp : sparsity) (k : nat) : nat := rdn sp (2 + k).
(** [row = colind + n + 1], for the number of columns [n] the caller uses. *)
Definition sp_row (sp : sparsity) (n : nat) (k : nat) : nat := rdn sp (2 + n + 1 + k).

(** ** The problem descriptor and the working record *)

Record casadi_qp_prob : Type := {
  (* Dimensions *)
  nx : nat;
  na : nat;
  nz : nat;
  (* Smallest nonzero number *)
  dmin : T1;
  (* Infinity *)
  inf : T1;
  (* Dual to primal error *)
  du_to_pr : T1;
  (* Print iterations *)
  print_iter : Z;
  (* Sparsity patterns *)
  sp_a : sparsity;
  sp_h : sparsity;
  sp_at : sparsity;
  sp_kkt : sparsity;
  (* Symbolic QR factorization *)
  prinv : list nat;
  pc : list nat;
  sp_v : sparsity;
  sp_r : sparsity
}.

(** The message buffer [msg] holds the last formatted message; it is kept
    as the format string with its arguments. *)
Inductive log_arg : Type :=
| ArgInt (i : Z)
| ArgReal (x : T1)
| ArgStr (s : string).

Record log_msg : Type := Msg { msg_fmt : string; msg_args : list log_arg }.

Record casadi_qp_data : Type := {
  (* Problem structure *)
  prob : casadi_qp_prob;
  (* Cost *)
  f : T1;
  (* QP data *)
  nz_a : list T1;
  nz_h : list T1;
  g : list T1;
  (* Vectors *)
  z : list T1;
  lbz : list T1;
  ubz : list T1;
  infeas : list T1;
  tinfeas : list T1;
  lam : list T1;
  w : list T1;
  dz : list T1;
  dlam : list T1;
  iw : list Z;
  neverzero : list bool;
  neverlower : list bool;
  neverupper : list bool;
  (* Numeric QR factorization *)
  nz_at : list T1;
  nz_kkt : list T1;
  beta : list T1;
  nz_v : list T1;
  nz_r : list T1;
  (* Message buffer *)
  msg : log_msg;
  (* Stepsize *)
  tau : T1;
  (* Singularity *)
  sing : Z;
  (* Smallest diagonal value for the QR factorization *)
  mina : T1;
  imina : Z;
  (* Primal and dual error, corresponding index *)
  pr : T1;
  du : T1;
  ipr : Z;
  idu : Z
}.

(** Assignments to the fields of the working record. *)
Definition set_f (v : T1) (d : casadi_qp_data) : casadi_qp_data :=
  {| prob := prob d; f := v; nz_a := nz_a d; nz_h := nz_h d; g := g d; z := z
  d; lbz := lbz d; ubz := ubz d; infeas := infeas d; tinfeas := tinfeas d; lam
  := lam d; w := w d; dz := dz d; dlam := dlam d; iw := iw d; neverzero :=
  neverzero d; neverlower := neverlower d; neverupper := neverupper d; nz_at
  := nz_at d; nz_kkt := nz_kkt d; beta := beta d; nz_v := nz_v d; nz_r := nz_r
  d; msg := msg d; tau := tau d; sing := sing d; mina := mina d; imina :=
  imina d; pr := pr d; du := du d; ipr := ipr d; idu := idu d |}.
Definition set_z (v : list T1) (d : casadi_qp_data) : casadi_qp_data :=
  {| prob := prob d; f := f d; nz_a := nz_a d; nz_h := nz_h d; g := g d; z :=
  v; lbz := lbz d; ubz := ubz d; infeas := infeas d; tinfeas := tinfeas d; lam
  := lam d; w := w d; dz := dz d; dlam := dlam d; iw := iw d; neverzero :=
  neverzero d; neverlower := neverlower d; neverupper := neverupper d; nz_at
  := nz_at d; nz_kkt := nz_kkt d; beta := beta d; nz_v := nz_v d; nz_r := nz_r
  d; msg := msg d; tau := tau d; sing := sing d; mina := mina d; imina :=
  imina d; pr := pr d; du := du d; ipr := ipr d; idu := idu d |}.
Definition set_infeas (v : list T1) (d : casadi_qp_data) : casadi_qp_data :=
  {| prob := prob d; f := f d; nz_a := nz_a d; nz_h := nz_h d; g := g d; z :=
  z d; lbz := lbz d; ubz := ubz d; infeas := v; tinfeas := tinfeas d; lam :=
  lam d; w := w d; dz := dz d; dlam := dlam d; iw := iw d; neverzero :=
  neverzero d; neverlower := neverlower d; neverupper := neverupper d; nz_at
  := nz_at d; nz_kkt := nz_kkt d; beta := beta d; nz_v := nz_v d; nz_r := nz_r
  d; msg := msg d; tau := tau d; sing := sing d; mina := mina d; imina :=
  imina d; pr := pr d; du := du d; ipr := ipr d; idu := idu d |}.
Definition set_tinfeas (v : list T1) (d : casadi_qp_data) : casadi_qp_data :=
  {| prob := prob d; f := f d; nz_a := nz_a d; nz_h := nz_h d; g := g d; z :=
  z d; lbz := lbz d; ubz := ubz d; infeas := infeas d; tinfeas := v; lam :=
  lam d; w := w d; dz := dz d; dlam := dlam d; iw := iw d; neverzero :=
  neverzero d; neverlower := neverlower d; neverupper := neverupper d; nz_at
  := nz_at d; nz_kkt := nz_kkt d; beta := beta d; nz_v := nz_v d; nz_r := nz_r
  d; msg := msg d; tau := tau d; sing := sing d; mina := mina d; imina :=
  imina d; pr := pr d; du := du d; ipr := ipr d; idu := idu d |}.
Definition set_lam (v : list T1) (d : casadi_qp_data) : casadi_qp_data :=
  {| prob := prob d; f := f d; nz_a := nz_a d; nz_h := nz_h d; g := g d; z :=
  z d; lbz := lbz d; ubz := ubz d; infeas := infeas d; tinfeas := tinfeas d;
  lam := v; w := w d; dz := dz d; dlam := dlam d; iw := iw d; neverzero :=
  neverzero d; neverlower := neverlower d; neverupper := neverupper d; nz_at
  := nz_at d; nz_kkt := nz_kkt d; beta := beta d; nz_v := nz_v d; nz_r := nz_r
  d; msg := msg d; tau := tau d; sing := sing d; mina := mina d; imina :=
  imina d; pr := pr d; du := du d; ipr := ipr d; idu := idu d |}.
Definition set_w (v : list T1) (d : casadi_qp_data) : casadi_qp_data :=
  {| prob := prob d; f := f d; nz_a := nz_a d; nz_h := nz_h d; g := g d; z :=
  z d; lbz := lbz d; ubz := ubz d; infeas := infeas d; tinfeas := tinfeas d;
  lam := lam d; w := v; dz := dz d; dlam := dlam d; iw := iw d; neverzero :=
  neverzero d; neverlower := neverlower d; neverupper := neverupper d; nz_at
  := nz_at d; nz_kkt := nz_kkt d; beta := beta d; nz_v := nz_v d; nz_r := nz_r
  d; msg := msg d; tau := tau d; sing := sing d; mina := mina d; imina :=
  imina d; pr := pr d; du := du d; ipr := ipr d; idu := idu d |}.
Definition set_dz (v : list T1) (d : casadi_qp_data) : casadi_qp_data :=
  {| prob := prob d; f := f d; nz_a := nz_a d; nz_h := nz_h d; g := g d; z :=
  z d; lbz := lbz d; ubz := ubz d; infeas := infeas d; tinfeas := tinfeas d;
  lam := lam d; w := w d; dz := v; dlam := dlam d; iw := iw d; neverzero :=
  neverzero d; neverlower := neverlower d; neverupper := neverupper d; nz_at
  := nz_at d; nz_kkt := nz_kkt d; beta := beta d; nz_v := nz_v d; nz_r := nz_r
  d; msg := msg d; tau := tau d; sing := sing d; mina := mina d; imina :=
  imina d; pr := pr d; du := du d; ipr := ipr d; idu := idu d |}.
Definition set_dlam (v : list T1) (d : casadi_qp_data) : casadi_qp_data :=
  {| prob := prob d; f := f d; nz_a := nz_a d; nz_h := nz_h d; g := g d; z :=
  z d; lbz := lbz d; ubz := ubz d; infeas := infeas d; tinfeas := tinfeas d;
  lam := lam d; w := w d; dz := dz d; dlam := v; iw := iw d; neverzero :=
  neverzero d; neverlower := neverlower d; neverupper := neverupper d; nz_at
  := nz_at d; nz_kkt := nz_kkt d; beta := beta d; nz_v := nz_v d; nz_r := nz_r
  d; msg := msg d; tau := tau d; sing := sing d; mina := mina d; imina :=
  imina d; pr := pr d; du := du d; ipr := ipr d; idu := idu d |}.
Definition set_iw (v : list Z) (d : casadi_qp_data) : casadi_qp_data :=
  {| prob := prob d; f := f d; nz_a := nz_a d; nz_h := nz_h d; g := g d; z :=
  z d; lbz := lbz d; ubz := ubz d; infeas := infeas d; tinfeas := tinfeas d;
  lam := lam d; w := w d; dz := dz d; dlam := dlam d; iw := v; neverzero :=
  neverzero d; neverlower := neverlower d; neverupper := neverupper d; nz_at
  := nz_at d; nz_kkt := nz_kkt d; beta := beta d; nz_v := nz_v d; nz_r := nz_r
  d; msg := msg d; tau := tau d; sing := sing d; mina := mina d; imina :=
  imina d; pr := pr d; du := du d; ipr := ipr d; idu := idu d |}.
Definition set_neverzero (v : list bool) (d : casadi_qp_data) : casadi_qp_data :=
  {| prob := prob d; f := f d; nz_a := nz_a d; nz_h := nz_h d; g := g d; z :=
  z d; lbz := lbz d; ubz := ubz d; infeas := infeas d; tinfeas := tinfeas d;
  lam := lam d; w := w d; dz := dz d; dlam := dlam d; iw := iw d; neverzero :=
  v; neverlower := neverlower d; neverupper := neverupper d; nz_at := nz_at d;
  nz_kkt := nz_kkt d; beta := beta d; nz_v := nz_v d; nz_r := nz_r d; msg :=
  msg d; tau := tau d; sing := sing d; mina := mina d; imina := imina d; pr :=
  pr d; du := du d; ipr := ipr d; idu := idu d |}.
Definition set_neverlower (v : list bool) (d : casadi_qp_data) : casadi_qp_data :=
  {| prob := prob d; f := f d; nz_a := nz_a d; nz_h := nz_h d; g := g d; z :=
  z d; lbz := lbz d; ubz := ubz d; infeas := infeas d; tinfeas := tinfeas d;
  lam := lam d; w := w d; dz := dz d; dlam := dlam d; iw := iw d; neverzero :=
  neverzero d; neverlower := v; neverupper := neverupper d; nz_at := nz_at d;
  nz_kkt := nz_kkt d; beta := beta d; nz_v := nz_v d; nz_r := nz_r d; msg :=
  msg d; tau := tau d; sing := sing d; mina := mina d; imina := imina d; pr :=
  pr d; du := du d; ipr := ipr d; idu := idu d |}.
Definition set_neverupper (v : list bool) (d : casadi_qp_data) : casadi_qp_data :=
  {| prob := prob d; f := f d; nz_a := nz_a d; nz_h := nz_h d; g := g d; z :=
  z d; lbz := lbz d; ubz := ubz d; infeas := infeas d; tinfeas := tinfeas d;
  lam := lam d; w := w d; dz := dz d; dlam := dlam d; iw := iw d; neverzero :=
  neverzero d; neverlower := neverlower d; neverupper := v; nz_at := nz_at d;
  nz_kkt := nz_kkt d; beta := beta d; nz_v := nz_v d; nz_r := nz_r d; msg :=
  msg d; tau := tau d; sing := sing d; mina := mina d; imina := imina d; pr :=
  pr d; du := du d; ipr := ipr d; idu := idu d |}.
Definition set_nz_at (v : list T1) (d : casadi_qp_data) : casadi_qp_data :=
  {| prob := prob d; f := f d; nz_a := nz_a d; nz_h := nz_h d; g := g d; z :=
  z d; lbz := lbz d; ubz := ubz d; infeas := infeas d; tinfeas := tinfeas d;
  lam := lam d; w := w d; dz := dz d; dlam := dlam d; iw := iw d; neverzero :=
  neverzero d; neverlower := neverlower d; neverupper := neverupper d; nz_at
  := v; nz_kkt := nz_kkt d; beta := beta d; nz_v := nz_v d; nz_r := nz_r d;
  msg := msg d; tau := tau d; sing := sing d; mina := mina d; imina := imina
  d; pr := pr d; du := du d; ipr := ipr d; idu := idu d |}.
Definition set_msg (v : log_msg) (d : casadi_qp_data) : casadi_qp_data :=
  {| prob := prob d; f := f d; nz_a := nz_a d; nz_h := nz_h d; g := g d; z :=
  z d; lbz := lbz d; ubz := ubz d; infeas := infeas d; tinfeas := tinfeas d;
  lam := lam d; w := w d; dz := dz d; dlam := dlam d; iw := iw d; neverzero :=
  neverzero d; neverlower := neverlower d; neverupper := neverupper d; nz_at
  := nz_at d; nz_kkt := nz_kkt d; beta := beta d; nz_v := nz_v d; nz_r := nz_r
  d; msg := v; tau := tau d; sing := sing d; mina := mina d; imina := imina d;
  pr := pr d; du := du d; ipr := ipr d; idu := idu d |}.
Definition set_tau (v : T1) (d : casadi_qp_data) : casadi_qp_data :=
  {| prob := prob d; f := f d; nz_a := nz_a d; nz_h := nz_h d; g := g d; z :=
  z d; lbz := lbz d; ubz := ubz d; infeas := infeas d; tinfeas := tinfeas d;
  lam := lam d; w := w d; dz := dz d; dlam := dlam d; iw := iw d; neverzero :=
  neverzero d; neverlower := neverlower d; neverupper := neverupper d; nz_at
  := nz_at d; nz_kkt := nz_kkt d; beta := beta d; nz_v := nz_v d; nz_r := nz_r
  d; msg := msg d; tau := v; sing := sing d; mina := mina d; imina := imina d;
  pr := pr d; du := du d; ipr := ipr d; idu := idu d |}.
Definition set_sing (v : Z) (d : casadi_qp_data) : casadi_qp_data :=
  {| prob := prob d; f := f d; nz_a := nz_a d; nz_h := nz_h d; g := g d; z :=
  z d; lbz := lbz d; ubz := ubz d; infeas := infeas d; tinfeas := tinfeas d;
  lam := lam d; w := w d; dz := dz d; dlam := dlam d; iw := iw d; neverzero :=
  neverzero d; neverlower := neverlower d; neverupper := neverupper d; nz_at
  := nz_at d; nz_kkt := nz_kkt d; beta := beta d; nz_v := nz_v d; nz_r := nz_r
  d; msg := msg d; tau := tau d; sing := v; mina := mina d; imina := imina d;
  pr := pr d; du := du d; ipr := ipr d; idu := idu d |}.
Definition set_pr (v : T1) (d : casadi_qp_data) : casadi_qp_data :=
  {| prob := prob d; f := f d; nz_a := nz_a d; nz_h := nz_h d; g := g d; z :=
  z d; lbz := lbz d; ubz := ubz d; infeas := infeas d; tinfeas := tinfeas d;
  lam := lam d; w := w d; dz := dz d; dlam := dlam d; iw := iw d; neverzero :=
  neverzero d; neverlower := neverlower d; neverupper := neverupper d; nz_at
  := nz_at d; nz_kkt := nz_kkt d; beta := beta d; nz_v := nz_v d; nz_r := nz_r
  d; msg := msg d; tau := tau d; sing := sing d; mina := mina d; imina :=
  imina d; pr := v; du := du d; ipr := ipr d; idu := idu d |}.
Definition set_du (v : T1) (d : casadi_qp_data) : casadi_qp_data :=
  {| prob := prob d; f := f d; nz_a := nz_a d; nz_h := nz_h d; g := g d; z :=
  z d; lbz := lbz d; ubz := ubz d; infeas := infeas d; tinfeas := tinfeas d;
  lam := lam d; w := w d; dz := dz d; dlam := dlam d; iw := iw d; neverzero :=
  neverzero d; neverlower := neverlower d; neverupper := neverupper d; nz_at
  := nz_at d; nz_kkt := nz_kkt d; beta := beta d; nz_v := nz_v d; nz_r := nz_r
  d; msg := msg d; tau := tau d; sing := sing d; mina := mina d; imina :=
  imina d; pr := pr d; du := v; ipr := ipr d; idu := idu d |}.
Definition set_ipr (v : Z) (d : casadi_qp_data) : casadi_qp_data :=
  {| prob := prob d; f := f d; nz_a := nz_a d; nz_h := nz_h d; g := g d; z :=
  z d; lbz := lbz d; ubz := ubz d; infeas := infeas d; tinfeas := tinfeas d;
  lam := lam d; w := w d; dz := dz d; dlam := dlam d; iw := iw d; neverzero :=
  neverzero d; neverlower := neverlower d; neverupper := neverupper d; nz_at
  := nz_at d; nz_kkt := nz_kkt d; beta := beta d; nz_v := nz_v d; nz_r := nz_r
  d; msg := msg d; tau := tau d; sing := sing d; mina := mina d; imina :=
  imina d; pr := pr d; du := du d; ipr := v; idu := idu d |}.
Definition set_idu (v : Z) (d : casadi_qp_data) : casadi_qp_data :=
  {| prob := prob d; f := f d; nz_a := nz_a d; nz_h := nz_h d; g := g d; z :=
  z d; lbz := lbz d; ubz := ubz d; infeas := infeas d; tinfeas := tinfeas d;
  lam := lam d; w := w d; dz := dz d; dlam := dlam d; iw := iw d; neverzero :=
  neverzero d; neverlower := neverlower d; neverupper := neverupper d; nz_at
  := nz_at d; nz_kkt := nz_kkt d; beta := beta d; nz_v := nz_v d; nz_r := nz_r
  d; msg := msg d; tau := tau d; sing := sing d; mina := mina d; imina :=
  imina d; pr := pr d; du := du d; ipr := ipr d; idu := v |}.

Definition casadi_qp_log (d : casadi_qp_data) (fmt : string) (args : list log_arg)
  : casadi_qp_data :=
  set_msg (Msg fmt args) d.

(** ** Dense and sparse primitives

    The kernel calls the runtime's vector and sparse-matrix primitives,
    whose sources are separate runtime files. *)

(** Modelled from the spec: [casadi_fill] is not part of the sources at
    hand; [fill(v,n,alpha)] sets the first [n] entries of [v] to [alpha]. *)
Definition casadi_fill (x : list T1) (n : nat) (alpha : T1) : list T1 :=
  for_range 0 n (fun i x => upd x i alpha) x.

(** Modelled from the spec: [casadi_copy] is not part of the sources at
    hand; [copy] writes the first [n] entries of [x] to [y]. *)
Definition casadi_copy (x : list T1) (n : nat) (y : list T1) : list T1 :=
  for_range 0 n (fun i y => upd y i (rd x i)) y.

(** Modelled from the spec: [casadi_axpy] is not part of the sources at
    hand; [axpy(n,alpha,x,y)] is [y += alpha*x] on dense vectors. *)
Definition casadi_axpy (n : nat) (alpha : T1) (x y : list T1) : list T1 :=
  for_range 0 n (fun i y => upd y i (rd y i + alpha * rd x i)%T1) y.

(** Modelled from the spec: [casadi_scal] is not part of the sources at
    hand; [scal(n,alpha,x)] is [x *= alpha]. *)
Definition casadi_scal (n : nat) (alpha : T1) (x : list T1) : list T1 :=
  for_range 0 n (fun i x => upd x i (rd x i * alpha)%T1) x.

(** Modelled from the spec: [casadi_dot] is not part of the sources at
    hand; [dot(n,x,y)] is the inner product, summed in index order. *)
Definition casadi_dot (n : nat) (x y : list T1) : T1 :=
  for_range 0 n (fun i r => (r + rd x i * rd y i)%T1) 0%T1.

(** Modelled from the spec: [casadi_mv] is not part of the sources at hand;
    [mv(A, x, y, transpose?)] is the sparse-dense matrix-vector product with
    accumulation, [z += A*y] or [z += A'*y], in the summation order induced
    by the column iteration. *)
Definition casadi_mv (x : list T1) (sp_x : sparsity) (y z : list T1) (tr : bool)
  : list T1 :=
  let ncol_x := sp_ncol sp_x in
  for_range 0 ncol_x (fun i z =>
    for_range (sp_colind sp_x i) (sp_colind sp_x (i + 1)) (fun el z =>
      if tr
      then upd z i (rd z i + rd x el * rd y (sp_row sp_x ncol_x el))%T1
      else let r := sp_row sp_x ncol_x el in
           upd z r (rd z r + rd x el * rd y i)%T1) z) z.

(** Modelled from the spec: [casadi_bilin] is not part of the sources at
    hand; [bilin(H, x, y)] is the bilinear form [x'*H*y] of a sparse matrix. *)
Definition casadi_bilin (A : list T1) (sp_A : sparsity) (x y : list T1) : T1 :=
  let ncol_A := sp_ncol sp_A in
  for_range 0 ncol_A (fun cc r =>
    for_range (sp_colind sp_A cc) (sp_colind sp_A (cc + 1)) (fun el r =>
      (r + rd x (sp_row sp_A ncol_A el) * rd A el * rd y cc)%T1) r) 0%T1.

(** Modelled from the spec: [casadi_trans] is not part of the sources at
    hand; [trans(A -> A')] writes the nonzeros of the transpose in the
    provided transpose sparsity, using [tmp] as one running write position
    per column of the transpose.  The result is the pair of the nonzeros of
    the transpose and the scratch array. *)
Definition casadi_trans (x : list T1) (sp_x : sparsity) (y : list T1)
  (sp_y : sparsity) (tmp : list Z) : list T1 * list Z :=
  let ncol_x := sp_ncol sp_x in
  let nnz_x := sp_colind sp_x ncol_x in
  let ncol_y := sp_ncol sp_y in
  let tmp := for_range 0 ncol_y
               (fun k tmp => upd tmp k (Z.of_nat (sp_colind sp_y k))) tmp in
  for_range 0 nnz_x (fun k (s : list T1 * list Z) =>
    let (y, tmp) := s in
    let r := sp_row sp_x ncol_x k in
    (updz y (rdi tmp r) (rd x k), upd tmp r (rdi tmp r + 1)%Z)) (y, tmp).

(** The sub-array [v + off] as a view, and writing a view back. *)
Definition view (v : list T1) (off : nat) : list T1 := skipn off v.
Definition store (v : list T1) (off : nat) (part : list T1) : list T1 :=
  firstn off v ++ part.

(** ** [casadi_qp_reset] *)

(** One row of the loop of [casadi_qp_reset]; the flag is set on the early
    [return 1], which leaves the three classifications of the row written. *)
Definition casadi_qp_reset_row (i : nat) (d : casadi_qp_data)
  : bool * casadi_qp_data :=
  let p := prob d in
  (* Permitted signs for lam *)
  let d := set_neverzero (upd (neverzero d) i (rd (lbz d) i =? rd (ubz d) i)%T1) d in
  let d := set_neverupper (upd (neverupper d) i (isinf (rd (ubz d) i))) d in
  let d := set_neverlower (upd (neverlower d) i (isinf (rd (lbz d) i))) d in
  if rdb (neverzero d) i && rdb (neverupper d) i && rdb (neverlower d) i
  then (true, d)
  else
    (* Correct initial active set if required *)
    (false,
      if rdb (neverzero d) i && (rd (lam d) i =? 0)%T1 then
        set_lam (upd (lam d) i
                   (if rdb (neverupper d) i
                       || (rd (z d) i - rd (lbz d) i <=? rd (ubz d) i - rd (z d) i)%T1
                    then (- dmin p)%T1 else dmin p)) d
      else if rdb (neverupper d) i && (rd (lam d) i >? 0)%T1 then
        set_lam (upd (lam d) i (if rdb (neverzero d) i then (- dmin p)%T1 else 0%T1)) d
      else if rdb (neverlower d) i && (rd (lam d) i <? 0)%T1 then
        set_lam (upd (lam d) i (if rdb (neverzero d) i then dmin p else 0%T1)) d
      else d).

(** [for (i=0; i<p->nz; ++i)], with [n] rows left from row [i] on. *)
Fixpoint casadi_qp_reset_loop (n i : nat) (d : casadi_qp_data)
  : bool * casadi_qp_data :=
  match n with
  | O => (false, d)
  | S n' =>
      let (stop, d') := casadi_qp_reset_row i d in
      if stop then (true, d') else casadi_qp_reset_loop n' (S i) d'
  end.

(** The result is the returned status and the working record. *)
Definition casadi_qp_reset (d : casadi_qp_data) : Z * casadi_qp_data :=
  let p := prob d in
  (* Reset variables corresponding to previous iteration *)
  let d := set_msg (Msg EmptyString []) d in
  let d := set_tau 0%T1 d in
  let d := set_sing 0%Z d in
  (* Correct lam if needed, determine permitted signs *)
  let (stop, d) := casadi_qp_reset_loop (nz p) 0 d in
  if stop then (1%Z, d)
  else
    (* Transpose A *)
    let (at_, iw_) := casadi_trans (nz_a d) (sp_a p) (nz_at d) (sp_at p) (iw d) in
    (0%Z, set_iw iw_ (set_nz_at at_ d)).

(** ** Primal and dual errors *)

Definition casadi_qp_pr (d : casadi_qp_data) : casadi_qp_data :=
  (* Calculate largest constraint violation *)
  let p := prob d in
  let d := set_pr 0%T1 d in
  let d := set_ipr (-1)%Z d in
  for_range 0 (nz p) (fun i d =>
    if (rd (z d) i >? rd (ubz d) i + pr d)%T1 then
      set_ipr (Z.of_nat i) (set_pr (rd (z d) i - rd (ubz d) i)%T1 d)
    else if (rd (z d) i <? rd (lbz d) i - pr d)%T1 then
      set_ipr (Z.of_nat i) (set_pr (rd (lbz d) i - rd (z d) i)%T1 d)
    else d) d.

Definition casadi_qp_du (d : casadi_qp_data) : casadi_qp_data :=
  (* Calculate largest constraint violation *)
  let p := prob d in
  let d := set_du 0%T1 d in
  let d := set_idu (-1)%Z d in
  for_range 0 (nx p) (fun i d =>
    if (rd (infeas d) i >? du d)%T1 then
      set_idu (Z.of_nat i) (set_du (rd (infeas d) i) d)
    else if (rd (infeas d) i <? - du d)%T1 then
      set_idu (Z.of_nat i) (set_du (- rd (infeas d) i)%T1 d)
    else d) d.

(** ** Choice of the constraint to add or remove *)

(** The result is the returned index, the value of [*sign] and the record. *)
Definition casadi_qp_pr_index (d : casadi_qp_data) (sign : Z)
  : Z * Z * casadi_qp_data :=
  (* Try to improve primal feasibility by adding a constraint *)
  if (rdz (lam d) (ipr d) =? 0)%T1 then
    (* Add the most violating constraint *)
    let sign := if (rdz (z d) (ipr d) <? rdz (lbz d) (ipr d))%T1 then (-1)%Z else 1%Z in
    let d := casadi_qp_log d "Added %lld to reduce |pr|" [ArgInt (ipr d)] in
    (ipr d, sign, d)
  else ((-1)%Z, sign, d).

Definition casadi_qp_du_check (d : casadi_qp_data) (i : nat) : T1 :=
  let p := prob d in
  (* AT sparsity *)
  let at_colind := sp_colind (sp_at p) in
  let at_row := sp_row (sp_at p) (na p) in
  (* Maximum infeasibility from setting from setting lam[i]=0 *)
  if (i <? nx p)%nat then
    fabs (rd (infeas d) i - rd (lam d) i)
  else
    for_range (at_colind (i - nx p)%nat) (at_colind (i - nx p + 1)%nat)
      (fun k new_du =>
         fmax new_du (fabs (rd (infeas d) (at_row k) - rd (nz_at d) k * rd (lam d) i)))
      0%T1.

(** The sensitivity vector that [casadi_qp_du_index] leaves in [d->w]:
    [w[idu]] is set to [-1] or [1] and [w[nx:] = A*w[:nx]].  The product
    reads [w[0..nx)] and accumulates into [w[nx..nz)]. *)
Definition casadi_qp_du_sens (d : casadi_qp_data) : list T1 :=
  let p := prob d in
  let w0 := casadi_fill (w d) (nz p) 0%T1 in
  let w1 := updz w0 (idu d)
              (if (rdz (infeas d) (idu d) >? 0)%T1 then (- (1))%T1 else 1%T1) in
  store w1 (nx p) (casadi_mv (nz_a d) (sp_a p) w1 (view w1 (nx p)) false).

(** The body of the search loop of [casadi_qp_du_index], on the pair
    [(best_ind, best_w)]. *)
Definition casadi_qp_du_index_step (d : casadi_qp_data) (i : nat)
  (best : Z * T1) : Z * T1 :=
  (* Make sure variable influences du *)
  if (rd (w d) i =? 0)%T1 then best
  (* Make sure removing the constraint decreases dual infeasibility *)
  else if (if (rd (w d) i >? 0)%T1 then (rd (lam d) i >=? 0)%T1
           else (rd (lam d) i <=? 0)%T1) then best
  (* Skip if maximum infeasibility increases *)
  else if (casadi_qp_du_check d i >? du d)%T1 then best
  (* Check if best so far *)
  else if (fabs (rd (w d) i) >? snd best)%T1 then (Z.of_nat i, fabs (rd (w d) i))
  else best.

(** The result is the returned index, the value of [*sign] and the record. *)
Definition casadi_qp_du_index (d : casadi_qp_data) (sign : Z)
  : Z * Z * casadi_qp_data :=
  (* Try to improve dual feasibility by removing a constraint *)
  let p := prob d in
  (* We need to increase or decrease infeas[idu]. Sensitivity: *)
  let d := set_w (casadi_qp_du_sens d) d in
  (* Find the best lam[i] to make zero *)
  let best_ind := fst (for_range 0 (nz p) (casadi_qp_du_index_step d) ((-1)%Z, 0%T1)) in
  (* Accept, if any *)
  if (best_ind >=? 0)%Z then
    (best_ind, 0%Z, casadi_qp_log d "Removed %lld to reduce |du|" [ArgInt best_ind])
  else ((-1)%Z, sign, d).

(** ** Columns of the KKT matrix *)

(** The sparse entries of column [i < nx] of [(H; A)], written into [kkt_i]. *)
Definition kkt_copy_ha (d : casadi_qp_data) (kkt_i : list T1) (i : nat) : list T1 :=
  let p := prob d in
  let kkt_i :=
    for_range (sp_colind (sp_h p) i) (sp_colind (sp_h p) (i + 1))
      (fun k kkt_i => upd kkt_i (sp_row (sp_h p) (nx p) k) (rd (nz_h d) k)) kkt_i in
  for_range (sp_colind (sp_a p) i) (sp_colind (sp_a p) (i + 1))
    (fun k kkt_i => upd kkt_i (nx p + sp_row (sp_a p) (nx p) k) (rd (nz_a d) k)) kkt_i.

Definition casadi_qp_kkt_vector (d : casadi_qp_data) (kkt_i : list T1) (i : nat)
  : list T1 :=
  let p := prob d in
  (* Reset kkt_i to zero *)
  let kkt_i := casadi_fill kkt_i (nz p) 0%T1 in
  (* Copy sparse entries *)
  let kkt_i :=
    if (i <? nx p)%nat then kkt_copy_ha d kkt_i i
    else
      for_range (sp_colind (sp_at p) (i - nx p)) (sp_colind (sp_at p) (i - nx p + 1))
        (fun k kkt_i => upd kkt_i (sp_row (sp_at p) (na p) k) (- rd (nz_at d) k)%T1)
        kkt_i in
  (* Add diagonal entry *)
  upd kkt_i i (rd kkt_i i - 1)%T1.

Definition casadi_qp_kkt_column (d : casadi_qp_data) (kkt_i : list T1) (i : nat)
  (sign : Z) : list T1 :=
  let p := prob d in
  (* Reset kkt_i to zero *)
  let kkt_i := casadi_fill kkt_i (nz p) 0%T1 in
  (* Copy column of KKT to kkt_i *)
  if (i <? nx p)%nat then
    if (sign =? 0)%Z then kkt_copy_ha d kkt_i i
    else upd kkt_i i 1%T1
  else
    if (sign =? 0)%Z then upd kkt_i i (- (1))%T1
    else
      for_range (sp_colind (sp_at p) (i - nx p)) (sp_colind (sp_at p) (i - nx p + 1))
        (fun k kkt_i => upd kkt_i (sp_row (sp_at p) (na p) k) (rd (nz_at d) k)) kkt_i.

Definition casadi_qp_kkt_dot (d : casadi_qp_data) (v : list T1) (i : nat) (sign : Z)
  : T1 :=
  let p := prob d in
  (* Scalar product with the desired column *)
  if (i <? nx p)%nat then
    if (sign =? 0)%Z then
      let r :=
        for_range (sp_colind (sp_h p) i) (sp_colind (sp_h p) (i + 1))
          (fun k r => (r + rd v (sp_row (sp_h p) (nx p) k) * rd (nz_h d) k)%T1) 0%T1 in
      for_range (sp_colind (sp_a p) i) (sp_colind (sp_a p) (i + 1))
        (fun k r => (r + rd v (nx p + sp_row (sp_a p) (nx p) k) * rd (nz_a d) k)%T1) r
    else rd v i
  else
    if (sign =? 0)%Z then (- rd v i)%T1
    else
      for_range (sp_colind (sp_at p) (i - nx p)) (sp_colind (sp_at p) (i - nx p + 1))
        (fun k r => (r + rd v (sp_row (sp_at p) (na p) k) * rd (nz_at d) k)%T1) 0%T1.

Definition casadi_qp_kkt_dot2 (d : casadi_qp_data) (v : list T1) (i : nat) : T1 :=
  let p := prob d in
  (* Scalar product with the diagonal *)
  let r := rd v i in
  (* Scalar product with the sparse entries *)
  if (i <? nx p)%nat then
    let r :=
      for_range (sp_colind (sp_h p) i) (sp_colind (sp_h p) (i + 1))
        (fun k r => (r - rd v (sp_row (sp_h p) (nx p) k) * rd (nz_h d) k)%T1) r in
    for_range (sp_colind (sp_a p) i) (sp_colind (sp_a p) (i + 1))
      (fun k r => (r - rd v (nx p + sp_row (sp_a p) (nx p) k) * rd (nz_a d) k)%T1) r
  else
    for_range (sp_colind (sp_at p) (i - nx p)) (sp_colind (sp_at p) (i - nx p + 1))
      (fun k r => (r + rd v (sp_row (sp_at p) (na p) k) * rd (nz_at d) k)%T1) r.

Definition casadi_qp_kkt_residual (d : casadi_qp_data) (r : list T1) : list T1 :=
  let p := prob d in
  for_range 0 (nz p) (fun i r =>
    if (rd (lam d) i >? 0)%T1 then upd r i (rd (ubz d) i - rd (z d) i)%T1
    else if (rd (lam d) i <? 0)%T1 then upd r i (rd (lbz d) i - rd (z d) i)%T1
    else if (i <? nx p)%nat then upd r i (rd (lam d) i - rd (infeas d) i)%T1
    else upd r i (rd (lam d) i)) r.

(** ** Line search *)

(** The callers pass valid pointers for [index] and [sign]; the functions
    below take the values behind them and return the new values.  The
    results of [casadi_qp_zero_blocking] are the returned flag, [*index],
    [*sign] and the record. *)
Definition casadi_qp_zero_blocking (d : casadi_qp_data) (e : T1) (index sign : Z)
  : Z * Z * Z * casadi_qp_data :=
  let p := prob d in
  let dz_max := 0%T1 in
  for_range 0 (nz p) (fun i (s : Z * Z * Z * casadi_qp_data) =>
    let '(ret, index, sign, d) := s in
    if (- rd (dz d) i >? dz_max)%T1 && (rd (z d) i <=? rd (lbz d) i - e)%T1 then
      (1%Z, Z.of_nat i, (-1)%Z,
       casadi_qp_log d "lbz[%lld] violated at 0" [ArgInt (Z.of_nat i)])
    else if (rd (dz d) i >? dz_max)%T1 && (rd (z d) i >=? rd (ubz d) i + e)%T1 then
      (1%Z, Z.of_nat i, 1%Z,
       casadi_qp_log d "ubz[%lld] violated at 0" [ArgInt (Z.of_nat i)])
    else s) (0%Z, index, sign, d).

(** The loop over all primal variables of [casadi_qp_primal_blocking], with
    [n] components left from component [i] on. *)
Fixpoint casadi_qp_primal_blocking_loop (e : T1) (n i : nat)
  (s : Z * Z * casadi_qp_data) : Z * Z * casadi_qp_data :=
  match n with
  | O => s
  | S n' =>
      let '(index, sign, d) := s in
      if (rd (dz d) i =? 0)%T1 then
        (* Skip zero steps *)
        casadi_qp_primal_blocking_loop e n' (S i) s
      else
        (* Trial primal step *)
        let trial_z := (rd (z d) i + tau d * rd (dz d) i)%T1 in
        let s' :=
          if (rd (dz d) i <? 0)%T1 && (trial_z <? rd (lbz d) i - e)%T1 then
            (* Trial would increase maximum infeasibility *)
            let d := set_tau ((rd (lbz d) i - e - rd (z d) i) / rd (dz d) i)%T1 d in
            ((if (rd (lam d) i <? 0)%T1 then (-1)%Z else Z.of_nat i), (-1)%Z,
             casadi_qp_log d "Enforcing lbz[%lld]" [ArgInt (Z.of_nat i)])
          else if (rd (dz d) i >? 0)%T1 && (trial_z >? rd (ubz d) i + e)%T1 then
            (* Trial would increase maximum infeasibility *)
            let d := set_tau ((rd (ubz d) i + e - rd (z d) i) / rd (dz d) i)%T1 d in
            ((if (rd (lam d) i >? 0)%T1 then (-1)%Z else Z.of_nat i), 1%Z,
             casadi_qp_log d "Enforcing ubz[%lld]" [ArgInt (Z.of_nat i)])
          else s in
        if (tau (snd s') <=? 0)%T1 then s'
        else casadi_qp_primal_blocking_loop e n' (S i) s'
  end.

(** The results are [*index], [*sign] and the record. *)
Definition casadi_qp_primal_blocking (d : casadi_qp_data) (e : T1) (index sign : Z)
  : Z * Z * casadi_qp_data :=
  let p := prob d in
  (* Check if violation with tau=0 and not improving *)
  let '(ret, index, sign, d) := casadi_qp_zero_blocking d e index sign in
  if negb (ret =? 0)%Z then (index, sign, set_tau 0%T1 d)
  else
    (* Loop over all primal variables *)
    casadi_qp_primal_blocking_loop e (nz p) 0 (index, sign, d).

(** [for (loc=0; loc<n_tau-1; ++loc) if (new_tau<tau_list[loc]) break;]
    with [n] iterations left from [loc] on; the result is the final [loc]. *)
Fixpoint breakpoint_loc (tau_list : list T1) (new_tau : T1) (n loc : nat) : nat :=
  match n with
  | O => loc
  | S n' =>
      if (new_tau <? rd tau_list loc)%T1 then loc
      else breakpoint_loc tau_list new_tau n' (S loc)
  end.

(** The insertion loop [for (j=loc; j<n_tau; ++j)], which swaps the carried
    pair [(next_tau, next_ind)] with entry [j] of the two lists. *)
Definition breakpoint_insert (tau_list : list T1) (ind_list : list Z)
  (loc n_tau : nat) (new_tau : T1) (i : Z) : list T1 * list Z :=
  let '(tau_list, ind_list, _, _) :=
    for_range loc n_tau (fun j (s : list T1 * list Z * T1 * Z) =>
      let '(tau_list, ind_list, next_tau, next_ind) := s in
      let tmp_tau := rd tau_list j in
      let tmp_ind := rdi ind_list j in
      (upd tau_list j next_tau, upd ind_list j next_ind, tmp_tau, tmp_ind))
      (tau_list, ind_list, new_tau, i) in
  (tau_list, ind_list).

(** The body of the loop of [casadi_qp_dual_breakpoints] on the triple
    [(n_tau, tau_list, ind_list)]. *)
Definition casadi_qp_dual_breakpoints_step (d : casadi_qp_data) (tau : T1) (i : nat)
  (s : nat * list T1 * list Z) : nat * list T1 * list Z :=
  let '(n_tau, tau_list, ind_list) := s in
  if (rd (dlam d) i =? 0)%T1 then s (* Skip zero steps *)
  else if (rd (lam d) i =? 0)%T1 then s (* Skip inactive constraints *)
  else
    (* Trial dual step *)
    let trial_lam := (rd (lam d) i + tau * rd (dlam d) i)%T1 in
    (* Skip if no sign change *)
    if (if (rd (lam d) i >? 0)%T1 then (trial_lam >=? 0)%T1 else (trial_lam <=? 0)%T1)
    then s
    else
      (* Location of the sign change *)
      let new_tau := (- rd (lam d) i / rd (dlam d) i)%T1 in
      (* Where to insert the w[i] *)
      let loc := breakpoint_loc tau_list new_tau (n_tau - 1) 0 in
      (* Insert element *)
      let n_tau := S n_tau in
      let (tau_list, ind_list) :=
        breakpoint_insert tau_list ind_list loc n_tau new_tau (Z.of_nat i) in
      (n_tau, tau_list, ind_list).

(** The results are the returned [n_tau] and the two lists. *)
Definition casadi_qp_dual_breakpoints (d : casadi_qp_data) (tau_list : list T1)
  (ind_list : list Z) (e : T1) (tau : T1) : nat * list T1 * list Z :=
  let p := prob d in
  (* Dual feasibility is piecewise linear. Start with one interval [0,tau]: *)
  let tau_list := upd tau_list 0 tau in
  let ind_list := upd ind_list 0 (-1)%Z in (* no associated index *)
  (* Find the taus corresponding to lam crossing zero and insert into list *)
  for_range 0 (nz p) (casadi_qp_dual_breakpoints_step d tau) (1%nat, tau_list, ind_list).

(** The state of the loop over the breakpoints of [casadi_qp_dual_blocking]:
    the record, [du_index], [tau_k], and whether the loop has been left. *)
Record dual_blocking_state : Type := {
  db_d : casadi_qp_data;
  db_du_index : Z;
  db_tau_k : T1;
  db_done : bool
}.

Definition casadi_qp_dual_blocking_step (e : T1) (j : nat)
  (s : dual_blocking_state) : dual_blocking_state :=
  if db_done s then s
  else
    let d := db_d s in
    let p := prob d in
    let tau_k := db_tau_k s in
    (* Distance to the next tau (may be zero) *)
    let dtau := (rd (w d) j - tau_k)%T1 in
    (* Check if maximum dual infeasibilty gets exceeded *)
    let '(d, du_index) :=
      for_range 0 (nx p) (fun k (s : casadi_qp_data * Z) =>
        let (d, du_index) := s in
        let new_infeas := (rd (infeas d) k + dtau * rd (tinfeas d) k)%T1 in
        if (fabs new_infeas >? e)%T1 then
          let tau1 :=
            fmax 0%T1
              (tau_k + ((if (new_infeas >? 0)%T1 then e else (- e)%T1) - rd (infeas d) k)
                       / rd (tinfeas d) k)%T1 in
          if (tau1 <? tau d)%T1 then
            (* Smallest tau found so far *)
            (set_tau tau1 d, Z.of_nat k)
          else s
        else s) (d, db_du_index s) in
    (* Update infeasibility *)
    let d :=
      set_infeas (casadi_axpy (nx p) (fmin (tau d - tau_k) dtau) (tinfeas d) (infeas d)) d in
    (* Stop here if dual blocking constraint *)
    if (du_index >=? 0)%Z then
      {| db_d := d; db_du_index := du_index; db_tau_k := tau_k; db_done := true |}
    else
      (* Continue to the next tau *)
      let tau_k := rd (w d) j in
      (* Get component, break if last *)
      let i := rdi (iw d) j in
      if (i <? 0)%Z then
        {| db_d := d; db_du_index := du_index; db_tau_k := tau_k; db_done := true |}
      else
        let i := Z.to_nat i in
        (* Update sign or tinfeas *)
        let d :=
          if negb (rdb (neverzero d) i) then
            (* lam becomes zero, update the infeasibility tangent *)
            if (i <? nx p)%nat then
              (* Set a lam_x to zero *)
              set_tinfeas (upd (tinfeas d) i (rd (tinfeas d) i - rd (dlam d) i)%T1) d
            else
              (* Set a lam_a to zero *)
              for_range (sp_colind (sp_at p) (i - nx p)) (sp_colind (sp_at p) (i - nx p + 1))
                (fun k d =>
                   let r := sp_row (sp_at p) (na p) k in
                   set_tinfeas
                     (upd (tinfeas d) r (rd (tinfeas d) r - rd (nz_at d) k * rd (dlam d) i)%T1)
                     d) d
          else d in
        {| db_d := d; db_du_index := du_index; db_tau_k := tau_k; db_done := false |}.

(** The results are the returned index and the record. *)
Definition casadi_qp_dual_blocking (d : casadi_qp_data) (e : T1)
  : Z * casadi_qp_data :=
  (* Dual feasibility is piecewise linear in tau. Get the intervals: *)
  let '(n_tau, w_, iw_) := casadi_qp_dual_breakpoints d (w d) (iw d) e (tau d) in
  let d := set_iw iw_ (set_w w_ d) in
  (* No dual blocking yet; how long step can we take without exceeding e? *)
  let s :=
    for_range 0 n_tau (casadi_qp_dual_blocking_step e)
      {| db_d := d; db_du_index := (-1)%Z; db_tau_k := 0%T1; db_done := false |} in
  (db_du_index s, db_d s).

Definition casadi_qp_take_step (d : casadi_qp_data) : casadi_qp_data :=
  let p := prob d in
  (* Get current sign *)
  let d :=
    for_range 0 (nz p) (fun i d =>
      set_iw (upd (iw d) i
                (if (rd (lam d) i >? 0)%T1 then 1%Z
                 else if (rd (lam d) i <? 0)%T1 then (-1)%Z else 0%Z)) d) d in
  (* Take primal-dual step *)
  let d := set_z (casadi_axpy (nz p) (tau d) (dz d) (z d)) d in
  let d := set_lam (casadi_axpy (nz p) (tau d) (dlam d) (lam d)) d in
  (* Update sign *)
  for_range 0 (nz p) (fun i d =>
    (* Allow sign changes for certain components *)
    let d :=
      if rdb (neverzero d) i
         && (if (rdi (iw d) i <? 0)%Z then (rd (lam d) i >? 0)%T1
             else (rd (lam d) i <? 0)%T1)
      then set_iw (upd (iw d) i (- rdi (iw d) i)%Z) d
      else d in
    (* Ensure correct sign *)
    if (rdi (iw d) i =? -1)%Z then
      set_lam (upd (lam d) i (fmin (rd (lam d) i) (- dmin p)%T1)) d
    else if (rdi (iw d) i =? 1)%Z then
      set_lam (upd (lam d) i (fmax (rd (lam d) i) (dmin p))) d
    else if (rdi (iw d) i =? 0)%Z then
      set_lam (upd (lam d) i 0%T1) d
    else d) d.

(** ** Dependent quantities *)

Definition casadi_qp_calc_dependent (d : casadi_qp_data) : casadi_qp_data :=
  let p := prob d in
  (* Calculate f *)
  let d :=
    set_f (casadi_bilin (nz_h d) (sp_h p) (z d) (z d) / Fin 2
           + casadi_dot (nx p) (z d) (g d))%T1 d in
  (* Calculate z[nx:] *)
  let d := set_z (store (z d) (nx p) (casadi_fill (view (z d) (nx p)) (na p) 0%T1)) d in
  let d :=
    set_z (store (z d) (nx p)
             (casadi_mv (nz_a d) (sp_a p) (z d) (view (z d) (nx p)) false)) d in
  (* Calculate gradient of the Lagrangian *)
  let d := set_infeas (casadi_copy (g d) (nx p) (infeas d)) d in
  let d := set_infeas (casadi_mv (nz_h d) (sp_h p) (z d) (infeas d) false) d in
  let d :=
    set_infeas (casadi_mv (nz_a d) (sp_a p) (view (lam d) (nx p)) (infeas d) true) d in
  (* Calculate lam[:nx] without changing the sign, dual infeasibility *)
  let d :=
    for_range 0 (nx p) (fun i d =>
      let d :=
        if (rd (lam d) i >? 0)%T1 then
          set_lam (upd (lam d) i (fmax (- rd (infeas d) i)%T1 (dmin p))) d
        else if (rd (lam d) i <? 0)%T1 then
          set_lam (upd (lam d) i (fmin (- rd (infeas d) i)%T1 (- dmin p)%T1)) d
        else d in
      set_infeas (upd (infeas d) i (rd (infeas d) i + rd (lam d) i)%T1) d) d in
  (* Calculate primal and dual error *)
  let d := casadi_qp_pr d in
  casadi_qp_du d.

(** The results are [*index], [*sign] and the record. *)
Definition casadi_qp_linesearch (d : casadi_qp_data) : Z * Z * casadi_qp_data :=
  let p := prob d in
  (* Start with a full step and no active set change *)
  let sign := 0%Z in
  let index := (-1)%Z in
  let d := set_tau 1%T1 d in
  (* Find largest possible step without exceeding acceptable |pr| *)
  let '(index, sign, d) :=
    casadi_qp_primal_blocking d (fmax (pr d) (du d / du_to_pr p)%T1) index sign in
  (* Find largest possible step without exceeding acceptable |du| *)
  let (du_index, d) := casadi_qp_dual_blocking d (fmax (pr d * du_to_pr p)%T1 (du d)) in
  let (index, sign) := if (du_index >=? 0)%Z then ((-1)%Z, 0%Z) else (index, sign) in
  (* Take primal-dual step, avoiding accidental sign changes for lam *)
  (index, sign, casadi_qp_take_step d).

(** ** Flipping a constraint *)

Section Flip.

(** The sparse QR solve [casadi_qr_solve(x, nrhs, tr, sp_v, v, sp_r, r, beta,
    prinv, pc, w)] belongs to the QR engine, whose source is a separate
    runtime file: it is a parameter here, which maps the right-hand side [x]
    and the work vector [w] to the solution and the work vector it leaves.
    So is the square root of the scalar type. *)
Variable casadi_qr_solve :
  list T1 -> nat -> bool -> sparsity -> list T1 -> sparsity -> list T1 ->
  list T1 -> list nat -> list nat -> list T1 -> list T1 * list T1.
Variable sqrt : T1 -> T1.

(** [casadi_qr_solve] on the factorization stored in the record, for the
    vector [x] and the work vector [d->w]. *)
Definition qr_solve_with (d : casadi_qp_data) (x : list T1) (tr : bool)
  : list T1 * list T1 :=
  let p := prob d in
  casadi_qr_solve x 1%nat tr (sp_v p) (nz_v d) (sp_r p) (nz_r d) (beta d)
    (prinv p) (pc p) (w d).

(** The state of the search for a companion constraint: [*r_index],
    [*r_lam] and [best_duerr]. *)
Definition casadi_qp_flip_check_step (d : casadi_qp_data) (index : Z) (i : nat)
  (s : Z * T1 * T1) : Z * T1 * T1 :=
  let p := prob d in
  let '(r_index, r_lam, best_duerr) := s in
  (* Can't be the same *)
  if (Z.of_nat i =? index)%Z then s
  (* Make sure constraint is flippable *)
  else if (if (rd (lam d) i =? 0)%T1 then rdb (neverlower d) i && rdb (neverupper d) i
           else rdb (neverzero d) i) then s
  (* If dz[i]==0, column i is redundant *)
  else if (fabs (rd (dz d) i) <? eps12)%T1 then s
  (* If dot(dlam, kkt_diff(i))==0, rank won't increase *)
  else if (fabs (casadi_qp_kkt_dot2 d (dlam d) i) <? eps12)%T1 then s
  (* Get new sign *)
  else if (rd (lam d) i =? 0)%T1 then
    (* new_lam = lbz[i]-z[i] >= z[i]-ubz[i] ? -dmin : dmin; continue; *)
    s
  else
    let new_lam := 0%T1 in
    (* New dual error (for affected subset) *)
    let new_duerr := casadi_qp_du_check d i in
    if negb (Z.of_nat i =? 12)%Z
       && (fabs (casadi_qp_kkt_dot d (w d) i (if (rd (lam d) i =? 0)%T1 then 1%Z else 0%Z))
             <? eps12)%T1
    then s
    (* Best so far? *)
    else if (new_duerr <? best_duerr)%T1 then (Z.of_nat i, new_lam, new_duerr)
    else s.

(** The results are the returned flag, [*r_index], [*r_lam] and the record.
    The source also prints one line per candidate on the standard output,
    which is not part of the record. *)
Definition casadi_qp_flip_check (d : casadi_qp_data) (index : Z) (sign : Z)
  (r_index : Z) (r_lam : T1) (e : T1) : Z * Z * T1 * casadi_qp_data :=
  let p := prob d in
  let index_ := Z.to_nat index in
  (* Try to find a linear combination of the new columns *)
  let d := set_dz (casadi_qp_kkt_vector d (dz d) index_) d in
  let (x, w_) := qr_solve_with d (dz d) false in
  let d := set_w w_ (set_dz x d) in
  (* If |dz|==0, columns are linearly independent *)
  let r := sqrt (casadi_dot (nz p) (dlam d) (dlam d)) in
  if (r <? eps12)%T1 then (0%Z, r_index, r_lam, d)
  else
    (* Normalize dz *)
    let d := set_dz (casadi_scal (nz p) (1 / r)%T1 (dz d)) d in
    (* Find a linear combination of the new rows *)
    let d := set_dlam (casadi_qp_kkt_vector d (dlam d) index_) d in
    let (x, w_) := qr_solve_with d (dlam d) true in
    let d := set_w w_ (set_dlam x d) in
    (* If |dlam|==0, rows are linearly independent (due to bad scaling?) *)
    let r := sqrt (casadi_dot (nz p) (dlam d) (dlam d)) in
    if (r <? eps12)%T1 then (0%Z, r_index, r_lam, d)
    else
      (* Normalize dlam *)
      let d := set_dlam (casadi_scal (nz p) (1 / r)%T1 (dlam d)) d in
      (* New column that we're trying to add *)
      let d := set_dz (casadi_qp_kkt_column d (dz d) index_ sign) d in
      (* Express it using the other columns *)
      let (x, w_) := qr_solve_with d (dz d) false in
      let d := set_w w_ (set_dz x d) in
      (* Quick return if columns are linearly independent *)
      if (fabs (rd (dz d) index_) >=? eps12)%T1 then (0%Z, r_index, r_lam, d)
      else
        (* Column that we're removing *)
        let d :=
          set_w (casadi_qp_kkt_column d (w d) index_ (if (sign =? 0)%Z then 1%Z else 0%Z)) d in
        let d :=
          set_w (casadi_scal (nz p) (1 / sqrt (casadi_dot (nz p) (w d) (w d)))%T1 (w d)) d in
        (* Find best constraint we can flip, if any *)
        let '(r_index, r_lam, _) :=
          for_range 0 (nz p) (casadi_qp_flip_check_step d index) ((-1)%Z, 0%T1, PInf) in
        (* Enforcing will lead to (hopefully recoverable) singularity *)
        (1%Z, r_index, r_lam, d).

(** The results are [*index], [*sign] and the record. *)
Definition casadi_qp_flip (d : casadi_qp_data) (index sign : Z) (r_index r_sign : Z)
  : Z * Z * casadi_qp_data :=
  let p := prob d in
  (* acceptable dual error *)
  let e := fmax (du_to_pr p * pr d)%T1 (du d) in
  (* Try to restore regularity if possible *)
  let '(index, sign, d) :=
    if (r_index >=? 0)%Z
       && (negb (r_sign =? 0)%Z
           || (casadi_qp_du_check d (Z.to_nat r_index) <=? e)%T1)
    then (r_index, r_sign,
          casadi_qp_log d "%lld->%lld for regularity" [ArgInt r_index; ArgInt r_sign])
    else (index, sign, d) in
  (* Improve primal or dual feasibility *)
  let '(index, sign, d) :=
    if (index =? -1)%Z && (tau d >? eps16)%T1
       && ((ipr d >=? 0)%Z || (idu d >=? 0)%Z)
    then
      if (du_to_pr p * pr d >=? du d)%T1 then
        (* Try to improve primal feasibility *)
        casadi_qp_pr_index d sign
      else
        (* Try to improve dual feasibility *)
        casadi_qp_du_index d sign
    else (index, sign, d) in
  (* If a constraint was added *)
  if (index >=? 0)%Z then
    (* Try to maintain non-singularity if possible *)
    let '(ret, r_index, r_lam, d) :=
      if (sing d =? 0)%Z then casadi_qp_flip_check d index sign r_index 0%T1 e
      else (0%Z, r_index, 0%T1, d) in
    let commit (d : casadi_qp_data) :=
      let d :=
        set_lam (updz (lam d) index
                   (if (sign =? 0)%Z then 0%T1
                    else if (sign >? 0)%Z then dmin p else (- dmin p)%T1)) d in
      (* Recalculate primal and dual infeasibility *)
      let d := casadi_qp_calc_dependent d in
      (* Reset index *)
      ((-2)%Z, sign, d) in
    if negb (ret =? 0)%Z then
      if (r_index >=? 0)%Z then
        (* Also flip r_index to avoid singularity *)
        let d := set_lam (updz (lam d) r_index r_lam) d in
        let d :=
          casadi_qp_log d "%lld->%lld, %lld->%g"
            [ArgInt index; ArgInt sign; ArgInt r_index; ArgReal r_lam] in
        commit d
      else if negb (sign =? 0)%Z then
        (* Do not allow singularity created from adding a constraint, abort *)
        let d :=
          casadi_qp_log d "Cannot enforce %s[%lld]"
            [ArgStr (if (sign >? 0)%Z then "ubz" else "lbz"); ArgInt index] in
        ((-1)%Z, sign, d)
      else commit d
    else commit d
  else (index, sign, d).

End Flip.

(** ** Well-formed working records

    The sizes that [casadi_qp_init] gives the arrays of the record. *)
Definition wf_sizes (d : casadi_qp_data) : Prop :=
  let p := prob d in
  nz p = (nx p + na p)%nat
  /\ length (z d) = nz p /\ length (lbz d) = nz p /\ length (ubz d) = nz p
  /\ length (lam d) = nz p /\ length (dz d) = nz p /\ length (dlam d) = nz p
  /\ length (infeas d) = nx p /\ length (tinfeas d) = nx p
  /\ length (neverzero d) = nz p /\ length (neverupper d) = nz p
  /\ length (neverlower d) = nz p
  /\ (2 * nz p <= length (w d))%nat /\ (nz p <= length (iw d))%nat.

(** Both bounds of row [i] are the same infinity. *)
Definition bounds_equal_infinite (d : casadi_qp_data) (i : nat) : Prop :=
  (rd (lbz d) i = PInf /\ rd (ubz d) i = PInf)
  \/ (rd (lbz d) i = NInf /\ rd (ubz d) i = NInf).

(** The row indices of column [i - nx] of the pattern of [A'] are rows of
    [x]. *)
Definition at_column_in_range (d : casadi_qp_data) (i : nat) : Prop :=
  let p := prob d in
  forall k, (sp_colind (sp_at p) (i - nx p) <= k < sp_colind (sp_at p) (i - nx p + 1))%nat ->
            (sp_row (sp_at p) (na p) k < nx p)%nat.

(** The property of [casadi_qp_kkt_vector] with the difference taken as
    the active column minus the inactive column. *)
Definition kkt_vector_active_minus_inactive (d : casadi_qp_data) (i : nat) (s : Z)
  : Prop :=
  let buf := zeros (nz (prob d)) in
  forall k, (k < nz (prob d))%nat ->
    T1eq (rd (casadi_qp_kkt_vector d buf i) k)
         (rd (casadi_qp_kkt_column d buf i s) k - rd (casadi_qp_kkt_column d buf i 0%Z) k).

(** ** Primal blocking *)

(** Component [i] is at or past a bound by [e] and the direction pushes it
    further: the two tests of [casadi_qp_zero_blocking]. *)
Definition blocked_at_zero_lower (d : casadi_qp_data) (e : T1) (i : nat) : bool :=
  (- rd (dz d) i >? 0)%T1 && (rd (z d) i <=? rd (lbz d) i - e)%T1.
Definition blocked_at_zero_upper (d : casadi_qp_data) (e : T1) (i : nat) : bool :=
  (rd (dz d) i >? 0)%T1 && (rd (z d) i >=? rd (ubz d) i + e)%T1.

(** Component [i] is past a bound by more than [e] and pushed further. *)
Definition pushed_past (d : casadi_qp_data) (e : T1) (i : nat) : bool :=
  ((rd (dz d) i <? 0)%T1 && (rd (z d) i <? rd (lbz d) i - e)%T1)
  || ((rd (dz d) i >? 0)%T1 && (rd (z d) i >? rd (ubz d) i + e)%T1).

(** The bound violation of component [i]. *)
Definition violation (d : casadi_qp_data) (i : nat) : T1 :=
  fmax (fmax (rd (lbz d) i - rd (z d) i) (rd (z d) i - rd (ubz d) i))%T1 0%T1.

(** The property of [casadi_qp_primal_blocking] with the blocking constraint
    read as the most violating pushed component. *)
Definition primal_blocking_reports_most_violating (d : casadi_qp_data) (e : T1)
  (index sign : Z) : Prop :=
  (exists i, (i < nz (prob d))%nat /\ pushed_past d e i = true) ->
  let '(index', _, d') := casadi_qp_primal_blocking d e index sign in
  tau d' = 0%T1
  /\ exists i, (i < nz (prob d))%nat /\ index' = Z.of_nat i
               /\ pushed_past d e i = true
               /\ forall j, (j < nz (prob d))%nat -> pushed_past d e j = true ->
                            (violation d j <=? violation d i)%T1 = true.

(** With the step [t], component [i] stays within [e] of its bounds. *)
Definition within_budget (d : casadi_qp_data) (e t : T1) (i : nat) : Prop :=
  (rd (lbz d) i - e <=? rd (z d) i + t * rd (dz d) i)%T1 = true
  /\ (rd (z d) i + t * rd (dz d) i <=? rd (ubz d) i + e)%T1 = true.

(** The property of [casadi_qp_primal_blocking] for every state without
    zero blocking. *)
Definition primal_blocking_within_budget (d : casadi_qp_data) (e : T1)
  (index sign : Z) : Prop :=
  (0 <=? e)%T1 = true ->
  fst (fst (fst (casadi_qp_zero_blocking d e index sign))) = 0%Z ->
  forall i, (i < nz (prob d))%nat ->
    within_budget d e (tau (snd (casadi_qp_primal_blocking d e index sign))) i.

(** ** Candidates of the dual pivot

    Row [i] passes the three tests of the search loop of
    [casadi_qp_du_index], for the sensitivities held in [d->w]: it influences
    the dual error, removing it decreases the dual error, and
    [casadi_qp_du_check] does not exceed the current dual error. *)
Definition du_candidate (d : casadi_qp_data) (i : nat) : bool :=
  negb (rd (w d) i =? 0)%T1
  && negb (if (rd (w d) i >? 0)%T1 then (rd (lam d) i >=? 0)%T1
           else (rd (lam d) i <=? 0)%T1)
  && negb (casadi_qp_du_check d i >? du d)%T1.

(** ** The dependent quantities as functions of the iterate

    The scans of [casadi_qp_pr] and [casadi_qp_du] on the pair of the error
    and its index, and the update of the multipliers of the variables with
    the dual infeasibility, on the two arrays. *)
Definition pr_scan (zv lb ub : list T1) (n : nat) : T1 * Z :=
  for_range 0 n (fun i (s : T1 * Z) =>
    if (rd zv i >? rd ub i + fst s)%T1 then ((rd zv i - rd ub i)%T1, Z.of_nat i)
    else if (rd zv i <? rd lb i - fst s)%T1 then ((rd lb i - rd zv i)%T1, Z.of_nat i)
    else s) (0%T1, (-1)%Z).

Definition du_scan (inf_ : list T1) (n : nat) : T1 * Z :=
  for_range 0 n (fun i (s : T1 * Z) =>
    if (rd inf_ i >? fst s)%T1 then (rd inf_ i, Z.of_nat i)
    else if (rd inf_ i <? - fst s)%T1 then ((- rd inf_ i)%T1, Z.of_nat i)
    else s) (0%T1, (-1)%Z).

Definition multiplier_update (dm l g_ : T1) : T1 :=
  if (l >? 0)%T1 then fmax (- g_)%T1 dm
  else if (l <? 0)%T1 then fmin (- g_)%T1 (- dm)%T1
  else l.

Definition lam_infeas_update (dm : T1) (n : nat) (s : list T1 * list T1)
  : list T1 * list T1 :=
  for_range 0 n (fun i (s : list T1 * list T1) =>
    let (l, inf_) := s in
    let l' :=
      if (rd l i >? 0)%T1 then upd l i (fmax (- rd inf_ i)%T1 dm)
      else if (rd l i <? 0)%T1 then upd l i (fmin (- rd inf_ i)%T1 (- dm)%T1)
      else l in
    (l', upd inf_ i (rd inf_ i + rd l' i)%T1)) s.

(** The objective, [z] with [z[nx:] = A*x], and the gradient of the
    Lagrangian without the multipliers of the variables. *)
Definition calc_f (d : casadi_qp_data) : T1 :=
  (casadi_bilin (nz_h d) (sp_h (prob d)) (z d) (z d) / Fin 2
   + casadi_dot (nx (prob d)) (z d) (g d))%T1.

Definition calc_z (d : casadi_qp_data) : list T1 :=
  let p := prob d in
  let z0 := store (z d) (nx p) (casadi_fill (view (z d) (nx p)) (na p) 0%T1) in
  store z0 (nx p) (casadi_mv (nz_a d) (sp_a p) z0 (view z0 (nx p)) false).

Definition calc_grad (d : casadi_qp_data) : list T1 :=
  let p := prob d in
  casadi_mv (nz_a d) (sp_a p) (view (lam d) (nx p))
    (casadi_mv (nz_h d) (sp_h p) (calc_z d) (casadi_copy (g d) (nx p) (infeas d)) false)
    true.

(** The columns of [H] are columns of [x] and their row indices are rows of
    [x]. *)
Definition h_pattern_in_range (p : casadi_qp_prob) : Prop :=
  (sp_ncol (sp_h p) <= nx p)%nat
  /\ forall cc k, (cc < sp_ncol (sp_h p))%nat ->
       (sp_colind (sp_h p) cc <= k < sp_colind (sp_h p) (cc + 1))%nat ->
       (sp_row (sp_h p) (sp_ncol (sp_h p)) k < nx p)%nat.

(** ** Breakpoints of the dual step *)

(** Row [i] passes the three tests of the loop of
    [casadi_qp_dual_breakpoints]: a nonzero step of a nonzero multiplier that
    changes sign over the step [tau]. *)
Definition breakpoint_row (d : casadi_qp_data) (tau_ : T1) (i : nat) : bool :=
  negb (rd (dlam d) i =? 0)%T1
  && negb (rd (lam d) i =? 0)%T1
  && negb (if (rd (lam d) i >? 0)%T1
           then (rd (lam d) i + tau_ * rd (dlam d) i >=? 0)%T1
           else (rd (lam d) i + tau_ * rd (dlam d) i <=? 0)%T1).

(** The breakpoint of row [i] with its index. *)
Definition breakpoint_of (d : casadi_qp_data) (i : nat) : T1 * Z :=
  ((- rd (lam d) i / rd (dlam d) i)%T1, Z.of_nat i).

Definition insert_at {A : Type} (loc : nat) (x : A) (l : list A) : list A :=
  firstn loc l ++ x :: skipn loc l.

(** The property of [casadi_qp_dual_breakpoints] for every incoming step:
    the list ends with the incoming step without index and is ascending. *)
Definition dual_breakpoints_ascending (d : casadi_qp_data) (tau_list : list T1)
  (ind_list : list Z) (e tau_ : T1) : Prop :=
  let '(n_tau, tl, il) := casadi_qp_dual_breakpoints d tau_list ind_list e tau_ in
  rd tl (n_tau - 1) = tau_ /\ rdi il (n_tau - 1) = (-1)%Z
  /\ forall j, (j + 1 < n_tau)%nat -> (rd tl j <=? rd tl (j + 1))%T1 = true.

(** ** Concrete problems

    [qp_alloc] lays out a working record for a descriptor as
    [casadi_qp_init] does, with every work array of its declared size and
    cleared. *)

Definition qp_alloc (p : casadi_qp_prob) (nz_a_ nz_h_ g_ : list T1)
  (z_ lbz_ ubz_ lam_ : list T1) : casadi_qp_data :=
  {| prob := p; f := 0%T1; nz_a := nz_a_; nz_h := nz_h_; g := g_;
     z := z_; lbz := lbz_; ubz := ubz_;
     infeas := zeros (nx p); tinfeas := zeros (nx p); lam := lam_;
     w := zeros (2 * nz p); dz := zeros (nz p); dlam := zeros (nz p);
     iw := repeat 0%Z (nz p);
     neverzero := repeat false (nz p); neverlower := repeat false (nz p);
     neverupper := repeat false (nz p);
     nz_at := zeros (length nz_a_);
     nz_kkt := zeros (sp_colind (sp_kkt p) (nz p)); beta := zeros (nz p);
     nz_v := zeros (sp_colind (sp_v p) (sp_ncol (sp_v p)));
     nz_r := zeros (sp_colind (sp_r p) (sp_ncol (sp_r p)));
     msg := Msg EmptyString []; tau := 0%T1; sing := 0%Z;
     mina := 0%T1; imina := 0%Z; pr := 0%T1; du := 0%T1;
     ipr := (-1)%Z; idu := (-1)%Z |}.

(** A problem in one variable without linear constraints: [H = (h)],
    no [A]; the KKT matrix and its factors are 1-by-1. *)
Definition prob_1x0 : casadi_qp_prob :=
  {| nx := 1; na := 0; nz := 1;
     dmin := Fin (1 # 1000000); inf := PInf; du_to_pr := Fin 1000;
     print_iter := 0%Z;
     sp_a := [0; 1; 0; 0]%nat; sp_h := [1; 1; 0; 1; 0]%nat;
     sp_at := [1; 0; 0]%nat; sp_kkt := [1; 1; 0; 1; 0]%nat;
     prinv := [0%nat]; pc := [0%nat];
     sp_v := [1; 1; 0; 1; 0]%nat; sp_r := [1; 1; 0; 1; 0]%nat |}.

(** Both bounds of the only row are [+inf]. *)
Definition qp_both_bounds_pinf : casadi_qp_data :=
  qp_alloc prob_1x0 [] [Fin 2] [0%T1] [0%T1] [PInf] [PInf] [0%T1].

(** The property of [casadi_qp_reset] with the three classifications read
    as "[lbz[i] = ubz[i]]", "[ubz[i] = +inf]" and "[lbz[i] = -inf]". *)
Definition reset_fails_iff_equal_pinf_ninf (d : casadi_qp_data) : Prop :=
  fst (casadi_qp_reset d) <> 0%Z <->
  exists i, (i < nz (prob d))%nat
            /\ (rd (lbz d) i =? rd (ubz d) i)%T1 = true
            /\ rd (ubz d) i = PInf /\ rd (lbz d) i = NInf.

(** One variable with [H = (2)], unbounded, at the origin. *)
Definition qp_h2 : casadi_qp_data :=
  qp_alloc prob_1x0 [] [Fin 2] [0%T1] [0%T1] [NInf] [PInf] [0%T1].

(** Two variables without linear constraints, [H] the identity. *)
Definition prob_2x0 : casadi_qp_prob :=
  {| nx := 2; na := 0; nz := 2;
     dmin := Fin (1 # 1000000); inf := PInf; du_to_pr := Fin 1000;
     print_iter := 0%Z;
     sp_a := [0; 2; 0; 0; 0]%nat; sp_h := [2; 2; 0; 1; 2; 0; 1]%nat;
     sp_at := [2; 0; 0]%nat; sp_kkt := [2; 2; 0; 1; 2; 0; 1]%nat;
     prinv := [0; 1]%nat; pc := [0; 1]%nat;
     sp_v := [2; 2; 0; 1; 2; 0; 1]%nat; sp_r := [2; 2; 0; 1; 2; 0; 1]%nat |}.

(** Both components are below their lower bound 0, by 5 and by 1, and the
    direction moves both further down. *)
Definition qp_two_violated : casadi_qp_data :=
  set_tau 1%T1
    (set_dz [Fin (-1); Fin (-1)]
       (qp_alloc prob_2x0 [] [1%T1; 1%T1] [0%T1; 0%T1]
          [Fin (-5); Fin (-1)] [0%T1; 0%T1] [PInf; PInf] [0%T1; 0%T1])).

(** The only component is 5 above its upper bound 0 and the direction
    moves it back by 1. *)
Definition qp_far_above : casadi_qp_data :=
  set_tau 1%T1
    (set_dz [Fin (-1)]
       (qp_alloc prob_1x0 [] [Fin 2] [0%T1] [Fin 5] [NInf] [0%T1] [0%T1])).

(** The only component is at 0 between the bounds -1 and 2 and the
    direction moves it up by 4. *)
Definition qp_step_up : casadi_qp_data :=
  set_tau 1%T1
    (set_dz [Fin 4]
       (qp_alloc prob_1x0 [] [Fin 2] [0%T1] [0%T1] [Fin (-1)] [Fin 2] [0%T1])).

(** Two variables and two linear constraints, [H] the identity and
    [A = (1 0; 2 1)]. *)
Definition prob_2x2 : casadi_qp_prob :=
  {| nx := 2; na := 2; nz := 4;
     dmin := Fin (1 # 1000000); inf := PInf; du_to_pr := Fin 1000;
     print_iter := 0%Z;
     sp_a := [2; 2; 0; 2; 3; 0; 1; 1]%nat;
     sp_h := [2; 2; 0; 1; 2; 0; 1]%nat;
     sp_at := [2; 2; 0; 1; 3; 0; 0; 1]%nat;
     sp_kkt := [4; 4; 0; 3; 5; 7; 10; 0; 2; 3; 1; 3; 0; 2; 0; 1; 3]%nat;
     prinv := [0; 1; 2; 3]%nat; pc := [0; 1; 2; 3]%nat;
     sp_v := [4; 4; 0; 4; 7; 9; 10; 0; 1; 2; 3; 1; 2; 3; 2; 3; 3]%nat;
     sp_r := [4; 4; 0; 1; 3; 6; 10; 0; 0; 1; 0; 1; 2; 0; 1; 2; 3]%nat |}.

(** At the origin with both linear constraints active at their upper bound
    0, multipliers 3 and 1, and [g = (-1, -1)]: after the reset and the
    update of the dependent quantities the dual error is 4, at variable 0. *)
Definition qp_dual_pivot : casadi_qp_data :=
  casadi_qp_calc_dependent
    (snd (casadi_qp_reset
            (qp_alloc prob_2x2 [1%T1; Fin 2; 1%T1] [1%T1; 1%T1] [Fin (-1); Fin (-1)]
               [0%T1; 0%T1; 0%T1; 0%T1] [NInf; NInf; NInf; NInf]
               [PInf; PInf; 0%T1; 0%T1] [0%T1; 0%T1; Fin 3; 1%T1]))).

(** The problem of [qp_dual_pivot] at the point [x = (1, 2)] with stale
    dependent quantities. *)
Definition qp_stale : casadi_qp_data :=
  qp_alloc prob_2x2 [1%T1; Fin 2; 1%T1] [1%T1; 1%T1] [Fin (-1); Fin (-1)]
    [1%T1; Fin 2; Fin 7; Fin 7] [NInf; 0%T1; NInf; NInf]
    [PInf; 1%T1; 0%T1; 0%T1] [0%T1; Fin 5; Fin 3; 1%T1].

(** A multiplier 1 with the dual direction -2 on the problem in one
    variable. *)
Definition qp_one_breakpoint : casadi_qp_data :=
  set_dlam [Fin (-2)]
    (qp_alloc prob_1x0 [] [Fin 2] [0%T1] [0%T1] [0%T1] [1%T1] [1%T1]).

(** The multipliers [(0, 0, 3, 1)] of [qp_dual_pivot] with the dual
    direction [(0, 0, -4, -4)]. *)
Definition qp_two_breakpoints : casadi_qp_data :=
  set_dlam [0%T1; 0%T1; Fin (-4); Fin (-4)] qp_dual_pivot.

(** *** An instance of the QR solve and of the square root

    The rational square root, exact on the squares of rationals. *)
Definition Qsqrt (q : Q) : Q :=
  let r := Qred q in Z.sqrt (Qnum r) # Pos.sqrt (Qden r).

Definition T1sqrt (x : T1) : T1 :=
  match x with
  | Fin q => if Qle_bool 0 q then Fin (Qsqrt q) else NaN
  | PInf => PInf
  | NInf | NaN => NaN
  end.

(** The solve of a system whose inverse and inverse transpose are given as
    dense matrices (lists of rows); the work vector is left as it is. *)
Definition solve_with_inverse (Minv MinvT : list (list T1)) (x : list T1)
  (nrhs : nat) (tr : bool) (sp_v_ : sparsity) (v : list T1) (sp_r_ : sparsity)
  (r beta_ : list T1) (prinv_ pc_ : list nat) (w_ : list T1) : list T1 * list T1 :=
  (map (fun row => casadi_dot (length x) row x) (if tr then MinvT else Minv), w_).

(** A sparsity pattern from the row indices of its columns. *)
Definition sp_of_columns (nrow : nat) (cols : list (list nat)) : sparsity :=
  [nrow; length cols]
  ++ fold_left (fun acc c => acc ++ [(last acc 0 + length c)%nat]) cols [0%nat]
  ++ concat cols.

(** A vector with some entries replaced, and the vector of length [n] with
    the given nonzero entries. *)
Definition with_entries (v : list T1) (entries : list (nat * T1)) : list T1 :=
  fold_left (fun v e => upd v (fst e) (snd e)) entries v.
Definition vec_of (n : nat) (entries : list (nat * T1)) : list T1 :=
  with_entries (zeros n) entries.

(** The identity matrix of order [n] with some rows replaced. *)
Definition identity_with_rows (n : nat) (rows : list (nat * list (nat * T1)))
  : list (list T1) :=
  fold_left (fun m r => upd m (fst r) (vec_of n (snd r))) rows
    (map (fun i => vec_of n [(i, 1%T1)]) (seq 0 n)).

(** Thirteen variables and one linear constraint that couples the
    variables 0 and [k], for [1 <= k <= 12].  [H] is the identity but for
    the block [(2 1; 1 2)] of the variables 0 and [k], and the constraint is
    [2*x0 - 2*xk]. *)
Definition prob_coupled (k : nat) : casadi_qp_prob :=
  let col i := if (i =? 0)%nat || (i =? k)%nat then [0; k]%nat else [i] in
  {| nx := 13; na := 1; nz := 14;
     dmin := Fin (1 # 1000000); inf := PInf; du_to_pr := Fin 1000;
     print_iter := 0%Z;
     sp_a := sp_of_columns 1
               (map (fun i => if (i =? 0)%nat || (i =? k)%nat then [0%nat] else [])
                  (seq 0 13));
     sp_h := sp_of_columns 13 (map col (seq 0 13));
     sp_at := sp_of_columns 13 [[0; k]%nat];
     sp_kkt := sp_of_columns 14
                 (map (fun i => if (i =? 0)%nat || (i =? k)%nat || (i =? 13)%nat
                                then [0; k; 13]%nat else [i]) (seq 0 14));
     prinv := seq 0 14; pc := seq 0 14;
     sp_v := sp_of_columns 14 (map (fun i => seq i (14 - i)) (seq 0 14));
     sp_r := sp_of_columns 14 (map (fun i => seq 0 (S i)) (seq 0 14)) |}.

(** At the origin, with the upper bound of variable [k] and the linear
    constraint active (multipliers 1 and 5) and the upper bound -1 of
    variable 0 violated; [g] makes the point dual feasible.  [dlam] holds
    the direction of the previous line search. *)
Definition qp_coupled (k : nat) : casadi_qp_data :=
  set_dlam (vec_of 14 [(k, 1%T1)])
    (casadi_qp_calc_dependent
       (snd (casadi_qp_reset
               (qp_alloc (prob_coupled k) [Fin 2; Fin (-2)]
                  (concat (map (fun i => if (i =? 0)%nat then [Fin 2; 1%T1]
                                         else if (i =? k)%nat then [1%T1; Fin 2]
                                         else [1%T1]) (seq 0 13)))
                  (vec_of 13 [(0%nat, Fin (-10)); (k, Fin 9)])
                  (zeros 14)
                  (repeat (Fin (-10)) 14)
                  (with_entries (repeat (Fin 10) 14)
                     [(0%nat, Fin (-1)); (k, 0%T1); (13%nat, 0%T1)])
                  (vec_of 14 [(k, 1%T1); (13%nat, Fin 5)]))))).

(** The inverse of the KKT matrix of [qp_coupled k], whose columns 0, [k]
    and 13 are [(2, 1, 2)], [(0, 1, 0)] and [(2, -2, 0)] on the rows 0, [k]
    and 13 and whose other columns are unit vectors, and its transpose. *)
Definition coupled_inverse (k : nat) : list (list T1) :=
  identity_with_rows 14
    [(0%nat, [(13%nat, Fin (1 # 2))]);
     (k, [(0%nat, 1%T1); (k, 1%T1); (13%nat, Fin (-3 # 2))]);
     (13%nat, [(0%nat, Fin (1 # 2)); (13%nat, Fin (-1 # 2))])].

Definition coupled_inverse_t (k : nat) : list (list T1) :=
  identity_with_rows 14
    [(0%nat, [(k, 1%T1); (13%nat, Fin (1 # 2))]);
     (k, [(k, 1%T1)]);
     (13%nat, [(0%nat, Fin (1 # 2)); (k, Fin (-3 # 2)); (13%nat, Fin (-1 # 2))])].

Definition coupled_solve (k : nat) :=
  solve_with_inverse (coupled_inverse k) (coupled_inverse_t k).

(** One variable with the equality bound [lbz = ubz = 1], at that bound,
    with [H = (2)] and [g = -3]; the multiplier starts at 0. *)
Definition qp_equality : casadi_qp_data :=
  qp_alloc prob_1x0 [] [Fin 2] [Fin (-3)] [1%T1] [1%T1] [1%T1] [0%T1].

(** The record after the reset, the update of the dependent quantities and
    the line search along the step of the KKT system, which is zero at this
    point (the record is allocated with [dz], [dlam] and [tinfeas] zero). *)
Definition qp_equality_searched : Z * Z * casadi_qp_data :=
  casadi_qp_linesearch (casadi_qp_calc_dependent (snd (casadi_qp_reset qp_equality))).

(** The sign discipline of the multipliers. *)
Definition sign_discipline (d : casadi_qp_data) : Prop :=
  forall i, (i < nz (prob d))%nat ->
    (rdb (neverzero d) i = true -> (rd (lam d) i =? 0)%T1 = false)
    /\ (rdb (neverupper d) i = true -> (rd (lam d) i <=? 0)%T1 = true)
    /\ (rdb (neverlower d) i = true -> (rd (lam d) i >=? 0)%T1 = true).

(** ** Further notions for the properties of the kernel *)

(** The bounds of row [i] are ordered and not the infinities of the wrong
    side, and [z[i]] is a number. *)
Definition row_ordinary (d : casadi_qp_data) (i : nat) : Prop :=
  is_finite (rd (z d) i) = true
  /\ (rd (lbz d) i <=? rd (ubz d) i)%T1 = true
  /\ rd (lbz d) i <> PInf /\ rd (ubz d) i <> NInf.

(** The sign that [casadi_qp_take_step] records for a multiplier, and the
    multiplier of one row after the step: [fz] is the row's [neverzero],
    [l] the multiplier, [t] the step length and [dl] the dual direction. *)
Definition lam_sign (l : T1) : Z :=
  if (l >? 0)%T1 then 1%Z else if (l <? 0)%T1 then (-1)%Z else 0%Z.

Definition take_step_lam (dm : T1) (fz : bool) (l t dl : T1) : T1 :=
  let l1 := (l + t * dl)%T1 in
  let s0 := lam_sign l in
  let s := if fz && (if (s0 <? 0)%Z then (l1 >? 0)%T1 else (l1 <? 0)%T1)
           then (- s0)%Z else s0 in
  if (s =? -1)%Z then fmin l1 (- dm)%T1
  else if (s =? 1)%Z then fmax l1 dm
  else if (s =? 0)%Z then 0%T1
  else l1.

(** No row of the record is classified both as never inactive and as
    unbounded on a side. *)
Definition flags_consistent (d : casadi_qp_data) : Prop :=
  forall i, (i < nz (prob d))%nat -> rdb (neverzero d) i = true ->
    rdb (neverupper d) i = false /\ rdb (neverlower d) i = false.

(** The iterate and its dependent quantities are the same in two records:
    what a caller reads after an iteration that made no change. *)
Definition same_iterate (d d' : casadi_qp_data) : Prop :=
  prob d' = prob d /\ z d' = z d /\ lam d' = lam d /\ infeas d' = infeas d
  /\ f d' = f d /\ pr d' = pr d /\ du d' = du d /\ ipr d' = ipr d /\ idu d' = idu d
  /\ lbz d' = lbz d /\ ubz d' = ubz d /\ tau d' = tau d /\ sing d' = sing d.

(** ** Work vectors: [casadi_qp_work] and [casadi_qp_init]

    [casadi_qp_work] computes the two sizes [(sz_iw, sz_w)]. *)
Definition casadi_qp_work (p : casadi_qp_prob) : nat * nat :=
  (* Get matrix number of nonzeros *)
  let nnz_a := rdn (sp_a p) (2 + rdn (sp_a p) 1) in
  let nnz_kkt := rdn (sp_kkt p) (2 + rdn (sp_kkt p) 1) in
  let nnz_v := rdn (sp_v p) (2 + rdn (sp_v p) 1) in
  let nnz_r := rdn (sp_r p) (2 + rdn (sp_r p) 1) in
  (* Reset sz_w, sz_iw *)
  let sz_iw := 0%nat in
  let sz_w := sz_iw in
  (* Temporary work vectors *)
  let sz_w := Nat.max sz_w (nz p) in (* casadi_project, tau memory *)
  let sz_iw := Nat.max sz_iw (nz p) in (* casadi_trans, tau type, allzero *)
  let sz_w := Nat.max sz_w (2 * nz p) in (* casadi_qr *)
  (* Persistent work vectors *)
  let sz_w := (sz_w + nnz_kkt)%nat in (* kkt *)
  let sz_w := (sz_w + nz p)%nat in (* z=[xk,gk] *)
  let sz_w := (sz_w + nz p)%nat in (* lbz *)
  let sz_w := (sz_w + nz p)%nat in (* ubz *)
  let sz_w := (sz_w + nz p)%nat in (* lam *)
  let sz_w := (sz_w + nnz_a)%nat in (* trans(a) *)
  let sz_w := (sz_w + nz p)%nat in (* dz *)
  let sz_w := (sz_w + nz p)%nat in (* dlam *)
  let sz_w := (sz_w + nx p)%nat in (* infeas *)
  let sz_w := (sz_w + nx p)%nat in (* tinfeas *)
  let sz_iw := (sz_iw + nz p)%nat in (* neverzero *)
  let sz_iw := (sz_iw + nz p)%nat in (* neverupper *)
  let sz_iw := (sz_iw + nz p)%nat in (* neverlower *)
  let sz_w := (sz_w + Nat.max (nnz_v + nnz_r) nnz_kkt)%nat in (* [v,r] or trans(kkt) *)
  let sz_w := (sz_w + nz p)%nat in (* beta *)
  (sz_iw, sz_w).

(** The pointers that [casadi_qp_init] stores in the record, as positions
    in the two work vectors. *)
Record casadi_qp_layout : Type := {
  o_nz_kkt : nat; o_z : nat; o_lbz : nat; o_ubz : nat; o_lam : nat;
  o_dz : nat; o_dlam : nat; o_nz_v : nat; o_nz_r : nat; o_beta : nat;
  o_nz_at : nat; o_infeas : nat; o_tinfeas : nat;
  o_neverzero : nat; o_neverupper : nat; o_neverlower : nat;
  o_w : nat; o_iw : nat
}.

(** [iw] and [w] are the positions that the caller passes. *)
Definition casadi_qp_init (p : casadi_qp_prob) (iw w : nat) : casadi_qp_layout :=
  (* Get matrix number of nonzeros *)
  let nnz_a := rdn (sp_a p) (2 + rdn (sp_a p) 1) in
  let nnz_kkt := rdn (sp_kkt p) (2 + rdn (sp_kkt p) 1) in
  let nnz_v := rdn (sp_v p) (2 + rdn (sp_v p) 1) in
  let nnz_r := rdn (sp_r p) (2 + rdn (sp_r p) 1) in
  let d_nz_kkt := w in let w := (w + nnz_kkt)%nat in
  let d_z := w in let w := (w + nz p)%nat in
  let d_lbz := w in let w := (w + nz p)%nat in
  let d_ubz := w in let w := (w + nz p)%nat in
  let d_lam := w in let w := (w + nz p)%nat in
  let d_dz := w in let w := (w + nz p)%nat in
  let d_dlam := w in let w := (w + nz p)%nat in
  let d_nz_v := w in let w := (w + Nat.max (nnz_v + nnz_r) nnz_kkt)%nat in
  let d_nz_r := (d_nz_v + nnz_v)%nat in
  let d_beta := w in let w := (w + nz p)%nat in
  let d_nz_at := w in let w := (w + nnz_a)%nat in
  let d_infeas := w in let w := (w + nx p)%nat in
  let d_tinfeas := w in let w := (w + nx p)%nat in
  let d_neverzero := iw in let iw := (iw + nz p)%nat in
  let d_neverupper := iw in let iw := (iw + nz p)%nat in
  let d_neverlower := iw in let iw := (iw + nz p)%nat in
  {| o_nz_kkt := d_nz_kkt; o_z := d_z; o_lbz := d_lbz; o_ubz := d_ubz;
     o_lam := d_lam; o_dz := d_dz; o_dlam := d_dlam; o_nz_v := d_nz_v;
     o_nz_r := d_nz_r; o_beta := d_beta; o_nz_at := d_nz_at;
     o_infeas := d_infeas; o_tinfeas := d_tinfeas;
     o_neverzero := d_neverzero; o_neverupper := d_neverupper;
     o_neverlower := d_neverlower; o_w := w; o_iw := iw |}.

(** The arrays of the record with the number of entries that the kernel
    reads and writes in each: in the vector [w], where the factors [v] and
    [r] share one array that also receives the transposed KKT matrix, and
    the temporary [d->w] serves [casadi_qr] with [2*nz] entries; and in the
    vector [iw], where the temporary [d->iw] has [nz] entries. *)
Definition w_regions (p : casadi_qp_prob) (l : casadi_qp_layout) : list (nat * nat) :=
  let nnz sp := sp_colind sp (sp_ncol sp) in
  [(o_nz_kkt l, nnz (sp_kkt p)); (o_z l, nz p); (o_lbz l, nz p); (o_ubz l, nz p);
   (o_lam l, nz p); (o_dz l, nz p); (o_dlam l, nz p);
   (o_nz_v l, Nat.max (nnz (sp_v p) + nnz (sp_r p)) (nnz (sp_kkt p)));
   (o_beta l, nz p); (o_nz_at l, nnz (sp_a p)); (o_infeas l, nx p);
   (o_tinfeas l, nx p); (o_w l, (2 * nz p)%nat)].

Definition iw_regions (p : casadi_qp_prob) (l : casadi_qp_layout) : list (nat * nat) :=
  [(o_neverzero l, nz p); (o_neverupper l, nz p); (o_neverlower l, nz p);
   (o_iw l, nz p)].

(** The regions [(start, size)] lie in [[lo, hi)] and no two overlap. *)
Definition regions_fit (lo hi : nat) (rs : list (nat * nat)) : Prop :=
  Forall (fun r => (lo <= fst r /\ fst r + snd r <= hi)%nat) rs
  /\ ForallOrdPairs
       (fun a b => (fst a + snd a <= fst b \/ fst b + snd b <= fst a)%nat) rs.

(** ** The step computation

    Assignments to the fields of the factorization. *)
Definition set_nz_kkt (v : list T1) (d : casadi_qp_data) : casadi_qp_data :=
  {| prob := prob d; f := f d; nz_a := nz_a d; nz_h := nz_h d; g := g d; z :=
  z d; lbz := lbz d; ubz := ubz d; infeas := infeas d; tinfeas := tinfeas d;
  lam := lam d; w := w d; dz := dz d; dlam := dlam d; iw := iw d; neverzero :=
  neverzero d; neverlower := neverlower d; neverupper := neverupper d; nz_at
  := nz_at d; nz_kkt := v; beta := beta d; nz_v := nz_v d; nz_r := nz_r d; msg
  := msg d; tau := tau d; sing := sing d; mina := mina d; imina := imina d; pr
  := pr d; du := du d; ipr := ipr d; idu := idu d |}.
Definition set_beta (v : list T1) (d : casadi_qp_data) : casadi_qp_data :=
  {| prob := prob d; f := f d; nz_a := nz_a d; nz_h := nz_h d; g := g d; z :=
  z d; lbz := lbz d; ubz := ubz d; infeas := infeas d; tinfeas := tinfeas d;
  lam := lam d; w := w d; dz := dz d; dlam := dlam d; iw := iw d; neverzero :=
  neverzero d; neverlower := neverlower d; neverupper := neverupper d; nz_at
  := nz_at d; nz_kkt := nz_kkt d; beta := v; nz_v := nz_v d; nz_r := nz_r d;
  msg := msg d; tau := tau d; sing := sing d; mina := mina d; imina := imina
  d; pr := pr d; du := du d; ipr := ipr d; idu := idu d |}.
Definition set_nz_v (v : list T1) (d : casadi_qp_data) : casadi_qp_data :=
  {| prob := prob d; f := f d; nz_a := nz_a d; nz_h := nz_h d; g := g d; z :=
  z d; lbz := lbz d; ubz := ubz d; infeas := infeas d; tinfeas := tinfeas d;
  lam := lam d; w := w d; dz := dz d; dlam := dlam d; iw := iw d; neverzero :=
  neverzero d; neverlower := neverlower d; neverupper := neverupper d; nz_at
  := nz_at d; nz_kkt := nz_kkt d; beta := beta d; nz_v := v; nz_r := nz_r d;
  msg := msg d; tau := tau d; sing := sing d; mina := mina d; imina := imina
  d; pr := pr d; du := du d; ipr := ipr d; idu := idu d |}.
Definition set_nz_r (v : list T1) (d : casadi_qp_data) : casadi_qp_data :=
  {| prob := prob d; f := f d; nz_a := nz_a d; nz_h := nz_h d; g := g d; z :=
  z d; lbz := lbz d; ubz := ubz d; infeas := infeas d; tinfeas := tinfeas d;
  lam := lam d; w := w d; dz := dz d; dlam := dlam d; iw := iw d; neverzero :=
  neverzero d; neverlower := neverlower d; neverupper := neverupper d; nz_at
  := nz_at d; nz_kkt := nz_kkt d; beta := beta d; nz_v := nz_v d; nz_r := v;
  msg := msg d; tau := tau d; sing := sing d; mina := mina d; imina := imina
  d; pr := pr d; du := du d; ipr := ipr d; idu := idu d |}.
Definition set_mina (v : T1) (d : casadi_qp_data) : casadi_qp_data :=
  {| prob := prob d; f := f d; nz_a := nz_a d; nz_h := nz_h d; g := g d; z :=
  z d; lbz := lbz d; ubz := ubz d; infeas := infeas d; tinfeas := tinfeas d;
  lam := lam d; w := w d; dz := dz d; dlam := dlam d; iw := iw d; neverzero :=
  neverzero d; neverlower := neverlower d; neverupper := neverupper d; nz_at
  := nz_at d; nz_kkt := nz_kkt d; beta := beta d; nz_v := nz_v d; nz_r := nz_r
  d; msg := msg d; tau := tau d; sing := sing d; mina := v; imina := imina d;
  pr := pr d; du := du d; ipr := ipr d; idu := idu d |}.
Definition set_imina (v : Z) (d : casadi_qp_data) : casadi_qp_data :=
  {| prob := prob d; f := f d; nz_a := nz_a d; nz_h := nz_h d; g := g d; z :=
  z d; lbz := lbz d; ubz := ubz d; infeas := infeas d; tinfeas := tinfeas d;
  lam := lam d; w := w d; dz := dz d; dlam := dlam d; iw := iw d; neverzero :=
  neverzero d; neverlower := neverlower d; neverupper := neverupper d; nz_at
  := nz_at d; nz_kkt := nz_kkt d; beta := beta d; nz_v := nz_v d; nz_r := nz_r
  d; msg := msg d; tau := tau d; sing := sing d; mina := mina d; imina := v;
  pr := pr d; du := du d; ipr := ipr d; idu := idu d |}.

(** [casadi_qp_kkt] assembles the transposed KKT matrix row by row through
    the work vector [d->w]. *)
Definition casadi_qp_kkt (d : casadi_qp_data) : casadi_qp_data :=
  let p := prob d in
  (* Reset w to zero *)
  let d := set_w (casadi_fill (w d) (nz p) 0%T1) d in
  (* Loop over rows of the (transposed) KKT *)
  for_range 0 (nz p) (fun i d =>
    (* Copy row of KKT to w *)
    let d :=
      if (i <? nx p)%nat then
        if (rd (lam d) i =? 0)%T1 then set_w (kkt_copy_ha d (w d) i) d
        else set_w (upd (w d) i 1%T1) d
      else
        if (rd (lam d) i =? 0)%T1 then set_w (upd (w d) i (- (1))%T1) d
        else
          set_w
            (for_range (sp_colind (sp_at p) (i - nx p)) (sp_colind (sp_at p) (i - nx p + 1))
               (fun k w_ => upd w_ (sp_row (sp_at p) (na p) k) (rd (nz_at d) k)) (w d)) d in
    (* Copy row to KKT, zero out w *)
    for_range (sp_colind (sp_kkt p) i) (sp_colind (sp_kkt p) (i + 1)) (fun k d =>
      let d := set_nz_kkt (upd (nz_kkt d) k (rd (w d) (sp_row (sp_kkt p) (nz p) k))) d in
      set_w (upd (w d) (sp_row (sp_kkt p) (nz p) k) 0%T1) d) d) d.

Section Step.

(** The QR engine belongs to separate runtime files and is a parameter
    here.  [casadi_qr(sp_a, nz_a, x, sp_v, nz_v, sp_r, nz_r, beta, prinv, pc)]
    maps the matrix and its work vector [x] to the work vector it leaves
    and the factors [(nz_v, nz_r, beta)];
    [casadi_qr_singular(&rmin, &irmin, nz_r, sp_r, pc, eps)] yields the
    returned nullity, [rmin] and [irmin];
    [casadi_qr_colcomb(v, nz_r, sp_r, pc, imina, ind)] writes a combination
    of columns into [v]; [casadi_qr_solve] is as for [casadi_qp_flip_check]. *)
Variable casadi_qr :
  sparsity -> list T1 -> list T1 -> sparsity -> list T1 -> sparsity -> list T1 ->
  list T1 -> list nat -> list nat -> list T1 * (list T1 * list T1 * list T1).
Variable casadi_qr_singular :
  list T1 -> sparsity -> list nat -> T1 -> Z * T1 * Z.
Variable casadi_qr_colcomb :
  list T1 -> list T1 -> sparsity -> list nat -> Z -> Z -> list T1.
Variable casadi_qr_solve :
  list T1 -> nat -> bool -> sparsity -> list T1 -> sparsity -> list T1 ->
  list T1 -> list nat -> list nat -> list T1 -> list T1 * list T1.

(** [casadi_qr] on the KKT matrix stored in the record. *)
Definition qr_with (d : casadi_qp_data) : casadi_qp_data :=
  let p := prob d in
  let '(w_, (v_, r_, beta_)) :=
    casadi_qr (sp_kkt p) (nz_kkt d) (w d) (sp_v p) (nz_v d) (sp_r p) (nz_r d)
      (beta d) (prinv p) (pc p) in
  set_beta beta_ (set_nz_r r_ (set_nz_v v_ (set_w w_ d))).

Definition casadi_qp_factorize (d : casadi_qp_data) : casadi_qp_data :=
  let p := prob d in
  (* Construct the KKT matrix *)
  let d := casadi_qp_kkt d in
  (* QR factorization *)
  let d := qr_with d in
  (* Check singularity *)
  let '(sing_, mina_, imina_) := casadi_qr_singular (nz_r d) (sp_r p) (pc p) eps12 in
  set_sing sing_ (set_imina imina_ (set_mina mina_ d)).

(** The test [(terr>0. && tau_test>0.) || (terr<0. && tau_test<0.)]. *)
Definition increases_error (terr tau_test : T1) : bool :=
  ((terr >? 0)%T1 && (tau_test >? 0)%T1) || ((terr <? 0)%T1 && (tau_test <? 0)%T1).

(** The body of the search of [casadi_qp_scale_step] for one row, on
    [tau], [*r_index], [*r_sign] and the record. *)
Definition casadi_qp_scale_step_row (terr : T1) (pos_ok neg_ok : bool) (i : nat)
  (s : T1 * Z * Z * casadi_qp_data) : T1 * Z * Z * casadi_qp_data :=
  let '(tau_, r_index, r_sign, d) := s in
  let p := prob d in
  (* Check if old column can be removed without decreasing rank *)
  if (fabs (if (i <? nx p)%nat then rd (dz d) i else rd (dlam d) i) <? eps12)%T1 then s
  (* If dot(w, kkt_diff(i))==0, rank won't increase *)
  else if (fabs (casadi_qp_kkt_dot2 d (w d) i) <? eps12)%T1 then s
  (* Is constraint active? *)
  else if (rd (lam d) i =? 0)%T1 then
    (* Make sure that step is nonzero *)
    if (fabs (rd (dz d) i) <? eps12)%T1 then s
    else
      (* Step needed to bring z to lower bound *)
      let s :=
        if negb (rdb (neverlower d) i) then
          let tau_test := ((rd (lbz d) i - rd (z d) i) / rd (dz d) i)%T1 in
          (* Ensure nonincrease in max(pr, du) *)
          if negb (increases_error terr tau_test) then
            (* Only allow removing constraints if tau_test==0 *)
            if (fabs tau_test >=? eps16)%T1 then
              (* Check if best so far *)
              if (fabs tau_test <? fabs tau_)%T1 then
                (tau_test, Z.of_nat i, (-1)%Z,
                 casadi_qp_log d "Enforced lbz[%lld] for regularity" [ArgInt (Z.of_nat i)])
              else s
            else s
          else s
        else s in
      let '(tau_, r_index, r_sign, d) := s in
      (* Step needed to bring z to upper bound *)
      if negb (rdb (neverupper d) i) then
        let tau_test := ((rd (ubz d) i - rd (z d) i) / rd (dz d) i)%T1 in
        (* Ensure nonincrease in max(pr, du) *)
        if negb (increases_error terr tau_test) then
          (* Only allow removing constraints if tau_test==0 *)
          if (fabs tau_test >=? eps16)%T1 then
            (* Check if best so far *)
            if (fabs tau_test <? fabs tau_)%T1 then
              (tau_test, Z.of_nat i, 1%Z,
               casadi_qp_log d "Enforced ubz[%lld] for regularity" [ArgInt (Z.of_nat i)])
            else s
          else s
        else s
      else s
  else
    (* Make sure that step is nonzero *)
    if (fabs (rd (dlam d) i) <? eps12)%T1 then s
    (* Step needed to bring lam to zero *)
    else if negb (rdb (neverzero d) i) then
      let tau_test := (- rd (lam d) i / rd (dlam d) i)%T1 in
      (* Ensure nonincrease in max(pr, du) *)
      if increases_error terr tau_test then s
      (* Make sure direction is permitted *)
      else if ((tau_test >? 0)%T1 && negb pos_ok) || ((tau_test <? 0)%T1 && negb neg_ok)
      then s
      (* Check if best so far *)
      else if (fabs tau_test <? fabs tau_)%T1 then
        (tau_test, Z.of_nat i, 0%Z,
         casadi_qp_log d "Dropped %s[%lld] for regularity"
           [ArgStr (if (rd (lam d) i >? 0)%T1 then "lbz" else "ubz");
            ArgInt (Z.of_nat i)])
      else s
    else s.

(** The directions in which [max(pr, du)] does not grow: [(pos_ok, neg_ok,
    terr)]. *)
Definition casadi_qp_scale_step_dir (d : casadi_qp_data) : bool * bool * T1 :=
  let p := prob d in
  (* Change in pr, du in the search direction *)
  let tpr :=
    if (ipr d <? 0)%Z then 0%T1
    else if (rdz (z d) (ipr d) >? rdz (ubz d) (ipr d))%T1
         then (rdz (dz d) (ipr d) / pr d)%T1
         else (- rdz (dz d) (ipr d) / pr d)%T1 in
  let tdu :=
    if (idu d <? 0)%Z then 0%T1
    else (rdz (tinfeas d) (idu d) / rdz (infeas d) (idu d))%T1 in
  (* Change in max(pr, du) in the search direction *)
  let '(pos_ok, neg_ok, terr) :=
    if (pr d >? du d)%T1 then
      (* |pr|>|du| *)
      if (tpr <? 0)%T1 then (true, false, tpr)
      else if (tpr >? 0)%T1 then (false, true, tpr)
      else (true, true, tpr)
    else if (pr d <? du d)%T1 then
      (* |pr|<|du| *)
      if (tdu <? 0)%T1 then (true, false, tdu)
      else if (tdu >? 0)%T1 then (false, true, tdu)
      else (true, true, tdu)
    else
      (* |pr|==|du| *)
      if ((tpr >? 0)%T1 && (tdu <? 0)%T1) || ((tpr <? 0)%T1 && (tdu >? 0)%T1) then
        (* |pr|==|du| cannot be decreased along the search direction *)
        (false, false, 0%T1)
      else if (fmin tpr tdu <? 0)%T1 then
        (* |pr|==|du| decreases for positive tau *)
        (true, false, fmax tpr tdu)
      else if (fmax tpr tdu >? 0)%T1 then
        (* |pr|==|du| decreases for negative tau *)
        (false, true, fmin tpr tdu)
      else (true, true, 0%T1) in
  (* If primal error is dominating and constraint is active,
     then only allow the multiplier to become larger *)
  if (du_to_pr p * pr d >=? du d)%T1
     && negb (rdz (lam d) (ipr d) =? 0)%T1
     && (fabs (rdz (dlam d) (ipr d)) >? eps12)%T1
  then
    if Bool.eqb (rdz (lam d) (ipr d) >? 0)%T1 (rdz (dlam d) (ipr d) >? 0)%T1
    then (pos_ok, false, terr)
    else (false, neg_ok, terr)
  else (pos_ok, neg_ok, terr).

(** The results are the returned flag, [*r_index], [*r_sign] and the
    record. *)
Definition casadi_qp_scale_step (d : casadi_qp_data) (r_index r_sign : Z)
  : Z * Z * Z * casadi_qp_data :=
  let p := prob d in
  (* Reset r_index, r_sign, quick return if non-singular *)
  let r_index := (-1)%Z in
  let r_sign := 0%Z in
  if (sing d =? 0)%Z then (0%Z, r_index, r_sign, d)
  else
    let '(pos_ok, neg_ok, terr) := casadi_qp_scale_step_dir d in
    (* QR factorization of the transpose *)
    let (v_, iw_) := casadi_trans (nz_kkt d) (sp_kkt p) (nz_v d) (sp_kkt p) (iw d) in
    let d := set_iw iw_ (set_nz_v v_ d) in
    let nnz_kkt := sp_colind (sp_kkt p) (nz p) in (* kkt_colind[nz] *)
    let d := set_nz_kkt (casadi_copy (nz_v d) nnz_kkt (nz_kkt d)) d in
    let d := qr_with d in
    (* Best flip *)
    let tau_ := inf p in
    (* For all nullspace vectors *)
    let '(nullity_tr, minat_tr, imina_tr) :=
      casadi_qr_singular (nz_r d) (sp_r p) (pc p) eps12 in
    let '(tau_, r_index, r_sign, d) :=
      for_range 0 (Z.to_nat nullity_tr) (fun nulli (s : T1 * Z * Z * casadi_qp_data) =>
        let '(tau_, r_index, r_sign, d) := s in
        (* Get a linear combination of the rows in kkt *)
        let d :=
          set_w (casadi_qr_colcomb (w d) (nz_r d) (sp_r p) (pc p) imina_tr
                   (Z.of_nat nulli)) d in
        (* Look for the best constraint for increasing rank *)
        for_range 0 (nz p) (casadi_qp_scale_step_row terr pos_ok neg_ok)
          (tau_, r_index, r_sign, d)) (tau_, r_index, r_sign, d) in
    (* Can we restore feasibility? *)
    if (r_index <? 0)%Z then (1%Z, r_index, r_sign, d)
    else
      (* Scale step so that that tau=1 corresponds to a full step *)
      let d := set_dz (casadi_scal (nz p) tau_ (dz d)) d in
      let d := set_dlam (casadi_scal (nz p) tau_ (dlam d)) d in
      let d := set_tinfeas (casadi_scal (nx p) tau_ (tinfeas d)) d in
      (0%Z, r_index, r_sign, d).

(** [casadi_qp_calc_step] in the four stages of the source: the solve or
    the null vector, the step of the multipliers, the step of [z[nx:]] and
    the tangent of the dual infeasibility; then the step length. *)
Definition casadi_qp_calc_step_solve (d : casadi_qp_data) : casadi_qp_data :=
  let p := prob d in
  (* Calculate step in z[:nx] and lam[nx:] *)
  if (sing d =? 0)%Z then
    (* Negative KKT residual *)
    let d := set_dz (casadi_qp_kkt_residual d (dz d)) d in
    (* Solve to get primal-dual step *)
    let (x, w_) :=
      casadi_qr_solve (dz d) 1%nat true (sp_v p) (nz_v d) (sp_r p) (nz_r d) (beta d)
        (prinv p) (pc p) (w d) in
    set_w w_ (set_dz x d)
  else
    (* Get a linear combination of the columns in KKT *)
    set_dz (casadi_qr_colcomb (dz d) (nz_r d) (sp_r p) (pc p) (imina d) 0%Z) d.

Definition casadi_qp_calc_step_dlam (d : casadi_qp_data) : casadi_qp_data :=
  let p := prob d in
  (* Calculate change in Lagrangian gradient *)
  let d := set_dlam (casadi_fill (dlam d) (nx p) 0%T1) d in
  (* gradient of the objective *)
  let d := set_dlam (casadi_mv (nz_h d) (sp_h p) (dz d) (dlam d) false) d in
  (* gradient of the Lagrangian *)
  let d := set_dlam (casadi_mv (nz_a d) (sp_a p) (view (dz d) (nx p)) (dlam d) true) d in
  (* Step in lam[:nx] *)
  let d := set_dlam (casadi_scal (nx p) (- (1))%T1 (dlam d)) d in
  (* For inactive constraints, lam(x) step is zero *)
  let d :=
    for_range 0 (nx p) (fun i d =>
      if (rd (lam d) i =? 0)%T1 then set_dlam (upd (dlam d) i 0%T1) d else d) d in
  (* Step in lam[nx:] *)
  set_dlam (store (dlam d) (nx p)
              (casadi_copy (view (dz d) (nx p)) (na p) (view (dlam d) (nx p)))) d.

Definition casadi_qp_calc_step_dz (d : casadi_qp_data) : casadi_qp_data :=
  let p := prob d in
  (* Step in z[nx:] *)
  let d := set_dz (store (dz d) (nx p) (casadi_fill (view (dz d) (nx p)) (na p) 0%T1)) d in
  let d :=
    set_dz (store (dz d) (nx p)
              (casadi_mv (nz_a d) (sp_a p) (dz d) (view (dz d) (nx p)) false)) d in
  (* Avoid steps that are nonzero due to numerics *)
  for_range 0 (nz p) (fun i d =>
    if (fabs (rd (dz d) i) <? eps14)%T1 then set_dz (upd (dz d) i 0%T1) d else d) d.

Definition casadi_qp_calc_step_tinfeas (d : casadi_qp_data) : casadi_qp_data :=
  let p := prob d in
  (* Tangent of the dual infeasibility at tau=0 *)
  let d := set_tinfeas (casadi_fill (tinfeas d) (nx p) 0%T1) d in
  let d := set_tinfeas (casadi_mv (nz_h d) (sp_h p) (dz d) (tinfeas d) false) d in
  let d :=
    set_tinfeas (casadi_mv (nz_a d) (sp_a p) (view (dlam d) (nx p)) (tinfeas d) true) d in
  set_tinfeas (casadi_axpy (nx p) 1%T1 (dlam d) (tinfeas d)) d.

(** The results are the returned flag, [*r_index], [*r_sign] and the
    record. *)
Definition casadi_qp_calc_step (d : casadi_qp_data) (r_index r_sign : Z)
  : Z * Z * Z * casadi_qp_data :=
  let d := casadi_qp_calc_step_solve d in
  let d := casadi_qp_calc_step_dlam d in
  let d := casadi_qp_calc_step_dz d in
  let d := casadi_qp_calc_step_tinfeas d in
  (* Calculate step length *)
  casadi_qp_scale_step d r_index r_sign.

End Step.

(** The pivot [(i, sign)] respects the classification of row [i]: a
    constraint that is dropped ([sign = 0]) is active and may be inactive; a
    bound that is enforced is the bound of an inactive row that has this
    bound. *)
Definition pivot_permitted (d : casadi_qp_data) (i : nat) (sign : Z) : bool :=
  if (sign =? 0)%Z then negb (rd (lam d) i =? 0)%T1 && negb (rdb (neverzero d) i)
  else if (sign <? 0)%Z then (rd (lam d) i =? 0)%T1 && negb (rdb (neverlower d) i)
  else (rd (lam d) i =? 0)%T1 && negb (rdb (neverupper d) i).

(** The multipliers, the point and the classification are those of [d0]. *)
Definition same_active_set (d0 d : casadi_qp_data) : Prop :=
  prob d = prob d0 /\ lam d = lam d0 /\ z d = z d0 /\ lbz d = lbz d0
  /\ ubz d = ubz d0 /\ neverzero d = neverzero d0
  /\ neverlower d = neverlower d0 /\ neverupper d = neverupper d0.

(** The state of the search of [casadi_qp_scale_step] holds no pivot, or a
    permitted pivot on one of the first [n] rows. *)
Definition scale_step_inv (d0 : casadi_qp_data) (n : nat)
  (s : T1 * Z * Z * casadi_qp_data) : Prop :=
  let '(_, r_index, r_sign, d) := s in
  same_active_set d0 d
  /\ ((r_index = (-1)%Z /\ r_sign = 0%Z)
      \/ exists k, r_index = Z.of_nat k /\ (k < n)%nat
           /\ (r_sign = (-1)%Z \/ r_sign = 0%Z \/ r_sign = 1%Z)
           /\ pivot_permitted d0 k r_sign = true).

(** *** Instances of the QR engine

    A factorization that leaves its arrays as they are and reports a
    regular matrix, and a column combination that leaves its vector. *)
Definition qr_keep (sp_a_ : sparsity) (nz_a_ x : list T1) (sp_v_ : sparsity)
  (v : list T1) (sp_r_ : sparsity) (r beta_ : list T1) (prinv_ pc_ : list nat)
  : list T1 * (list T1 * list T1 * list T1) :=
  (x, (v, r, beta_)).

Definition qr_regular (r : list T1) (sp_r_ : sparsity) (pc_ : list nat) (eps : T1)
  : Z * T1 * Z :=
  (0%Z, 1%T1, 0%Z).

Definition colcomb_keep (v r : list T1) (sp_r_ : sparsity) (pc_ : list nat)
  (imina_ ind : Z) : list T1 :=
  v.

(** ** The assembled KKT matrix *)

(** The column that stands at position [i] of the KKT matrix for the
    current active set, as [casadi_qp_kkt_column] writes it into [d->w]. *)
Definition kkt_column_of (d : casadi_qp_data) (i : nat) : list T1 :=
  casadi_qp_kkt_column d (w d) i (if (rd (lam d) i =? 0)%T1 then 0%Z else 1%Z).

(** [k] is a nonzero of column [i] of the pattern of the KKT matrix. *)
Definition kkt_nonzero (p : casadi_qp_prob) (i k : nat) : Prop :=
  (sp_colind (sp_kkt p) i <= k < sp_colind (sp_kkt p) (i + 1))%nat.

(** The pattern of the KKT matrix is well formed and holds every entry of
    the columns: the columns follow each other within [nz_kkt], the row
    indices of a column are distinct and below [nz], and an entry of a
    column outside the pattern is left as the cleared work vector has it. *)
Definition kkt_pattern_ok (d : casadi_qp_data) : Prop :=
  let p := prob d in
  (nz p <= length (w d))%nat
  /\ forall i, (i < nz p)%nat ->
       (sp_colind (sp_kkt p) i <= sp_colind (sp_kkt p) (i + 1))%nat
       /\ (sp_colind (sp_kkt p) (i + 1) <= length (nz_kkt d))%nat
       /\ (forall k, kkt_nonzero p i k -> (sp_row (sp_kkt p) (nz p) k < nz p)%nat)
       /\ (forall k1 k2, kkt_nonzero p i k1 -> kkt_nonzero p i k2 ->
             sp_row (sp_kkt p) (nz p) k1 = sp_row (sp_kkt p) (nz p) k2 -> k1 = k2)
       /\ (forall r,
             rd (kkt_column_of d i) r = rd (casadi_fill (w d) (nz p) 0%T1) r
             \/ exists k, kkt_nonzero p i k /\ sp_row (sp_kkt p) (nz p) k = r).

(** ** The blocking constraint of the primal line search

    Row [i] explains the outcome [(index, sign, tau)] of the primal line
    search with the budget [e]: the direction pushes [z[i]] towards the
    bound named by [sign], the step [tau] puts [z[i]] on that bound relaxed
    by [e], and [index] is [i] unless the row is already active at that
    bound. *)
Definition blocking_row (d : casadi_qp_data) (e : T1) (i : nat) (index sign : Z)
  (tau_ : T1) : Prop :=
  (sign = (-1)%Z /\ (rd (dz d) i <? 0)%T1 = true
   /\ T1eq (rd (z d) i + tau_ * rd (dz d) i)%T1 (rd (lbz d) i - e)%T1
   /\ index = (if (rd (lam d) i <? 0)%T1 then (-1)%Z else Z.of_nat i))
  \/ (sign = 1%Z /\ (rd (dz d) i >? 0)%T1 = true
      /\ T1eq (rd (z d) i + tau_ * rd (dz d) i)%T1 (rd (ubz d) i + e)%T1
      /\ index = (if (rd (lam d) i >? 0)%T1 then (-1)%Z else Z.of_nat i)).

(** ** The dual line search

    After the step [s] along the tangent, the dual infeasibility of
    variable [k] is within [e]. *)
Definition dual_within (d : casadi_qp_data) (e : T1) (k : nat) (s : Q) : Prop :=
  (fabs (rd (infeas d) k + Fin s * rd (tinfeas d) k) <=? e)%T1 = true.

(** The invariant of the loop over the breakpoints of
    [casadi_qp_dual_blocking], before the breakpoint [j]: [wl] holds the
    breakpoints, [T0] is the incoming step and [e] the budget. *)
Definition dual_blocking_inv (e T0 : Q) (wl : list T1) (d0 : casadi_qp_data)
  (j : nat) (s : dual_blocking_state) : Prop :=
  let d := db_d s in
  prob d = prob d0 /\ w d = wl /\ dlam d = dlam d0 /\ nz_at d = nz_at d0
  /\ length (infeas d) = length (infeas d0)
  /\ (forall k, (k < nx (prob d0))%nat ->
        exists a, rd (infeas d) k = Fin a /\ - e <= a <= e)
  /\ (forall k, is_finite (rd (tinfeas d) k) = true)
  /\ (db_done s = false ->
      tau d = Fin T0
      /\ db_tau_k s = match j with O => 0%T1 | S j' => rd wl j' end).

(** The record of [qp_two_breakpoints] before a full step, [tau = 1], with
    the tangent [(-20, 2)] of the dual error [(4, 0)]. *)
Definition qp_dual_search : casadi_qp_data :=
  set_tinfeas [Fin (-20); Fin 2] (set_tau 1%T1 qp_two_breakpoints).

(** * Properties *)

(** ** Arrays and loops *)

Lemma length_upd {A : Type} (l : list A) (i : nat) (v : A) :
  length (upd l i v) = length l.
Proof.
  revert i; induction l as [|h t IH]; intros [|i]; simpl; auto.
Qed.

Lemma nth_upd_same {A : Type} (l : list A) (i : nat) (v dflt : A) :
  (i < length l)%nat -> nth i (upd l i v) dflt = v.
Proof.
  revert i; induction l as [|h t IH]; intros [|i] Hi; simpl in *; try lia; auto.
  apply IH; lia.
Qed.

Lemma nth_upd_other {A : Type} (l : list A) (i j : nat) (v dflt : A) :
  i <> j -> nth j (upd l i v) dflt = nth j l dflt.
Proof.
  revert i j; induction l as [|h t IH]; intros [|i] [|j] Hij; simpl; auto; try lia.
Qed.

Lemma upd_out {A : Type} (l : list A) (i : nat) (v : A) :
  (length l <= i)%nat -> upd l i v = l.
Proof.
  revert i; induction l as [|h t IH]; intros [|i] Hi; simpl in *; auto; try lia.
  f_equal; apply IH; lia.
Qed.

Lemma rd_upd_same (l : list T1) (i : nat) (v : T1) :
  (i < length l)%nat -> rd (upd l i v) i = v.
Proof. apply nth_upd_same. Qed.

Lemma rd_upd_other (l : list T1) (i j : nat) (v : T1) :
  i <> j -> rd (upd l i v) j = rd l j.
Proof. apply nth_upd_other. Qed.

Lemma for_range_empty {St : Type} (a b : nat) (body : nat -> St -> St) (s : St) :
  (b <= a)%nat -> for_range a b body s = s.
Proof.
  intros H; unfold for_range; replace (b - a)%nat with 0%nat by lia; reflexivity.
Qed.

Lemma for_range_last {St : Type} (a b : nat) (body : nat -> St -> St) (s : St) :
  (a <= b)%nat -> for_range a (S b) body s = body b (for_range a b body s).
Proof.
  intros H; unfold for_range.
  replace (S b - a)%nat with (S (b - a)) by lia.
  rewrite seq_S, fold_left_app; simpl.
  replace (a + (b - a))%nat with b by lia; reflexivity.
Qed.

Lemma for_range_first {St : Type} (a b : nat) (body : nat -> St -> St) (s : St) :
  (a < b)%nat -> for_range a b body s = for_range (S a) b body (body a s).
Proof.
  intros H; unfold for_range.
  replace (b - a)%nat with (S (b - S a)) by lia; reflexivity.
Qed.

(** An invariant that holds before a loop and is kept by its body holds
    after it. *)
Lemma for_range_inv {St : Type} (P : nat -> St -> Prop) (a b : nat)
  (body : nat -> St -> St) (s : St) :
  (a <= b)%nat ->
  P a s ->
  (forall i t, (a <= i < b)%nat -> P i t -> P (S i) (body i t)) ->
  P b (for_range a b body s).
Proof.
  intros Hab H0 Hstep.
  induction b as [|b IH].
  - assert (a = 0)%nat by lia; subst; rewrite for_range_empty by lia; exact H0.
  - destruct (Nat.eq_dec a (S b)) as [->|Hne].
    + rewrite for_range_empty by lia; exact H0.
    + rewrite for_range_last by lia.
      apply Hstep; [lia|].
      apply IH; [lia|].
      intros i t Hi; apply Hstep; lia.
Qed.

(** ** The scalar type *)

(** Comparisons of rationals are kept folded, to be split by cases. *)
#[local] Arguments Qcompare : simpl never.

Ltac t1_destruct :=
  repeat match goal with x : T1 |- _ => destruct x end.

Ltac q_cases :=
  repeat (match goal with
          | |- context [(?a ?= ?b)%Q] => destruct (Qcompare_spec a b)
          | H : context [(?a ?= ?b)%Q] |- _ => destruct (Qcompare_spec a b)
          end; cbn in * ).

Ltac t1_solve :=
  t1_destruct; cbn in *; q_cases; try discriminate; try tauto; try lra.

Lemma T1ltb_Fin (a b : Q) : (Fin a <? Fin b)%T1 = true <-> a < b.
Proof. cbn; q_cases; split; intros; try discriminate; try lra; auto. Qed.

Lemma T1leb_Fin (a b : Q) : (Fin a <=? Fin b)%T1 = true <-> a <= b.
Proof. cbn; q_cases; split; intros; try discriminate; try lra; auto. Qed.

Lemma T1eqb_Fin (a b : Q) : (Fin a =? Fin b)%T1 = true <-> a == b.
Proof. cbn; q_cases; split; intros; try discriminate; try lra; auto. Qed.

Lemma T1eqb_isinf (x y : T1) :
  (x =? y)%T1 = true /\ isinf y = true /\ isinf x = true <->
  (x = PInf /\ y = PInf) \/ (x = NInf /\ y = NInf).
Proof.
  destruct x, y; cbn; split; intros H; try tauto;
    try (destruct H as [H1 [H2 H3]]; discriminate);
    try (destruct H as [[H1 H2]|[H1 H2]]; discriminate).
Qed.

(** ** [casadi_qp_reset]: the status *)

Lemma reset_row_frame (i : nat) (d : casadi_qp_data) :
  let d' := snd (casadi_qp_reset_row i d) in
  prob d' = prob d /\ lbz d' = lbz d /\ ubz d' = ubz d /\ z d' = z d
  /\ length (neverzero d') = length (neverzero d)
  /\ length (neverupper d') = length (neverupper d)
  /\ length (neverlower d') = length (neverlower d)
  /\ length (lam d') = length (lam d).
Proof.
  unfold casadi_qp_reset_row; cbn.
  repeat match goal with |- context [if ?c then _ else _] => destruct c end;
    cbn; rewrite ?length_upd; auto 10.
Qed.

Lemma reset_row_stop (i : nat) (d : casadi_qp_data) :
  (i < length (neverzero d))%nat -> (i < length (neverupper d))%nat ->
  (i < length (neverlower d))%nat ->
  fst (casadi_qp_reset_row i d)
  = (rd (lbz d) i =? rd (ubz d) i)%T1 && isinf (rd (ubz d) i) && isinf (rd (lbz d) i).
Proof.
  intros Hz Hu Hl; unfold casadi_qp_reset_row; cbn.
  unfold rdb, rd; rewrite !nth_upd_same by assumption.
  match goal with |- fst (if ?c then _ else _) = _ => destruct c end; reflexivity.
Qed.

Lemma reset_loop_stop (n : nat) : forall (i : nat) (d : casadi_qp_data),
  (i + n <= length (neverzero d))%nat -> (i + n <= length (neverupper d))%nat ->
  (i + n <= length (neverlower d))%nat ->
  fst (casadi_qp_reset_loop n i d) = true <->
  exists j, (i <= j < i + n)%nat /\ bounds_equal_infinite d j.
Proof.
  induction n as [|n IH]; intros i d Hz Hu Hl; simpl.
  - split; [discriminate|]. intros [j [Hj _]]; lia.
  - pose proof (reset_row_frame i d) as Hf; cbn zeta in Hf.
    pose proof (reset_row_stop i d) as Hs.
    destruct (casadi_qp_reset_row i d) as [stop d'] eqn:E; cbn in Hf, Hs.
    destruct Hf as (Hp & Hlb & Hub & _ & Lz & Lu & Ll & _).
    rewrite Hs by lia; clear Hs.
    destruct ((rd (lbz d) i =? rd (ubz d) i)%T1 && isinf (rd (ubz d) i)
              && isinf (rd (lbz d) i)) eqn:C.
    + split; [intros _|reflexivity].
      exists i; split; [lia|].
      apply T1eqb_isinf.
      apply andb_prop in C as [C C3]; apply andb_prop in C as [C1 C2]; auto.
    + rewrite IH by lia.
      unfold bounds_equal_infinite; rewrite Hlb, Hub.
      split; intros [j [Hj Hb]]; exists j; (split; [|exact Hb]); try lia.
      destruct (Nat.eq_dec j i) as [->|Hne]; [|lia].
      apply T1eqb_isinf in Hb as (H1 & H2 & H3).
      rewrite H1, H2, H3 in C; discriminate.
Qed.

(** C2, as the code has it: [casadi_qp_reset] returns 1 exactly when some
    row has both bounds equal to the same infinity (the row is then
    classified neverzero, neverupper and neverlower at once, since [isinf]
    holds for an infinity of either sign), and returns 0 otherwise. *)
Theorem casadi_qp_reset_status (d : casadi_qp_data) :
  wf_sizes d ->
  (fst (casadi_qp_reset d) = 1%Z <->
   exists i, (i < nz (prob d))%nat /\ bounds_equal_infinite d i)
  /\ (fst (casadi_qp_reset d) = 1%Z \/ fst (casadi_qp_reset d) = 0%Z).
Proof.
  intros (_ & _ & _ & _ & _ & _ & _ & _ & _ & Lz & Lu & Ll & _).
  unfold casadi_qp_reset.
  set (d0 := set_sing 0 (set_tau 0%T1 (set_msg (Msg EmptyString []) d))).
  pose proof (reset_loop_stop (nz (prob d)) 0 d0) as H.
  change (prob d0) with (prob d) in *.
  destruct (casadi_qp_reset_loop (nz (prob d)) 0 d0) as [stop d1].
  cbn in H.
  specialize (H ltac:(cbn; lia) ltac:(cbn; lia) ltac:(cbn; lia)).
  destruct stop.
  - cbn. split; [|auto]. split; [intros _|reflexivity].
    destruct H as [H _]. destruct (H eq_refl) as [j [Hj Hb]].
    exists j; split; [lia|exact Hb].
  - destruct (casadi_trans _ _ _ _ _) as [at_ iw_]; cbn.
    split; [|auto]. split; [discriminate|].
    intros [j [Hj Hb]].
    destruct H as [_ H]. 
    assert (false = true) by (apply H; exists j; split; [lia|exact Hb]).
    discriminate.
Qed.

Lemma casadi_qp_reset_status_witness :
  wf_sizes qp_both_bounds_pinf
  /\ fst (casadi_qp_reset qp_both_bounds_pinf) = 1%Z.
Proof.
  assert (W : wf_sizes qp_both_bounds_pinf).
  { unfold wf_sizes; cbn; repeat split; lia. }
  split; [exact W|].
  apply (proj1 (casadi_qp_reset_status qp_both_bounds_pinf W)).
  exists 0%nat; split; [cbn; lia|left; split; reflexivity].
Defined.

(** C2 as stated fails: with both bounds of a row at [+inf] the reset
    returns 1, although no row has [ubz = +inf] and [lbz = -inf]. *)
Lemma casadi_qp_reset_status_counterexample :
  ~ reset_fails_iff_equal_pinf_ninf qp_both_bounds_pinf.
Proof.
  unfold reset_fails_iff_equal_pinf_ninf; intros [H _].
  assert (R : fst (casadi_qp_reset qp_both_bounds_pinf) <> 0%Z)
    by (vm_compute; discriminate).
  destruct (H R) as [i (Hi & _ & _ & Hl)].
  cbn in Hi. assert (i = 0)%nat by lia; subst i.
  cbn in Hl; discriminate.
Qed.

(** ** Numbers equal as numbers *)

Lemma T1eq_refl (x : T1) : T1eq x x.
Proof. destruct x; cbn; auto; reflexivity. Qed.

Lemma T1eq_sym (x y : T1) : T1eq x y -> T1eq y x.
Proof. destruct x, y; cbn; auto; intros H; symmetry; exact H. Qed.

Lemma T1eq_trans (x y v : T1) : T1eq x y -> T1eq y v -> T1eq x v.
Proof.
  destruct x, y, v; cbn; auto; try tauto.
  intros H1 H2; rewrite H1; exact H2.
Qed.

Lemma T1sub_0_r (x : T1) : T1eq x (x - 0)%T1.
Proof. destruct x; cbn; auto; lra. Qed.

Lemma T1sub_0_l (x : T1) : T1eq (- x)%T1 (0 - x)%T1.
Proof. destruct x; cbn; auto; lra. Qed.

(** ** Reading what the primitives wrote *)

Lemma length_for_range_upd {A : Type} (a b : nat) (pos : nat -> nat)
  (val : nat -> list A -> A) (l : list A) :
  length (for_range a b (fun k l => upd l (pos k) (val k l)) l) = length l.
Proof.
  destruct (Nat.le_gt_cases a b) as [Hab|Hab].
  - apply (for_range_inv (fun _ l' => length l' = length l)); auto.
    intros i t _ Ht; rewrite length_upd; exact Ht.
  - rewrite for_range_empty by lia; reflexivity.
Qed.

Lemma length_fill (x : list T1) (n : nat) (alpha : T1) :
  length (casadi_fill x n alpha) = length x.
Proof. apply (length_for_range_upd 0 n (fun k => k) (fun _ _ => alpha)). Qed.

Lemma rd_fill (x : list T1) (n : nat) (alpha : T1) (k : nat) :
  (n <= length x)%nat ->
  rd (casadi_fill x n alpha) k = if (k <? n)%nat then alpha else rd x k.
Proof.
  intros Hn; unfold casadi_fill.
  apply (for_range_inv
           (fun m l => length l = length x
                       /\ rd l k = if (k <? m)%nat then alpha else rd x k));
    [lia|split; reflexivity|].
  intros i t Hi [Hl Hk]; rewrite length_upd; split; [exact Hl|].
  unfold rd in *.
  destruct (Nat.eq_dec i k) as [->|Hne].
  - rewrite nth_upd_same by lia.
    destruct (Nat.ltb_spec k (S k)); [reflexivity|lia].
  - rewrite nth_upd_other by exact Hne. rewrite Hk.
    destruct (Nat.ltb_spec k i), (Nat.ltb_spec k (S i)); try reflexivity; lia.
Qed.

(** A position that a loop of writes does not write keeps its content. *)
Lemma rd_for_range_upd_other (a b : nat) (pos : nat -> nat)
  (val : nat -> list T1 -> T1) (l : list T1) (k : nat) :
  (forall j, (a <= j < b)%nat -> pos j <> k) ->
  rd (for_range a b (fun j l => upd l (pos j) (val j l)) l) k = rd l k.
Proof.
  intros Hpos. destruct (Nat.le_gt_cases a b) as [Hab|Hab].
  - apply (for_range_inv (fun _ l' => rd l' k = rd l k)); auto.
    intros i t Hi Ht; unfold rd in *; rewrite nth_upd_other; auto.
  - rewrite for_range_empty by lia; reflexivity.
Qed.

(** ** [casadi_qp_kkt_vector] *)

(** Two loops that write opposite values at the same positions. *)
Lemma rd_for_range_upd_opp (a b : nat) (pos : nat -> nat) (val : nat -> T1)
  (l l' : list T1) (k : nat) :
  length l = length l' ->
  T1eq (rd l k) (- rd l' k)%T1 ->
  T1eq (rd (for_range a b (fun j l => upd l (pos j) (- val j)%T1) l) k)
       (- rd (for_range a b (fun j l => upd l (pos j) (val j)) l') k)%T1.
Proof.
  intros Hlen H0.
  destruct (Nat.le_gt_cases a b) as [Hab|Hab];
    [|rewrite !for_range_empty by lia; exact H0].
  induction b as [|b IH].
  - rewrite !for_range_empty by lia; exact H0.
  - destruct (Nat.eq_dec a (S b)) as [->|Hne];
      [rewrite !for_range_empty by lia; exact H0|].
    rewrite !for_range_last by lia.
    specialize (IH ltac:(lia)).
    set (m := for_range a b _ l) in *. set (m' := for_range a b _ l') in *.
    assert (Lm : length m = length m').
    { unfold m, m'.
      rewrite (length_for_range_upd a b pos (fun j _ => (- val j)%T1)).
      rewrite (length_for_range_upd a b pos (fun j _ => val j)). exact Hlen. }
    unfold rd.
    destruct (Nat.eq_dec (pos b) k) as [E|E].
    + destruct (Nat.lt_ge_cases k (length m)) as [Hk|Hk].
      * subst k; rewrite !nth_upd_same by lia. apply T1eq_refl.
      * rewrite !upd_out by lia. apply IH.
    + rewrite !nth_upd_other by exact E. apply IH.
Qed.

(** C4, as the code has it: for a row [i] of the KKT system the vector
    written by [casadi_qp_kkt_vector] is, entry by entry, the inactive column
    minus the active column of [casadi_qp_kkt_column], for every nonzero
    sign. *)
Theorem casadi_qp_kkt_vector_difference (d : casadi_qp_data) (buf : list T1)
  (i : nat) (s : Z) (k : nat) :
  (nz (prob d) <= length buf)%nat ->
  (i < nz (prob d))%nat ->
  s <> 0%Z ->
  ((nx (prob d) <= i)%nat -> at_column_in_range d i) ->
  (k < nz (prob d))%nat ->
  T1eq (rd (casadi_qp_kkt_vector d buf i) k)
       (rd (casadi_qp_kkt_column d buf i 0%Z) k - rd (casadi_qp_kkt_column d buf i s) k).
Proof.
  intros Hbuf Hi Hs Hat Hk.
  unfold casadi_qp_kkt_vector, casadi_qp_kkt_column.
  apply Z.eqb_neq in Hs; rewrite Hs; cbn [Z.eqb].
  set (zb := casadi_fill buf (nz (prob d)) 0%T1).
  assert (Lzb : length zb = length buf) by apply length_fill.
  assert (Zzb : forall j, (j < nz (prob d))%nat -> rd zb j = 0%T1).
  { intros j Hj; unfold zb; rewrite rd_fill by exact Hbuf.
    destruct (Nat.ltb_spec j (nz (prob d))); [reflexivity|lia]. }
  destruct (Nat.ltb_spec i (nx (prob d))) as [Hlt|Hge].
  - (* a variable: the same sparse entries, then the diagonal *)
    set (X := kkt_copy_ha d zb i).
    assert (LX : length X = length zb).
    { unfold X, kkt_copy_ha.
      rewrite (length_for_range_upd _ _
                 (fun k => (nx (prob d) + sp_row (sp_a (prob d)) (nx (prob d)) k)%nat)
                 (fun k _ => rd (nz_a d) k)).
      apply (length_for_range_upd _ _
               (fun k => sp_row (sp_h (prob d)) (nx (prob d)) k)
               (fun k _ => rd (nz_h d) k)). }
    unfold rd at 1 3 4.
    destruct (Nat.eq_dec i k) as [->|Hne].
    + rewrite !nth_upd_same by lia. apply T1eq_refl.
    + rewrite !nth_upd_other by exact Hne.
      fold (rd X k); fold (rd zb k). rewrite (Zzb k Hk). apply T1sub_0_r.
  - (* a linear constraint: opposite entries of the transpose *)
    specialize (Hat Hge).
    set (pos := fun j => sp_row (sp_at (prob d)) (na (prob d)) j).
    set (a := sp_colind (sp_at (prob d)) (i - nx (prob d))).
    set (b := sp_colind (sp_at (prob d)) (i - nx (prob d) + 1)).
    set (Y := for_range a b _ zb).
    set (Y' := for_range a b _ zb).
    assert (HY : T1eq (rd Y k) (- rd Y' k)%T1).
    { apply (rd_for_range_upd_opp a b pos (fun j => rd (nz_at d) j) zb zb k eq_refl).
      rewrite (Zzb k Hk). cbn. lra. }
    assert (Yi : rd Y i = 0%T1).
    { unfold Y. rewrite (rd_for_range_upd_other a b pos (fun j _ => (- rd (nz_at d) j)%T1)).
      - apply Zzb; exact Hi.
      - intros j Hj. specialize (Hat j Hj). unfold pos. lia. }
    assert (Yi' : rd Y' i = 0%T1).
    { unfold Y'. rewrite (rd_for_range_upd_other a b pos (fun j _ => rd (nz_at d) j)).
      - apply Zzb; exact Hi.
      - intros j Hj. specialize (Hat j Hj). unfold pos. lia. }
    assert (LY : length Y = length zb).
    { apply (length_for_range_upd a b pos (fun j _ => (- rd (nz_at d) j)%T1)). }
    unfold rd at 1 3.
    destruct (Nat.eq_dec i k) as [->|Hne].
    + rewrite !nth_upd_same by lia. rewrite Yi. fold (rd Y' k). rewrite Yi'.
      cbn. lra.
    + rewrite !nth_upd_other by exact Hne.
      fold (rd Y k); fold (rd zb k). rewrite (Zzb k Hk).
      eapply T1eq_trans; [exact HY|apply T1sub_0_l].
Qed.

Lemma casadi_qp_kkt_vector_difference_witness :
  T1eq (rd (casadi_qp_kkt_vector qp_h2 (zeros 1) 0) 0)
       (rd (casadi_qp_kkt_column qp_h2 (zeros 1) 0 0%Z) 0
        - rd (casadi_qp_kkt_column qp_h2 (zeros 1) 0 1%Z) 0).
Proof.
  apply (casadi_qp_kkt_vector_difference qp_h2 (zeros 1) 0 1%Z 0).
  - cbn; lia.
  - cbn; lia.
  - discriminate.
  - cbn; lia.
  - cbn; lia.
Defined.

(** C4 as stated fails: for [H = (2)] the vector is [(1)], the active column
    minus the inactive column is [(-1)]. *)
Lemma casadi_qp_kkt_vector_difference_counterexample :
  ~ kkt_vector_active_minus_inactive qp_h2 0 1%Z.
Proof.
  intros H. specialize (H 0%nat ltac:(cbn; lia)).
  vm_compute in H. discriminate.
Qed.

(** ** Primal blocking *)

Lemma zero_blocking_inv (d : casadi_qp_data) (e : T1) (index sign : Z) :
  let '(ret, index', sign', d') := casadi_qp_zero_blocking d e index sign in
  prob d' = prob d /\ z d' = z d /\ dz d' = dz d /\ lbz d' = lbz d
  /\ ubz d' = ubz d /\ lam d' = lam d /\ tau d' = tau d
  /\ ((ret = 0%Z /\ index' = index /\ sign' = sign
       /\ forall j, (j < nz (prob d))%nat ->
            blocked_at_zero_lower d e j = false /\ blocked_at_zero_upper d e j = false)
      \/ (ret = 1%Z
          /\ exists i, (i < nz (prob d))%nat /\ index' = Z.of_nat i
               /\ ((sign' = (-1)%Z /\ blocked_at_zero_lower d e i = true)
                   \/ (sign' = 1%Z /\ blocked_at_zero_upper d e i = true)))).
Proof.
  unfold casadi_qp_zero_blocking.
  set (body := fun (i : nat) (s : Z * Z * Z * casadi_qp_data) => _).
  pose (P := fun (m : nat) (s : Z * Z * Z * casadi_qp_data) =>
    let '(ret, index', sign', d') := s in
    prob d' = prob d /\ z d' = z d /\ dz d' = dz d /\ lbz d' = lbz d
    /\ ubz d' = ubz d /\ lam d' = lam d /\ tau d' = tau d
    /\ ((ret = 0%Z /\ index' = index /\ sign' = sign
         /\ forall j, (j < m)%nat ->
              blocked_at_zero_lower d e j = false /\ blocked_at_zero_upper d e j = false)
        \/ (ret = 1%Z
            /\ exists i, (i < m)%nat /\ index' = Z.of_nat i
                 /\ ((sign' = (-1)%Z /\ blocked_at_zero_lower d e i = true)
                     \/ (sign' = 1%Z /\ blocked_at_zero_upper d e i = true))))).
  assert (H : P (nz (prob d)) (for_range 0 (nz (prob d)) body (0%Z, index, sign, d))).
  { apply for_range_inv; [lia| |].
    - cbn. repeat split; auto. left. repeat split; auto; lia.
    - intros i [[[ret ix] sg] d'] Hi (Hp & Hz & Hdz & Hl & Hu & Hlam & Ht & Hcase).
      unfold body; cbn zeta.
      rewrite Hdz, Hz, Hl, Hu.
      fold (blocked_at_zero_lower d e i). fold (blocked_at_zero_upper d e i).
      destruct (blocked_at_zero_lower d e i) eqn:EL.
      + cbn. repeat split; auto. right. split; auto.
        exists i. repeat split; auto.
      + destruct (blocked_at_zero_upper d e i) eqn:EU.
        * cbn. repeat split; auto. right. split; auto.
          exists i. repeat split; auto.
        * cbn. repeat split; auto.
          destruct Hcase as [(R & I & Sg & Hall)|(R & j & Hj & Hrest)].
          -- left. repeat split; auto;
               destruct (Nat.eq_dec j i) as [->|Hne]; auto; apply Hall; lia.
          -- right. split; auto. exists j. split; [lia|exact Hrest]. }
  destruct (for_range 0 (nz (prob d)) body (0%Z, index, sign, d)) as [[[ret ix] sg] d'].
  exact H.
Qed.

(** C5, as the code has it: whenever some component is at or past a bound
    by [e] with the direction pushing it further, the step is pinned to
    [tau = 0] and the reported blocking constraint is such a component, with
    sign [-1] for a lower and [1] for an upper bound. *)
Theorem casadi_qp_primal_blocking_zero (d : casadi_qp_data) (e : T1)
  (index sign : Z) :
  (exists i, (i < nz (prob d))%nat
             /\ (blocked_at_zero_lower d e i = true
                 \/ blocked_at_zero_upper d e i = true)) ->
  let '(index', sign', d') := casadi_qp_primal_blocking d e index sign in
  tau d' = 0%T1
  /\ exists i, (i < nz (prob d))%nat /\ index' = Z.of_nat i
       /\ ((sign' = (-1)%Z /\ blocked_at_zero_lower d e i = true)
           \/ (sign' = 1%Z /\ blocked_at_zero_upper d e i = true)).
Proof.
  intros [i [Hi Hb]].
  unfold casadi_qp_primal_blocking.
  pose proof (zero_blocking_inv d e index sign) as H.
  destruct (casadi_qp_zero_blocking d e index sign) as [[[ret ix] sg] d'].
  destruct H as (_ & _ & _ & _ & _ & _ & _ & [(R & _ & _ & Hall)|(R & j & Hj & Hrest)]).
  - destruct (Hall i Hi) as [HL HU]. rewrite HL, HU in Hb.
    destruct Hb; discriminate.
  - subst ret. cbn. split; [reflexivity|].
    exists j. auto.
Qed.

Lemma casadi_qp_primal_blocking_zero_witness :
  let '(index', sign', d') :=
    casadi_qp_primal_blocking qp_two_violated (Fin (1 # 2)) (-1)%Z 0%Z in
  tau d' = 0%T1
  /\ exists i, (i < 2)%nat /\ index' = Z.of_nat i
       /\ ((sign' = (-1)%Z /\ blocked_at_zero_lower qp_two_violated (Fin (1 # 2)) i = true)
           \/ (sign' = 1%Z /\ blocked_at_zero_upper qp_two_violated (Fin (1 # 2)) i = true)).
Proof.
  apply (casadi_qp_primal_blocking_zero qp_two_violated (Fin (1 # 2)) (-1)%Z 0%Z).
  exists 0%nat. split; [cbn; lia|left; reflexivity].
Defined.

(** C5 as stated fails: component 0 violates its bound by 5 and component 1
    by 1, both are pushed further, and the reported constraint is 1. *)
Lemma casadi_qp_primal_blocking_zero_counterexample :
  ~ primal_blocking_reports_most_violating qp_two_violated (Fin (1 # 2)) (-1)%Z 0%Z.
Proof.
  unfold primal_blocking_reports_most_violating.
  intros H.
  assert (T : exists i, (i < nz (prob qp_two_violated))%nat
                        /\ pushed_past qp_two_violated (Fin (1 # 2)) i = true)
    by (exists 0%nat; split; [cbn; lia|reflexivity]).
  specialize (H T).
  assert (E : fst (fst (casadi_qp_primal_blocking qp_two_violated (Fin (1 # 2)) (-1) 0))
              = 1%Z) by reflexivity.
  destruct (casadi_qp_primal_blocking qp_two_violated (Fin (1 # 2)) (-1) 0)
    as [[ix sg] d'].
  cbn in E; subst ix.
  destruct H as (_ & i & Hi & Hix & _ & Hmax).
  assert (i = 1)%nat by lia; subst i.
  specialize (Hmax 0%nat ltac:(cbn; lia) eq_refl).
  vm_compute in Hmax. discriminate.
Qed.

(** ** The accepted primal step *)

Lemma Qdiv_mul_cancel (a b : Q) : ~ b == 0 -> (a / b) * b == a.
Proof. intros Hb; field; exact Hb. Qed.

(** One component of the scan of [casadi_qp_primal_blocking], for a
    component [zq] that starts between [lo] and [hi], the bounds enlarged by
    the budget. *)
Lemma primal_blocking_component (lo hi : T1) (zq dq tq : Q) :
  0 <= tq ->
  (lo <=? Fin zq)%T1 = true -> (Fin zq <=? hi)%T1 = true ->
  let trial := (Fin zq + Fin tq * Fin dq)%T1 in
  if (Fin dq =? 0)%T1 then
    (lo <=? trial)%T1 = true /\ (trial <=? hi)%T1 = true
  else if (Fin dq <? 0)%T1 && (trial <? lo)%T1 then
    exists tq', ((lo - Fin zq) / Fin dq)%T1 = Fin tq' /\ 0 <= tq' <= tq
      /\ (lo <=? Fin zq + Fin tq' * Fin dq)%T1 = true
      /\ (Fin zq + Fin tq' * Fin dq <=? hi)%T1 = true
  else if (Fin dq >? 0)%T1 && (trial >? hi)%T1 then
    exists tq', ((hi - Fin zq) / Fin dq)%T1 = Fin tq' /\ 0 <= tq' <= tq
      /\ (lo <=? Fin zq + Fin tq' * Fin dq)%T1 = true
      /\ (Fin zq + Fin tq' * Fin dq <=? hi)%T1 = true
  else
    (lo <=? trial)%T1 = true /\ (trial <=? hi)%T1 = true.
Proof.
  intros Ht Hlo Hhi trial; unfold trial; clear trial.
  destruct (Fin dq =? 0)%T1 eqn:E0.
  - apply T1eqb_Fin in E0.
    destruct lo, hi; cbn in *; q_cases; try discriminate; auto; split; auto;
      exfalso; nra.
  - assert (Hd : ~ dq == 0).
    { intros C. apply T1eqb_Fin in C. rewrite C in E0. discriminate. }
    destruct (Fin dq <? 0)%T1 eqn:EL.
    + apply T1ltb_Fin in EL.
      destruct (Fin zq + Fin tq * Fin dq <? lo)%T1 eqn:ET; cbn [andb].
      * destruct lo as [l| | |]; try discriminate.
        apply T1ltb_Fin in ET. apply T1leb_Fin in Hlo.
        exists ((l + - zq) / dq). 
        pose proof (Qdiv_mul_cancel (l + - zq) dq Hd) as Hm.
        cbn [T1sub T1opp T1add T1div T1mul].
        destruct (Qeq_bool dq 0) eqn:EB;
          [apply Qeq_bool_iff in EB; contradiction|].
        split; [reflexivity|].
        assert (0 <= (l + - zq) / dq) by nra.
        assert ((l + - zq) / dq <= tq) by nra.
        split; [split; assumption|].
        split.
        -- apply T1leb_Fin. lra.
        -- destruct hi as [h| | |]; try discriminate; auto.
           apply T1leb_Fin in Hhi. apply T1leb_Fin. nra.
      * assert (U : (Fin dq >? 0)%T1 = false).
        { unfold T1gtb. destruct (0 <? Fin dq)%T1 eqn:C; auto.
          apply T1ltb_Fin in C. lra. }
        rewrite U; cbn [andb].
        destruct lo as [l| | |], hi as [h| | |]; try discriminate;
          cbn in *; q_cases; try discriminate; auto; split; auto; exfalso; nra.
    + cbn [andb].
      assert (Hpos : 0 < dq).
      { destruct (Qlt_le_dec 0 dq) as [|C]; auto.
        assert (dq < 0) by (destruct (Qeq_dec dq 0); [contradiction|lra]).
        apply T1ltb_Fin in H. rewrite H in EL. discriminate. }
      assert (U : (Fin dq >? 0)%T1 = true) by (apply T1ltb_Fin; exact Hpos).
      rewrite U; cbn [andb].
      destruct (Fin zq + Fin tq * Fin dq >? hi)%T1 eqn:ET.
      * destruct hi as [h| | |]; try discriminate.
        unfold T1gtb in ET. apply T1ltb_Fin in ET. apply T1leb_Fin in Hhi.
        exists ((h + - zq) / dq).
        pose proof (Qdiv_mul_cancel (h + - zq) dq Hd) as Hm.
        cbn [T1sub T1opp T1add T1div T1mul].
        destruct (Qeq_bool dq 0) eqn:EB;
          [apply Qeq_bool_iff in EB; contradiction|].
        split; [reflexivity|].
        assert (0 <= (h + - zq) / dq) by nra.
        assert ((h + - zq) / dq <= tq) by nra.
        split; [split; assumption|].
        split.
        -- destruct lo as [l| | |]; try discriminate; auto.
           apply T1leb_Fin in Hlo. apply T1leb_Fin. nra.
        -- apply T1leb_Fin. lra.
      * destruct lo as [l| | |], hi as [h| | |]; try discriminate;
          cbn in *; q_cases; try discriminate; auto; split; auto; exfalso; nra.
Qed.

Lemma T1leb_Fin_r_eq (lo : T1) (a b : Q) :
  a == b -> (lo <=? Fin a)%T1 = true -> (lo <=? Fin b)%T1 = true.
Proof. intros E; destruct lo; cbn; q_cases; auto; try discriminate; lra. Qed.

Lemma T1leb_Fin_l_eq (hi : T1) (a b : Q) :
  a == b -> (Fin a <=? hi)%T1 = true -> (Fin b <=? hi)%T1 = true.
Proof. intros E; destruct hi; cbn; q_cases; auto; try discriminate; lra. Qed.

(** A component within its enlarged bounds at the steps 0 and [t1] is
    within them at every step in between. *)
Lemma within_between (lo hi : T1) (zq dq t1 t : Q) :
  0 <= t <= t1 ->
  (lo <=? Fin zq)%T1 = true -> (Fin zq <=? hi)%T1 = true ->
  (lo <=? Fin zq + Fin t1 * Fin dq)%T1 = true ->
  (Fin zq + Fin t1 * Fin dq <=? hi)%T1 = true ->
  (lo <=? Fin zq + Fin t * Fin dq)%T1 = true
  /\ (Fin zq + Fin t * Fin dq <=? hi)%T1 = true.
Proof.
  intros Ht L0 H0 L1 H1.
  destruct (Qlt_le_dec dq 0) as [Hd|Hd];
    destruct lo as [l| | |], hi as [h| | |]; try discriminate;
    cbn in *; q_cases; try discriminate; auto; split; auto; exfalso; nra.
Qed.

Lemma within_budget_at_zero (d : casadi_qp_data) (e : T1) (i : nat) (zq dq : Q) :
  rd (z d) i = Fin zq -> rd (dz d) i = Fin dq ->
  within_budget d e 0%T1 i ->
  (rd (lbz d) i - e <=? Fin zq)%T1 = true /\ (Fin zq <=? rd (ubz d) i + e)%T1 = true.
Proof.
  unfold within_budget; intros -> -> [L U]; cbn [T1mul T1add] in *.
  split.
  - apply (T1leb_Fin_r_eq _ (zq + 0 * dq)); [lra|exact L].
  - apply (T1leb_Fin_l_eq _ (zq + 0 * dq)); [lra|exact U].
Qed.

Lemma within_budget_between (d : casadi_qp_data) (e : T1) (i : nat) (t1 t : Q) :
  is_finite (rd (z d) i) = true -> is_finite (rd (dz d) i) = true ->
  0 <= t <= t1 ->
  within_budget d e 0%T1 i -> within_budget d e (Fin t1) i ->
  within_budget d e (Fin t) i.
Proof.
  intros Fz Fd Ht W0 W1.
  destruct (rd (z d) i) as [zq| | |] eqn:Ez; try discriminate.
  destruct (rd (dz d) i) as [dq| | |] eqn:Ed; try discriminate.
  destruct (within_budget_at_zero d e i zq dq Ez Ed W0) as [L0 U0].
  unfold within_budget in *; rewrite Ez, Ed in *.
  destruct W1 as [L1 U1].
  apply (within_between _ _ zq dq t1 t); assumption.
Qed.

Lemma primal_blocking_loop_within (d0 : casadi_qp_data) (e : T1) :
  (forall i, (i < nz (prob d0))%nat ->
     is_finite (rd (z d0) i) = true /\ is_finite (rd (dz d0) i) = true) ->
  (forall i, (i < nz (prob d0))%nat -> within_budget d0 e 0%T1 i) ->
  forall (n i : nat) (ix sg : Z) (d : casadi_qp_data) (tq : Q),
    (i + n = nz (prob d0))%nat ->
    z d = z d0 -> dz d = dz d0 -> lbz d = lbz d0 -> ubz d = ubz d0 ->
    tau d = Fin tq -> 0 <= tq ->
    (forall j, (j < i)%nat -> within_budget d0 e (Fin tq) j) ->
    exists tq',
      tau (snd (casadi_qp_primal_blocking_loop e n i (ix, sg, d))) = Fin tq'
      /\ 0 <= tq' <= tq
      /\ forall j, (j < nz (prob d0))%nat -> within_budget d0 e (Fin tq') j.
Proof.
  intros Hfin Henv.
  induction n as [|n IH]; intros i ix sg d tq Hn Hz Hdz Hl Hu Ht Htq Hdone.
  - cbn. exists tq. split; [exact Ht|]. split; [lra|].
    intros j Hj; apply Hdone; lia.
  - assert (Hi : (i < nz (prob d0))%nat) by lia.
    destruct (Hfin i Hi) as [Fz Fd].
    destruct (rd (z d0) i) as [zq| | |] eqn:Ez; try discriminate.
    destruct (rd (dz d0) i) as [dq| | |] eqn:Ed; try discriminate.
    destruct (within_budget_at_zero d0 e i zq dq Ez Ed (Henv i Hi)) as [L0 U0].
    pose proof (primal_blocking_component _ _ zq dq tq Htq L0 U0) as C.
    cbn zeta in C.
    (* the components scanned so far stay within budget for a shorter step *)
    assert (Shorter : forall tq', 0 <= tq' <= tq ->
              forall j, (j < i)%nat -> within_budget d0 e (Fin tq') j).
    { intros tq' Ht' j Hj.
      destruct (Hfin j ltac:(lia)) as [Fzj Fdj].
      apply (within_budget_between d0 e j tq tq'); auto.
      apply Henv; lia. }
    assert (Next : forall tq' ix' sg' d',
              z d' = z d0 -> dz d' = dz d0 -> lbz d' = lbz d0 -> ubz d' = ubz d0 ->
              tau d' = Fin tq' -> 0 <= tq' <= tq ->
              within_budget d0 e (Fin tq') i ->
              exists tq'',
                tau (snd (if (tau (snd (ix', sg', d')) <=? 0)%T1 then (ix', sg', d')
                          else casadi_qp_primal_blocking_loop e n (S i) (ix', sg', d')))
                = Fin tq''
                /\ 0 <= tq'' <= tq
                /\ forall j, (j < nz (prob d0))%nat -> within_budget d0 e (Fin tq'') j).
    { intros tq' ix' sg' d' Hz' Hdz' Hl' Hu' Ht' Hb Wi.
      cbn [snd]. rewrite Ht'.
      destruct (Fin tq' <=? 0)%T1 eqn:Estop.
      - cbn [snd]. exists tq'. split; [exact Ht'|]. split; [exact Hb|].
        apply T1leb_Fin in Estop.
        intros j Hj. destruct (Hfin j Hj) as [Fzj Fdj].
        apply (within_budget_between d0 e j 0 tq'); auto; try lra; apply Henv; exact Hj.
      - destruct (IH (S i) ix' sg' d' tq' ltac:(lia) Hz' Hdz' Hl' Hu' Ht' ltac:(lra))
          as [tq'' (E & B & W)].
        + intros j Hj. destruct (Nat.eq_dec j i) as [->|Hne]; [exact Wi|].
          apply Shorter; [exact Hb|lia].
        + exists tq''. split; [exact E|]. split; [lra|exact W]. }
    cbn [casadi_qp_primal_blocking_loop].
    rewrite Hz, Hdz, Hl, Hu, Ht, Ez, Ed.
    destruct (Fin dq =? 0)%T1 eqn:E0.
    + (* zero step *)
      destruct (IH (S i) ix sg d tq ltac:(lia) Hz Hdz Hl Hu Ht Htq) as [tq' (E & B & W)].
      * intros j Hj. destruct (Nat.eq_dec j i) as [->|Hne]; [|apply Hdone; lia].
        unfold within_budget. rewrite Ez, Ed. exact C.
      * exists tq'. auto.
    + destruct ((Fin dq <? 0)%T1 && (Fin zq + Fin tq * Fin dq <? rd (lbz d0) i - e)%T1)
        eqn:EL.
      * destruct C as [tq' (Ediv & Hb & Lw & Uw)].
        cbv iota.
        eapply (Next tq'); try (cbn; assumption).
        unfold within_budget. rewrite Ez, Ed. split; assumption.
      * destruct ((Fin dq >? 0)%T1 && (Fin zq + Fin tq * Fin dq >? rd (ubz d0) i + e)%T1)
          eqn:EU.
        -- destruct C as [tq' (Ediv & Hb & Lw & Uw)].
           cbv iota.
           eapply (Next tq'); try (cbn; assumption).
           unfold within_budget. rewrite Ez, Ed. split; assumption.
        -- cbv iota.
           apply (Next tq ix sg d); auto; [lra|].
           unfold within_budget. rewrite Ez, Ed. exact C.
Qed.




(** ** The order of the scalars without [NaN] *)

Lemma isnan_fabs (x : T1) : isnan (fabs x) = isnan x.
Proof. destruct x; reflexivity. Qed.

Lemma fabs_pos (x : T1) :
  isnan x = false -> (x =? 0)%T1 = false -> (fabs x >? 0)%T1 = true.
Proof.
  destruct x as [q| | |]; intros Hn H0; try discriminate; auto.
  apply T1ltb_Fin.
  assert (Hq : ~ q == 0).
  { intros C. apply T1eqb_Fin in C. rewrite C in H0. discriminate. }
  destruct (Qlt_le_dec q 0) as [Hneg|Hpos].
  - rewrite Qabs_neg by lra. lra.
  - rewrite Qabs_pos by lra. lra.
Qed.

Lemma T1_not_gtb_leb (x y : T1) :
  isnan x = false -> isnan y = false -> (x >? y)%T1 = false -> (x <=? y)%T1 = true.
Proof.
  unfold T1gtb; destruct x, y; cbn; intros; q_cases; try discriminate; auto; lra.
Qed.

Lemma T1ltb_leb (x y : T1) : (x <? y)%T1 = true -> (x <=? y)%T1 = true.
Proof. destruct x, y; cbn; intros; q_cases; try discriminate; auto; lra. Qed.

Lemma T1leb_refl (x : T1) : isnan x = false -> (x <=? x)%T1 = true.
Proof. destruct x; cbn; intros; q_cases; try discriminate; auto; lra. Qed.

Lemma T1leb_ltb_trans (x y v : T1) :
  (x <=? y)%T1 = true -> (y <? v)%T1 = true -> (x <? v)%T1 = true.
Proof.
  destruct x, y, v; cbn; intros; q_cases; try discriminate; auto; lra.
Qed.

Lemma T1ltb_irrefl (x : T1) : (x <? x)%T1 = false.
Proof. destruct x; cbn; q_cases; auto; lra. Qed.

(** ** [casadi_qp_du_index] *)

Lemma du_index_step_candidate (d : casadi_qp_data) (i : nat) (best : Z * T1) :
  casadi_qp_du_index_step d i best
  = if du_candidate d i && (fabs (rd (w d) i) >? snd best)%T1
    then (Z.of_nat i, fabs (rd (w d) i)) else best.
Proof.
  unfold casadi_qp_du_index_step, du_candidate.
  destruct (rd (w d) i =? 0)%T1; cbn [negb andb]; auto.
  destruct (if (rd (w d) i >? 0)%T1 then _ else _); cbn [negb andb]; auto.
  destruct (casadi_qp_du_check d i >? du d)%T1; cbn [negb andb]; auto.
Qed.

(** The search loop keeps the first candidate of largest sensitivity. *)
Lemma du_index_loop_best (d : casadi_qp_data) (n : nat) :
  (forall i, (i < n)%nat -> isnan (rd (w d) i) = false) ->
  let '(r, bw) := for_range 0 n (casadi_qp_du_index_step d) ((-1)%Z, 0%T1) in
  (r = (-1)%Z /\ bw = 0%T1 /\ forall i, (i < n)%nat -> du_candidate d i = false)
  \/ (exists i, (i < n)%nat /\ r = Z.of_nat i /\ bw = fabs (rd (w d) i)
        /\ du_candidate d i = true
        /\ forall j, (j < n)%nat -> du_candidate d j = true ->
             (fabs (rd (w d) j) <=? fabs (rd (w d) i))%T1 = true
             /\ ((j < i)%nat -> (fabs (rd (w d) j) <? fabs (rd (w d) i))%T1 = true)).
Proof.
  intros Hnan.
  pose (P := fun (m : nat) (s : Z * T1) =>
    let '(r, bw) := s in
    (r = (-1)%Z /\ bw = 0%T1 /\ forall i, (i < m)%nat -> du_candidate d i = false)
    \/ (exists i, (i < m)%nat /\ r = Z.of_nat i /\ bw = fabs (rd (w d) i)
          /\ du_candidate d i = true
          /\ forall j, (j < m)%nat -> du_candidate d j = true ->
               (fabs (rd (w d) j) <=? fabs (rd (w d) i))%T1 = true
               /\ ((j < i)%nat -> (fabs (rd (w d) j) <? fabs (rd (w d) i))%T1 = true))).
  assert (H : P n (for_range 0 n (casadi_qp_du_index_step d) ((-1)%Z, 0%T1))).
  { apply for_range_inv; [lia| |].
    - left. repeat split; auto. intros i Hi; lia.
    - intros m [r bw] Hm HP. rewrite du_index_step_candidate. cbn [snd].
      assert (Nm : isnan (fabs (rd (w d) m)) = false)
        by (rewrite isnan_fabs; apply Hnan; lia).
      destruct (du_candidate d m) eqn:Cm; cbn [andb].
      + destruct HP as [(Hr & Hb & Hnone)|(i & Hi & Hr & Hb & Ci & Hbest)].
        * (* the first candidate *)
          subst bw.
          assert (Pos : (fabs (rd (w d) m) >? 0)%T1 = true).
          { apply fabs_pos; [apply Hnan; lia|].
            unfold du_candidate in Cm.
            destruct (rd (w d) m =? 0)%T1; [discriminate|reflexivity]. }
          rewrite Pos. right. exists m. repeat split; auto.
          -- destruct (Nat.eq_dec j m) as [->|Hne]; [apply T1leb_refl; exact Nm|].
             rewrite Hnone in H0 by lia. discriminate.
          -- intros Hj. rewrite Hnone in H0 by lia. discriminate.
        * subst bw.
          assert (Ni : isnan (fabs (rd (w d) i)) = false)
            by (rewrite isnan_fabs; apply Hnan; lia).
          destruct (fabs (rd (w d) m) >? fabs (rd (w d) i))%T1 eqn:G.
          -- (* strictly better than the best so far *)
             right. exists m. repeat split; auto.
             ++ destruct (Nat.eq_dec j m) as [->|Hne]; [apply T1leb_refl; exact Nm|].
                apply T1ltb_leb.
                apply (T1leb_ltb_trans _ (fabs (rd (w d) i))); [|exact G].
                apply Hbest; [lia|exact H0].
             ++ intros Hj.
                apply (T1leb_ltb_trans _ (fabs (rd (w d) i))); [|exact G].
                apply Hbest; [lia|exact H0].
          -- right. exists i. split; [lia|]. repeat split; auto.
             ++ destruct (Nat.eq_dec j m) as [->|Hne].
                ** apply T1_not_gtb_leb; assumption.
                ** apply Hbest; [lia|exact H0].
             ++ intros Hj. apply Hbest; [lia|exact H0|exact Hj].
      + destruct HP as [(Hr & Hb & Hnone)|(i & Hi & Hr & Hb & Ci & Hbest)].
        * left. repeat split; auto. intros j Hj.
          destruct (Nat.eq_dec j m) as [->|Hne]; [exact Cm|apply Hnone; lia].
        * right. exists i. split; [lia|]. repeat split; auto.
          -- destruct (Nat.eq_dec j m) as [->|Hne];
               [rewrite Cm in H0; discriminate|apply Hbest; [lia|exact H0]].
          -- intros Hj. apply Hbest; [lia|exact H0|exact Hj]. }
  destruct (for_range 0 n (casadi_qp_du_index_step d) ((-1)%Z, 0%T1)) as [r bw].
  exact H.
Qed.

(** C8: with the sensitivities [w] that it computes, [casadi_qp_du_index]
    returns, among the rows [i < nz] with [w[i] != 0] whose multiplier has
    the sign that removing it decreases the dual error and whose
    [casadi_qp_du_check] does not exceed the dual error, the row of largest
    [|w[i]|], the smallest such row on ties, with [*sign = 0]; it returns
    [-1] when there is no such row. *)
Theorem casadi_qp_du_index_best (d : casadi_qp_data) (sign : Z) :
  let dw := set_w (casadi_qp_du_sens d) d in
  (forall i, (i < nz (prob d))%nat -> isnan (rd (w dw) i) = false) ->
  let '(r, sign', _) := casadi_qp_du_index d sign in
  (r = (-1)%Z /\ sign' = sign
   /\ forall i, (i < nz (prob d))%nat -> du_candidate dw i = false)
  \/ (exists i, (i < nz (prob d))%nat /\ r = Z.of_nat i /\ sign' = 0%Z
        /\ du_candidate dw i = true
        /\ forall j, (j < nz (prob d))%nat -> du_candidate dw j = true ->
             (fabs (rd (w dw) j) <=? fabs (rd (w dw) i))%T1 = true
             /\ ((j < i)%nat -> (fabs (rd (w dw) j) <? fabs (rd (w dw) i))%T1 = true)).
Proof.
  intros dw Hnan.
  unfold casadi_qp_du_index. fold dw.
  pose proof (du_index_loop_best dw (nz (prob d)) Hnan) as H.
  change (prob dw) with (prob d).
  destruct (for_range 0 (nz (prob d)) (casadi_qp_du_index_step dw) ((-1)%Z, 0%T1))
    as [r bw].
  cbn [fst].
  destruct H as [(Hr & _ & Hnone)|(i & Hi & Hr & _ & Ci & Hbest)].
  - subst r. cbn. left. auto.
  - subst r.
    destruct (Z.geb_spec (Z.of_nat i) 0) as [_|C]; [|lia].
    right. exists i. auto.
Qed.

Lemma casadi_qp_du_index_best_witness :
  let dw := set_w (casadi_qp_du_sens qp_dual_pivot) qp_dual_pivot in
  let '(r, sign', _) := casadi_qp_du_index qp_dual_pivot 1%Z in
  (r = (-1)%Z /\ sign' = 1%Z
   /\ forall i, (i < 4)%nat -> du_candidate dw i = false)
  \/ (exists i, (i < 4)%nat /\ r = Z.of_nat i /\ sign' = 0%Z
        /\ du_candidate dw i = true
        /\ forall j, (j < 4)%nat -> du_candidate dw j = true ->
             (fabs (rd (w dw) j) <=? fabs (rd (w dw) i))%T1 = true
             /\ ((j < i)%nat -> (fabs (rd (w dw) j) <? fabs (rd (w dw) i))%T1 = true)).
Proof.
  apply (casadi_qp_du_index_best qp_dual_pivot 1%Z).
  intros i Hi. change (nz (prob qp_dual_pivot)) with 4%nat in Hi.
  destruct i as [|[|[|[|i]]]]; try reflexivity; lia.
Defined.

(** On that problem the row returned is the second linear constraint, of
    sensitivity 2, before the first one and the variable, of sensitivity 1. *)
Example casadi_qp_du_index_example :
  fst (fst (casadi_qp_du_index qp_dual_pivot 1%Z)) = 3%Z
  /\ map (du_candidate (set_w (casadi_qp_du_sens qp_dual_pivot) qp_dual_pivot))
       [0; 1; 2; 3]%nat = [false; false; true; true].
Proof. split; reflexivity. Qed.

(** ** [casadi_qp_calc_dependent] *)

Lemma casadi_qp_pr_scan (d : casadi_qp_data) :
  casadi_qp_pr d
  = let s := pr_scan (z d) (lbz d) (ubz d) (nz (prob d)) in
    set_ipr (snd s) (set_pr (fst s) d).
Proof.
  unfold casadi_qp_pr, pr_scan; cbn zeta.
  set (body := fun (i : nat) (d0 : casadi_qp_data) => _).
  set (sbody := fun (i : nat) (s : T1 * Z) => _).
  apply (for_range_inv
           (fun m dd => dd = set_ipr (snd (for_range 0 m sbody (0%T1, (-1)%Z)))
                              (set_pr (fst (for_range 0 m sbody (0%T1, (-1)%Z))) d)));
    [lia|reflexivity|].
  intros i t Hi ->. rewrite for_range_last by lia.
  destruct (for_range 0 i sbody (0%T1, (-1)%Z)) as [a b].
  unfold body, sbody;
    cbn [z lbz ubz pr infeas du lam prob dmin set_ipr set_pr set_idu set_du set_lam
         set_infeas set_z set_f fst snd].
  repeat match goal with |- context [if ?c then _ else _] => destruct c end;
    reflexivity.
Qed.

Lemma casadi_qp_du_scan (d : casadi_qp_data) :
  casadi_qp_du d
  = let s := du_scan (infeas d) (nx (prob d)) in
    set_idu (snd s) (set_du (fst s) d).
Proof.
  unfold casadi_qp_du, du_scan; cbn zeta.
  set (body := fun (i : nat) (d0 : casadi_qp_data) => _).
  set (sbody := fun (i : nat) (s : T1 * Z) => _).
  apply (for_range_inv
           (fun m dd => dd = set_idu (snd (for_range 0 m sbody (0%T1, (-1)%Z)))
                              (set_du (fst (for_range 0 m sbody (0%T1, (-1)%Z))) d)));
    [lia|reflexivity|].
  intros i t Hi ->. rewrite for_range_last by lia.
  destruct (for_range 0 i sbody (0%T1, (-1)%Z)) as [a b].
  unfold body, sbody;
    cbn [z lbz ubz pr infeas du lam prob dmin set_ipr set_pr set_idu set_du set_lam
         set_infeas set_z set_f fst snd].
  repeat match goal with |- context [if ?c then _ else _] => destruct c end;
    reflexivity.
Qed.

(** The loop over the multipliers of the variables, from any record. *)
Lemma calc_dependent_loop (dm : T1) (n : nat) (X : casadi_qp_data) :
  for_range 0 n (fun i d =>
      let d :=
        if (rd (lam d) i >? 0)%T1 then
          set_lam (upd (lam d) i (fmax (- rd (infeas d) i)%T1 dm)) d
        else if (rd (lam d) i <? 0)%T1 then
          set_lam (upd (lam d) i (fmin (- rd (infeas d) i)%T1 (- dm)%T1)) d
        else d in
      set_infeas (upd (infeas d) i (rd (infeas d) i + rd (lam d) i)%T1) d) X
  = let li := lam_infeas_update dm n (lam X, infeas X) in
    set_infeas (snd li) (set_lam (fst li) X).
Proof.
  cbn zeta. unfold lam_infeas_update.
  set (body := fun (i : nat) (d0 : casadi_qp_data) => _).
  set (sbody := fun (i : nat) (s : list T1 * list T1) => _).
  apply (for_range_inv
           (fun m dd =>
              dd = set_infeas (snd (for_range 0 m sbody (lam X, infeas X)))
                     (set_lam (fst (for_range 0 m sbody (lam X, infeas X))) X)));
    [lia|destruct X; reflexivity|].
  intros i t Hi ->. rewrite for_range_last by lia.
  destruct (for_range 0 i sbody (lam X, infeas X)) as [a b].
  unfold body, sbody;
    cbn [z lbz ubz pr infeas du lam prob dmin set_ipr set_pr set_idu set_du set_lam
         set_infeas set_z set_f fst snd].
  repeat match goal with |- context [if ?c then _ else _] => destruct c end;
    reflexivity.
Qed.

(** The state-passing function written as one assignment of its eight
    results. *)
Lemma casadi_qp_calc_dependent_eq (d : casadi_qp_data) :
  casadi_qp_calc_dependent d
  = let li := lam_infeas_update (dmin (prob d)) (nx (prob d)) (lam d, calc_grad d) in
    let p_ := pr_scan (calc_z d) (lbz d) (ubz d) (nz (prob d)) in
    let d_ := du_scan (snd li) (nx (prob d)) in
    set_idu (snd d_) (set_du (fst d_) (set_ipr (snd p_) (set_pr (fst p_)
      (set_infeas (snd li) (set_lam (fst li) (set_z (calc_z d) (set_f (calc_f d) d))))))).
Proof.
  unfold casadi_qp_calc_dependent; cbn zeta.
  rewrite casadi_qp_du_scan, casadi_qp_pr_scan; cbn zeta.
  rewrite calc_dependent_loop; cbn zeta.
  reflexivity.
Qed.

Lemma for_range_ext {St : Type} (a b : nat) (f1 f2 : nat -> St -> St) (s : St) :
  (forall i t, (a <= i < b)%nat -> f1 i t = f2 i t) ->
  for_range a b f1 s = for_range a b f2 s.
Proof.
  intros H. destruct (Nat.le_gt_cases a b) as [Hab|Hab];
    [|rewrite !for_range_empty by lia; reflexivity].
  induction b as [|b IH].
  - rewrite !for_range_empty by lia; reflexivity.
  - destruct (Nat.eq_dec a (S b)) as [->|Hne];
      [rewrite !for_range_empty by lia; reflexivity|].
    rewrite !for_range_last by lia.
    rewrite IH; [apply H; lia|intros; apply H; lia|lia].
Qed.

Lemma fill_all (l : list T1) (n : nat) (alpha : T1) :
  length l = n -> casadi_fill l n alpha = repeat alpha n.
Proof.
  intros Hl. apply (nth_ext _ _ 0%T1 0%T1).
  - rewrite length_fill, repeat_length; exact Hl.
  - intros k Hk. rewrite length_fill in Hk.
    change (nth k (casadi_fill l n alpha) 0%T1) with (rd (casadi_fill l n alpha) k).
    rewrite rd_fill by lia.
    destruct (Nat.ltb_spec k n); [|lia].
    symmetry; apply nth_repeat_lt; lia.
Qed.

Lemma length_copy (x : list T1) (n : nat) (y : list T1) :
  length (casadi_copy x n y) = length y.
Proof. apply (length_for_range_upd 0 n (fun k => k) (fun k _ => rd x k)). Qed.

Lemma rd_copy (x : list T1) (n : nat) (y : list T1) (k : nat) :
  (n <= length y)%nat ->
  rd (casadi_copy x n y) k = if (k <? n)%nat then rd x k else rd y k.
Proof.
  intros Hn; unfold casadi_copy.
  apply (for_range_inv
           (fun m l => length l = length y
                       /\ rd l k = if (k <? m)%nat then rd x k else rd y k));
    [lia|split; reflexivity|].
  intros i t Hi [Hl Hk]; rewrite length_upd; split; [exact Hl|].
  unfold rd in *.
  destruct (Nat.eq_dec i k) as [->|Hne].
  - rewrite nth_upd_same by lia.
    destruct (Nat.ltb_spec k (S k)); [reflexivity|lia].
  - rewrite nth_upd_other by exact Hne. rewrite Hk.
    destruct (Nat.ltb_spec k i), (Nat.ltb_spec k (S i)); try reflexivity; lia.
Qed.

Lemma copy_all (x : list T1) (n : nat) (y y' : list T1) :
  length y = n -> length y' = n -> casadi_copy x n y = casadi_copy x n y'.
Proof.
  intros Hy Hy'. apply (nth_ext _ _ 0%T1 0%T1).
  - rewrite !length_copy; lia.
  - intros k Hk. rewrite length_copy in Hk.
    change (rd (casadi_copy x n y) k = rd (casadi_copy x n y') k).
    rewrite !rd_copy by lia.
    destruct (Nat.ltb_spec k n); [reflexivity|lia].
Qed.

Lemma length_mv (x : list T1) (sp : sparsity) (y v : list T1) (tr : bool) :
  length (casadi_mv x sp y v tr) = length v.
Proof.
  unfold casadi_mv; cbn zeta.
  apply (for_range_inv (fun _ l => length l = length v)); [lia|reflexivity|].
  intros i t _ Ht.
  destruct (Nat.le_gt_cases (sp_colind sp i) (sp_colind sp (i + 1))) as [Hc|Hc];
    [|rewrite for_range_empty by lia; exact Ht].
  apply (for_range_inv (fun _ l => length l = length v)); [lia|exact Ht|].
  intros el u _ Hu. destruct tr; rewrite length_upd; exact Hu.
Qed.

(** The product [A*y] reads [y] at the columns of [A] only. *)
Lemma mv_ext (x : list T1) (sp : sparsity) (y y' v : list T1) :
  (forall i, (i < sp_ncol sp)%nat -> rd y i = rd y' i) ->
  casadi_mv x sp y v false = casadi_mv x sp y' v false.
Proof.
  intros H; unfold casadi_mv; cbn zeta.
  apply for_range_ext; intros i t Hi.
  apply for_range_ext; intros el u Hel.
  rewrite (H i) by lia; reflexivity.
Qed.

Lemma dot_ext (n : nat) (x x' y : list T1) :
  (forall i, (i < n)%nat -> rd x i = rd x' i) ->
  casadi_dot n x y = casadi_dot n x' y.
Proof.
  intros H; unfold casadi_dot.
  apply for_range_ext; intros i t Hi. rewrite (H i) by lia; reflexivity.
Qed.

Lemma bilin_ext (A : list T1) (sp : sparsity) (n : nat) (x x' : list T1) :
  (sp_ncol sp <= n)%nat ->
  (forall cc k, (cc < sp_ncol sp)%nat ->
     (sp_colind sp cc <= k < sp_colind sp (cc + 1))%nat ->
     (sp_row sp (sp_ncol sp) k < n)%nat) ->
  (forall i, (i < n)%nat -> rd x i = rd x' i) ->
  casadi_bilin A sp x x = casadi_bilin A sp x' x'.
Proof.
  intros Hc Hr H; unfold casadi_bilin; cbn zeta.
  apply for_range_ext; intros cc t Hcc.
  apply for_range_ext; intros el u Hel.
  rewrite (H cc) by lia.
  rewrite (H (sp_row sp (sp_ncol sp) el)) by (apply (Hr cc); lia).
  reflexivity.
Qed.

(** [z[nx:]] is recomputed from [z[:nx]]. *)
Lemma calc_z_normal (d : casadi_qp_data) :
  length (z d) = (nx (prob d) + na (prob d))%nat ->
  let x0 := firstn (nx (prob d)) (z d) ++ zeros (na (prob d)) in
  calc_z d = firstn (nx (prob d)) (z d)
             ++ casadi_mv (nz_a d) (sp_a (prob d)) x0 (zeros (na (prob d))) false.
Proof.
  intros Hl x0. unfold calc_z, store, view; cbn zeta.
  rewrite fill_all by (rewrite length_skipn; lia).
  fold (zeros (na (prob d))). fold x0.
  assert (Lf : length (firstn (nx (prob d)) (z d)) = nx (prob d))
    by (rewrite length_firstn; lia).
  unfold x0 at 1 3.
  rewrite firstn_app, skipn_app, Lf, Nat.sub_diag.
  rewrite firstn_firstn, Nat.min_id. cbn [firstn skipn].
  rewrite app_nil_r.
  rewrite (skipn_all2 (firstn (nx (prob d)) (z d))) by lia.
  reflexivity.
Qed.

Lemma length_calc_z (d : casadi_qp_data) :
  length (z d) = (nx (prob d) + na (prob d))%nat ->
  length (calc_z d) = (nx (prob d) + na (prob d))%nat.
Proof.
  intros Hl. rewrite calc_z_normal by exact Hl. cbn zeta.
  rewrite length_app, length_mv, length_firstn. unfold zeros.
  rewrite repeat_length. lia.
Qed.

Lemma firstn_calc_z (d : casadi_qp_data) :
  length (z d) = (nx (prob d) + na (prob d))%nat ->
  firstn (nx (prob d)) (calc_z d) = firstn (nx (prob d)) (z d).
Proof.
  intros Hl. rewrite calc_z_normal by exact Hl. cbn zeta.
  rewrite firstn_app, length_firstn.
  replace (nx (prob d) - Nat.min (nx (prob d)) (length (z d)))%nat with 0%nat by lia.
  cbn [firstn]. rewrite app_nil_r, firstn_firstn, Nat.min_id. reflexivity.
Qed.

Lemma rd_firstn (l : list T1) (n k : nat) :
  (k < n)%nat -> rd (firstn n l) k = rd l k.
Proof.
  intros H; unfold rd; rewrite nth_firstn.
  destruct (Nat.ltb_spec k n); [reflexivity|lia].
Qed.

(** The update of the multipliers, entry by entry. *)
Lemma lam_infeas_update_spec (dm : T1) (n : nat) (l g_ : list T1) :
  (n <= length l)%nat -> (n <= length g_)%nat ->
  let s := lam_infeas_update dm n (l, g_) in
  length (fst s) = length l /\ length (snd s) = length g_
  /\ forall k,
       rd (fst s) k = (if (k <? n)%nat then multiplier_update dm (rd l k) (rd g_ k)
                       else rd l k)
       /\ rd (snd s) k = (if (k <? n)%nat
                          then (rd g_ k + multiplier_update dm (rd l k) (rd g_ k))%T1
                          else rd g_ k).
Proof.
  intros Hl Hg; cbn zeta; unfold lam_infeas_update.
  set (body := fun (i : nat) (s : list T1 * list T1) => _).
  apply (for_range_inv
           (fun m s =>
              length (fst s) = length l /\ length (snd s) = length g_
              /\ forall k,
                   rd (fst s) k = (if (k <? m)%nat
                                   then multiplier_update dm (rd l k) (rd g_ k)
                                   else rd l k)
                   /\ rd (snd s) k = (if (k <? m)%nat
                                      then (rd g_ k + multiplier_update dm (rd l k) (rd g_ k))%T1
                                      else rd g_ k)));
    [lia|cbn; auto|].
  intros i [a b] Hi (La & Lb & Hk). cbn [fst snd] in *.
  destruct (Hk i) as [Hai Hbi].
  destruct (Nat.ltb_spec i i) as [|_]; [lia|].
  unfold body.
  set (a' := if (rd a i >? 0)%T1 then _ else _).
  assert (Ha' : length a' = length a /\ rd a' i = multiplier_update dm (rd l i) (rd g_ i)
                /\ forall k, k <> i -> rd a' k = rd a k).
  { unfold a', multiplier_update. rewrite Hai, Hbi.
    destruct (rd l i >? 0)%T1; [|destruct (rd l i <? 0)%T1].
    - rewrite length_upd. split; [reflexivity|]. split.
      + unfold rd. apply nth_upd_same; lia.
      + intros k Hne. unfold rd. apply nth_upd_other; auto.
    - rewrite length_upd. split; [reflexivity|]. split.
      + unfold rd. apply nth_upd_same; lia.
      + intros k Hne. unfold rd. apply nth_upd_other; auto.
    - repeat split; auto. }
  destruct Ha' as (La' & Hi' & Ho').
  cbn [fst snd]. rewrite length_upd.
  split; [lia|]. split; [lia|].
  intros k. destruct (Nat.eq_dec k i) as [->|Hne].
  - destruct (Nat.ltb_spec i (S i)) as [_|]; [|lia].
    split; [exact Hi'|].
    rewrite rd_upd_same by lia. rewrite Hi', Hbi. reflexivity.
  - destruct (Hk k) as [Hak Hbk].
    rewrite (Ho' k Hne), Hak.
    rewrite rd_upd_other by auto. rewrite Hbk.
    destruct (Nat.ltb_spec k i), (Nat.ltb_spec k (S i)); try lia; auto.
Qed.

(** With a positive [dmin] the updated multiplier keeps its sign, so that
    updating it again with the same gradient gives it back. *)
Lemma multiplier_update_idem (dm l g_ : T1) :
  (0 <? dm)%T1 = true ->
  multiplier_update dm (multiplier_update dm l g_) g_ = multiplier_update dm l g_.
Proof.
  intros Hd. unfold multiplier_update at 2 3.
  destruct (l >? 0)%T1 eqn:Ep.
  - assert (P : (fmax (- g_)%T1 dm >? 0)%T1 = true).
    { unfold T1gtb in *. destruct g_, dm; cbn in *; intros; q_cases;
        try discriminate; auto; cbn; q_cases; auto; try lra. }
    unfold multiplier_update. rewrite P. reflexivity.
  - destruct (l <? 0)%T1 eqn:En.
    + assert (P : (fmin (- g_)%T1 (- dm)%T1 >? 0)%T1 = false
                  /\ (fmin (- g_)%T1 (- dm)%T1 <? 0)%T1 = true).
      { unfold T1gtb in *. destruct g_, dm; cbn in *; intros; q_cases;
          try discriminate; auto; cbn; q_cases; auto; try lra. }
      unfold multiplier_update. destruct P as [-> ->]. reflexivity.
    + unfold multiplier_update. rewrite Ep, En. reflexivity.
Qed.

Lemma lam_infeas_update_idem (dm : T1) (n : nat) (l g_ : list T1) :
  (0 <? dm)%T1 = true ->
  (n <= length l)%nat -> (n <= length g_)%nat ->
  lam_infeas_update dm n (fst (lam_infeas_update dm n (l, g_)), g_)
  = lam_infeas_update dm n (l, g_).
Proof.
  intros Hd Hl Hg.
  destruct (lam_infeas_update_spec dm n l g_ Hl Hg) as (L1 & L2 & H1).
  set (s1 := lam_infeas_update dm n (l, g_)) in *.
  destruct (lam_infeas_update_spec dm n (fst s1) g_ ltac:(lia) Hg) as (M1 & M2 & H2).
  set (s2 := lam_infeas_update dm n (fst s1, g_)) in *.
  rewrite (surjective_pairing s2), (surjective_pairing s1).
  f_equal; apply (nth_ext _ _ 0%T1 0%T1); try lia; intros k Hk;
    destruct (H1 k) as [A1 B1]; destruct (H2 k) as [A2 B2]; unfold rd in *.
  - rewrite A2, A1.
    destruct (Nat.ltb_spec k n); [|reflexivity].
    apply multiplier_update_idem; exact Hd.
  - rewrite B2, B1, A1.
    destruct (Nat.ltb_spec k n); [|reflexivity].
    rewrite multiplier_update_idem by exact Hd. reflexivity.
Qed.

Lemma skipn_lam_infeas_update (dm : T1) (n : nat) (l g_ : list T1) :
  (n <= length l)%nat -> (n <= length g_)%nat ->
  skipn n (fst (lam_infeas_update dm n (l, g_))) = skipn n l.
Proof.
  intros Hl Hg.
  destruct (lam_infeas_update_spec dm n l g_ Hl Hg) as (L1 & L2 & H1).
  apply (nth_ext _ _ 0%T1 0%T1).
  - rewrite !length_skipn; lia.
  - intros k Hk. rewrite !nth_skipn.
    destruct (H1 (n + k)%nat) as [A1 _]. unfold rd in A1. rewrite A1.
    destruct (Nat.ltb_spec (n + k) n); [lia|reflexivity].
Qed.

(** Two records with the same fields are the same record. *)
Lemma casadi_qp_data_ext (a b : casadi_qp_data) :
  prob a = prob b ->
  f a = f b ->
  nz_a a = nz_a b ->
  nz_h a = nz_h b ->
  g a = g b ->
  z a = z b ->
  lbz a = lbz b ->
  ubz a = ubz b ->
  infeas a = infeas b ->
  tinfeas a = tinfeas b ->
  lam a = lam b ->
  w a = w b ->
  dz a = dz b ->
  dlam a = dlam b ->
  iw a = iw b ->
  neverzero a = neverzero b ->
  neverlower a = neverlower b ->
  neverupper a = neverupper b ->
  nz_at a = nz_at b ->
  nz_kkt a = nz_kkt b ->
  beta a = beta b ->
  nz_v a = nz_v b ->
  nz_r a = nz_r b ->
  msg a = msg b ->
  tau a = tau b ->
  sing a = sing b ->
  mina a = mina b ->
  imina a = imina b ->
  pr a = pr b ->
  du a = du b ->
  ipr a = ipr b ->
  idu a = idu b ->
  a = b.
Proof.
  destruct a, b; cbn; intros; subst; reflexivity.
Qed.

Ltac data_fields :=
  cbn [prob f nz_a nz_h g z lbz ubz infeas tinfeas lam w dz dlam iw neverzero
       neverlower neverupper nz_at nz_kkt beta nz_v nz_r msg tau sing mina
       imina pr du ipr idu
       set_f set_z set_infeas set_tinfeas set_lam set_w set_dz set_dlam
       set_iw set_neverzero set_neverlower set_neverupper set_nz_at set_msg
       set_tau set_sing set_pr set_du set_ipr set_idu].

Lemma calc_z_ext (d d' : casadi_qp_data) :
  prob d' = prob d -> nz_a d' = nz_a d ->
  length (z d) = (nx (prob d) + na (prob d))%nat ->
  length (z d') = (nx (prob d) + na (prob d))%nat ->
  firstn (nx (prob d)) (z d') = firstn (nx (prob d)) (z d) ->
  calc_z d' = calc_z d.
Proof.
  intros Hp Ha Hl Hl' Hf.
  rewrite (calc_z_normal d) by exact Hl.
  rewrite (calc_z_normal d') by (rewrite Hp; exact Hl').
  cbn zeta. rewrite Hp, Ha, Hf. reflexivity.
Qed.

(** C9: for a record of the sizes of [casadi_qp_init], a pattern of [H]
    within its [nx] rows and columns and a positive [dmin], a second call of
    [casadi_qp_calc_dependent] changes nothing: [f], [z], [lam], [infeas],
    [pr], [ipr], [du] and [idu], and with them the whole record, are the same
    after two calls as after one. *)
Theorem casadi_qp_calc_dependent_idempotent (d : casadi_qp_data) :
  wf_sizes d ->
  h_pattern_in_range (prob d) ->
  (0 <? dmin (prob d))%T1 = true ->
  casadi_qp_calc_dependent (casadi_qp_calc_dependent d) = casadi_qp_calc_dependent d.
Proof.
  intros (Hnz & Lz & _ & _ & Ll & _ & _ & Li & _) [Hhc Hhr] Hd.
  rewrite Hnz in *.
  set (d1 := casadi_qp_calc_dependent d).
  set (li := lam_infeas_update (dmin (prob d)) (nx (prob d)) (lam d, calc_grad d)).
  assert (Lg : length (calc_grad d) = nx (prob d)).
  { unfold calc_grad; cbn zeta. rewrite !length_mv, length_copy. exact Li. }
  destruct (lam_infeas_update_spec (dmin (prob d)) (nx (prob d)) (lam d) (calc_grad d)
              ltac:(lia) ltac:(lia)) as (L1 & L2 & _).
  fold li in L1, L2.
  assert (E1 : d1 = _) by (unfold d1; apply casadi_qp_calc_dependent_eq).
  cbn zeta in E1. fold li in E1.
  assert (Fp : prob d1 = prob d) by (rewrite E1; reflexivity).
  assert (Fz : z d1 = calc_z d) by (rewrite E1; reflexivity).
  assert (Fl : lam d1 = fst li) by (rewrite E1; reflexivity).
  assert (Fi : infeas d1 = snd li) by (rewrite E1; reflexivity).
  assert (Fa : nz_a d1 = nz_a d) by (rewrite E1; reflexivity).
  assert (Fh : nz_h d1 = nz_h d) by (rewrite E1; reflexivity).
  assert (Fg : g d1 = g d) by (rewrite E1; reflexivity).
  assert (Flb : lbz d1 = lbz d) by (rewrite E1; reflexivity).
  assert (Fub : ubz d1 = ubz d) by (rewrite E1; reflexivity).
  assert (Zx : forall i, (i < nx (prob d))%nat -> rd (calc_z d) i = rd (z d) i).
  { intros i Hi. rewrite <- (rd_firstn (calc_z d) (nx (prob d)) i Hi).
    rewrite firstn_calc_z by exact Lz. apply rd_firstn; exact Hi. }
  assert (Cz : calc_z d1 = calc_z d).
  { apply calc_z_ext; auto.
    - rewrite Fz. apply length_calc_z; exact Lz.
    - rewrite Fz. apply firstn_calc_z; exact Lz. }
  assert (Cf : calc_f d1 = calc_f d).
  { unfold calc_f. rewrite Fp, Fh, Fg, Fz.
    rewrite (bilin_ext (nz_h d) (sp_h (prob d)) (nx (prob d)) (calc_z d) (z d) Hhc Hhr Zx).
    rewrite (dot_ext (nx (prob d)) (calc_z d) (z d) (g d) Zx). reflexivity. }
  assert (Cg : calc_grad d1 = calc_grad d).
  { unfold calc_grad; cbn zeta. rewrite Cz, Fp, Fa, Fh, Fg, Fl, Fi.
    unfold view. unfold li at 1.
    rewrite skipn_lam_infeas_update by lia.
    rewrite (copy_all (g d) (nx (prob d)) (snd li) (infeas d)) by lia.
    reflexivity. }
  assert (Cl : lam_infeas_update (dmin (prob d1)) (nx (prob d1)) (lam d1, calc_grad d1)
               = li).
  { rewrite Cg, Fp, Fl. unfold li.
    apply lam_infeas_update_idem; auto; lia. }
  rewrite (casadi_qp_calc_dependent_eq d1). cbn zeta.
  rewrite Cl, Cz, Cf, Fp, Flb, Fub.
  rewrite E1.
  apply casadi_qp_data_ext; data_fields; reflexivity.
Qed.

Lemma casadi_qp_calc_dependent_idempotent_witness :
  casadi_qp_calc_dependent (casadi_qp_calc_dependent qp_stale)
  = casadi_qp_calc_dependent qp_stale.
Proof.
  apply (casadi_qp_calc_dependent_idempotent qp_stale).
  - unfold wf_sizes; cbn; repeat split; lia.
  - split; [cbn; lia|].
    intros cc k Hc Hk. change (sp_ncol (sp_h (prob qp_stale))) with 2%nat in *.
    destruct cc as [|[|cc]]; [| |lia]; cbn in Hk;
      [assert (k = 0)%nat by lia|assert (k = 1)%nat by lia]; subst k; cbn; lia.
  - reflexivity.
Defined.

(** On that problem the dependent quantities are [f = 0.5], [z = (1, 2, 1, 4)],
    [pr = 4] at row 3 and [du = 5] at variable 0. *)
Example casadi_qp_calc_dependent_example :
  let d := casadi_qp_calc_dependent qp_stale in
  z d = [1%T1; Fin 2; 1%T1; Fin 4] /\ ipr d = 3%Z /\ idu d = 0%Z
  /\ (pr d =? Fin 4)%T1 = true /\ (du d =? Fin 5)%T1 = true
  /\ (f d =? Fin (-1 # 2))%T1 = true.
Proof. vm_compute. repeat split. Qed.

(** ** [casadi_qp_dual_breakpoints] *)

Lemma breakpoint_loc_spec (tl : list T1) (new_tau : T1) (n : nat) :
  forall loc0,
    let loc := breakpoint_loc tl new_tau n loc0 in
    (loc0 <= loc <= loc0 + n)%nat
    /\ (forall k, (loc0 <= k < loc)%nat -> (new_tau <? rd tl k)%T1 = false)
    /\ ((loc < loc0 + n)%nat -> (new_tau <? rd tl loc)%T1 = true).
Proof.
  induction n as [|n IH]; intros loc0; cbn.
  - split; [lia|]. split; intros; lia.
  - destruct (new_tau <? rd tl loc0)%T1 eqn:E.
    + split; [lia|]. split; intros; [lia|exact E].
    + destruct (IH (S loc0)) as (B & Hbefore & Hat). cbn zeta in *.
      split; [lia|]. split.
      * intros k Hk. destruct (Nat.eq_dec k loc0) as [->|Hne]; [exact E|].
        apply Hbefore; lia.
      * intros Hlt. apply Hat; lia.
Qed.

(** The insertion loop writes the carried pair at [loc] and moves the
    entries [loc..n-1] one place up. *)
Lemma breakpoint_insert_spec (tl : list T1) (il : list Z) (loc n : nat)
  (new_tau : T1) (i : Z) :
  (loc <= n)%nat -> (n < length tl)%nat -> (n < length il)%nat ->
  let s := breakpoint_insert tl il loc (S n) new_tau i in
  length (fst s) = length tl /\ length (snd s) = length il
  /\ forall k,
       rd (fst s) k = (if (k <? loc)%nat then rd tl k
                       else if (k =? loc)%nat then new_tau
                       else if (k <=? n)%nat then rd tl (k - 1) else rd tl k)
       /\ rdi (snd s) k = (if (k <? loc)%nat then rdi il k
                           else if (k =? loc)%nat then i
                           else if (k <=? n)%nat then rdi il (k - 1) else rdi il k).
Proof.
  intros Hloc Ht Hi; cbn zeta. unfold breakpoint_insert.
  set (body := fun (j : nat) (s : list T1 * list Z * T1 * Z) => _).
  pose (P := fun (m : nat) (s : list T1 * list Z * T1 * Z) =>
    let '(tm, im, nt, ni) := s in
    length tm = length tl /\ length im = length il
    /\ nt = (if (m =? loc)%nat then new_tau else rd tl (m - 1))
    /\ ni = (if (m =? loc)%nat then i else rdi il (m - 1))
    /\ forall k,
         rd tm k = (if (k <? loc)%nat then rd tl k
                    else if (k <? m)%nat
                         then (if (k =? loc)%nat then new_tau else rd tl (k - 1))
                         else rd tl k)
         /\ rdi im k = (if (k <? loc)%nat then rdi il k
                        else if (k <? m)%nat
                             then (if (k =? loc)%nat then i else rdi il (k - 1))
                             else rdi il k)).
  assert (H : P (S n) (for_range loc (S n) body (tl, il, new_tau, i))).
  { apply for_range_inv; [lia| |].
    - unfold P. rewrite Nat.eqb_refl.
      do 4 (split; [reflexivity|]).
      intros k. destruct (Nat.ltb_spec k loc); split; reflexivity.
    - intros m [[[tm im] nt] ni] Hm (Lt & Li & Hnt & Hni & Hk).
      unfold body, P.
      rewrite !length_upd.
      destruct (Nat.eqb_spec (S m) loc) as [|_]; [lia|].
      replace (S m - 1)%nat with m by lia.
      destruct (Hk m) as [Hm1 Hm2].
      destruct (Nat.ltb_spec m loc) as [|_]; [lia|].
      destruct (Nat.ltb_spec m m) as [|_]; [lia|].
      do 4 (split; [assumption|]).
      intros k. split.
      + destruct (Nat.eq_dec k m) as [->|Hne].
        * rewrite rd_upd_same by lia.
          destruct (Nat.ltb_spec m loc); [lia|].
          destruct (Nat.ltb_spec m (S m)); [|lia].
          rewrite Hnt. destruct (Nat.eqb_spec m loc); reflexivity.
        * rewrite rd_upd_other by auto. destruct (Hk k) as [-> _].
          destruct (Nat.ltb_spec k loc); auto.
          destruct (Nat.ltb_spec k m), (Nat.ltb_spec k (S m)); auto; lia.
      + unfold rdi. destruct (Nat.eq_dec k m) as [->|Hne].
        * rewrite nth_upd_same by lia.
          destruct (Nat.ltb_spec m loc); [lia|].
          destruct (Nat.ltb_spec m (S m)); [|lia].
          rewrite Hni. destruct (Nat.eqb_spec m loc); reflexivity.
        * rewrite nth_upd_other by auto. destruct (Hk k) as [_ Hk2].
          unfold rdi in Hk2. rewrite Hk2.
          destruct (Nat.ltb_spec k loc); auto.
          destruct (Nat.ltb_spec k m), (Nat.ltb_spec k (S m)); auto; lia. }
  destruct (for_range loc (S n) body (tl, il, new_tau, i)) as [[[tm im] nt] ni].
  destruct H as (Lt & Li & _ & _ & Hk). cbn [fst snd].
  do 2 (split; [assumption|]).
  intros k. destruct (Hk k) as [H1 H2]. rewrite H1, H2.
  destruct (Nat.ltb_spec k loc); [split; reflexivity|].
  destruct (Nat.ltb_spec k (S n)), (Nat.eqb_spec k loc), (Nat.leb_spec k n);
    try lia; split; reflexivity.
Qed.

Lemma firstn_insert_at {A : Type} (dflt : A) (l l' : list A) (loc n : nat) (x : A) :
  (loc <= n)%nat -> (n < length l)%nat -> length l' = length l ->
  (forall k, (k <= n)%nat ->
     nth k l' dflt = if (k <? loc)%nat then nth k l dflt
                     else if (k =? loc)%nat then x else nth (k - 1) l dflt) ->
  firstn (S n) l' = insert_at loc x (firstn n l).
Proof.
  intros Hloc Hn Hl H. unfold insert_at.
  assert (L1 : length (firstn loc (firstn n l)) = loc)
    by (rewrite !length_firstn; lia).
  apply (nth_ext _ _ dflt dflt).
  - rewrite length_app, L1. cbn [length]. rewrite length_skipn, !length_firstn. lia.
  - intros k Hk. rewrite length_firstn in Hk.
    rewrite nth_firstn. destruct (Nat.ltb_spec k (S n)); [|lia].
    rewrite H by lia.
    destruct (Nat.ltb_spec k loc).
    + rewrite app_nth1 by lia. rewrite !nth_firstn.
      destruct (Nat.ltb_spec k loc), (Nat.ltb_spec k n); try lia; reflexivity.
    + rewrite app_nth2 by lia. rewrite L1.
      destruct (Nat.eqb_spec k loc) as [->|Hne].
      * rewrite Nat.sub_diag. reflexivity.
      * replace (k - loc)%nat with (S (k - loc - 1)) by lia. cbn [nth].
        rewrite nth_skipn, nth_firstn.
        replace (loc + (k - loc - 1))%nat with (k - 1)%nat by lia.
        destruct (Nat.ltb_spec (k - 1) n); [reflexivity|lia].
Qed.

Lemma combine_insert_at {A B : Type} (loc : nat) (x : A) (y : B)
  (l : list A) (l' : list B) :
  length l = length l' ->
  combine (insert_at loc x l) (insert_at loc y l') = insert_at loc (x, y) (combine l l').
Proof.
  unfold insert_at. revert l l'.
  induction loc as [|loc IH]; intros [|a l] [|b l'] Hl; cbn in *;
    try reflexivity; try discriminate.
  f_equal. apply IH. lia.
Qed.

Lemma Permutation_insert_at {A : Type} (loc : nat) (x : A) (l : list A) :
  Permutation (x :: l) (insert_at loc x l).
Proof.
  unfold insert_at. rewrite <- (firstn_skipn loc l) at 1.
  apply Permutation_middle.
Qed.

Lemma dual_breakpoints_step_row (d : casadi_qp_data) (tau_ : T1) (i : nat)
  (s : nat * list T1 * list Z) :
  casadi_qp_dual_breakpoints_step d tau_ i s
  = if breakpoint_row d tau_ i then
      let '(n_tau, tl, il) := s in
      let new_tau := fst (breakpoint_of d i) in
      let loc := breakpoint_loc tl new_tau (n_tau - 1) 0 in
      let r := breakpoint_insert tl il loc (S n_tau) new_tau (Z.of_nat i) in
      (S n_tau, fst r, snd r)
    else s.
Proof.
  destruct s as [[n tl] il].
  unfold casadi_qp_dual_breakpoints_step, breakpoint_row, breakpoint_of.
  destruct (rd (dlam d) i =? 0)%T1; cbn [negb andb]; auto.
  destruct (rd (lam d) i =? 0)%T1; cbn [negb andb]; auto.
  destruct (if (rd (lam d) i >? 0)%T1 then _ else _); cbn [negb andb]; auto.
  cbn [fst]. destruct (breakpoint_insert _ _ _ _ _ _); reflexivity.
Qed.

(** A breakpoint of a sign change over a step [tq >= 0] is a finite number
    not after [tq]. *)
Lemma breakpoint_before_step (d : casadi_qp_data) (tq : Q) (i : nat) :
  0 <= tq ->
  is_finite (rd (lam d) i) = true -> is_finite (rd (dlam d) i) = true ->
  breakpoint_row d (Fin tq) i = true ->
  exists q, fst (breakpoint_of d i) = Fin q /\ q <= tq.
Proof.
  intros Ht Fl Fd. unfold breakpoint_row, breakpoint_of. cbn [fst].
  destruct (rd (lam d) i) as [a| | |]; try discriminate.
  destruct (rd (dlam d) i) as [b| | |]; try discriminate.
  intros H.
  apply andb_prop in H as [H H3]. apply andb_prop in H as [H1 H2].
  apply negb_true_iff in H1, H2, H3.
  assert (Hb : ~ b == 0).
  { intros C. apply T1eqb_Fin in C. rewrite C in H1. discriminate. }
  assert (Ha : ~ a == 0).
  { intros C. apply T1eqb_Fin in C. rewrite C in H2. discriminate. }
  cbn [T1opp T1div].
  destruct (Qeq_bool b 0) eqn:EB; [apply Qeq_bool_iff in EB; contradiction|].
  exists (- a / b). split; [reflexivity|].
  pose proof (Qdiv_mul_cancel (- a) b Hb) as Hm.
  unfold T1gtb, T1geb in H3. cbn in H3.
  destruct (Qlt_le_dec 0 a) as [Hpos|Hneg].
  - assert (P : (Fin 0 <? Fin a)%T1 = true) by (apply T1ltb_Fin; exact Hpos).
    cbn in P. rewrite P in H3.
    assert (a + tq * b < 0).
    { destruct (Qlt_le_dec (a + tq * b) 0) as [|C]; auto.
      apply T1leb_Fin in C. cbn in C. rewrite C in H3. discriminate. }
    assert (b < 0) by nra. nra.
  - assert (P : (Fin 0 <? Fin a)%T1 = false).
    { destruct (Fin 0 <? Fin a)%T1 eqn:C; auto. apply T1ltb_Fin in C. lra. }
    cbn in P. rewrite P in H3.
    assert (0 < a + tq * b).
    { destruct (Qlt_le_dec 0 (a + tq * b)) as [|C]; auto.
      apply T1leb_Fin in C. cbn in C. rewrite C in H3. discriminate. }
    assert (a < 0) by (destruct (Qeq_dec a 0); [contradiction|lra]).
    assert (0 < b) by nra. nra.
Qed.

Lemma T1leb_of_not_ltb_Fin (a b : Q) :
  (Fin a <? Fin b)%T1 = false -> (Fin b <=? Fin a)%T1 = true.
Proof.
  intros H. apply T1leb_Fin.
  destruct (Qlt_le_dec a b) as [C|C]; auto.
  apply T1ltb_Fin in C. rewrite C in H. discriminate.
Qed.

Lemma filter_seq_S (p : nat -> bool) (m : nat) :
  filter p (seq 0 (S m)) = filter p (seq 0 m) ++ (if p m then [m] else []).
Proof. rewrite seq_S, filter_app. cbn. destruct (p m); reflexivity. Qed.

Lemma filter_seq_mono (p : nat -> bool) (m n : nat) :
  (m <= n)%nat -> (length (filter p (seq 0 m)) <= length (filter p (seq 0 n)))%nat.
Proof.
  induction 1 as [|n Hle IH]; [lia|].
  rewrite filter_seq_S, length_app. lia.
Qed.

(** The state of the loop of [casadi_qp_dual_breakpoints] after the rows
    before [m]. *)
Lemma dual_breakpoints_inv (d : casadi_qp_data) (tl0 : list T1) (il0 : list Z)
  (tq : Q) (m : nat) :
  0 <= tq ->
  (m <= nz (prob d))%nat ->
  (length (filter (breakpoint_row d (Fin tq)) (seq 0 (nz (prob d)))) < length tl0)%nat ->
  (length (filter (breakpoint_row d (Fin tq)) (seq 0 (nz (prob d)))) < length il0)%nat ->
  (forall i, (i < nz (prob d))%nat ->
     is_finite (rd (lam d) i) = true /\ is_finite (rd (dlam d) i) = true) ->
  let '(n, tl, il) :=
    for_range 0 m (casadi_qp_dual_breakpoints_step d (Fin tq))
      (1%nat, upd tl0 0 (Fin tq), upd il0 0 (-1)%Z) in
  n = S (length (filter (breakpoint_row d (Fin tq)) (seq 0 m)))
    /\ length tl = length tl0 /\ length il = length il0
  /\ rd tl (n - 1) = Fin tq /\ rdi il (n - 1) = (-1)%Z
  /\ (forall j, (j < n)%nat -> exists q, rd tl j = Fin q /\ q <= tq)
  /\ (forall j, (j + 1 < n)%nat -> (rd tl j <=? rd tl (j + 1))%T1 = true)
  /\ Permutation (combine (firstn (n - 1) tl) (firstn (n - 1) il))
       (map (breakpoint_of d) (filter (breakpoint_row d (Fin tq)) (seq 0 m))).
Proof.
  intros Ht Hm Lt Li Hfin.
  pose (P := fun (m : nat) (s : nat * list T1 * list Z) =>
    let '(n, tl, il) := s in
    n = S (length (filter (breakpoint_row d (Fin tq)) (seq 0 m)))
    /\ length tl = length tl0 /\ length il = length il0
    /\ rd tl (n - 1) = Fin tq /\ rdi il (n - 1) = (-1)%Z
    /\ (forall j, (j < n)%nat -> exists q, rd tl j = Fin q /\ q <= tq)
    /\ (forall j, (j + 1 < n)%nat -> (rd tl j <=? rd tl (j + 1))%T1 = true)
    /\ Permutation (combine (firstn (n - 1) tl) (firstn (n - 1) il))
         (map (breakpoint_of d) (filter (breakpoint_row d (Fin tq)) (seq 0 m)))).
  assert (H : P m (for_range 0 m (casadi_qp_dual_breakpoints_step d (Fin tq))
                     (1%nat, upd tl0 0 (Fin tq), upd il0 0 (-1)%Z))).
  { apply for_range_inv; [lia| |].
    - unfold P. rewrite !length_upd. cbn [Nat.sub seq filter length].
      split; [reflexivity|]. do 2 (split; [reflexivity|]).
      split; [apply rd_upd_same; lia|].
      split; [unfold rdi; apply nth_upd_same; lia|].
      split.
      + intros j Hj. assert (j = 0)%nat by lia; subst j.
        exists tq. split; [apply rd_upd_same; lia|lra].
      + split; [intros j Hj; lia|]. cbn. constructor.
    - intros k [[n tl] il] Hk (Hn & Ltl & Lil & Hlast & Hlasti & Hle & Hsorted & Hperm).
      rewrite dual_breakpoints_step_row. unfold P.
      rewrite filter_seq_S.
      destruct (breakpoint_row d (Fin tq) k) eqn:Row.
      + (* a new breakpoint *)
        assert (Hcount : (n < length tl0)%nat /\ (n < length il0)%nat).
        { pose proof (filter_seq_mono (breakpoint_row d (Fin tq)) (S k) (nz (prob d))
                        ltac:(lia)) as Hc.
          rewrite filter_seq_S, Row, length_app in Hc. cbn [length] in Hc. lia. }
        destruct (Hfin k ltac:(lia)) as [Fl Fd].
        destruct (breakpoint_before_step d tq k Ht Fl Fd Row) as [q [Eq Hq]].
        cbn zeta. rewrite Eq.
        destruct (breakpoint_loc_spec tl (Fin q) (n - 1) 0) as (Hloc & Hbefore & Hat).
        cbn zeta in Hloc, Hbefore, Hat.
        set (loc := breakpoint_loc tl (Fin q) (n - 1) 0) in *.
        destruct (breakpoint_insert_spec tl il loc n (Fin q) (Z.of_nat k)
                    ltac:(lia) ltac:(lia) ltac:(lia)) as (Lt' & Li' & Hspec).
        cbn zeta in Lt', Li', Hspec.
        set (r := breakpoint_insert tl il loc (S n) (Fin q) (Z.of_nat k)) in *.
        replace (S n - 1)%nat with n by lia.
        split; [rewrite length_app; cbn [length]; lia|]. split; [lia|]. split; [lia|].
        split; [|split].
        * destruct (Hspec n) as [-> _].
          destruct (Nat.ltb_spec n loc); [lia|].
          destruct (Nat.eqb_spec n loc); [lia|].
          destruct (Nat.leb_spec n n); [exact Hlast|lia].
        * destruct (Hspec n) as [_ ->].
          destruct (Nat.ltb_spec n loc); [lia|].
          destruct (Nat.eqb_spec n loc); [lia|].
          destruct (Nat.leb_spec n n); [exact Hlasti|lia].
        * split; [|split].
          -- intros j Hj. destruct (Hspec j) as [-> _].
             destruct (Nat.ltb_spec j loc); [apply Hle; lia|].
             destruct (Nat.eqb_spec j loc); [exists q; auto|].
             destruct (Nat.leb_spec j n); [apply Hle; lia|lia].
          -- intros j Hj.
             destruct (Hspec j) as [-> _]. destruct (Hspec (j + 1)%nat) as [-> _].
             destruct (Nat.ltb_spec j loc), (Nat.ltb_spec (j + 1) loc),
               (Nat.eqb_spec j loc), (Nat.eqb_spec (j + 1) loc),
               (Nat.leb_spec j n), (Nat.leb_spec (j + 1) n); try lia.
             ++ apply Hsorted; lia.
             ++ destruct (Hle j ltac:(lia)) as [qj [Ej _]]. rewrite Ej.
                apply T1leb_of_not_ltb_Fin. rewrite <- Ej. apply Hbefore; lia.
             ++ replace (j + 1 - 1)%nat with j by lia.
                destruct (Nat.eq_dec loc (n - 1)) as [El|El].
                ** subst j. rewrite El, Hlast. apply T1leb_Fin. exact Hq.
                ** apply T1ltb_leb. subst j. apply Hat. lia.
             ++ replace (j + 1 - 1)%nat with j by lia.
                replace j with ((j - 1) + 1)%nat at 2 by lia.
                apply Hsorted; lia.
          -- assert (F1 : firstn n (fst r) = insert_at loc (Fin q) (firstn (n - 1) tl)).
             { replace n with (S (n - 1)) at 1 by lia.
               apply (firstn_insert_at 0%T1); try lia.
               intros j Hj. destruct (Hspec j) as [Hs _]. unfold rd in Hs. rewrite Hs.
               destruct (Nat.ltb_spec j loc); auto.
               destruct (Nat.eqb_spec j loc); auto.
               destruct (Nat.leb_spec j n); [reflexivity|lia]. }
             assert (F2 : firstn n (snd r)
                          = insert_at loc (Z.of_nat k) (firstn (n - 1) il)).
             { replace n with (S (n - 1)) at 1 by lia.
               apply (firstn_insert_at 0%Z); try lia.
               intros j Hj. destruct (Hspec j) as [_ Hs]. unfold rdi in Hs. rewrite Hs.
               destruct (Nat.ltb_spec j loc); auto.
               destruct (Nat.eqb_spec j loc); auto.
               destruct (Nat.leb_spec j n); [reflexivity|lia]. }
             rewrite F1, F2, combine_insert_at by (rewrite !length_firstn; lia).
             rewrite map_app. cbn [map].
             eapply Permutation_trans;
               [apply Permutation_sym, Permutation_insert_at|].
             eapply Permutation_trans; [|apply Permutation_cons_append].
             replace (breakpoint_of d k) with (Fin q, Z.of_nat k)
               by (rewrite <- Eq; reflexivity).
             apply perm_skip. exact Hperm.
      + rewrite app_nil_r.
        repeat (split; [assumption|]). exact Hperm. }
  destruct (for_range 0 m _ _) as [[n tl] il]. exact H.
Qed.

(** C7, as the code has it: for a finite incoming step [tau >= 0] and
    finite multipliers and directions, with room in the two lists for the
    breakpoints and the final entry, [casadi_qp_dual_breakpoints] returns
    the count [n_tau] and lists whose final entry is the incoming [tau]
    without index ([-1]), which are in ascending order, and whose entries
    before the final one are exactly the breakpoints [-lam[i]/dlam[i]], each
    paired with its row [i], of the rows with [dlam[i] != 0], [lam[i] != 0]
    and a sign change over the step. *)
Theorem casadi_qp_dual_breakpoints_sorted (d : casadi_qp_data) (tau_list : list T1)
  (ind_list : list Z) (e : T1) (tq : Q) :
  0 <= tq ->
  (length (filter (breakpoint_row d (Fin tq)) (seq 0 (nz (prob d))))
   < length tau_list)%nat ->
  (length (filter (breakpoint_row d (Fin tq)) (seq 0 (nz (prob d))))
   < length ind_list)%nat ->
  (forall i, (i < nz (prob d))%nat ->
     is_finite (rd (lam d) i) = true /\ is_finite (rd (dlam d) i) = true) ->
  let '(n_tau, tl, il) := casadi_qp_dual_breakpoints d tau_list ind_list e (Fin tq) in
  n_tau = S (length (filter (breakpoint_row d (Fin tq)) (seq 0 (nz (prob d)))))
  /\ rd tl (n_tau - 1) = Fin tq /\ rdi il (n_tau - 1) = (-1)%Z
  /\ (forall j, (j + 1 < n_tau)%nat -> (rd tl j <=? rd tl (j + 1))%T1 = true)
  /\ Permutation (combine (firstn (n_tau - 1) tl) (firstn (n_tau - 1) il))
       (map (breakpoint_of d)
          (filter (breakpoint_row d (Fin tq)) (seq 0 (nz (prob d))))).
Proof.
  intros Ht Lt Li Hfin.
  unfold casadi_qp_dual_breakpoints; cbn zeta.
  pose proof (dual_breakpoints_inv d tau_list ind_list tq (nz (prob d)) Ht
                (Nat.le_refl _) Lt Li Hfin) as H.
  destruct (for_range 0 (nz (prob d)) _ _) as [[n tl] il].
  destruct H as (Hn & _ & _ & Hlast & Hlasti & _ & Hsorted & Hperm).
  auto.
Qed.

Lemma casadi_qp_dual_breakpoints_sorted_witness :
  let d := qp_two_breakpoints in
  let '(n_tau, tl, il) := casadi_qp_dual_breakpoints d (w d) (iw d) 0%T1 (Fin 1) in
  n_tau = S (length (filter (breakpoint_row d (Fin 1)) (seq 0 (nz (prob d)))))
  /\ rd tl (n_tau - 1) = Fin 1 /\ rdi il (n_tau - 1) = (-1)%Z
  /\ (forall j, (j + 1 < n_tau)%nat -> (rd tl j <=? rd tl (j + 1))%T1 = true)
  /\ Permutation (combine (firstn (n_tau - 1) tl) (firstn (n_tau - 1) il))
       (map (breakpoint_of d)
          (filter (breakpoint_row d (Fin 1)) (seq 0 (nz (prob d))))).
Proof.
  apply (casadi_qp_dual_breakpoints_sorted qp_two_breakpoints
           (w qp_two_breakpoints) (iw qp_two_breakpoints) 0%T1 1).
  - lra.
  - vm_compute. lia.
  - vm_compute. lia.
  - intros i Hi. change (nz (prob qp_two_breakpoints)) with 4%nat in Hi.
    destruct i as [|[|[|[|i]]]]; try (split; reflexivity); lia.
Defined.

(** On that problem the breakpoints are 1/4 for row 3 and 3/4 for row 2. *)
Example casadi_qp_dual_breakpoints_example :
  let d := qp_two_breakpoints in
  let '(n_tau, tl, il) := casadi_qp_dual_breakpoints d (w d) (iw d) 0%T1 (Fin 1) in
  n_tau = 3%nat /\ firstn 3 il = [3; 2; -1]%Z
  /\ Forall2 T1eq (firstn 3 tl) [Fin (1 # 4); Fin (3 # 4); Fin 1].
Proof. vm_compute. repeat split. repeat constructor. Qed.

(** The step must not be negative: with [lam = 1],
    [dlam = 2] and [tau = -1] the multiplier changes sign at [-1/2], and the
    list [(-1/2, -1)] is not ascending. *)
Lemma casadi_qp_dual_breakpoints_negative_step :
  ~ dual_breakpoints_ascending
      (set_dlam [Fin 2] qp_one_breakpoint) (zeros 2) [0; 0]%Z 0%T1 (Fin (-1)).
Proof.
  unfold dual_breakpoints_ascending.
  intros H.
  assert (E : casadi_qp_dual_breakpoints (set_dlam [Fin 2] qp_one_breakpoint)
                (zeros 2) [0; 0]%Z 0%T1 (Fin (-1))
              = (2%nat, [(- (1) / Fin 2)%T1; Fin (-1)], [0; -1]%Z))
    by reflexivity.
  rewrite E in H. destruct H as (_ & _ & H).
  specialize (H 0%nat ltac:(lia)). vm_compute in H. discriminate.
Qed.

(** ** [casadi_qp_flip_check] *)

(** The search for a companion only ever selects an active row other than
    [index], with the new multiplier 0. *)
Lemma flip_check_loop_drop (d : casadi_qp_data) (index : Z) (n : nat) :
  let '(ri, rl, _) :=
    for_range 0 n (casadi_qp_flip_check_step d index) ((-1)%Z, 0%T1, PInf) in
  rl = 0%T1
  /\ (ri = (-1)%Z
      \/ exists i, (i < n)%nat /\ ri = Z.of_nat i /\ Z.of_nat i <> index
                   /\ (rd (lam d) i =? 0)%T1 = false).
Proof.
  pose (P := fun (m : nat) (s : Z * T1 * T1) =>
    let '(ri, rl, _) := s in
    rl = 0%T1
    /\ (ri = (-1)%Z
        \/ exists i, (i < m)%nat /\ ri = Z.of_nat i /\ Z.of_nat i <> index
                     /\ (rd (lam d) i =? 0)%T1 = false)).
  assert (H : P n (for_range 0 n (casadi_qp_flip_check_step d index)
                     ((-1)%Z, 0%T1, PInf))).
  { apply for_range_inv; [lia|split; auto|].
    intros i [[ri rl] best] Hi [Hrl Hri].
    assert (Keep : P (S i) (ri, rl, best)).
    { split; [exact Hrl|]. destruct Hri as [|(j & Hj & Hrest)]; [left; assumption|].
      right. exists j. split; [lia|exact Hrest]. }
    unfold casadi_qp_flip_check_step.
    destruct (Z.eqb_spec (Z.of_nat i) index) as [|Hne]; [exact Keep|].
    destruct (rd (lam d) i =? 0)%T1 eqn:E0.
    - repeat match goal with |- context [if ?c then _ else _] => destruct c end;
        exact Keep.
    - repeat match goal with
             | |- P _ (if ?c then _ else _) => destruct c; try exact Keep
             end.
      split; [reflexivity|]. right. exists i. repeat split; auto. }
  destruct (for_range 0 n _ _) as [[ri rl] best]. exact H.
Qed.

Lemma flip_check_frame_lam (casadi_qr_solve :
    list T1 -> nat -> bool -> sparsity -> list T1 -> sparsity -> list T1 ->
    list T1 -> list nat -> list nat -> list T1 -> list T1 * list T1)
  (sqrt : T1 -> T1) (d : casadi_qp_data) (index sign r_index : Z) (r_lam e : T1) :
  let d' := snd (casadi_qp_flip_check casadi_qr_solve sqrt d index sign r_index r_lam e) in
  prob d' = prob d /\ lam d' = lam d /\ neverzero d' = neverzero d
  /\ infeas d' = infeas d /\ z d' = z d.
Proof.
  unfold casadi_qp_flip_check; cbn zeta.
  repeat match goal with
         | |- context [match ?t with (_, _) => _ end] => destruct t
         | |- context [if ?c then _ else _] => destruct c
         end;
    cbn [snd]; data_fields; auto.
Qed.

(** C10: whenever [casadi_qp_flip_check] returns 1 with a companion
    [r_index >= 0], the companion multiplier [r_lam] is 0 and the companion
    is an active row ([lam[r_index] != 0]) other than [index]: inactive
    candidates are skipped before the comparison with the best so far.  This
    holds for every QR solve and square root. *)
Theorem casadi_qp_flip_check_companion_dropped
  (casadi_qr_solve :
     list T1 -> nat -> bool -> sparsity -> list T1 -> sparsity -> list T1 ->
     list T1 -> list nat -> list nat -> list T1 -> list T1 * list T1)
  (sqrt : T1 -> T1) (d : casadi_qp_data) (index sign r_index : Z) (r_lam e : T1) :
  let '(ret, ri, rl, _) :=
    casadi_qp_flip_check casadi_qr_solve sqrt d index sign r_index r_lam e in
  ret = 1%Z -> (0 <= ri)%Z ->
  rl = 0%T1
  /\ exists i, (i < nz (prob d))%nat /\ ri = Z.of_nat i /\ Z.of_nat i <> index
               /\ (rd (lam d) i =? 0)%T1 = false.
Proof.
  unfold casadi_qp_flip_check; cbn zeta.
  repeat match goal with
         | |- context [match qr_solve_with ?q ?dd ?x ?tr with (_, _) => _ end] =>
             destruct (qr_solve_with q dd x tr)
         | |- context [if (?a <? eps12)%T1 then _ else _] => destruct (a <? eps12)%T1
         | |- context [if (?a >=? eps12)%T1 then _ else _] => destruct (a >=? eps12)%T1
         end;
    try (intros; discriminate).
  match goal with
  | |- context [for_range 0 ?n (casadi_qp_flip_check_step ?dd index) ?s] =>
      pose proof (flip_check_loop_drop dd index n) as H;
      destruct (for_range 0 n (casadi_qp_flip_check_step dd index) s) as [[ri rl] best]
  end.
  intros _ Hri. destruct H as [Hrl [Hneg|(i & Hi & Ei & Hne & Hlam)]]; [lia|].
  split; [exact Hrl|]. exists i. auto.
Qed.

Lemma casadi_qp_flip_check_companion_dropped_witness :
  let '(ret, ri, rl, _) :=
    casadi_qp_flip_check (coupled_solve 12) T1sqrt (qp_coupled 12) 0%Z 1%Z (-1)%Z 0%T1
      (Fin 1000) in
  ret = 1%Z /\ (0 <= ri)%Z
  /\ rl = 0%T1
  /\ exists i, (i < 14)%nat /\ ri = Z.of_nat i /\ Z.of_nat i <> 0%Z
               /\ (rd (lam (qp_coupled 12)) i =? 0)%T1 = false.
Proof.
  pose proof (casadi_qp_flip_check_companion_dropped (coupled_solve 12) T1sqrt
                (qp_coupled 12) 0%Z 1%Z (-1)%Z 0%T1 (Fin 1000)) as H.
  destruct (casadi_qp_flip_check (coupled_solve 12) T1sqrt (qp_coupled 12) 0%Z 1%Z
              (-1)%Z 0%T1 (Fin 1000)) as [[[ret ri] rl] d'] eqn:E.
  assert (Er : ret = 1%Z)
    by (apply (f_equal (fun r => fst (fst (fst r)))) in E; vm_compute in E;
        symmetry; exact E).
  assert (Ei : ri = 12%Z)
    by (apply (f_equal (fun r => snd (fst (fst r)))) in E; vm_compute in E;
        symmetry; exact E).
  split; [exact Er|]. split; [lia|].
  apply H; [exact Er|lia].
Defined.

(** C3 fails on the code: in the companion search of [qp_coupled 12] the
    candidate 12 has a scalar product of magnitude below [1e-12] (it is 0)
    with the column that is removed, and it is returned as companion; the
    same problem with the variable 11 in the place of the variable 12 has
    the same scalar product for the candidate 11, which is rejected, and no
    companion is returned. *)
Theorem casadi_qp_flip_check_index_12_exempt :
  (let '(ret, ri, _, d') :=
     casadi_qp_flip_check (coupled_solve 12) T1sqrt (qp_coupled 12) 0%Z 1%Z (-1)%Z
       0%T1 (Fin 1000) in
   ret = 1%Z /\ ri = 12%Z
   /\ (fabs (casadi_qp_kkt_dot d' (w d') 12
               (if (rd (lam d') 12 =? 0)%T1 then 1%Z else 0%Z)) <? eps12)%T1 = true)
  /\ (let '(ret, ri, _, d') :=
        casadi_qp_flip_check (coupled_solve 11) T1sqrt (qp_coupled 11) 0%Z 1%Z (-1)%Z
          0%T1 (Fin 1000) in
      ret = 1%Z /\ ri = (-1)%Z
      /\ (fabs (casadi_qp_kkt_dot d' (w d') 11
                  (if (rd (lam d') 11 =? 0)%T1 then 1%Z else 0%Z)) <? eps12)%T1 = true).
Proof. vm_compute. repeat split. Qed.

(** ** [casadi_qp_flip] *)

Lemma du_index_frame (d : casadi_qp_data) (sign : Z) :
  let '(r, sg, d') := casadi_qp_du_index d sign in
  prob d' = prob d /\ lam d' = lam d /\ neverzero d' = neverzero d
  /\ infeas d' = infeas d /\ sing d' = sing d
  /\ ((0 <= r)%Z -> sg = 0%Z).
Proof.
  unfold casadi_qp_du_index; cbn zeta.
  match goal with |- context [if ?c then _ else _] => destruct c eqn:E end.
  - unfold casadi_qp_log; data_fields. repeat split; reflexivity.
  - data_fields. repeat split; try reflexivity.
    intros H. lia.
Qed.

(** An inactive multiplier stays inactive through
    [casadi_qp_calc_dependent]. *)
Lemma calc_dependent_lam_zero (d : casadi_qp_data) (i : nat) :
  (nx (prob d) <= length (lam d))%nat -> (nx (prob d) <= length (infeas d))%nat ->
  rd (lam d) i = 0%T1 ->
  rd (lam (casadi_qp_calc_dependent d)) i = 0%T1
  /\ neverzero (casadi_qp_calc_dependent d) = neverzero d
  /\ prob (casadi_qp_calc_dependent d) = prob d.
Proof.
  intros Ll Li H0.
  rewrite casadi_qp_calc_dependent_eq; cbn zeta; data_fields.
  split; [|split; reflexivity].
  assert (Lg : length (calc_grad d) = length (infeas d)).
  { unfold calc_grad; cbn zeta. rewrite !length_mv, length_copy. reflexivity. }
  destruct (lam_infeas_update_spec (dmin (prob d)) (nx (prob d)) (lam d) (calc_grad d)
              Ll ltac:(lia)) as (_ & _ & Hk).
  destruct (Hk i) as [-> _]. rewrite H0.
  destruct (i <? nx (prob d))%nat; reflexivity.
Qed.

(** When [casadi_qp_flip] turns to the dual pivot and [casadi_qp_du_index]
    proposes row [i], the multiplier of row [i] is 0 afterwards, whatever
    its classification and whatever the QR solve returns. *)
Lemma flip_dual_pivot_drops
  (casadi_qr_solve :
     list T1 -> nat -> bool -> sparsity -> list T1 -> sparsity -> list T1 ->
     list T1 -> list nat -> list nat -> list T1 -> list T1 * list T1)
  (sqrt : T1 -> T1) (d : casadi_qp_data) (sign r_index r_sign : Z) (i : nat) :
  (r_index >=? 0)%Z = false ->
  (tau d >? eps16)%T1 = true ->
  (ipr d >=? 0)%Z || (idu d >=? 0)%Z = true ->
  (du_to_pr (prob d) * pr d >=? du d)%T1 = false ->
  fst (fst (casadi_qp_du_index d sign)) = Z.of_nat i ->
  (i < length (lam d))%nat ->
  (nx (prob d) <= length (lam d))%nat -> (nx (prob d) <= length (infeas d))%nat ->
  let d' := snd (casadi_qp_flip casadi_qr_solve sqrt d (-1)%Z sign r_index r_sign) in
  rd (lam d') i = 0%T1 /\ neverzero d' = neverzero d /\ prob d' = prob d.
Proof.
  intros Hr Ht Hi Hd Hix Hlen Ll Li.
  unfold casadi_qp_flip; cbn zeta.
  rewrite Hr; cbn [andb]. rewrite Ht, Hi, Hd; cbn [andb Z.eqb Pos.eqb].
  pose proof (du_index_frame d sign) as F.
  destruct (casadi_qp_du_index d sign) as [[r sg] d1]. cbn [fst] in Hix. subst r.
  destruct F as (Fp & Fl & Fn & Fi & Fs & Fsg).
  specialize (Fsg ltac:(lia)). subst sg.
  cbn [andb Z.eqb Pos.eqb].
  destruct (Z.geb_spec (Z.of_nat i) 0) as [_|C]; [|lia].
  cbn [Z.eqb negb].
  (* the check of the flip, with any result *)
  assert (Commit : forall (X : casadi_qp_data),
            prob X = prob d -> length (lam X) = length (lam d) ->
            infeas X = infeas d -> neverzero X = neverzero d ->
            let Y := casadi_qp_calc_dependent
                       (set_lam (updz (lam X) (Z.of_nat i) 0%T1) X) in
            rd (lam Y) i = 0%T1 /\ neverzero Y = neverzero d /\ prob Y = prob d).
  { intros X Xp Xl Xi Xn Y.
    destruct (calc_dependent_lam_zero (set_lam (updz (lam X) (Z.of_nat i) 0%T1) X) i)
      as (H1 & H2 & H3).
    - data_fields. unfold updz. destruct (Z.ltb_spec (Z.of_nat i) 0); [lia|].
      rewrite length_upd, Xp. lia.
    - data_fields. rewrite Xp, Xi. exact Li.
    - data_fields. unfold updz. destruct (Z.ltb_spec (Z.of_nat i) 0); [lia|].
      rewrite Nat2Z.id. apply rd_upd_same. lia.
    - unfold Y. rewrite H1, H2, H3. data_fields. auto. }
  match goal with
  | |- context [if (sing d1 =? 0)%Z then ?a else ?b] =>
      set (fc := if (sing d1 =? 0)%Z then a else b)
  end.
  assert (Ffc : let d2 := snd fc in
                prob d2 = prob d /\ lam d2 = lam d /\ neverzero d2 = neverzero d
                /\ infeas d2 = infeas d).
  { unfold fc. destruct (sing d1 =? 0)%Z.
    - match goal with
      | |- context [casadi_qp_flip_check ?q ?s ?dd ?ix ?sg ?ri ?rl ?e] =>
          destruct (flip_check_frame_lam q s dd ix sg ri rl e)
            as (G1 & G2 & G3 & G4 & _)
      end.
      cbn zeta. rewrite G1, G2, G3, G4. auto.
    - cbn. auto. }
  destruct fc as [[[ret ri] rl] d2]. cbn [snd] in Ffc.
  destruct Ffc as (G1 & G2 & G3 & G4).
  destruct (negb (ret =? 0)%Z).
  - destruct (ri >=? 0)%Z.
    + cbn [snd]. apply Commit; unfold casadi_qp_log; data_fields; auto.
      unfold updz. destruct (ri <? 0)%Z; rewrite ?length_upd, G2; reflexivity.
    + cbn [snd]. apply Commit; auto. rewrite G2; reflexivity.
  - cbn [snd]. apply Commit; auto. rewrite G2; reflexivity.
Qed.

(** C1 fails on the code: on the problem in one variable with the equality
    bound [lbz = ubz = 1], after the reset, the update of the dependent
    quantities and the line search, [casadi_qp_flip] takes the dual pivot,
    [casadi_qp_du_index] proposes the only row, and the flip sets its
    multiplier to 0 although the row is classified neverzero.  This holds
    for every QR solve and square root. *)
Theorem casadi_qp_flip_drops_neverzero_row
  (casadi_qr_solve :
     list T1 -> nat -> bool -> sparsity -> list T1 -> sparsity -> list T1 ->
     list T1 -> list nat -> list nat -> list T1 -> list T1 * list T1)
  (sqrt : T1 -> T1) :
  let '(index, sign, d) := qp_equality_searched in
  let d' := snd (casadi_qp_flip casadi_qr_solve sqrt d index sign (-1)%Z 0%Z) in
  sign_discipline d
  /\ rdb (neverzero d') 0 = true /\ rd (lam d') 0 = 0%T1
  /\ ~ sign_discipline d'.
Proof.
  destruct qp_equality_searched as [[index sign] d] eqn:E.
  assert (Eix : index = (-1)%Z)
    by (apply (f_equal (fun r => fst (fst r))) in E; vm_compute in E;
        symmetry; exact E).
  assert (Ed : d = snd qp_equality_searched) by (rewrite E; reflexivity).
  assert (Esg : sign = snd (fst qp_equality_searched)) by (rewrite E; reflexivity).
  clear E. subst index. cbn zeta.
  assert (C1 : (tau d >? eps16)%T1 = true) by (rewrite Ed; vm_compute; reflexivity).
  assert (C2 : (ipr d >=? 0)%Z || (idu d >=? 0)%Z = true)
    by (rewrite Ed; vm_compute; reflexivity).
  assert (C3 : (du_to_pr (prob d) * pr d >=? du d)%T1 = false)
    by (rewrite Ed; vm_compute; reflexivity).
  assert (C4 : fst (fst (casadi_qp_du_index d sign)) = Z.of_nat 0)
    by (rewrite Ed, Esg; vm_compute; reflexivity).
  assert (C5 : length (lam d) = 1%nat) by (rewrite Ed; vm_compute; reflexivity).
  assert (C6 : length (infeas d) = 1%nat) by (rewrite Ed; vm_compute; reflexivity).
  assert (C7 : nx (prob d) = 1%nat) by (rewrite Ed; vm_compute; reflexivity).
  assert (C8 : nz (prob d) = 1%nat) by (rewrite Ed; vm_compute; reflexivity).
  assert (Nz : rdb (neverzero d) 0 = true) by (rewrite Ed; vm_compute; reflexivity).
  assert (Nu : rdb (neverupper d) 0 = false) by (rewrite Ed; vm_compute; reflexivity).
  assert (Nl : rdb (neverlower d) 0 = false) by (rewrite Ed; vm_compute; reflexivity).
  assert (L0 : (rd (lam d) 0 =? 0)%T1 = false) by (rewrite Ed; vm_compute; reflexivity).
  clear Ed Esg.
  destruct (flip_dual_pivot_drops casadi_qr_solve sqrt d sign (-1)%Z 0%Z 0
              eq_refl C1 C2 C3 C4 ltac:(lia) ltac:(lia) ltac:(lia)) as (H1 & H2 & H3).
  split; [|split; [|split]].
  - intros i Hi. rewrite C8 in Hi. assert (i = 0)%nat by lia; subst i.
    split; [intros _; exact L0|].
    split; intros C; [rewrite Nu in C|rewrite Nl in C]; discriminate.
  - rewrite H2. exact Nz.
  - exact H1.
  - intros D. destruct (D 0%nat) as (Dz & _).
    + rewrite H3, C8. lia.
    + rewrite H2 in Dz. specialize (Dz Nz). rewrite H1 in Dz. discriminate.
Qed.

(** * Further properties of the kernel *)

(** ** The dual error *)

Lemma Qabs_cases (a : Q) :
  (0 <= a /\ Qabs a == a) \/ (a < 0 /\ Qabs a == - a).
Proof.
  destruct (Qlt_le_dec a 0) as [H|H].
  - right. split; [exact H|]. apply Qabs_neg. lra.
  - left. split; [exact H|]. apply Qabs_pos. exact H.
Qed.

Lemma T1eqb_leb (x y : T1) : (x =? y)%T1 = true -> (x <=? y)%T1 = true.
Proof. destruct x, y; cbn; intros; q_cases; try discriminate; auto. Qed.

Lemma T1ltb_trans (x y v : T1) :
  (x <? y)%T1 = true -> (y <? v)%T1 = true -> (x <? v)%T1 = true.
Proof. intros H1 H2. apply (T1leb_ltb_trans x y v); [apply T1ltb_leb|]; assumption. Qed.

(** One step of the scan, on the scalars alone. *)
Lemma du_scan_step (x u : T1) :
  isnan x = false -> isnan u = false -> (0 <=? u)%T1 = true ->
  if (x >? u)%T1 then (fabs x =? x)%T1 = true /\ (u <? x)%T1 = true
  else if (x <? - u)%T1 then (fabs x =? - x)%T1 = true /\ (u <? - x)%T1 = true
  else (fabs x <=? u)%T1 = true.
Proof.
  unfold T1gtb.
  destruct x as [a| | |], u as [b| | |]; intros Hx Hu Hp; try discriminate;
    cbn in *; try (split; reflexivity); try reflexivity.
  all: try (destruct (Qabs_cases a) as [[Ha Ea]|[Ha Ea]]).
  all: q_cases; try discriminate; try (split; reflexivity); try reflexivity.
  all: exfalso; lra.
Qed.

(** A scan that replaces the running value [u] by a strictly larger value
    of the row, or keeps it when the value of the row is not larger, ends
    with the largest value and the first row that attains it. *)
Lemma max_scan_spec (val : nat -> T1) (body : nat -> T1 * Z -> T1 * Z) (n : nat) :
  (forall m u iu, (m < n)%nat -> isnan u = false -> (0 <=? u)%T1 = true ->
     (body m (u, iu) = (u, iu) /\ (val m <=? u)%T1 = true)
     \/ (exists y, body m (u, iu) = (y, Z.of_nat m)
                   /\ (val m =? y)%T1 = true /\ (u <? y)%T1 = true)) ->
  let '(u, iu) := for_range 0 n body (0%T1, (-1)%Z) in
  isnan u = false /\ (0 <=? u)%T1 = true
  /\ (forall i, (i < n)%nat -> (val i <=? u)%T1 = true)
  /\ ((iu = (-1)%Z /\ u = 0%T1)
      \/ exists k, (k < n)%nat /\ iu = Z.of_nat k
           /\ (u =? val k)%T1 = true /\ (0 <? u)%T1 = true
           /\ forall j, (j < k)%nat -> (val j <? u)%T1 = true).
Proof.
  intros Hstep.
  pose (P := fun (m : nat) (s : T1 * Z) =>
    let '(u, iu) := s in
    isnan u = false /\ (0 <=? u)%T1 = true
    /\ (forall i, (i < m)%nat -> (val i <=? u)%T1 = true)
    /\ ((iu = (-1)%Z /\ u = 0%T1)
        \/ exists k, (k < m)%nat /\ iu = Z.of_nat k
             /\ (u =? val k)%T1 = true /\ (0 <? u)%T1 = true
             /\ forall j, (j < k)%nat -> (val j <? u)%T1 = true)).
  assert (H : P n (for_range 0 n body (0%T1, (-1)%Z))).
  { apply for_range_inv; [lia| |].
    - unfold P. split; [reflexivity|]. split; [reflexivity|].
      split; [intros i Hi; lia|]. left. auto.
    - intros m [u iu] Hm (Nu & Pu & Hall & Hcase).
      destruct (Hstep m u iu ltac:(lia) Nu Pu) as [[-> Hle]|(y & -> & Ey & Hlt)];
        unfold P.
      + split; [exact Nu|]. split; [exact Pu|]. split.
        * intros i Hi. destruct (Nat.eq_dec i m) as [->|Hne];
            [exact Hle|apply Hall; lia].
        * destruct Hcase as [|(k & Hk & Hrest)]; [left; assumption|].
          right. exists k. split; [lia|exact Hrest].
      + assert (Ny : isnan y = false) by (destruct u, y; auto; discriminate).
        split; [exact Ny|].
        split; [apply T1ltb_leb; apply (T1leb_ltb_trans _ u); assumption|].
        split.
        * intros i Hi. destruct (Nat.eq_dec i m) as [->|Hne].
          -- apply T1eqb_leb; exact Ey.
          -- apply T1ltb_leb. apply (T1leb_ltb_trans _ u); [apply Hall; lia|exact Hlt].
        * right. exists m. split; [lia|]. split; [reflexivity|].
          split; [destruct (val m), y; cbn in *; q_cases; try discriminate; auto;
                  exfalso; lra|].
          split; [apply (T1leb_ltb_trans _ u); assumption|].
          intros j Hj. apply (T1leb_ltb_trans _ u); [apply Hall; lia|exact Hlt]. }
  destruct (for_range 0 n body (0%T1, (-1)%Z)) as [u iu]. exact H.
Qed.

Lemma du_scan_spec (inf_ : list T1) (n : nat) :
  (forall i, (i < n)%nat -> isnan (rd inf_ i) = false) ->
  let '(du_, idu_) := du_scan inf_ n in
  isnan du_ = false /\ (0 <=? du_)%T1 = true
  /\ (forall i, (i < n)%nat -> (fabs (rd inf_ i) <=? du_)%T1 = true)
  /\ ((idu_ = (-1)%Z /\ du_ = 0%T1)
      \/ exists k, (k < n)%nat /\ idu_ = Z.of_nat k
           /\ (du_ =? fabs (rd inf_ k))%T1 = true
           /\ (0 <? du_)%T1 = true
           /\ forall j, (j < k)%nat -> (fabs (rd inf_ j) <? du_)%T1 = true).
Proof.
  intros Hnan. unfold du_scan.
  apply (max_scan_spec (fun i => fabs (rd inf_ i))).
  intros m u iu Hm Nu Pu. cbn [fst].
  pose proof (du_scan_step (rd inf_ m) u (Hnan m Hm) Nu Pu) as Step.
  destruct (rd inf_ m >? u)%T1.
  - right. exists (rd inf_ m). destruct Step. auto.
  - destruct (rd inf_ m <? - u)%T1.
    + right. exists (- rd inf_ m)%T1. destruct Step. auto.
    + left. auto.
Qed.

(** After [casadi_qp_du] the dual error [du] is the largest magnitude of the
    entries of [infeas], [idu] is the first row where it is attained, and
    [idu = -1] with [du = 0] when no entry is nonzero. *)
Theorem casadi_qp_du_largest (d : casadi_qp_data) :
  (forall i, (i < nx (prob d))%nat -> isnan (rd (infeas d) i) = false) ->
  let d' := casadi_qp_du d in
  (forall i, (i < nx (prob d))%nat -> (fabs (rd (infeas d) i) <=? du d')%T1 = true)
  /\ ((idu d' = (-1)%Z /\ du d' = 0%T1)
      \/ exists k, (k < nx (prob d))%nat /\ idu d' = Z.of_nat k
           /\ (du d' =? fabs (rd (infeas d) k))%T1 = true /\ (0 <? du d')%T1 = true
           /\ forall j, (j < k)%nat -> (fabs (rd (infeas d) j) <? du d')%T1 = true).
Proof.
  intros Hnan. cbn zeta. rewrite casadi_qp_du_scan. cbn zeta.
  pose proof (du_scan_spec (infeas d) (nx (prob d)) Hnan) as H.
  destruct (du_scan (infeas d) (nx (prob d))) as [u iu].
  data_fields. cbn [fst snd].
  destruct H as (_ & _ & Hall & Hcase). split; assumption.
Qed.

Lemma casadi_qp_du_largest_witness :
  let d := qp_dual_pivot in
  let d' := casadi_qp_du d in
  (forall i, (i < nx (prob d))%nat -> (fabs (rd (infeas d) i) <=? du d')%T1 = true)
  /\ ((idu d' = (-1)%Z /\ du d' = 0%T1)
      \/ exists k, (k < nx (prob d))%nat /\ idu d' = Z.of_nat k
           /\ (du d' =? fabs (rd (infeas d) k))%T1 = true /\ (0 <? du d')%T1 = true
           /\ forall j, (j < k)%nat -> (fabs (rd (infeas d) j) <? du d')%T1 = true).
Proof.
  apply (casadi_qp_du_largest qp_dual_pivot).
  intros i Hi. change (nx (prob qp_dual_pivot)) with 2%nat in Hi.
  destruct i as [|[|i]]; try reflexivity; lia.
Defined.

(** ** The primal error *)

(** One step of the scan of [casadi_qp_pr], on the scalars alone: [lb <= ub]
    are the bounds, [zq] the value and [u] the largest violation so far. *)
Lemma pr_scan_step (lb ub u : T1) (zq : Q) :
  (lb <=? ub)%T1 = true -> lb <> PInf -> ub <> NInf ->
  isnan u = false -> (0 <=? u)%T1 = true ->
  let v := fmax (fmax (lb - Fin zq) (Fin zq - ub))%T1 0%T1 in
  if (Fin zq >? ub + u)%T1 then
    (v =? Fin zq - ub)%T1 = true /\ (u <? Fin zq - ub)%T1 = true
  else if (Fin zq <? lb - u)%T1 then
    (v =? lb - Fin zq)%T1 = true /\ (u <? lb - Fin zq)%T1 = true
  else (v <=? u)%T1 = true.
Proof.
  unfold T1gtb.
  destruct lb as [l| | |], ub as [h| | |], u as [b| | |];
    intros Hle Hl Hu Nu Pu; try discriminate; try congruence;
    cbn in *; q_cases; try discriminate; try (split; reflexivity);
    try reflexivity; cbn; q_cases; try discriminate; try (split; reflexivity);
    try reflexivity; try (exfalso; lra).
Qed.

(** The scan of [casadi_qp_pr] over rows with ordered bounds, on the pair
    of the largest violation so far and its row. *)
Lemma pr_scan_largest (d : casadi_qp_data) :
  (forall i, (i < nz (prob d))%nat -> row_ordinary d i) ->
  let s := pr_scan (z d) (lbz d) (ubz d) (nz (prob d)) in
  (forall i, (i < nz (prob d))%nat -> (violation d i <=? fst s)%T1 = true)
  /\ ((snd s = (-1)%Z /\ fst s = 0%T1)
      \/ exists k, (k < nz (prob d))%nat /\ snd s = Z.of_nat k
           /\ (fst s =? violation d k)%T1 = true /\ (0 <? fst s)%T1 = true
           /\ forall j, (j < k)%nat -> (violation d j <? fst s)%T1 = true).
Proof.
  intros Hord. cbn zeta.
  assert (H := max_scan_spec (violation d)
                 (fun i (s : T1 * Z) =>
                    if (rd (z d) i >? rd (ubz d) i + fst s)%T1
                    then ((rd (z d) i - rd (ubz d) i)%T1, Z.of_nat i)
                    else if (rd (z d) i <? rd (lbz d) i - fst s)%T1
                         then ((rd (lbz d) i - rd (z d) i)%T1, Z.of_nat i)
                         else s) (nz (prob d))).
  fold (pr_scan (z d) (lbz d) (ubz d) (nz (prob d))) in H.
  destruct (pr_scan (z d) (lbz d) (ubz d) (nz (prob d))) as [u iu].
  cbn [fst snd].
  destruct H as (_ & _ & Hall & Hcase); [|split; assumption].
  intros m u0 iu0 Hm Nu Pu. cbn [fst].
  destruct (Hord m Hm) as (Fz & Hle & Hl & Hu).
  unfold violation.
  destruct (rd (z d) m) as [zq| | |] eqn:Ez; try discriminate.
  pose proof (pr_scan_step (rd (lbz d) m) (rd (ubz d) m) u0 zq Hle Hl Hu Nu Pu) as Step.
  cbn zeta in Step.
  destruct (Fin zq >? rd (ubz d) m + u0)%T1.
  - right. exists (Fin zq - rd (ubz d) m)%T1. destruct Step. auto.
  - destruct (Fin zq <? rd (lbz d) m - u0)%T1.
    + right. exists (rd (lbz d) m - Fin zq)%T1. destruct Step. auto.
    + left. auto.
Qed.



(** ** The constraint added for primal feasibility *)

(** With ordered bounds, a positive violation is the violation of one
    bound, told apart by [z < lbz]. *)
Lemma violation_side (lb ub : T1) (zq : Q) (u : T1) :
  (lb <=? ub)%T1 = true -> lb <> PInf -> ub <> NInf ->
  (u =? fmax (fmax (lb - Fin zq) (Fin zq - ub))%T1 0%T1)%T1 = true ->
  (0 <? u)%T1 = true ->
  if (Fin zq <? lb)%T1 then (u =? lb - Fin zq)%T1 = true
  else (u =? Fin zq - ub)%T1 = true /\ (ub <? Fin zq)%T1 = true.
Proof.
  destruct lb as [l| | |], ub as [h| | |], u as [b| | |];
    intros Hle Hl Hu E P; try discriminate; try congruence;
    cbn in *; q_cases; try discriminate; try (split; reflexivity);
    try reflexivity; cbn in *; q_cases; try discriminate; try (split; reflexivity);
    try reflexivity; try (exfalso; lra).
Qed.



(** ** The sign discipline of the multipliers *)

Lemma rdb_upd_same (l : list bool) (i : nat) (v : bool) :
  (i < length l)%nat -> rdb (upd l i v) i = v.
Proof. apply nth_upd_same. Qed.

Lemma rdb_upd_other (l : list bool) (i j : nat) (v : bool) :
  i <> j -> rdb (upd l i v) j = rdb l j.
Proof. apply nth_upd_other. Qed.

(** The correction of one multiplier by [casadi_qp_reset], on the scalars:
    [fz], [fu], [fl] are the three classifications of the row and [c] the
    test of the nearer bound. *)
Lemma reset_lam_discipline (dm l : T1) (fz fu fl c : bool) :
  (0 <? dm)%T1 = true -> isnan l = false ->
  (fz = true -> fu = false /\ fl = false) ->
  let l' :=
    if fz && (l =? 0)%T1 then (if fu || c then (- dm)%T1 else dm)
    else if fu && (l >? 0)%T1 then (if fz then (- dm)%T1 else 0%T1)
    else if fl && (l <? 0)%T1 then (if fz then dm else 0%T1)
    else l in
  (fz = true -> (l' =? 0)%T1 = false)
  /\ (fu = true -> (l' <=? 0)%T1 = true)
  /\ (fl = true -> (l' >=? 0)%T1 = true).
Proof.
  intros Hd Hn Hz. unfold T1gtb, T1geb.
  destruct fz.
  - destruct (Hz eq_refl) as [-> ->]. cbn [andb orb].
    split; [intros _|split; discriminate].
    destruct (l =? 0)%T1 eqn:E; [|exact E].
    destruct c; destruct dm; cbn in *; q_cases; try discriminate; try reflexivity;
      exfalso; lra.
  - cbn [andb]. split; [discriminate|].
    destruct fu, fl; cbn [andb]; (split; [try discriminate|try discriminate]);
      intros _; destruct l; cbn in *; q_cases; try discriminate; try reflexivity;
      cbn; q_cases; try reflexivity; try (exfalso; lra).
Qed.

(** The classifications of a row: an equality row cannot be unbounded on
    one side only. *)
Lemma reset_flags_exclusive (lb ub : T1) :
  (lb =? ub)%T1 && isinf ub && isinf lb = false ->
  (lb =? ub)%T1 = true -> isinf ub = false /\ isinf lb = false.
Proof. destruct lb, ub; cbn; intros; try discriminate; auto. Qed.

Lemma reset_row_spec (i : nat) (d : casadi_qp_data) :
  (i < length (neverzero d))%nat -> (i < length (neverupper d))%nat ->
  (i < length (neverlower d))%nat -> (i < length (lam d))%nat ->
  let d' := snd (casadi_qp_reset_row i d) in
  let fz := (rd (lbz d) i =? rd (ubz d) i)%T1 in
  let fu := isinf (rd (ubz d) i) in
  let fl := isinf (rd (lbz d) i) in
  rdb (neverzero d') i = fz /\ rdb (neverupper d') i = fu
  /\ rdb (neverlower d') i = fl
  /\ (forall j, j <> i ->
        rd (lam d') j = rd (lam d) j /\ rdb (neverzero d') j = rdb (neverzero d) j
        /\ rdb (neverupper d') j = rdb (neverupper d) j
        /\ rdb (neverlower d') j = rdb (neverlower d) j)
  /\ (fst (casadi_qp_reset_row i d) = false ->
      rd (lam d') i =
      if fz && (rd (lam d) i =? 0)%T1 then
        (if fu || (rd (z d) i - rd (lbz d) i <=? rd (ubz d) i - rd (z d) i)%T1
         then (- dmin (prob d))%T1 else dmin (prob d))
      else if fu && (rd (lam d) i >? 0)%T1 then
        (if fz then (- dmin (prob d))%T1 else 0%T1)
      else if fl && (rd (lam d) i <? 0)%T1 then
        (if fz then dmin (prob d) else 0%T1)
      else rd (lam d) i).
Proof.
  intros Lz Lu Ll Ll'. cbn zeta. unfold casadi_qp_reset_row. cbn zeta. data_fields.
  rewrite !rdb_upd_same by assumption.
  set (fz := (rd (lbz d) i =? rd (ubz d) i)%T1).
  set (fu := isinf (rd (ubz d) i)). set (fl := isinf (rd (lbz d) i)).
  destruct (fz && fu && fl) eqn:Stop; cbn [fst snd]; data_fields.
  - rewrite !rdb_upd_same by assumption.
    split; [reflexivity|]. split; [reflexivity|]. split; [reflexivity|].
    split; [|discriminate].
    intros j Hj. rewrite !rdb_upd_other by auto. auto.
  - repeat match goal with
           | |- context [if ?c then (set_lam _ _) else _] => destruct c eqn:?
           end; data_fields; rewrite !rdb_upd_same by assumption;
      (split; [reflexivity|]); (split; [reflexivity|]); (split; [reflexivity|]);
      (split; [intros j Hj; rewrite !rdb_upd_other by auto;
               rewrite ?rd_upd_other by auto; auto
              |intros _; rewrite ?rd_upd_same by assumption; reflexivity]).
Qed.

Lemma reset_loop_discipline (n : nat) : forall (i : nat) (d : casadi_qp_data),
  (i + n <= length (neverzero d))%nat -> (i + n <= length (neverupper d))%nat ->
  (i + n <= length (neverlower d))%nat -> (i + n <= length (lam d))%nat ->
  (0 <? dmin (prob d))%T1 = true ->
  (forall j, (i <= j < i + n)%nat -> isnan (rd (lam d) j) = false) ->
  fst (casadi_qp_reset_loop n i d) = false ->
  let d' := snd (casadi_qp_reset_loop n i d) in
  prob d' = prob d
  /\ (forall j, (j < i)%nat ->
        rd (lam d') j = rd (lam d) j /\ rdb (neverzero d') j = rdb (neverzero d) j
        /\ rdb (neverupper d') j = rdb (neverupper d) j
        /\ rdb (neverlower d') j = rdb (neverlower d) j)
  /\ (forall j, (i <= j < i + n)%nat ->
        (rdb (neverzero d') j = true -> (rd (lam d') j =? 0)%T1 = false)
        /\ (rdb (neverupper d') j = true -> (rd (lam d') j <=? 0)%T1 = true)
        /\ (rdb (neverlower d') j = true -> (rd (lam d') j >=? 0)%T1 = true)).
Proof.
  induction n as [|n IH]; intros i d Lz Lu Ll Ll' Hd Hn; simpl.
  - intros _. split; [reflexivity|]. split; [auto|]. intros j Hj; lia.
  - pose proof (reset_row_frame i d) as Hf; cbn zeta in Hf.
    pose proof (reset_row_stop i d) as Hs.
    pose proof (reset_row_spec i d) as Hr; cbn zeta in Hr.
    destruct (casadi_qp_reset_row i d) as [stop d1] eqn:E; cbn [fst snd] in Hf, Hs, Hr.
    destruct Hf as (Hp & Hlb & Hub & _ & Lz1 & Lu1 & Ll1 & Ll1').
    destruct Hr as (Fz & Fu & Fl & Oth & Hlam); try lia.
    rewrite Hs by lia. rewrite Hs in Hlam by lia. clear Hs.
    destruct ((rd (lbz d) i =? rd (ubz d) i)%T1 && isinf (rd (ubz d) i)
              && isinf (rd (lbz d) i)) eqn:C; [discriminate|].
    intros Hfst. specialize (Hlam eq_refl).
    destruct (IH (S i) d1) as (Hp' & Before & Rows); try lia.
    + rewrite Hp; exact Hd.
    + intros j Hj. destruct (Oth j) as [-> _]; [lia|]. apply Hn; lia.
    + exact Hfst.
    + split; [congruence|]. split.
      * intros j Hj. destruct (Before j) as (A1 & A2 & A3 & A4); [lia|].
        destruct (Oth j) as (B1 & B2 & B3 & B4); [lia|].
        rewrite A1, A2, A3, A4. auto.
      * intros j Hj. destruct (Nat.eq_dec j i) as [->|Hne]; [|apply Rows; lia].
        destruct (Before i) as (A1 & A2 & A3 & A4); [lia|].
        rewrite A1, A2, A3, A4, Fz, Fu, Fl, Hlam.
        apply reset_lam_discipline.
        -- exact Hd.
        -- apply Hn; lia.
        -- apply reset_flags_exclusive. exact C.
Qed.

(** When [casadi_qp_reset] succeeds, the multipliers have permitted signs:
    nonzero on a row that can never be inactive, nonpositive where there is
    no upper bound, nonnegative where there is no lower bound. *)
Theorem casadi_qp_reset_sign_discipline (d : casadi_qp_data) :
  wf_sizes d ->
  (0 <? dmin (prob d))%T1 = true ->
  (forall i, (i < nz (prob d))%nat -> isnan (rd (lam d) i) = false) ->
  fst (casadi_qp_reset d) = 0%Z ->
  sign_discipline (snd (casadi_qp_reset d)).
Proof.
  intros (_ & _ & _ & _ & Ll' & _ & _ & _ & _ & Lz & Lu & Ll & _) Hd Hn.
  unfold casadi_qp_reset. cbn zeta.
  set (d0 := set_sing 0%Z (set_tau 0%T1 (set_msg (Msg EmptyString []) d))).
  pose proof (reset_loop_discipline (nz (prob d)) 0 d0) as H.
  cbn zeta in H.
  destruct (casadi_qp_reset_loop (nz (prob d)) 0 d0) as [stop d1] eqn:E.
  cbn [fst snd] in H.
  destruct stop; [cbn; discriminate|].
  destruct (casadi_trans (nz_a d1) (sp_a (prob d)) (nz_at d1) (sp_at (prob d)) (iw d1))
    as [at_ iw_].
  intros _. cbn [snd].
  assert (H' := H ltac:(unfold d0; data_fields; lia) ltac:(unfold d0; data_fields; lia)
                  ltac:(unfold d0; data_fields; lia) ltac:(unfold d0; data_fields; lia)
                  Hd ltac:(intros j Hj; apply Hn; lia) eq_refl).
  destruct H' as (Hp & _ & Rows).
  unfold sign_discipline. data_fields. rewrite Hp. unfold d0; data_fields.
  intros i Hi. apply Rows. lia.
Qed.

Lemma casadi_qp_reset_sign_discipline_witness :
  sign_discipline (snd (casadi_qp_reset qp_equality)).
Proof.
  apply (casadi_qp_reset_sign_discipline qp_equality).
  - unfold wf_sizes; cbn; repeat split; lia.
  - reflexivity.
  - intros i Hi. change (i < 1)%nat in Hi.
    destruct i as [|i]; [reflexivity|lia].
  - reflexivity.
Defined.

(** ** The step keeps the signs of the multipliers *)

Lemma rdi_upd_same (l : list Z) (i : nat) (v : Z) :
  (i < length l)%nat -> rdi (upd l i v) i = v.
Proof. apply nth_upd_same. Qed.

Lemma rdi_upd_other (l : list Z) (i j : nat) (v : Z) :
  i <> j -> rdi (upd l i v) j = rdi l j.
Proof. apply nth_upd_other. Qed.

Lemma length_axpy (n : nat) (alpha : T1) (x y : list T1) :
  length (casadi_axpy n alpha x y) = length y.
Proof.
  apply (length_for_range_upd 0 n (fun k => k)
           (fun i y => (rd y i + alpha * rd x i)%T1)).
Qed.

Lemma rd_axpy (n : nat) (alpha : T1) (x y : list T1) (k : nat) :
  (n <= length y)%nat ->
  rd (casadi_axpy n alpha x y) k
  = if (k <? n)%nat then (rd y k + alpha * rd x k)%T1 else rd y k.
Proof.
  intros Hn; unfold casadi_axpy.
  apply (for_range_inv
           (fun m l => length l = length y
                       /\ forall k, rd l k = if (k <? m)%nat
                                             then (rd y k + alpha * rd x k)%T1
                                             else rd y k));
    [lia|split; [reflexivity|intros; reflexivity]|].
  intros i t Hi [Hl Ht]. split; [rewrite length_upd; exact Hl|].
  intros j. destruct (Nat.eq_dec i j) as [<-|Hne].
  - rewrite rd_upd_same by lia. rewrite (Ht i).
    destruct (Nat.ltb_spec i i); [lia|].
    destruct (Nat.ltb_spec i (S i)); [reflexivity|lia].
  - rewrite rd_upd_other by exact Hne. rewrite (Ht j).
    destruct (Nat.ltb_spec j i), (Nat.ltb_spec j (S i)); try lia; reflexivity.
Qed.


#[local] Arguments Qabs : simpl never.

(** The multiplier of one row after the step, on the scalars. *)
Lemma take_step_lam_spec (dm l t dl : T1) (fz : bool) :
  (0 <? dm)%T1 = true -> isnan l = false ->
  let l' := take_step_lam dm fz l t dl in
  isnan l' = false
  /\ ((l =? 0)%T1 = true -> l' = 0%T1)
  /\ ((l =? 0)%T1 = false -> (dm <=? fabs l')%T1 = true)
  /\ (fz = false -> (0 <? l')%T1 = (0 <? l)%T1 /\ (l' <? 0)%T1 = (l <? 0)%T1).
Proof.
  intros Hd Hn. unfold take_step_lam, lam_sign, T1gtb.
  generalize (l + t * dl)%T1 as x. intros x.
  destruct dm as [m| | |]; try discriminate.
  - assert (Hm : 0 < m) by (apply T1ltb_Fin; exact Hd).
    destruct l as [a| | |]; try discriminate; cbn [T1ltb T1compare T1eqb].
    + destruct (Qcompare_spec 0 a), (Qcompare_spec a 0); try (exfalso; lra);
        cbn [Z.ltb Z.compare Z.eqb Z.opp andb];
        destruct fz, x as [b| | |]; cbn; q_cases;
          repeat split; intros; try discriminate; try reflexivity;
          cbn in *; q_cases; try discriminate; try reflexivity;
          try (exfalso; lra); try (destruct (Qabs_cases (- m)); lra);
          try (destruct (Qabs_cases m); lra); try (destruct (Qabs_cases b); lra).
    + destruct fz, x as [b| | |]; cbn; q_cases;
        repeat split; intros; try discriminate; try reflexivity;
        cbn in *; q_cases; try discriminate; try reflexivity;
        try (exfalso; lra); try (destruct (Qabs_cases (- m)); lra);
        try (destruct (Qabs_cases m); lra); try (destruct (Qabs_cases b); lra).
    + destruct fz, x as [b| | |]; cbn; q_cases;
        repeat split; intros; try discriminate; try reflexivity;
        cbn in *; q_cases; try discriminate; try reflexivity;
        try (exfalso; lra); try (destruct (Qabs_cases (- m)); lra);
        try (destruct (Qabs_cases m); lra); try (destruct (Qabs_cases b); lra).
  - destruct l as [a| | |]; try discriminate; cbn [T1ltb T1compare T1eqb].
    + destruct (Qcompare_spec 0 a), (Qcompare_spec a 0); try (exfalso; lra);
        cbn [Z.ltb Z.compare Z.eqb Z.opp andb];
        destruct fz, x as [b| | |]; cbn; q_cases;
          repeat split; intros; try discriminate; try reflexivity;
          cbn in *; q_cases; try discriminate; try reflexivity;
          try (exfalso; lra).
    + destruct fz, x as [b| | |]; cbn; q_cases;
        repeat split; intros; try discriminate; try reflexivity;
        cbn in *; q_cases; try discriminate; try reflexivity;
        try (exfalso; lra).
    + destruct fz, x as [b| | |]; cbn; q_cases;
        repeat split; intros; try discriminate; try reflexivity;
        cbn in *; q_cases; try discriminate; try reflexivity;
        try (exfalso; lra).
Qed.

Lemma take_step_signs_recorded (n : nat) (d : casadi_qp_data) :
  (n <= length (iw d))%nat ->
  let d1 :=
    for_range 0 n (fun i d =>
      set_iw (upd (iw d) i
                (if (rd (lam d) i >? 0)%T1 then 1%Z
                 else if (rd (lam d) i <? 0)%T1 then (-1)%Z else 0%Z)) d) d in
  prob d1 = prob d /\ lam d1 = lam d /\ tau d1 = tau d /\ dlam d1 = dlam d
  /\ dz d1 = dz d /\ z d1 = z d
  /\ neverzero d1 = neverzero d /\ neverupper d1 = neverupper d
  /\ neverlower d1 = neverlower d /\ length (iw d1) = length (iw d)
  /\ forall j, (j < n)%nat -> rdi (iw d1) j = lam_sign (rd (lam d) j).
Proof.
  intros Hn. cbn zeta.
  apply (for_range_inv
           (fun m t =>
              prob t = prob d /\ lam t = lam d /\ tau t = tau d /\ dlam t = dlam d
              /\ dz t = dz d /\ z t = z d
              /\ neverzero t = neverzero d /\ neverupper t = neverupper d
              /\ neverlower t = neverlower d /\ length (iw t) = length (iw d)
              /\ forall j, (j < m)%nat -> rdi (iw t) j = lam_sign (rd (lam d) j)));
    [lia|repeat split; auto; intros; lia|].
  intros i t Hi (Hp & Hl & Ht & Hdl & Hdz & Hz & Hfz & Hfu & Hfl & Hlen & Hiw).
  data_fields. rewrite length_upd.
  repeat (split; [assumption|]).
  intros j Hj. destruct (Nat.eq_dec i j) as [<-|Hne].
  - rewrite rdi_upd_same by lia. rewrite Hl. reflexivity.
  - rewrite rdi_upd_other by exact Hne. apply Hiw; lia.
Qed.

Lemma take_step_rows (d : casadi_qp_data) :
  (nz (prob d) <= length (iw d))%nat -> (nz (prob d) <= length (lam d))%nat ->
  let d' := casadi_qp_take_step d in
  prob d' = prob d /\ neverzero d' = neverzero d /\ neverupper d' = neverupper d
  /\ neverlower d' = neverlower d /\ tau d' = tau d
  /\ length (lam d') = length (lam d)
  /\ z d' = casadi_axpy (nz (prob d)) (tau d) (dz d) (z d)
  /\ forall i, (i < nz (prob d))%nat ->
       rd (lam d') i
       = take_step_lam (dmin (prob d)) (rdb (neverzero d) i) (rd (lam d) i) (tau d)
           (rd (dlam d) i).
Proof.
  intros Liw Llam. cbn zeta. unfold casadi_qp_take_step. cbn zeta.
  pose proof (take_step_signs_recorded (nz (prob d)) d Liw) as H1. cbn zeta in H1.
  set (d1 := for_range 0 (nz (prob d)) _ d) in *.
  destruct H1 as (Hp & Hl & Ht & Hdl & Hdz & Hz & Hfz & Hfu & Hfl & Hlen & Hiw).
  data_fields. rewrite Hl, Ht, Hdl, Hdz, Hz.
  set (lam3 := casadi_axpy (nz (prob d)) (tau d) (dlam d) (lam d)).
  set (z2 := casadi_axpy (nz (prob d)) (tau d) (dz d) (z d)).
  set (d3 := set_lam lam3 (set_z z2 d1)).
  lazymatch goal with
  | |- context [for_range 0 ?n ?body d3] =>
      assert (Inv : ((fun m t =>
              prob t = prob d /\ neverzero t = neverzero d
              /\ neverupper t = neverupper d /\ neverlower t = neverlower d
              /\ tau t = tau d
              /\ length (lam t) = length (lam d) /\ length (iw t) = length (iw d)
              /\ z t = z2
              /\ (forall j, (m <= j)%nat ->
                    rd (lam t) j = rd lam3 j /\ rdi (iw t) j = rdi (iw d1) j)
              /\ forall j, (j < m)%nat ->
                   rd (lam t) j
                   = take_step_lam (dmin (prob d)) (rdb (neverzero d) j)
                       (rd (lam d) j) (tau d) (rd (dlam d) j))) (nz (prob d)) (for_range 0 n body d3));
      [apply (for_range_inv ((fun m t =>
              prob t = prob d /\ neverzero t = neverzero d
              /\ neverupper t = neverupper d /\ neverlower t = neverlower d
              /\ tau t = tau d
              /\ length (lam t) = length (lam d) /\ length (iw t) = length (iw d)
              /\ z t = z2
              /\ (forall j, (m <= j)%nat ->
                    rd (lam t) j = rd lam3 j /\ rdi (iw t) j = rdi (iw d1) j)
              /\ forall j, (j < m)%nat ->
                   rd (lam t) j
                   = take_step_lam (dmin (prob d)) (rdb (neverzero d) j)
                       (rd (lam d) j) (tau d) (rd (dlam d) j))))|]
  end.
  - lia.
  - unfold d3; data_fields. unfold lam3 at 1. rewrite length_axpy.
    repeat (split; [assumption || reflexivity|]).
    split; [auto|]. intros; lia.
  - intros i t Hi (Tp & Tfz & Tfu & Tfl & Tt & Tl & Tiw & Tz & Rest & Done).
    destruct (Rest i (Nat.le_refl i)) as [Rl Ri].
    assert (E1 : rd lam3 i = (rd (lam d) i + tau d * rd (dlam d) i)%T1).
    { unfold lam3. rewrite rd_axpy by exact Llam.
      destruct (Nat.ltb_spec i (nz (prob d))); [reflexivity|lia]. }
    rewrite Tfz.
    set (flip := rdb (neverzero d) i
                 && (if (rdi (iw t) i <? 0)%Z then (rd (lam t) i >? 0)%T1
                     else (rd (lam t) i <? 0)%T1)).
    set (t1 := if flip then set_iw (upd (iw t) i (- rdi (iw t) i)%Z) t else t).
    assert (F : prob t1 = prob d /\ neverzero t1 = neverzero d
                /\ neverupper t1 = neverupper d /\ neverlower t1 = neverlower d
                /\ tau t1 = tau d /\ lam t1 = lam t
                /\ length (iw t1) = length (iw d) /\ z t1 = z2
                /\ rdi (iw t1) i = (if flip then (- rdi (iw t) i)%Z else rdi (iw t) i)
                /\ forall j, i <> j -> rdi (iw t1) j = rdi (iw t) j).
    { unfold t1. destruct flip; data_fields; rewrite ?length_upd;
        repeat (split; [assumption || reflexivity|]).
      - split; [apply rdi_upd_same; lia|]. intros j Hj. apply rdi_upd_other; exact Hj.
      - intros; reflexivity. }
    destruct F as (Fp & Ffz & Ffu & Ffl & Ft & Fl & Fiw & Fz & Fi & Fo).
    assert (G : forall v, let t2 := set_lam (upd (lam t) i v) t1 in
                prob t2 = prob d /\ neverzero t2 = neverzero d
                /\ neverupper t2 = neverupper d /\ neverlower t2 = neverlower d
                /\ tau t2 = tau d
                /\ length (lam t2) = length (lam d) /\ length (iw t2) = length (iw d)
                /\ z t2 = z2
                /\ (forall j, (S i <= j)%nat ->
                      rd (lam t2) j = rd lam3 j /\ rdi (iw t2) j = rdi (iw d1) j)
                /\ rd (lam t2) i = v
                /\ forall j, (j < i)%nat -> rd (lam t2) j = rd (lam t) j).
    { intros v. cbn zeta. data_fields. rewrite length_upd.
      repeat (split; [assumption|]).
      split; [|split].
      - intros j Hj. rewrite rd_upd_other by lia. rewrite Fo by lia. apply Rest; lia.
      - apply rd_upd_same; lia.
      - intros j Hj. rewrite rd_upd_other by lia. reflexivity. }
    assert (Fin_ : forall t2 v,
               prob t2 = prob d /\ neverzero t2 = neverzero d
                /\ neverupper t2 = neverupper d /\ neverlower t2 = neverlower d
                /\ tau t2 = tau d
                /\ length (lam t2) = length (lam d) /\ length (iw t2) = length (iw d)
                /\ z t2 = z2
                /\ (forall j, (S i <= j)%nat ->
                      rd (lam t2) j = rd lam3 j /\ rdi (iw t2) j = rdi (iw d1) j)
                /\ rd (lam t2) i = v
                /\ (forall j, (j < i)%nat -> rd (lam t2) j = rd (lam t) j) ->
               v = take_step_lam (dmin (prob d)) (rdb (neverzero d) i)
                       (rd (lam d) i) (tau d) (rd (dlam d) i) ->
               prob t2 = prob d /\ neverzero t2 = neverzero d
               /\ neverupper t2 = neverupper d /\ neverlower t2 = neverlower d
               /\ tau t2 = tau d
               /\ length (lam t2) = length (lam d) /\ length (iw t2) = length (iw d)
               /\ z t2 = z2
               /\ (forall j, (S i <= j)%nat ->
                     rd (lam t2) j = rd lam3 j /\ rdi (iw t2) j = rdi (iw d1) j)
               /\ forall j, (j < S i)%nat ->
                    rd (lam t2) j
                    = take_step_lam (dmin (prob d)) (rdb (neverzero d) j)
                        (rd (lam d) j) (tau d) (rd (dlam d) j)).
    { intros t2 v (A1 & A2 & A3 & A4 & A5 & A6 & A7 & A8 & A9 & A10 & A11) Ev.
      repeat (split; [assumption|]).
      intros j Hj. destruct (Nat.eq_dec j i) as [->|Hne]; [congruence|].
      rewrite A11 by lia. apply Done; lia. }
    fold t1. rewrite Fl, Fi, Rl, Ri, E1, (Hiw i) by lia.
    assert (Eflip : flip = rdb (neverzero d) i
                 && (if (lam_sign (rd (lam d) i) <? 0)%Z
                     then (rd (lam d) i + tau d * rd (dlam d) i >? 0)%T1
                     else (rd (lam d) i + tau d * rd (dlam d) i <? 0)%T1)).
    { unfold flip. rewrite Rl, Ri, E1, (Hiw i) by lia. reflexivity. }
    unfold take_step_lam in Fin_. cbn zeta in Fin_. rewrite <- Eflip in Fin_.
    destruct ((if flip then (- lam_sign (rd (lam d) i))%Z else lam_sign (rd (lam d) i))
              =? -1)%Z eqn:C1.
    { eapply Fin_; [apply G|]. reflexivity. }
    destruct ((if flip then (- lam_sign (rd (lam d) i))%Z else lam_sign (rd (lam d) i))
              =? 1)%Z eqn:C2.
    { eapply Fin_; [apply G|]. reflexivity. }
    destruct ((if flip then (- lam_sign (rd (lam d) i))%Z else lam_sign (rd (lam d) i))
              =? 0)%Z eqn:C3.
    { eapply Fin_; [apply G|]. reflexivity. }
    exfalso. unfold lam_sign in C1, C2, C3.
    destruct flip, (rd (lam d) i >? 0)%T1, (rd (lam d) i <? 0)%T1; discriminate.
  - cbv beta in Inv.
    destruct Inv as (Tp & Tfz & Tfu & Tfl & Tt & Tl & Tiw & Tz & Rest & Done).
    repeat (split; [assumption|]). exact Done.
Qed.

(** [casadi_qp_take_step] does not change the active set: a zero
    multiplier stays zero, a nonzero multiplier ends at least [dmin] away
    from zero, and only a row that can never be inactive may change the
    sign of its multiplier. *)
Theorem casadi_qp_take_step_keeps_signs (d : casadi_qp_data) :
  wf_sizes d ->
  (0 <? dmin (prob d))%T1 = true ->
  (forall i, (i < nz (prob d))%nat -> isnan (rd (lam d) i) = false) ->
  let d' := casadi_qp_take_step d in
  forall i, (i < nz (prob d))%nat ->
    isnan (rd (lam d') i) = false
    /\ ((rd (lam d) i =? 0)%T1 = true -> rd (lam d') i = 0%T1)
    /\ ((rd (lam d) i =? 0)%T1 = false
        -> (dmin (prob d) <=? fabs (rd (lam d') i))%T1 = true)
    /\ (rdb (neverzero d) i = false ->
        (0 <? rd (lam d') i)%T1 = (0 <? rd (lam d) i)%T1
        /\ (rd (lam d') i <? 0)%T1 = (rd (lam d) i <? 0)%T1).
Proof.
  intros (_ & _ & _ & _ & Ll & _ & _ & _ & _ & _ & _ & _ & _ & Liw) Hd Hn.
  cbn zeta. intros i Hi.
  destruct (take_step_rows d) as (_ & _ & _ & _ & _ & _ & _ & Rows); try lia.
  rewrite (Rows i Hi).
  apply take_step_lam_spec; [exact Hd|apply Hn; exact Hi].
Qed.

Lemma casadi_qp_take_step_keeps_signs_witness :
  let d := set_tau 1%T1 qp_two_breakpoints in
  let d' := casadi_qp_take_step d in
  isnan (rd (lam d') 2) = false
  /\ ((rd (lam d) 2 =? 0)%T1 = true -> rd (lam d') 2 = 0%T1)
  /\ ((rd (lam d) 2 =? 0)%T1 = false
      -> (dmin (prob d) <=? fabs (rd (lam d') 2))%T1 = true)
  /\ (rdb (neverzero d) 2 = false ->
      (0 <? rd (lam d') 2)%T1 = (0 <? rd (lam d) 2)%T1
      /\ (rd (lam d') 2 <? 0)%T1 = (rd (lam d) 2 <? 0)%T1).
Proof.
  apply (casadi_qp_take_step_keeps_signs (set_tau 1%T1 qp_two_breakpoints)).
  - unfold wf_sizes. vm_compute. repeat split; lia.
  - reflexivity.
  - intros i Hi. change (i < 4)%nat in Hi.
    destruct i as [|[|[|[|i]]]]; try lia; reflexivity.
  - vm_compute. lia.
Defined.

Lemma not_pos_nonpos (x : T1) :
  isnan x = false -> (0 <? x)%T1 = false -> (x <=? 0)%T1 = true.
Proof. destruct x; cbn; q_cases; try discriminate; auto; intros; lra. Qed.

Lemma not_neg_nonneg (x : T1) :
  isnan x = false -> (x <? 0)%T1 = false -> (x >=? 0)%T1 = true.
Proof.
  unfold T1geb. destruct x; cbn; q_cases; try discriminate; auto; intros; lra.
Qed.

Lemma nonpos_not_pos (x : T1) : (x <=? 0)%T1 = true -> (0 <? x)%T1 = false.
Proof. destruct x; cbn; q_cases; try discriminate; auto; intros; lra. Qed.

Lemma nonneg_not_neg (x : T1) : (x >=? 0)%T1 = true -> (x <? 0)%T1 = false.
Proof.
  unfold T1geb. destruct x; cbn; q_cases; try discriminate; auto; intros; lra.
Qed.

Lemma away_from_zero (dm x : T1) :
  (0 <? dm)%T1 = true -> (dm <=? fabs x)%T1 = true -> (x =? 0)%T1 = false.
Proof.
  destruct dm as [m| | |], x as [a| | |]; cbn; try discriminate; auto;
    q_cases; try discriminate; auto; intros;
    destruct (Qabs_cases a); lra.
Qed.

(** [casadi_qp_take_step] keeps the permitted signs of the multipliers,
    when no row is classified both as never inactive and as unbounded on a
    side (which holds after a successful [casadi_qp_reset]). *)
Theorem casadi_qp_take_step_sign_discipline (d : casadi_qp_data) :
  wf_sizes d ->
  (0 <? dmin (prob d))%T1 = true ->
  (forall i, (i < nz (prob d))%nat -> isnan (rd (lam d) i) = false) ->
  flags_consistent d ->
  sign_discipline d ->
  sign_discipline (casadi_qp_take_step d).
Proof.
  intros (_ & _ & _ & _ & Ll & _ & _ & _ & _ & _ & _ & _ & _ & Liw) Hd Hn Hc Hs.
  destruct (take_step_rows d) as (Hp & Hfz & Hfu & Hfl & _ & _ & _ & Rows); try lia.
  unfold sign_discipline. rewrite Hp, Hfz, Hfu, Hfl.
  intros i Hi. rewrite (Rows i Hi).
  destruct (take_step_lam_spec (dmin (prob d)) (rd (lam d) i) (tau d)
              (rd (dlam d) i) (rdb (neverzero d) i) Hd (Hn i Hi))
    as (Nn & _ & Away & Keep).
  destruct (Hs i Hi) as (Sz & Su & Sl).
  split; [|split].
  - intros Fz. apply (away_from_zero (dmin (prob d))); [exact Hd|].
    apply Away. apply Sz. exact Fz.
  - intros Fu. destruct (rdb (neverzero d) i) eqn:Fz.
    + destruct (Hc i Hi Fz) as [C _]. congruence.
    + destruct (Keep eq_refl) as [K _].
      apply not_pos_nonpos; [exact Nn|]. rewrite K.
      apply nonpos_not_pos. apply Su. exact Fu.
  - intros Fl. destruct (rdb (neverzero d) i) eqn:Fz.
    + destruct (Hc i Hi Fz) as [_ C]. congruence.
    + destruct (Keep eq_refl) as [_ K].
      apply not_neg_nonneg; [exact Nn|]. rewrite K.
      apply nonneg_not_neg. apply Sl. exact Fl.
Qed.

Lemma casadi_qp_take_step_sign_discipline_witness :
  sign_discipline (casadi_qp_take_step (set_tau 1%T1 qp_two_breakpoints)).
Proof.
  apply (casadi_qp_take_step_sign_discipline (set_tau 1%T1 qp_two_breakpoints)).
  - unfold wf_sizes. vm_compute. repeat split; lia.
  - reflexivity.
  - intros i Hi. change (i < 4)%nat in Hi.
    destruct i as [|[|[|[|i]]]]; try lia; reflexivity.
  - intros i Hi. change (i < 4)%nat in Hi.
    destruct i as [|[|[|[|i]]]]; try lia; vm_compute; discriminate.
  - intros i Hi. change (i < 4)%nat in Hi.
    destruct i as [|[|[|[|i]]]]; try lia;
      (split; [|split]); vm_compute; try discriminate; reflexivity.
Defined.

(** ** The dependent quantities keep the signs of the multipliers *)

Lemma multiplier_update_sign (dm l g_ : T1) :
  (0 <? dm)%T1 = true ->
  let l' := multiplier_update dm l g_ in
  (0 <? l')%T1 = (0 <? l)%T1 /\ (l' <? 0)%T1 = (l <? 0)%T1
  /\ (l' =? 0)%T1 = (l =? 0)%T1
  /\ (l' <=? 0)%T1 = (l <=? 0)%T1 /\ (l' >=? 0)%T1 = (l >=? 0)%T1.
Proof.
  intros Hd. unfold multiplier_update, T1gtb, T1geb.
  destruct (0 <? l)%T1 eqn:Ep.
  - generalize (- g_)%T1 as x; intros x.
    destruct dm as [m| | |], l as [a| | |], x as [b| | |]; try discriminate;
      cbn in *; q_cases; try discriminate; repeat split; try reflexivity;
      cbn; q_cases; try reflexivity; exfalso; lra.
  - destruct (l <? 0)%T1 eqn:En.
    + generalize (- g_)%T1 as x; intros x.
      destruct dm as [m| | |], l as [a| | |], x as [b| | |]; try discriminate;
        cbn in *; q_cases; try discriminate; repeat split; try reflexivity;
        cbn; q_cases; try reflexivity; exfalso; lra.
    + rewrite Ep, En. repeat split; reflexivity.
Qed.

Lemma calc_dependent_rows (d : casadi_qp_data) :
  (nx (prob d) <= length (lam d))%nat -> (nx (prob d) <= length (infeas d))%nat ->
  let d' := casadi_qp_calc_dependent d in
  prob d' = prob d /\ neverzero d' = neverzero d /\ neverupper d' = neverupper d
  /\ neverlower d' = neverlower d
  /\ forall i, rd (lam d') i
               = if (i <? nx (prob d))%nat
                 then multiplier_update (dmin (prob d)) (rd (lam d) i)
                        (rd (calc_grad d) i)
                 else rd (lam d) i.
Proof.
  intros Ll Li. cbn zeta.
  rewrite casadi_qp_calc_dependent_eq; cbn zeta; data_fields.
  repeat (split; [reflexivity|]).
  assert (Lg : length (calc_grad d) = length (infeas d)).
  { unfold calc_grad; cbn zeta. rewrite !length_mv, length_copy. reflexivity. }
  destruct (lam_infeas_update_spec (dmin (prob d)) (nx (prob d)) (lam d) (calc_grad d))
    as (_ & _ & Rows); try lia.
  intros i. apply Rows.
Qed.

(** [casadi_qp_calc_dependent] recomputes the multipliers of the variables
    without changing the active set: every sign test on a multiplier gives
    the same answer before and after, and the multipliers of the linear
    constraints are not touched. *)
Theorem casadi_qp_calc_dependent_keeps_signs (d : casadi_qp_data) (i : nat) :
  (nx (prob d) <= length (lam d))%nat -> (nx (prob d) <= length (infeas d))%nat ->
  (0 <? dmin (prob d))%T1 = true ->
  let l := rd (lam d) i in
  let l' := rd (lam (casadi_qp_calc_dependent d)) i in
  (0 <? l')%T1 = (0 <? l)%T1 /\ (l' <? 0)%T1 = (l <? 0)%T1
  /\ (l' =? 0)%T1 = (l =? 0)%T1
  /\ ((nx (prob d) <= i)%nat -> l' = l).
Proof.
  intros Ll Li Hd. cbn zeta.
  destruct (calc_dependent_rows d Ll Li) as (_ & _ & _ & _ & Rows).
  rewrite (Rows i).
  destruct (Nat.ltb_spec i (nx (prob d))) as [Hi|Hi].
  - destruct (multiplier_update_sign (dmin (prob d)) (rd (lam d) i)
                (rd (calc_grad d) i) Hd) as (A & B & C & _).
    repeat split; try assumption. intros; lia.
  - repeat split; reflexivity.
Qed.

Lemma casadi_qp_calc_dependent_keeps_signs_witness :
  let d := qp_stale in
  let l := rd (lam d) 1 in
  let l' := rd (lam (casadi_qp_calc_dependent d)) 1 in
  (0 <? l')%T1 = (0 <? l)%T1 /\ (l' <? 0)%T1 = (l <? 0)%T1
  /\ (l' =? 0)%T1 = (l =? 0)%T1
  /\ ((nx (prob d) <= 1)%nat -> l' = l).
Proof.
  apply (casadi_qp_calc_dependent_keeps_signs qp_stale 1).
  - cbn; lia.
  - cbn; lia.
  - reflexivity.
Defined.

(** [casadi_qp_calc_dependent] keeps the permitted signs of the
    multipliers. *)
Theorem casadi_qp_calc_dependent_sign_discipline (d : casadi_qp_data) :
  (nx (prob d) <= length (lam d))%nat -> (nx (prob d) <= length (infeas d))%nat ->
  (0 <? dmin (prob d))%T1 = true ->
  sign_discipline d ->
  sign_discipline (casadi_qp_calc_dependent d).
Proof.
  intros Ll Li Hd Hs.
  destruct (calc_dependent_rows d Ll Li) as (Hp & Hfz & Hfu & Hfl & Rows).
  unfold sign_discipline. rewrite Hp, Hfz, Hfu, Hfl.
  intros i Hi. rewrite (Rows i).
  destruct (Nat.ltb_spec i (nx (prob d))) as [Hx|Hx]; [|apply Hs; exact Hi].
  destruct (multiplier_update_sign (dmin (prob d)) (rd (lam d) i)
              (rd (calc_grad d) i) Hd) as (_ & _ & C & D & E).
  rewrite C, D, E. apply Hs; exact Hi.
Qed.

Lemma casadi_qp_calc_dependent_sign_discipline_witness :
  sign_discipline (casadi_qp_calc_dependent (snd (casadi_qp_reset qp_equality))).
Proof.
  apply (casadi_qp_calc_dependent_sign_discipline (snd (casadi_qp_reset qp_equality))).
  - vm_compute; lia.
  - vm_compute; lia.
  - reflexivity.
  - intros i Hi. change (i < 1)%nat in Hi.
    destruct i as [|i]; [|lia].
    (split; [|split]); vm_compute; try discriminate; reflexivity.
Defined.

(** ** Products with the columns of the KKT matrix *)

(** A running sum and the running difference of the same finite terms. *)
Lemma running_sum (a : nat) (t : nat -> T1) (b : nat) :
  (forall k, is_finite (t k) = true) ->
  exists q, forall r0, exists q1 q2,
    for_range a b (fun k r => (r + t k)%T1) (Fin r0) = Fin q1 /\ q1 == r0 + q
    /\ for_range a b (fun k r => (r - t k)%T1) (Fin r0) = Fin q2 /\ q2 == r0 - q.
Proof.
  intros Ht. induction b as [|b IH].
  - exists 0. intros r0. exists r0, r0. rewrite !for_range_empty by lia.
    repeat split; lra.
  - destruct (Nat.le_gt_cases a b) as [Hab|Hab].
    + destruct IH as [q IH]. specialize (Ht b).
      destruct (t b) as [tb| | |] eqn:Eb; try discriminate.
      exists (q + tb). intros r0. destruct (IH r0) as (q1 & q2 & E1 & H1 & E2 & H2).
      exists (q1 + tb), (q2 + - tb). rewrite !for_range_last by lia.
      rewrite E1, E2, Eb. cbn. repeat split; lra.
    + exists 0. intros r0. exists r0, r0. rewrite !for_range_empty by lia.
      repeat split; lra.
Qed.

Lemma is_finite_mul (x y : T1) :
  is_finite x = true -> is_finite y = true -> is_finite (x * y)%T1 = true.
Proof. destruct x, y; cbn; intros; try discriminate; auto. Qed.



(** ** The dual line search *)

Lemma fmax_0_nonneg (x : T1) : (0 <=? fmax 0 x)%T1 = true.
Proof. destruct x; cbn; q_cases; try reflexivity; cbn; q_cases; try reflexivity; lra. Qed.

(** The inner loop of [casadi_qp_dual_blocking] over the variables: the
    step length is kept, or shortened to a nonnegative length with the
    index of a variable. *)
Lemma dual_blocking_scan (e tau_k dtau : T1) (n : nat) (d : casadi_qp_data) (i0 : Z) :
  let r :=
    for_range 0 n (fun k (s : casadi_qp_data * Z) =>
      let (d, du_index) := s in
      let new_infeas := (rd (infeas d) k + dtau * rd (tinfeas d) k)%T1 in
      if (fabs new_infeas >? e)%T1 then
        let tau1 :=
          fmax 0%T1
            (tau_k + ((if (new_infeas >? 0)%T1 then e else (- e)%T1) - rd (infeas d) k)
                     / rd (tinfeas d) k)%T1 in
        if (tau1 <? tau d)%T1 then (set_tau tau1 d, Z.of_nat k) else s
      else s) (d, i0) in
  prob (fst r) = prob d /\ w (fst r) = w d /\ iw (fst r) = iw d
  /\ infeas (fst r) = infeas d /\ tinfeas (fst r) = tinfeas d
  /\ z (fst r) = z d /\ lam (fst r) = lam d /\ dz (fst r) = dz d
  /\ dlam (fst r) = dlam d /\ neverzero (fst r) = neverzero d
  /\ nz_at (fst r) = nz_at d
  /\ ((snd r = i0 /\ tau (fst r) = tau d)
      \/ ((0 <= snd r < Z.of_nat n)%Z /\ (0 <=? tau (fst r))%T1 = true
          /\ (tau (fst r) <? tau d)%T1 = true)).
Proof.
  cbn zeta.
  apply (for_range_inv
           (fun m (r : casadi_qp_data * Z) =>
              prob (fst r) = prob d /\ w (fst r) = w d /\ iw (fst r) = iw d
              /\ infeas (fst r) = infeas d /\ tinfeas (fst r) = tinfeas d
              /\ z (fst r) = z d /\ lam (fst r) = lam d /\ dz (fst r) = dz d
              /\ dlam (fst r) = dlam d /\ neverzero (fst r) = neverzero d
              /\ nz_at (fst r) = nz_at d
              /\ ((snd r = i0 /\ tau (fst r) = tau d)
                  \/ ((0 <= snd r < Z.of_nat m)%Z /\ (0 <=? tau (fst r))%T1 = true
                      /\ (tau (fst r) <? tau d)%T1 = true)))).
  - lia.
  - cbn [fst snd]. repeat (split; [reflexivity|]). left; split; reflexivity.
  - intros k [t ix] Hk (A1 & A2 & A3 & A4 & A5 & A6 & A7 & A8 & A9 & A10 & A11 & C).
    cbn [fst snd] in *.
    assert (Keep : (ix = i0 /\ tau t = tau d)
                   \/ ((0 <= ix < Z.of_nat (S k))%Z /\ (0 <=? tau t)%T1 = true
                       /\ (tau t <? tau d)%T1 = true)).
    { destruct C as [C|(C1 & C2 & C3)]; [left; exact C|right].
      split; [lia|split; assumption]. }
    destruct (fabs _ >? e)%T1; cbn [fst snd];
      [|repeat (split; [assumption|]); exact Keep].
    match goal with |- context [(?t1 <? tau t)%T1] =>
      destruct (t1 <? tau t)%T1 eqn:Lt; cbn [fst snd]; data_fields
    end; [|repeat (split; [assumption|]); exact Keep].
    repeat (split; [assumption|]). right.
    split; [lia|]. split; [apply fmax_0_nonneg|].
    destruct C as [[_ C]|(_ & _ & C)].
    + rewrite <- C. exact Lt.
    + eapply T1ltb_trans; [exact Lt|exact C].
Qed.

Ltac data_fields_in H :=
  cbn [prob f nz_a nz_h g z lbz ubz infeas tinfeas lam w dz dlam iw neverzero
       neverlower neverupper nz_at nz_kkt beta nz_v nz_r msg tau sing mina
       imina pr du ipr idu
       set_f set_z set_infeas set_tinfeas set_lam set_w set_dz set_dlam
       set_iw set_neverzero set_neverlower set_neverupper set_nz_at set_msg
       set_tau set_sing set_pr set_du set_ipr set_idu] in H.

Lemma tangent_update_frame (a b : nat) (body : nat -> casadi_qp_data -> casadi_qp_data)
  (d : casadi_qp_data) :
  (forall k t, exists v, body k t = set_tinfeas v t) ->
  let d' := for_range a b body d in
  prob d' = prob d /\ tau d' = tau d /\ z d' = z d /\ lam d' = lam d
  /\ dz d' = dz d /\ dlam d' = dlam d /\ neverzero d' = neverzero d.
Proof.
  intros Hb. cbn zeta. destruct (Nat.le_gt_cases a b) as [Hab|Hab];
    [|rewrite for_range_empty by lia; repeat split; reflexivity].
  apply (for_range_inv
           (fun _ d' => prob d' = prob d /\ tau d' = tau d /\ z d' = z d
                        /\ lam d' = lam d /\ dz d' = dz d /\ dlam d' = dlam d
                        /\ neverzero d' = neverzero d));
    [exact Hab|repeat split; reflexivity|].
  intros k t _ H. destruct (Hb k t) as [v ->]. data_fields. exact H.
Qed.

(** The invariant of the loop over the breakpoints, relative to the record
    [d0] at the start. *)
Lemma dual_blocking_step_inv (d0 : casadi_qp_data) (e : T1) (j : nat)
  (s : dual_blocking_state) :
  let I := fun s =>
    prob (db_d s) = prob d0 /\ z (db_d s) = z d0 /\ lam (db_d s) = lam d0
    /\ dz (db_d s) = dz d0 /\ dlam (db_d s) = dlam d0
    /\ neverzero (db_d s) = neverzero d0
    /\ ((db_du_index s = (-1)%Z /\ tau (db_d s) = tau d0)
        \/ (db_done s = true /\ (0 <= db_du_index s < Z.of_nat (nx (prob d0)))%Z
            /\ (0 <=? tau (db_d s))%T1 = true
            /\ (tau (db_d s) <? tau d0)%T1 = true)) in
  I s -> I (casadi_qp_dual_blocking_step e j s).
Proof.
  cbn zeta. intros (Hp & Hz & Hl & Hdz & Hdl & Hfz & C).
  unfold casadi_qp_dual_blocking_step.
  destruct (db_done s) eqn:Done.
  { repeat (split; [assumption|]). rewrite Done. exact C. }
  destruct C as [[Ci Ct]|(C & _)]; [|discriminate].
  cbn zeta.
  pose proof (dual_blocking_scan e (db_tau_k s) (rd (w (db_d s)) j - db_tau_k s)%T1
                (nx (prob (db_d s))) (db_d s) (db_du_index s)) as Scan.
  cbn zeta in Scan.
  match type of Scan with
  | context [for_range 0 ?n ?body ?init] =>
      change (for_range 0 n body init) with (for_range 0 n body init) in Scan;
      destruct (for_range 0 n body init) as [d1 ix] eqn:E
  end.
  cbn [fst snd] in Scan.
  destruct Scan as (S1 & S2 & S3 & S4 & S5 & S6 & S7 & S8 & S9 & S10 & S11 & SC).
  destruct (ix >=? 0)%Z eqn:Ge.
  - cbn [db_d db_du_index db_done]. data_fields.
    rewrite S1, S6, S7, S8, S9, S10.
    repeat (split; [assumption|]).
    destruct SC as [[SC _]|(SC1 & SC2 & SC3)]; [lia|].
    right. split; [reflexivity|]. rewrite <- Hp, <- Ct. auto.
  - destruct SC as [[SC St]|(SC1 & _)]; [|lia].
    data_fields.
    destruct (rdi (iw _) j <? 0)%Z.
    + cbn [db_d db_du_index db_done]. data_fields.
      rewrite S1, S6, S7, S8, S9, S10.
      repeat (split; [assumption|]).
      left. split; congruence.
    + cbn [db_d db_du_index db_done].
      match goal with
      | |- context [if negb ?c then _ else _] => destruct (negb c)
      end.
      * match goal with
        | |- context [if ?c then _ else _] => destruct c
        end.
        -- data_fields. rewrite S1, S6, S7, S8, S9, S10.
           repeat (split; [assumption|]). left. split; congruence.
        -- match goal with
           | |- context [for_range ?a ?b ?body ?dd] =>
               pose proof (tangent_update_frame a b body dd) as Fr
           end.
           cbn zeta in Fr.
           destruct Fr as (F1 & F2 & F3 & F4 & F5 & F6 & F7);
             [intros; eexists; reflexivity|].
           data_fields_in F1. data_fields_in F2. data_fields_in F3.
           data_fields_in F4. data_fields_in F5. data_fields_in F6.
           data_fields_in F7.
           rewrite F1, F2, F3, F4, F5, F6, F7, S1, S6, S7, S8, S9, S10.
           repeat (split; [assumption|]). left. split; congruence.
      * data_fields. rewrite S1, S6, S7, S8, S9, S10.
        repeat (split; [assumption|]). left. split; congruence.
Qed.

Lemma dual_blocking_spec (d : casadi_qp_data) (e : T1) :
  let r := casadi_qp_dual_blocking d e in
  prob (snd r) = prob d /\ z (snd r) = z d /\ lam (snd r) = lam d
  /\ dz (snd r) = dz d /\ dlam (snd r) = dlam d
  /\ neverzero (snd r) = neverzero d
  /\ ((fst r = (-1)%Z /\ tau (snd r) = tau d)
      \/ ((0 <= fst r < Z.of_nat (nx (prob d)))%Z
          /\ (0 <=? tau (snd r))%T1 = true
          /\ (tau (snd r) <? tau d)%T1 = true)).
Proof.
  cbn zeta. unfold casadi_qp_dual_blocking.
  destruct (casadi_qp_dual_breakpoints d (w d) (iw d) e (tau d)) as [[n_tau w_] iw_].
  cbn [fst snd].
  set (d0 := set_iw iw_ (set_w w_ d)).
  assert (Inv :
    (fun (_ : nat) s =>
       prob (db_d s) = prob d0 /\ z (db_d s) = z d0 /\ lam (db_d s) = lam d0
       /\ dz (db_d s) = dz d0 /\ dlam (db_d s) = dlam d0
       /\ neverzero (db_d s) = neverzero d0
       /\ ((db_du_index s = (-1)%Z /\ tau (db_d s) = tau d0)
           \/ (db_done s = true /\ (0 <= db_du_index s < Z.of_nat (nx (prob d0)))%Z
               /\ (0 <=? tau (db_d s))%T1 = true
               /\ (tau (db_d s) <? tau d0)%T1 = true)))
      n_tau
      (for_range 0 n_tau (casadi_qp_dual_blocking_step e)
         {| db_d := d0; db_du_index := (-1)%Z; db_tau_k := 0%T1; db_done := false |})).
  { apply for_range_inv; [lia| |].
    - cbn [db_d db_du_index db_done]. repeat (split; [reflexivity|]).
      left; split; reflexivity.
    - intros j s _ H. apply (dual_blocking_step_inv d0 e j s). exact H. }
  cbv beta in Inv.
  destruct Inv as (Hp & Hz & Hl & Hdz & Hdl & Hfz & C).
  unfold d0 in Hp, Hz, Hl, Hdz, Hdl, Hfz, C.
  data_fields_in Hp. data_fields_in Hz. data_fields_in Hl. data_fields_in Hdz.
  data_fields_in Hdl. data_fields_in Hfz. data_fields_in C.
  repeat (split; [assumption|]).
  destruct C as [C|(_ & C)]; [left|right]; exact C.
Qed.


(** ** The line search *)

Lemma primal_blocking_loop_frame (e : T1) (n : nat) :
  forall (i : nat) (ix sg : Z) (d : casadi_qp_data),
    let d' := snd (casadi_qp_primal_blocking_loop e n i (ix, sg, d)) in
    prob d' = prob d /\ z d' = z d /\ dz d' = dz d.
Proof.
  induction n as [|n IH]; intros i ix sg d; [cbn; auto|].
  cbn [casadi_qp_primal_blocking_loop]. cbn zeta.
  destruct (rd (dz d) i =? 0)%T1; [apply IH|].
  match goal with
  | |- context [if (tau (snd ?s) <=? 0)%T1 then _ else _] =>
      assert (F : prob (snd s) = prob d /\ z (snd s) = z d /\ dz (snd s) = dz d);
      [|destruct s as [[ix' sg'] d'] eqn:Es]
  end.
  { repeat match goal with |- context [if ?c then _ else _] => destruct c end;
      cbn [snd]; unfold casadi_qp_log; data_fields; auto. }
  cbn [snd] in *. destruct F as (F1 & F2 & F3).
  destruct (tau d' <=? 0)%T1; cbn [snd]; [auto|].
  destruct (IH (S i) ix' sg' d') as (G1 & G2 & G3). cbn zeta in *.
  rewrite G1, G2, G3. auto.
Qed.

Lemma loop_frame_primal (a b : nat) (body : nat -> casadi_qp_data -> casadi_qp_data)
  (d : casadi_qp_data) :
  (forall k t, prob (body k t) = prob t /\ z (body k t) = z t
               /\ dz (body k t) = dz t /\ tau (body k t) = tau t) ->
  let d' := for_range a b body d in
  prob d' = prob d /\ z d' = z d /\ dz d' = dz d /\ tau d' = tau d.
Proof.
  intros Hb. cbn zeta. destruct (Nat.le_gt_cases a b) as [Hab|Hab];
    [|rewrite for_range_empty by lia; repeat split; reflexivity].
  apply (for_range_inv
           (fun _ d' => prob d' = prob d /\ z d' = z d /\ dz d' = dz d
                        /\ tau d' = tau d));
    [exact Hab|repeat split; reflexivity|].
  intros k t _ (H1 & H2 & H3 & H4). destruct (Hb k t) as (B1 & B2 & B3 & B4).
  rewrite B1, B2, B3, B4. auto.
Qed.

(** The primal step of [casadi_qp_take_step]. *)
Lemma take_step_z (d : casadi_qp_data) :
  let d' := casadi_qp_take_step d in
  prob d' = prob d /\ tau d' = tau d
  /\ z d' = casadi_axpy (nz (prob d)) (tau d) (dz d) (z d).
Proof.
  cbn zeta. unfold casadi_qp_take_step. cbn zeta.
  match goal with
  | |- context [set_z (casadi_axpy _ (tau ?d1) (dz ?d1) (z ?d1)) ?d1] =>
      assert (F1 : prob d1 = prob d /\ z d1 = z d /\ dz d1 = dz d /\ tau d1 = tau d);
      [apply loop_frame_primal; intros k t; data_fields; auto
      |set (d1' := d1) in *]
  end.
  destruct F1 as (P1 & Z1 & DZ1 & T1_).
  match goal with
  | |- context [for_range 0 ?n ?body ?d3] =>
      assert (F3 : prob (for_range 0 n body d3) = prob d3
                   /\ z (for_range 0 n body d3) = z d3
                   /\ dz (for_range 0 n body d3) = dz d3
                   /\ tau (for_range 0 n body d3) = tau d3)
  end.
  { apply loop_frame_primal. intros k t.
    repeat match goal with |- context [if ?c then _ else _] => destruct c end;
      data_fields; auto. }
  destruct F3 as (P3 & Z3 & _ & T3). rewrite P3, Z3, T3. data_fields.
  rewrite P1, Z1, DZ1, T1_. auto.
Qed.

(** A component whose violation is at most [pr] is within every budget
    [fmax pr x] of its bounds. *)
Lemma envelope_of_violation (lb ub p x : T1) (zq dq : Q) :
  (lb <=? ub)%T1 = true -> lb <> PInf -> ub <> NInf ->
  (fmax (fmax (lb - Fin zq) (Fin zq - ub))%T1 0%T1 <=? p)%T1 = true ->
  (lb - fmax p x <=? Fin zq + 0 * Fin dq)%T1 = true
  /\ (Fin zq + 0 * Fin dq <=? ub + fmax p x)%T1 = true.
Proof.
  intros Hle Hl Hu.
  destruct lb as [l| | |], ub as [h| | |]; try discriminate; try congruence;
    clear Hle; destruct p as [b| | |], x as [c| | |]; cbn; q_cases; try discriminate; cbn; q_cases;
    try discriminate; intros; try (split; reflexivity); cbn in *; q_cases;
    try discriminate; try (split; reflexivity); try (exfalso; lra).
Qed.



(** ** The change of the active set *)

Lemma same_iterate_refl (d : casadi_qp_data) : same_iterate d d.
Proof. unfold same_iterate. repeat split; reflexivity. Qed.

Lemma same_iterate_trans (d d1 d2 : casadi_qp_data) :
  same_iterate d d1 -> same_iterate d1 d2 -> same_iterate d d2.
Proof.
  unfold same_iterate.
  intros (A1 & A2 & A3 & A4 & A5 & A6 & A7 & A8 & A9 & A10 & A11 & A12 & A13)
         (B1 & B2 & B3 & B4 & B5 & B6 & B7 & B8 & B9 & B10 & B11 & B12 & B13).
  repeat split; congruence.
Qed.

Lemma same_iterate_log (d : casadi_qp_data) (fmt : string) (args : list log_arg) :
  same_iterate d (casadi_qp_log d fmt args).
Proof. unfold same_iterate, casadi_qp_log. data_fields. repeat split; reflexivity. Qed.

Lemma pr_index_same (d : casadi_qp_data) (sign : Z) :
  let r := casadi_qp_pr_index d sign in
  same_iterate d (snd r) /\ (fst (fst r) = ipr d \/ fst (fst r) = (-1)%Z).
Proof.
  cbn zeta. unfold casadi_qp_pr_index.
  destruct (rdz (lam d) (ipr d) =? 0)%T1; cbn [fst snd].
  - split; [apply same_iterate_log|]. unfold casadi_qp_log; data_fields. auto.
  - split; [apply same_iterate_refl|auto].
Qed.

Lemma du_index_same (d : casadi_qp_data) (sign : Z) :
  let r := casadi_qp_du_index d sign in
  same_iterate d (snd r) /\ (-1 <= fst (fst r))%Z.
Proof.
  cbn zeta. unfold casadi_qp_du_index. cbn zeta.
  match goal with |- context [if ?c then _ else _] => destruct c eqn:E end;
    cbn [fst snd].
  - split; [|lia]. unfold same_iterate, casadi_qp_log; data_fields.
    repeat split; reflexivity.
  - split; [|lia]. unfold same_iterate; data_fields. repeat split; reflexivity.
Qed.

Lemma flip_check_same (casadi_qr_solve :
    list T1 -> nat -> bool -> sparsity -> list T1 -> sparsity -> list T1 ->
    list T1 -> list nat -> list nat -> list T1 -> list T1 * list T1)
  (sqrt : T1 -> T1) (d : casadi_qp_data) (index sign r_index : Z) (r_lam e : T1) :
  same_iterate d
    (snd (casadi_qp_flip_check casadi_qr_solve sqrt d index sign r_index r_lam e)).
Proof.
  unfold casadi_qp_flip_check; cbn zeta.
  repeat match goal with
         | |- context [match ?t with (_, _) => _ end] => destruct t
         | |- context [if ?c then _ else _] => destruct c
         end;
    cbn [snd]; unfold same_iterate; data_fields; repeat split; reflexivity.
Qed.

(** [casadi_qp_flip] ends with the index -2 after a change of the active
    set, or with -1; when it ends with -1 the iterate is as before: [z],
    [lam], [infeas], the cost and the errors are not touched (only the
    work arrays and the message are).  This holds for every QR solve and
    square root. *)
Theorem casadi_qp_flip_outcome
  (casadi_qr_solve :
    list T1 -> nat -> bool -> sparsity -> list T1 -> sparsity -> list T1 ->
    list T1 -> list nat -> list nat -> list T1 -> list T1 * list T1)
  (sqrt : T1 -> T1) (d : casadi_qp_data) (index sign r_index r_sign : Z) :
  (-1 <= index)%Z -> (-1 <= ipr d)%Z ->
  let r := casadi_qp_flip casadi_qr_solve sqrt d index sign r_index r_sign in
  (fst (fst r) = (-2)%Z \/ fst (fst r) = (-1)%Z)
  /\ (fst (fst r) = (-1)%Z -> same_iterate d (snd r)).
Proof.
  intros Hi Hp. cbn zeta. unfold casadi_qp_flip. cbn zeta.
  (* the regularity pivot *)
  match goal with
  | |- context [match (if ?c then (?a1, ?a2, ?a3) else ?b) with (_, _) => _ end] =>
      assert (S1 : (-1 <= fst (fst (if c then (a1, a2, a3) else b)))%Z
                   /\ same_iterate d (snd (if c then (a1, a2, a3) else b)));
      [destruct c eqn:C1; cbn [fst snd];
       [split; [apply andb_prop in C1; destruct C1 as [C1 _]; lia
               |apply same_iterate_log]
       |split; [exact Hi|apply same_iterate_refl]]
      |destruct (if c then (a1, a2, a3) else b) as [[index1 sign1] d1]]
  end.
  cbn [fst snd] in S1. destruct S1 as [Hi1 Sd1].
  (* the feasibility pivot *)
  assert (Hp1 : (-1 <= ipr d1)%Z).
  { destruct Sd1 as (_ & _ & _ & _ & _ & _ & _ & E & _). rewrite E. exact Hp. }
  match goal with
  | |- context [match (if ?c then ?a else ?b) with (_, _) => _ end] =>
      assert (S2 : (-1 <= fst (fst (if c then a else b)))%Z
                   /\ same_iterate d1 (snd (if c then a else b)));
      [destruct c; cbn [fst snd];
       [|split; [exact Hi1|apply same_iterate_refl]]
      |destruct (if c then a else b) as [[index2 sign2] d2]]
  end.
  { match goal with |- context [if ?c then _ else _] => destruct c end.
    - destruct (pr_index_same d1 sign1) as [A B]. split; [|exact A].
      destruct B as [-> | ->]; lia.
    - destruct (du_index_same d1 sign1) as [A B]. split; [exact B|exact A]. }
  cbn [fst snd] in S2. destruct S2 as [Hi2 Sd2].
  assert (Sd : same_iterate d d2) by (eapply same_iterate_trans; eassumption).
  (* the commit *)
  destruct (index2 >=? 0)%Z eqn:Ge; cbn [fst snd];
    [|split; [right; lia|intros _; exact Sd]].
  match goal with
  | |- context [match (if ?c then ?a else ?b) with (_, _) => _ end] =>
      assert (S3 : same_iterate d2 (snd (if c then a else b)));
      [destruct c; cbn [snd]; [apply flip_check_same|apply same_iterate_refl]
      |destruct (if c then a else b) as [[[ret r_index3] r_lam3] d3]]
  end.
  cbn [snd] in S3.
  destruct (negb (ret =? 0)%Z); cbn [fst snd].
  - destruct (r_index3 >=? 0)%Z; cbn [fst snd].
    + split; [left; reflexivity|discriminate].
    + destruct (negb (sign2 =? 0)%Z); cbn [fst snd].
      * split; [right; reflexivity|intros _].
        eapply same_iterate_trans; [exact Sd|].
        eapply same_iterate_trans; [exact S3|apply same_iterate_log].
      * split; [left; reflexivity|discriminate].
  - split; [left; reflexivity|discriminate].
Qed.

Lemma casadi_qp_flip_outcome_witness :
  let r := casadi_qp_flip (solve_with_inverse [] []) T1sqrt
             (snd qp_equality_searched) (-1)%Z 0%Z (-1)%Z 0%Z in
  (fst (fst r) = (-2)%Z \/ fst (fst r) = (-1)%Z)
  /\ (fst (fst r) = (-1)%Z -> same_iterate (snd qp_equality_searched) (snd r)).
Proof.
  apply (casadi_qp_flip_outcome (solve_with_inverse [] []) T1sqrt
           (snd qp_equality_searched) (-1)%Z 0%Z (-1)%Z 0%Z).
  - lia.
  - vm_compute. discriminate.
Defined.

(** ** The work vectors *)

(** The sizes that [casadi_qp_work] asks for are those that
    [casadi_qp_init] hands out: the arrays of the record lie inside the two
    work vectors without overlap, the temporaries [d->w] and [d->iw] reach
    exactly to their ends, and the factor [r] lies inside the array that it
    shares with [v]. *)
Theorem casadi_qp_init_fits (p : casadi_qp_prob) (iw0 w0 : nat) :
  let sz := casadi_qp_work p in
  let l := casadi_qp_init p iw0 w0 in
  regions_fit w0 (w0 + snd sz) (w_regions p l)
  /\ regions_fit iw0 (iw0 + fst sz) (iw_regions p l)
  /\ (o_w l + 2 * nz p = w0 + snd sz)%nat
  /\ (o_iw l + nz p = iw0 + fst sz)%nat
  /\ (o_nz_v l <= o_nz_r l)%nat
  /\ (o_nz_r l + sp_colind (sp_r p) (sp_ncol (sp_r p)) <= o_beta l)%nat.
Proof.
  cbn zeta. unfold regions_fit, w_regions, iw_regions, casadi_qp_work, casadi_qp_init.
  cbn zeta. cbn [fst snd o_nz_kkt o_z o_lbz o_ubz o_lam o_dz o_dlam o_nz_v o_nz_r
                 o_beta o_nz_at o_infeas o_tinfeas o_neverzero o_neverupper
                 o_neverlower o_w o_iw].
  unfold sp_colind, sp_ncol.
  generalize (rdn (sp_a p) (2 + rdn (sp_a p) 1)) as nnz_a.
  generalize (rdn (sp_kkt p) (2 + rdn (sp_kkt p) 1)) as nnz_kkt.
  generalize (rdn (sp_v p) (2 + rdn (sp_v p) 1)) as nnz_v.
  generalize (rdn (sp_r p) (2 + rdn (sp_r p) 1)) as nnz_r.
  intros nnz_r nnz_v nnz_kkt nnz_a.
  repeat split;
    repeat (apply Forall_cons || apply Forall_nil || apply FOP_cons
            || apply FOP_nil); cbn [fst snd]; lia.
Qed.

(** ** The pivots proposed for regularity *)

Ltac step_fields :=
  cbn [prob f nz_a nz_h g z lbz ubz infeas tinfeas lam w dz dlam iw neverzero
       neverlower neverupper nz_at nz_kkt beta nz_v nz_r msg tau sing mina
       imina pr du ipr idu
       set_f set_z set_infeas set_tinfeas set_lam set_w set_dz set_dlam
       set_iw set_neverzero set_neverlower set_neverupper set_nz_at set_msg
       set_tau set_sing set_pr set_du set_ipr set_idu
       set_nz_kkt set_beta set_nz_v set_nz_r set_mina set_imina].

Lemma same_active_set_refl (d : casadi_qp_data) : same_active_set d d.
Proof. unfold same_active_set. repeat split; reflexivity. Qed.

Lemma same_active_set_log (d0 d : casadi_qp_data) (fmt : string)
  (args : list log_arg) :
  same_active_set d0 d -> same_active_set d0 (casadi_qp_log d fmt args).
Proof. unfold same_active_set, casadi_qp_log. step_fields. auto. Qed.

Lemma scale_step_row_inv (d0 : casadi_qp_data) (terr : T1) (pos_ok neg_ok : bool)
  (n i : nat) (s : T1 * Z * Z * casadi_qp_data) :
  (i < n)%nat ->
  scale_step_inv d0 n s ->
  scale_step_inv d0 n (casadi_qp_scale_step_row terr pos_ok neg_ok i s).
Proof.
  intros Hi H.
  assert (Keep : scale_step_inv d0 n s) by exact H.
  destruct s as [[[t ri] rs] d]. unfold casadi_qp_scale_step_row. cbn zeta.
  destruct H as [Hs _].
  pose proof Hs as (Hp & Hl & Hz & Hlb & Hub & Hfz & Hfl & Hfu).
  destruct (fabs _ <? eps12)%T1; [exact Keep|].
  destruct (fabs (casadi_qp_kkt_dot2 d (w d) i) <? eps12)%T1; [exact Keep|].
  destruct (rd (lam d) i =? 0)%T1 eqn:E0.
  - destruct (fabs (rd (dz d) i) <? eps12)%T1; [exact Keep|].
    (* the lower bound *)
    match goal with
    | |- context [match ?s1 with (_, _) => _ end] =>
        assert (K1 : scale_step_inv d0 n s1);
        [|destruct s1 as [[[t1 ri1] rs1] d1]]
    end.
    { destruct (negb (rdb (neverlower d) i)) eqn:Fl; [|exact Keep].
      destruct (negb (increases_error terr _)); [|exact Keep].
      destruct (fabs _ >=? eps16)%T1; [|exact Keep].
      destruct (fabs _ <? fabs t)%T1; [|exact Keep].
      split; [apply same_active_set_log; exact Hs|right].
      exists i. split; [reflexivity|]. split; [lia|]. split; [auto|].
      unfold pivot_permitted. cbn [Z.eqb Z.ltb Z.compare].
      rewrite <- Hl, <- Hfl, E0. exact Fl. }
    (* the upper bound *)
    pose proof K1 as [Hs1 _].
    pose proof Hs1 as (Hp1 & Hl1 & Hz1 & Hlb1 & Hub1 & Hfz1 & Hfl1 & Hfu1).
    destruct (negb (rdb (neverupper d1) i)) eqn:Fu; [|exact K1].
    destruct (negb (increases_error terr _)); [|exact K1].
    destruct (fabs _ >=? eps16)%T1; [|exact K1].
    destruct (fabs _ <? fabs t1)%T1; [|exact K1].
    split; [apply same_active_set_log; exact Hs1|right].
    exists i. split; [reflexivity|]. split; [lia|]. split; [auto|].
    unfold pivot_permitted. cbn [Z.eqb Z.ltb Z.compare].
    rewrite <- Hfu1, <- Hl, E0. exact Fu.
  - destruct (fabs (rd (dlam d) i) <? eps12)%T1; [exact Keep|].
    destruct (negb (rdb (neverzero d) i)) eqn:Fz; [|exact Keep].
    destruct (increases_error terr _); [exact Keep|].
    match goal with |- context [if ?c then _ else _] => destruct c end;
      [exact Keep|].
    destruct (fabs _ <? fabs t)%T1; [|exact Keep].
    split; [apply same_active_set_log; exact Hs|right].
    exists i. split; [reflexivity|]. split; [lia|]. split; [auto|].
    unfold pivot_permitted. cbn [Z.eqb].
    rewrite <- Hl, <- Hfz, E0. exact Fz.
Qed.

Ltac step_fields_in H :=
  cbn [prob f nz_a nz_h g z lbz ubz infeas tinfeas lam w dz dlam iw neverzero
       neverlower neverupper nz_at nz_kkt beta nz_v nz_r msg tau sing mina
       imina pr du ipr idu
       set_f set_z set_infeas set_tinfeas set_lam set_w set_dz set_dlam
       set_iw set_neverzero set_neverlower set_neverupper set_nz_at set_msg
       set_tau set_sing set_pr set_du set_ipr set_idu
       set_nz_kkt set_beta set_nz_v set_nz_r set_mina set_imina] in H.

Lemma qr_with_same
  (casadi_qr :
    sparsity -> list T1 -> list T1 -> sparsity -> list T1 -> sparsity -> list T1 ->
    list T1 -> list nat -> list nat -> list T1 * (list T1 * list T1 * list T1))
  (d : casadi_qp_data) :
  same_active_set d (qr_with casadi_qr d)
  /\ sing (qr_with casadi_qr d) = sing d.
Proof.
  unfold qr_with. cbn zeta.
  destruct (casadi_qr _ _ _ _ _ _ _ _ _ _) as [w_ [[v_ r_] beta_]].
  unfold same_active_set. step_fields. repeat split; reflexivity.
Qed.

Lemma scale_step_search_inv
  (casadi_qr_colcomb :
    list T1 -> list T1 -> sparsity -> list nat -> Z -> Z -> list T1)
  (d0 d : casadi_qp_data) (terr : T1)
  (pos_ok neg_ok : bool) (imina_tr : Z) (n : nat) (t0 : T1) :
  same_active_set d0 d ->
  scale_step_inv d0 (nz (prob d0))
    (for_range 0 n (fun nulli (s : T1 * Z * Z * casadi_qp_data) =>
       let '(tau_, r_index, r_sign, d) := s in
       let d :=
         set_w (casadi_qr_colcomb (w d) (nz_r d) (sp_r (prob d0)) (pc (prob d0))
                  imina_tr (Z.of_nat nulli)) d in
       for_range 0 (nz (prob d0)) (casadi_qp_scale_step_row terr pos_ok neg_ok)
         (tau_, r_index, r_sign, d)) (t0, (-1)%Z, 0%Z, d)).
Proof.
  intros Hs.
  apply (for_range_inv (fun _ s => scale_step_inv d0 (nz (prob d0)) s)); [lia| |].
  - split; [exact Hs|left; split; reflexivity].
  - intros nulli [[[t ri] rs] d1] _ [Hs1 Hc].
    set (d2 := set_w _ d1).
    assert (Hs2 : same_active_set d0 d2).
    { unfold d2, same_active_set in *. step_fields. exact Hs1. }
    assert (Start : scale_step_inv d0 (nz (prob d0)) (t, ri, rs, d2)).
    { split; [exact Hs2|exact Hc]. }
    clearbody d2. clear Hs1 Hc Hs2.
    apply (for_range_inv
             (fun m s => scale_step_inv d0 (nz (prob d0)) s)
             0 (nz (prob d0))); [lia|exact Start|].
    intros i s Hi H. apply scale_step_row_inv; [lia|exact H].
Qed.



(** A pivot that [casadi_qp_scale_step] proposes respects the
    classification of its row: it drops only an active constraint that may
    be inactive, and enforces only an existing bound of an inactive row.
    Without a singularity it proposes nothing and leaves the record as it
    is; with one it returns 1 exactly when it has no pivot.  The
    multipliers and the point are never changed.  This holds for every QR
    engine. *)
Theorem casadi_qp_scale_step_permitted
  (casadi_qr :
    sparsity -> list T1 -> list T1 -> sparsity -> list T1 -> sparsity -> list T1 ->
    list T1 -> list nat -> list nat -> list T1 * (list T1 * list T1 * list T1))
  (casadi_qr_singular : list T1 -> sparsity -> list nat -> T1 -> Z * T1 * Z)
  (casadi_qr_colcomb :
    list T1 -> list T1 -> sparsity -> list nat -> Z -> Z -> list T1)
  (d : casadi_qp_data) (r_index r_sign : Z) :
  let '(ret, r_index', r_sign', d') :=
    casadi_qp_scale_step casadi_qr casadi_qr_singular casadi_qr_colcomb d
      r_index r_sign in
  same_active_set d d'
  /\ (sing d = 0%Z -> ret = 0%Z /\ r_index' = (-1)%Z /\ r_sign' = 0%Z /\ d' = d)
  /\ (sing d <> 0%Z ->
      (ret = 1%Z /\ r_index' = (-1)%Z /\ r_sign' = 0%Z)
      \/ (ret = 0%Z
          /\ exists k, r_index' = Z.of_nat k /\ (k < nz (prob d))%nat
               /\ (r_sign' = (-1)%Z \/ r_sign' = 0%Z \/ r_sign' = 1%Z)
               /\ pivot_permitted d k r_sign' = true)).
Proof.
  unfold casadi_qp_scale_step. cbn zeta.
  destruct (Z.eqb_spec (sing d) 0) as [E|E].
  { split; [apply same_active_set_refl|]. split; [auto|contradiction]. }
  destruct (casadi_qp_scale_step_dir d) as [[pos_ok neg_ok] terr].
  destruct (casadi_trans _ _ _ _ _) as [v_ iw_].
  match goal with
  | |- context [qr_with casadi_qr ?d1] =>
      assert (S1 : same_active_set d (qr_with casadi_qr d1));
      [destruct (qr_with_same casadi_qr d1) as [(A1 & A2 & A3 & A4 & A5 & A6 & A7 & A8) _];
       step_fields_in A1; step_fields_in A2; step_fields_in A3; step_fields_in A4;
       step_fields_in A5; step_fields_in A6; step_fields_in A7; step_fields_in A8;
       unfold same_active_set; auto 10
      |set (d2 := qr_with casadi_qr d1) in *; clearbody d2]
  end.
  destruct (casadi_qr_singular _ _ _ _) as [[nullity_tr minat_tr] imina_tr].
  pose proof (scale_step_search_inv casadi_qr_colcomb d d2 terr pos_ok neg_ok imina_tr
                (Z.to_nat nullity_tr) (inf (prob d)) S1) as H.
  match type of H with
  | scale_step_inv _ _ ?r => destruct r as [[[t ri] rs] d3]
  end.
  destruct H as [S3 C].
  destruct (Z.ltb_spec ri 0) as [Hneg|Hpos].
  - split; [exact S3|]. split; [contradiction|]. intros _. left.
    destruct C as [[-> ->]|(k & -> & _)]; [auto|lia].
  - split.
    + unfold same_active_set in *. step_fields. exact S3.
    + split; [contradiction|]. intros _. right. split; [reflexivity|].
      destruct C as [[-> _]|C]; [lia|exact C].
Qed.


(** ** The search direction *)

Lemma length_scal (n : nat) (alpha : T1) (x : list T1) :
  length (casadi_scal n alpha x) = length x.
Proof.
  apply (length_for_range_upd 0 n (fun k => k) (fun i x => (rd x i * alpha)%T1)).
Qed.

Lemma rd_overflow (l : list T1) (i : nat) : (length l <= i)%nat -> rd l i = 0%T1.
Proof. intros H. apply nth_overflow. exact H. Qed.

Lemma calc_step_solve_same
  (casadi_qr_colcomb :
    list T1 -> list T1 -> sparsity -> list nat -> Z -> Z -> list T1)
  (casadi_qr_solve :
    list T1 -> nat -> bool -> sparsity -> list T1 -> sparsity -> list T1 ->
    list T1 -> list nat -> list nat -> list T1 -> list T1 * list T1)
  (d : casadi_qp_data) :
  let d' := casadi_qp_calc_step_solve casadi_qr_colcomb casadi_qr_solve d in
  same_active_set d d' /\ sing d' = sing d /\ dlam d' = dlam d.
Proof.
  cbn zeta. unfold casadi_qp_calc_step_solve, same_active_set. cbn zeta.
  destruct (sing d =? 0)%Z.
  - destruct (casadi_qr_solve _ _ _ _ _ _ _ _ _ _ _) as [x w_].
    step_fields. repeat split; reflexivity.
  - step_fields. repeat split; reflexivity.
Qed.

Lemma calc_step_dlam_spec (d : casadi_qp_data) :
  (nx (prob d) <= length (dlam d))%nat ->
  let d' := casadi_qp_calc_step_dlam d in
  same_active_set d d' /\ sing d' = sing d /\ dz d' = dz d
  /\ forall i, (i < nx (prob d))%nat -> (rd (lam d) i =? 0)%T1 = true ->
               rd (dlam d') i = 0%T1.
Proof.
  intros Hlen. cbn zeta. unfold casadi_qp_calc_step_dlam. cbn zeta.
  match goal with
  | |- context [for_range 0 _ _ ?r] => set (d4 := r)
  end.
  assert (F4 : same_active_set d d4 /\ sing d4 = sing d /\ dz d4 = dz d
               /\ length (dlam d4) = length (dlam d)).
  { unfold d4, same_active_set. step_fields.
    rewrite length_scal, !length_mv, length_fill. repeat split; reflexivity. }
  clearbody d4. destruct F4 as (S4 & G4 & Z4 & L4).
  assert (Inv :
    (fun (m : nat) t =>
       same_active_set d t /\ sing t = sing d /\ dz t = dz d
       /\ length (dlam t) = length (dlam d)
       /\ forall i, (i < m)%nat -> (rd (lam d) i =? 0)%T1 = true ->
                    rd (dlam t) i = 0%T1)
      (nx (prob d))
      (for_range 0 (nx (prob d))
         (fun i d0 => if (rd (lam d0) i =? 0)%T1
                      then set_dlam (upd (dlam d0) i 0%T1) d0 else d0)
         d4)).
  { apply for_range_inv; [lia| |].
    - repeat (split; [assumption|]). intros; lia.
    - intros i t Hi (Hs & Hsg & Hdz & Hl & Hz).
      pose proof Hs as (_ & El & _).
      rewrite El.
      destruct (rd (lam d) i =? 0)%T1 eqn:E0.
      + unfold same_active_set in *. step_fields. rewrite length_upd.
        repeat (split; [tauto|]).
        intros j Hj Ej. destruct (Nat.eq_dec i j) as [<-|Hne].
        * apply rd_upd_same. lia.
        * rewrite rd_upd_other by exact Hne. apply Hz; [lia|exact Ej].
      + repeat (split; [assumption|]).
        intros j Hj Ej. destruct (Nat.eq_dec i j) as [<-|Hne]; [congruence|].
        apply Hz; [lia|exact Ej]. }
  cbv beta in Inv.
  match type of Inv with
  | same_active_set _ ?t /\ _ => set (d5 := t) in *; clearbody d5
  end.
  destruct Inv as (Hs & Hsg & Hdz & Hl & Hz).
  unfold same_active_set in *. step_fields.
  repeat (split; [tauto|]).
  intros i Hi E0. unfold store.
  unfold rd. rewrite app_nth1 by (rewrite length_firstn; lia).
  fold (rd (firstn (nx (prob d)) (dlam d5)) i).
  rewrite rd_firstn by exact Hi. apply Hz; assumption.
Qed.

Lemma calc_step_dz_spec (d : casadi_qp_data) :
  let d' := casadi_qp_calc_step_dz d in
  same_active_set d d' /\ sing d' = sing d /\ dlam d' = dlam d
  /\ forall i, (i < nz (prob d))%nat ->
       rd (dz d') i = 0%T1 \/ (fabs (rd (dz d') i) <? eps14)%T1 = false.
Proof.
  cbn zeta. unfold casadi_qp_calc_step_dz. cbn zeta.
  match goal with
  | |- context [for_range 0 _ _ ?r] => set (d2 := r)
  end.
  assert (F2 : same_active_set d d2 /\ sing d2 = sing d /\ dlam d2 = dlam d).
  { unfold d2, same_active_set. step_fields. repeat split; reflexivity. }
  clearbody d2. destruct F2 as (S2 & G2 & L2).
  assert (Inv :
    (fun (m : nat) t =>
       same_active_set d t /\ sing t = sing d /\ dlam t = dlam d
       /\ forall i, (i < m)%nat ->
            rd (dz t) i = 0%T1 \/ (fabs (rd (dz t) i) <? eps14)%T1 = false)
      (nz (prob d))
      (for_range 0 (nz (prob d))
         (fun i d0 => if (fabs (rd (dz d0) i) <? eps14)%T1
                      then set_dz (upd (dz d0) i 0%T1) d0 else d0)
         d2)).
  { apply for_range_inv; [lia| |].
    - repeat (split; [assumption|]). intros; lia.
    - intros i t Hi (Hs & Hsg & Hdl & Hz).
      destruct (fabs (rd (dz t) i) <? eps14)%T1 eqn:E0.
      + unfold same_active_set in *. step_fields.
        repeat (split; [tauto|]).
        intros j Hj. destruct (Nat.eq_dec i j) as [<-|Hne].
        * left. destruct (Nat.lt_ge_cases i (length (dz t))) as [Hin|Hout].
          -- apply rd_upd_same. exact Hin.
          -- rewrite upd_out by exact Hout. apply rd_overflow. exact Hout.
        * rewrite rd_upd_other by exact Hne. apply Hz; lia.
      + repeat (split; [assumption|]).
        intros j Hj. destruct (Nat.eq_dec i j) as [<-|Hne]; [right; exact E0|].
        apply Hz; lia. }
  exact Inv.
Qed.

Lemma calc_step_tinfeas_same (d : casadi_qp_data) :
  let d' := casadi_qp_calc_step_tinfeas d in
  same_active_set d d' /\ sing d' = sing d /\ dz d' = dz d /\ dlam d' = dlam d.
Proof.
  cbn zeta. unfold casadi_qp_calc_step_tinfeas, same_active_set. cbn zeta.
  step_fields. repeat split; reflexivity.
Qed.

Lemma same_active_set_trans (d d1 d2 : casadi_qp_data) :
  same_active_set d d1 -> same_active_set d1 d2 -> same_active_set d d2.
Proof.
  unfold same_active_set.
  intros (A1 & A2 & A3 & A4 & A5 & A6 & A7 & A8)
         (B1 & B2 & B3 & B4 & B5 & B6 & B7 & B8).
  repeat split; congruence.
Qed.

(** With a regular KKT matrix, [casadi_qp_calc_step] proposes no pivot and
    returns 0, and the direction it leaves has no entry of [dz] that is
    nonzero but below [1e-14] in magnitude, and no step for the multiplier
    of an inactive variable.  The multipliers and the point are not
    changed.  This holds for every QR engine. *)
Theorem casadi_qp_calc_step_regular
  (casadi_qr :
    sparsity -> list T1 -> list T1 -> sparsity -> list T1 -> sparsity -> list T1 ->
    list T1 -> list nat -> list nat -> list T1 * (list T1 * list T1 * list T1))
  (casadi_qr_singular : list T1 -> sparsity -> list nat -> T1 -> Z * T1 * Z)
  (casadi_qr_colcomb :
    list T1 -> list T1 -> sparsity -> list nat -> Z -> Z -> list T1)
  (casadi_qr_solve :
    list T1 -> nat -> bool -> sparsity -> list T1 -> sparsity -> list T1 ->
    list T1 -> list nat -> list nat -> list T1 -> list T1 * list T1)
  (d : casadi_qp_data) (r_index r_sign : Z) :
  sing d = 0%Z ->
  (nx (prob d) <= length (dlam d))%nat ->
  let r := casadi_qp_calc_step casadi_qr casadi_qr_singular casadi_qr_colcomb
             casadi_qr_solve d r_index r_sign in
  fst r = (0%Z, (-1)%Z, 0%Z)
  /\ same_active_set d (snd r)
  /\ (forall i, (i < nz (prob d))%nat ->
        rd (dz (snd r)) i = 0%T1 \/ (fabs (rd (dz (snd r)) i) <? eps14)%T1 = false)
  /\ (forall i, (i < nx (prob d))%nat -> (rd (lam d) i =? 0)%T1 = true ->
        rd (dlam (snd r)) i = 0%T1).
Proof.
  intros Hsing Hlen. cbn zeta. unfold casadi_qp_calc_step. cbn zeta.
  destruct (calc_step_solve_same casadi_qr_colcomb casadi_qr_solve d)
    as (S1 & G1 & L1). cbn zeta in S1, G1, L1.
  set (d1 := casadi_qp_calc_step_solve casadi_qr_colcomb casadi_qr_solve d) in *.
  clearbody d1.
  pose proof S1 as (P1 & E1 & _).
  destruct (calc_step_dlam_spec d1) as (S2 & G2 & Z2 & D2).
  { rewrite P1, L1. exact Hlen. }
  cbn zeta in S2, G2, Z2, D2.
  set (d2 := casadi_qp_calc_step_dlam d1) in *. clearbody d2.
  pose proof S2 as (P2 & _).
  destruct (calc_step_dz_spec d2) as (S3 & G3 & L3 & D3).
  cbn zeta in S3, G3, L3, D3.
  set (d3 := casadi_qp_calc_step_dz d2) in *. clearbody d3.
  destruct (calc_step_tinfeas_same d3) as (S4 & G4 & Z4 & L4).
  cbn zeta in S4, G4, Z4, L4.
  set (d4 := casadi_qp_calc_step_tinfeas d3) in *. clearbody d4.
  unfold casadi_qp_scale_step. cbn zeta.
  replace (sing d4) with 0%Z by congruence. cbn [Z.eqb fst snd].
  split; [reflexivity|]. split.
  - eapply same_active_set_trans; [exact S1|].
    eapply same_active_set_trans; [exact S2|].
    eapply same_active_set_trans; [exact S3|exact S4].
  - split.
    + intros i Hi. rewrite Z4. apply D3. rewrite P2, P1. exact Hi.
    + intros i Hi E0. rewrite L4, L3. apply D2; [rewrite P1; exact Hi|].
      rewrite E1. exact E0.
Qed.

Lemma casadi_qp_calc_step_regular_witness :
  let d := casadi_qp_calc_dependent (snd (casadi_qp_reset qp_h2)) in
  let r := casadi_qp_calc_step qr_keep qr_regular colcomb_keep
             (solve_with_inverse [[Fin (1 # 2)]] [[Fin (1 # 2)]]) d (-1)%Z 0%Z in
  fst r = (0%Z, (-1)%Z, 0%Z)
  /\ same_active_set d (snd r)
  /\ (forall i, (i < nz (prob d))%nat ->
        rd (dz (snd r)) i = 0%T1 \/ (fabs (rd (dz (snd r)) i) <? eps14)%T1 = false)
  /\ (forall i, (i < nx (prob d))%nat -> (rd (lam d) i =? 0)%T1 = true ->
        rd (dlam (snd r)) i = 0%T1).
Proof.
  apply (casadi_qp_calc_step_regular qr_keep qr_regular colcomb_keep
           (solve_with_inverse [[Fin (1 # 2)]] [[Fin (1 # 2)]])
           (casadi_qp_calc_dependent (snd (casadi_qp_reset qp_h2))) (-1)%Z 0%Z).
  - reflexivity.
  - vm_compute. lia.
Defined.

(** ** The assembly of the KKT matrix *)

(** The loop that copies the work vector into the nonzeros [a..b) of the
    KKT matrix and clears it. *)
Lemma kkt_copy_loop (p : casadi_qp_prob) (a b : nat) (t : casadi_qp_data) :
  (a <= b)%nat -> (b <= length (nz_kkt t))%nat ->
  (forall k, (a <= k < b)%nat -> (sp_row (sp_kkt p) (nz p) k < length (w t))%nat) ->
  (forall k1 k2, (a <= k1 < b)%nat -> (a <= k2 < b)%nat ->
     sp_row (sp_kkt p) (nz p) k1 = sp_row (sp_kkt p) (nz p) k2 -> k1 = k2) ->
  let t' :=
    for_range a b (fun k d =>
      let d := set_nz_kkt (upd (nz_kkt d) k (rd (w d) (sp_row (sp_kkt p) (nz p) k))) d in
      set_w (upd (w d) (sp_row (sp_kkt p) (nz p) k) 0%T1) d) t in
  (prob t' = prob t /\ lam t' = lam t /\ nz_h t' = nz_h t /\ nz_a t' = nz_a t
   /\ nz_at t' = nz_at t)
  /\ length (w t') = length (w t) /\ length (nz_kkt t') = length (nz_kkt t)
  /\ (forall k, (a <= k < b)%nat ->
        rd (nz_kkt t') k = rd (w t) (sp_row (sp_kkt p) (nz p) k))
  /\ (forall k, ~ (a <= k < b)%nat -> rd (nz_kkt t') k = rd (nz_kkt t) k)
  /\ (forall r, (exists k, (a <= k < b)%nat /\ sp_row (sp_kkt p) (nz p) k = r) ->
        rd (w t') r = 0%T1)
  /\ (forall r, (forall k, (a <= k < b)%nat -> sp_row (sp_kkt p) (nz p) k <> r) ->
        rd (w t') r = rd (w t) r).
Proof.
  intros Hab Hb Hrow Hinj. cbn zeta.
  set (row := sp_row (sp_kkt p) (nz p)) in *.
  apply (for_range_inv
    (fun m t' =>
       (a <= m <= b)%nat ->
       (prob t' = prob t /\ lam t' = lam t /\ nz_h t' = nz_h t /\ nz_a t' = nz_a t
        /\ nz_at t' = nz_at t)
       /\ length (w t') = length (w t) /\ length (nz_kkt t') = length (nz_kkt t)
       /\ (forall k, (a <= k < m)%nat -> rd (nz_kkt t') k = rd (w t) (row k))
       /\ (forall k, ~ (a <= k < m)%nat -> rd (nz_kkt t') k = rd (nz_kkt t) k)
       /\ (forall r, (exists k, (a <= k < m)%nat /\ row k = r) -> rd (w t') r = 0%T1)
       /\ (forall r, (forall k, (a <= k < m)%nat -> row k <> r) ->
             rd (w t') r = rd (w t) r))); [exact Hab| | |lia].
  - intros _. split; [auto|]. split; [reflexivity|]. split; [reflexivity|].
    split; [intros; lia|]. split; [auto|]. split; [intros r (k & Hk & _); lia|auto].
  - intros m u Hm IH _.
    destruct IH as ((F1 & F2 & F3 & F4 & F5) & Lw & Lk & Done & Rest & Zero & Keep);
      [lia|].
    step_fields. rewrite !length_upd.
    split; [auto|]. split; [exact Lw|]. split; [exact Lk|].
    assert (Fresh : rd (w u) (row m) = rd (w t) (row m)).
    { apply Keep. intros k Hk E. assert (k = m) by (apply Hinj; auto; lia). lia. }
    split; [|split; [|split]].
    + intros k Hk. destruct (Nat.eq_dec m k) as [<-|Hne].
      * rewrite rd_upd_same by lia. exact Fresh.
      * rewrite rd_upd_other by exact Hne. apply Done; lia.
    + intros k Hk. rewrite rd_upd_other by lia. apply Rest; lia.
    + intros r (k & Hk & E). destruct (Nat.eq_dec (row m) r) as [Er|Er].
      * rewrite Er. apply rd_upd_same. rewrite <- Er, Lw. apply Hrow; lia.
      * rewrite rd_upd_other by exact Er. apply Zero. exists k. split; [|exact E].
        destruct (Nat.eq_dec k m) as [->|]; [contradiction|lia].
    + intros r Hr. rewrite rd_upd_other by (apply Hr; lia). apply Keep.
      intros k Hk. apply Hr; lia.
Qed.

(** Membership in the rows of a range of nonzeros is decidable. *)
Lemma row_in_range_dec (row : nat -> nat) (a b r : nat) :
  (exists k, (a <= k < b)%nat /\ row k = r)
  \/ (forall k, (a <= k < b)%nat -> row k <> r).
Proof.
  induction b as [|b IH]; [right; intros; lia|].
  destruct IH as [(k & Hk & E)|IH]; [left; exists k; split; [lia|exact E]|].
  destruct (Nat.le_gt_cases a b) as [Hab|Hab]; [|right; intros; lia].
  destruct (Nat.eq_dec (row b) r) as [E|E]; [left; exists b; split; [lia|exact E]|].
  right. intros k Hk. destruct (Nat.eq_dec k b) as [->|]; [exact E|apply IH; lia].
Qed.

Lemma length_kkt_copy_ha (d : casadi_qp_data) (l : list T1) (i : nat) :
  length (kkt_copy_ha d l i) = length l.
Proof.
  unfold kkt_copy_ha. cbn zeta.
  rewrite (length_for_range_upd _ _
             (fun k => (nx (prob d) + sp_row (sp_a (prob d)) (nx (prob d)) k)%nat)
             (fun k _ => rd (nz_a d) k)).
  apply (length_for_range_upd _ _
           (fun k => sp_row (sp_h (prob d)) (nx (prob d)) k)
           (fun k _ => rd (nz_h d) k)).
Qed.

Lemma length_kkt_column (d : casadi_qp_data) (l : list T1) (i : nat) (s : Z) :
  length (casadi_qp_kkt_column d l i s) = length l.
Proof.
  unfold casadi_qp_kkt_column. cbn zeta.
  destruct (i <? nx (prob d))%nat, (s =? 0)%Z;
    rewrite ?length_kkt_copy_ha, ?length_upd; try apply length_fill.
  rewrite (length_for_range_upd _ _
             (fun k => sp_row (sp_at (prob d)) (na (prob d)) k)
             (fun k _ => rd (nz_at d) k)).
  apply length_fill.
Qed.

Lemma kkt_colind_mono (d : casadi_qp_data) (i j : nat) :
  kkt_pattern_ok d -> (i <= j <= nz (prob d))%nat ->
  (sp_colind (sp_kkt (prob d)) i <= sp_colind (sp_kkt (prob d)) j)%nat.
Proof.
  intros [_ H] Hij. induction j as [|j IH]; [assert (i = 0)%nat by lia; subst; lia|].
  destruct (Nat.eq_dec i (S j)) as [->|Hne]; [lia|].
  destruct (H j ltac:(lia)) as (M & _). replace (j + 1)%nat with (S j) in M by lia.
  specialize (IH ltac:(lia)). lia.
Qed.

(** The row of the transposed KKT matrix that [casadi_qp_kkt] writes into
    the cleared work vector is the column of [casadi_qp_kkt_column]. *)
Lemma kkt_row_written (d t : casadi_qp_data) (i : nat) :
  prob t = prob d -> lam t = lam d -> nz_h t = nz_h d -> nz_a t = nz_a d ->
  nz_at t = nz_at d ->
  w t = casadi_fill (w d) (nz (prob d)) 0%T1 ->
  let t1 :=
    if (i <? nx (prob d))%nat then
      if (rd (lam t) i =? 0)%T1 then set_w (kkt_copy_ha t (w t) i) t
      else set_w (upd (w t) i 1%T1) t
    else
      if (rd (lam t) i =? 0)%T1 then set_w (upd (w t) i (- (1))%T1) t
      else
        set_w
          (for_range (sp_colind (sp_at (prob d)) (i - nx (prob d)))
             (sp_colind (sp_at (prob d)) (i - nx (prob d) + 1))
             (fun k w_ => upd w_ (sp_row (sp_at (prob d)) (na (prob d)) k)
                            (rd (nz_at t) k)) (w t)) t in
  (prob t1 = prob d /\ lam t1 = lam d /\ nz_h t1 = nz_h d /\ nz_a t1 = nz_a d
   /\ nz_at t1 = nz_at d)
  /\ nz_kkt t1 = nz_kkt t /\ w t1 = kkt_column_of d i.
Proof.
  intros Hp Hl Hh Ha Hat Hw. cbn zeta.
  unfold kkt_column_of, casadi_qp_kkt_column. cbn zeta.
  rewrite Hl, Hw, Hat.
  destruct (i <? nx (prob d))%nat, (rd (lam d) i =? 0)%T1; cbn [Z.eqb];
    step_fields; (split; [auto|]); (split; [reflexivity|]); try reflexivity.
  unfold kkt_copy_ha. rewrite Hp, Hh, Ha. reflexivity.
Qed.

(** [casadi_qp_kkt] stores, at every nonzero of the pattern of the KKT
    matrix, the entry of the column that belongs to the current active set
    (the column of [casadi_qp_kkt_column], taken active where [lam[i] != 0]),
    and leaves the work vector cleared. *)
Theorem casadi_qp_kkt_columns (d : casadi_qp_data) :
  kkt_pattern_ok d ->
  let d' := casadi_qp_kkt d in
  w d' = casadi_fill (w d) (nz (prob d)) 0%T1
  /\ forall i k, (i < nz (prob d))%nat -> kkt_nonzero (prob d) i k ->
       rd (nz_kkt d') k
       = rd (kkt_column_of d i) (sp_row (sp_kkt (prob d)) (nz (prob d)) k).
Proof.
  intros Hok. pose proof Hok as [Lw Hcol]. cbn zeta in Lw, Hcol.
  cbn zeta. unfold casadi_qp_kkt. cbn zeta. step_fields.
  set (w0 := casadi_fill (w d) (nz (prob d)) 0%T1).
  set (row := sp_row (sp_kkt (prob d)) (nz (prob d))).
  assert (Inv :
    (fun (m : nat) t =>
       (prob t = prob d /\ lam t = lam d /\ nz_h t = nz_h d /\ nz_a t = nz_a d
        /\ nz_at t = nz_at d)
       /\ w t = w0 /\ length (nz_kkt t) = length (nz_kkt d)
       /\ forall i k, (i < m)%nat -> kkt_nonzero (prob d) i k ->
            rd (nz_kkt t) k = rd (kkt_column_of d i) (row k))
      (nz (prob d))
      (for_range 0 (nz (prob d))
         (fun i d0 =>
            for_range (sp_colind (sp_kkt (prob d)) i) (sp_colind (sp_kkt (prob d)) (i + 1))
              (fun k d1 =>
                 set_w (upd (w (set_nz_kkt (upd (nz_kkt d1) k (rd (w d1) (row k))) d1))
                          (row k) 0%T1)
                   (set_nz_kkt (upd (nz_kkt d1) k (rd (w d1) (row k))) d1))
              (if (i <? nx (prob d))%nat then
                 if (rd (lam d0) i =? 0)%T1 then set_w (kkt_copy_ha d0 (w d0) i) d0
                 else set_w (upd (w d0) i 1%T1) d0
               else
                 if (rd (lam d0) i =? 0)%T1 then set_w (upd (w d0) i (- (1))%T1) d0
                 else
                   set_w
                     (for_range (sp_colind (sp_at (prob d)) (i - nx (prob d)))
                        (sp_colind (sp_at (prob d)) (i - nx (prob d) + 1))
                        (fun k w_ => upd w_ (sp_row (sp_at (prob d)) (na (prob d)) k)
                                       (rd (nz_at d0) k)) (w d0)) d0))
         (set_w w0 d))).
  { apply for_range_inv; [lia| |].
    - step_fields. split; [auto|]. split; [reflexivity|]. split; [reflexivity|].
      intros; lia.
    - intros i t Hi ((Hp & Hl & Hh & Ha & Hat) & Hw & Lk & Done).
      unfold row in *. clear row.
      destruct (kkt_row_written d t i Hp Hl Hh Ha Hat Hw)
        as ((Hp1 & Hl1 & Hh1 & Ha1 & Hat1) & Hk1 & Hw1).
      cbn zeta in Hp1, Hl1, Hh1, Ha1, Hat1, Hk1, Hw1.
      match goal with
      | |- context [for_range _ _ _ ?t1] => set (t1' := t1) in *
      end.
      clearbody t1'.
      destruct (Hcol i ltac:(lia)) as (M & B & Rng & Inj & Cov).
      assert (Lw1 : length (w t1') = length (w d)).
      { rewrite Hw1. unfold kkt_column_of. apply length_kkt_column. }
      destruct (kkt_copy_loop (prob d) (sp_colind (sp_kkt (prob d)) i)
                  (sp_colind (sp_kkt (prob d)) (i + 1)) t1' M)
        as ((Hp2 & Hl2 & Hh2 & Ha2 & Hat2) & Lw2 & Lk2 & Copied & Rest & Zero & Keep).
      { rewrite Hk1, Lk. exact B. }
      { intros k Hk. rewrite Lw1. specialize (Rng k Hk). lia. }
      { intros k1 k2 H1 H2. apply Inj; assumption. }
      cbn zeta in Hp2, Hl2, Hh2, Ha2, Hat2, Lw2, Lk2, Copied, Rest, Zero, Keep.
      match goal with
      | |- context [for_range ?a ?b ?body t1'] => set (t2 := for_range a b body t1') in *
      end.
      clearbody t2.
      split; [repeat split; congruence|].
      split; [|split; [congruence|]].
      + (* the work vector is cleared again *)
        apply (nth_ext _ _ 0%T1 0%T1).
        * unfold w0. rewrite length_fill. congruence.
        * intros r Hr. fold (rd (w t2) r). fold (rd w0 r).
          destruct (row_in_range_dec (sp_row (sp_kkt (prob d)) (nz (prob d))) (sp_colind (sp_kkt (prob d)) i)
                      (sp_colind (sp_kkt (prob d)) (i + 1)) r) as [In|Out].
          -- rewrite (Zero r In). destruct In as (k & Hk & <-).
             unfold w0. rewrite rd_fill by exact Lw.
             destruct (Nat.ltb_spec (sp_row (sp_kkt (prob d)) (nz (prob d)) k)
                         (nz (prob d))) as [|Hge];
               [reflexivity|].
             specialize (Rng k Hk). lia.
          -- rewrite (Keep r Out), Hw1.
             destruct (Cov r) as [E|(k & Hk & E)]; [exact E|].
             exfalso. exact (Out k Hk E).
      + (* the nonzeros *)
        intros i' k Hi' Hk. destruct (Nat.eq_dec i' i) as [->|Hne].
        * rewrite (Copied k Hk), Hw1. reflexivity.
        * rewrite Rest.
          -- rewrite Hk1. apply Done; [lia|exact Hk].
          -- unfold kkt_nonzero in Hk.
             assert (Hij : (i' + 1 <= i <= nz (prob d))%nat) by lia.
             pose proof (kkt_colind_mono d (i' + 1) i Hok Hij). lia. }
  cbv beta in Inv. destruct Inv as (_ & Hw & _ & Done).
  split; [exact Hw|]. intros i k Hi Hk. apply Done; assumption.
Qed.

Ltac kkt_entry_at k :=
  right; exists k;
  split; [unfold kkt_nonzero; vm_compute; lia|vm_compute; reflexivity].

Ltac kkt_entry_covered :=
  first
    [ left; vm_compute; reflexivity
    | kkt_entry_at 0%nat | kkt_entry_at 1%nat | kkt_entry_at 2%nat
    | kkt_entry_at 3%nat | kkt_entry_at 4%nat | kkt_entry_at 5%nat
    | kkt_entry_at 6%nat | kkt_entry_at 7%nat | kkt_entry_at 8%nat
    | kkt_entry_at 9%nat ].

Lemma kkt_pattern_ok_dual_pivot : kkt_pattern_ok qp_dual_pivot.
Proof.
  unfold kkt_pattern_ok. cbn zeta.
  split; [vm_compute; lia|].
  intros i Hi. assert (Hi' : (i < 4)%nat) by exact Hi. clear Hi.
  destruct i as [|[|[|[|i]]]]; [| | | |lia].
  all: split; [vm_compute; lia|].
  all: split; [vm_compute; lia|].
  all: split;
    [intros k Hk; unfold kkt_nonzero in Hk; vm_compute in Hk;
     do 10 (destruct k as [|k]; [vm_compute; lia|]); lia|].
  all: split;
    [intros k1 k2 H1 H2; unfold kkt_nonzero in H1, H2;
     vm_compute in H1; vm_compute in H2;
     do 10 (try (destruct k1 as [|k1]));
     do 10 (try (destruct k2 as [|k2]));
     try lia; vm_compute; intros; try reflexivity; try discriminate; lia|].
  all: intros r; do 8 (destruct r as [|r]; [kkt_entry_covered|]);
    left; vm_compute; destruct r; reflexivity.
Qed.

Lemma casadi_qp_kkt_columns_witness :
  let d := qp_dual_pivot in
  let d' := casadi_qp_kkt d in
  w d' = casadi_fill (w d) (nz (prob d)) 0%T1
  /\ forall i k, (i < nz (prob d))%nat -> kkt_nonzero (prob d) i k ->
       rd (nz_kkt d') k
       = rd (kkt_column_of d i) (sp_row (sp_kkt (prob d)) (nz (prob d)) k).
Proof.
  apply (casadi_qp_kkt_columns qp_dual_pivot).
  exact kkt_pattern_ok_dual_pivot.
Defined.

(** ** The classification of the rows *)

Lemma reset_row_tau (i : nat) (d : casadi_qp_data) :
  tau (snd (casadi_qp_reset_row i d)) = tau d
  /\ sing (snd (casadi_qp_reset_row i d)) = sing d.
Proof.
  unfold casadi_qp_reset_row; cbn.
  repeat match goal with |- context [if ?c then _ else _] => destruct c end;
    cbn; auto.
Qed.

Lemma reset_loop_flags (n : nat) : forall (i : nat) (d : casadi_qp_data),
  (i + n <= length (neverzero d))%nat -> (i + n <= length (neverupper d))%nat ->
  (i + n <= length (neverlower d))%nat -> (i + n <= length (lam d))%nat ->
  fst (casadi_qp_reset_loop n i d) = false ->
  let d' := snd (casadi_qp_reset_loop n i d) in
  prob d' = prob d /\ tau d' = tau d /\ sing d' = sing d
  /\ (forall j, (j < i)%nat ->
        rdb (neverzero d') j = rdb (neverzero d) j
        /\ rdb (neverupper d') j = rdb (neverupper d) j
        /\ rdb (neverlower d') j = rdb (neverlower d) j)
  /\ (forall j, (i <= j < i + n)%nat ->
        rdb (neverzero d') j = (rd (lbz d) j =? rd (ubz d) j)%T1
        /\ rdb (neverupper d') j = isinf (rd (ubz d) j)
        /\ rdb (neverlower d') j = isinf (rd (lbz d) j)
        /\ (rd (lbz d) j =? rd (ubz d) j)%T1 && isinf (rd (ubz d) j)
           && isinf (rd (lbz d) j) = false).
Proof.
  induction n as [|n IH]; intros i d Lz Lu Ll Ll'; simpl.
  - intros _. repeat (split; [reflexivity|]). split; [auto|]. intros j Hj; lia.
  - pose proof (reset_row_frame i d) as Hf; cbn zeta in Hf.
    pose proof (reset_row_stop i d) as Hs.
    pose proof (reset_row_spec i d) as Hr; cbn zeta in Hr.
    pose proof (reset_row_tau i d) as [Ht Hg].
    destruct (casadi_qp_reset_row i d) as [stop d1] eqn:E;
      cbn [fst snd] in Hf, Hs, Hr, Ht, Hg.
    destruct Hf as (Hp & Hlb & Hub & _ & Lz1 & Lu1 & Ll1 & Ll1').
    destruct Hr as (Fz & Fu & Fl & Oth & _); try lia.
    rewrite Hs by lia. clear Hs.
    destruct ((rd (lbz d) i =? rd (ubz d) i)%T1 && isinf (rd (ubz d) i)
              && isinf (rd (lbz d) i)) eqn:C; [discriminate|].
    intros Hfst.
    destruct (IH (S i) d1) as (Hp' & Ht' & Hg' & Before & Rows); try lia;
      [exact Hfst|].
    split; [congruence|]. split; [congruence|]. split; [congruence|]. split.
    + intros j Hj. destruct (Before j) as (A2 & A3 & A4); [lia|].
      destruct (Oth j) as (_ & B2 & B3 & B4); [lia|].
      rewrite A2, A3, A4. auto.
    + intros j Hj. destruct (Nat.eq_dec j i) as [->|Hne].
      * destruct (Before i) as (A2 & A3 & A4); [lia|].
        rewrite A2, A3, A4, Fz, Fu, Fl. auto.
      * rewrite <- Hlb, <- Hub. apply Rows; lia.
Qed.

(** When [casadi_qp_reset] succeeds, [tau] and [sing] are cleared and the
    three flags of every row are its classification: [neverzero] for equal
    bounds, [neverupper] and [neverlower] for an infinite upper and lower
    bound; and no row that can never be inactive is unbounded on a side. *)
Theorem casadi_qp_reset_classifies (d : casadi_qp_data) :
  wf_sizes d ->
  fst (casadi_qp_reset d) = 0%Z ->
  let d' := snd (casadi_qp_reset d) in
  tau d' = 0%T1 /\ sing d' = 0%Z
  /\ (forall i, (i < nz (prob d))%nat ->
        rdb (neverzero d') i = (rd (lbz d) i =? rd (ubz d) i)%T1
        /\ rdb (neverupper d') i = isinf (rd (ubz d) i)
        /\ rdb (neverlower d') i = isinf (rd (lbz d) i))
  /\ flags_consistent d'.
Proof.
  intros (_ & _ & _ & _ & Ll' & _ & _ & _ & _ & Lz & Lu & Ll & _).
  unfold casadi_qp_reset. cbn zeta.
  set (d0 := set_sing 0%Z (set_tau 0%T1 (set_msg (Msg EmptyString []) d))).
  pose proof (reset_loop_flags (nz (prob d)) 0 d0) as H.
  cbn zeta in H.
  destruct (casadi_qp_reset_loop (nz (prob d)) 0 d0) as [stop d1] eqn:E.
  cbn [fst snd] in H.
  destruct stop; [cbn; discriminate|].
  destruct (casadi_trans (nz_a d1) (sp_a (prob d)) (nz_at d1) (sp_at (prob d)) (iw d1))
    as [at_ iw_].
  intros _. cbn [snd].
  assert (H' := H ltac:(unfold d0; data_fields; lia) ltac:(unfold d0; data_fields; lia)
                  ltac:(unfold d0; data_fields; lia) ltac:(unfold d0; data_fields; lia)
                  eq_refl).
  destruct H' as (Hp & Ht & Hg & _ & Rows).
  unfold d0 in Hp, Ht, Hg, Rows. data_fields_in Hp. data_fields_in Ht.
  data_fields_in Hg. data_fields_in Rows.
  unfold flags_consistent. data_fields. rewrite Hp.
  split; [exact Ht|]. split; [exact Hg|]. split.
  - intros i Hi. destruct (Rows i ltac:(lia)) as (A & B & C & _). auto.
  - intros i Hi Fz. destruct (Rows i ltac:(lia)) as (A & B & C & D).
    rewrite B, C. rewrite A in Fz.
    apply reset_flags_exclusive; assumption.
Qed.

Lemma casadi_qp_reset_classifies_witness :
  let d := qp_equality in
  let d' := snd (casadi_qp_reset d) in
  tau d' = 0%T1 /\ sing d' = 0%Z
  /\ (forall i, (i < nz (prob d))%nat ->
        rdb (neverzero d') i = (rd (lbz d) i =? rd (ubz d) i)%T1
        /\ rdb (neverupper d') i = isinf (rd (ubz d) i)
        /\ rdb (neverlower d') i = isinf (rd (lbz d) i))
  /\ flags_consistent d'.
Proof.
  apply (casadi_qp_reset_classifies qp_equality).
  - unfold wf_sizes; cbn; repeat split; lia.
  - reflexivity.
Defined.

(** ** The blocking constraint of the primal line search *)

(** The step that the scan accepts for a component pushed below [lo] or
    above [hi] puts the component on that bound. *)
Lemma step_to_lower (lo : T1) (zq dq tq : Q) :
  (Fin dq <? 0)%T1 = true ->
  (Fin zq + Fin tq * Fin dq <? lo)%T1 = true ->
  let t := ((lo - Fin zq) / Fin dq)%T1 in
  T1eq (Fin zq + t * Fin dq)%T1 lo
  /\ (is_finite t = true \/ (t <=? 0)%T1 = true).
Proof.
  intros Hd Ht. apply T1ltb_Fin in Hd.
  destruct lo as [l| | |]; try discriminate; cbn.
  - destruct (Qeq_bool dq 0) eqn:E0; [apply Qeq_bool_eq in E0; lra|].
    cbn. split; [|left; reflexivity]. field. lra.
  - destruct (Qcompare_spec dq 0) as [H|H|H]; try lra.
    cbn. destruct (Qcompare_spec 0 dq) as [H'|H'|H']; try lra.
    cbn. split; [exact I|right; reflexivity].
Qed.

Lemma step_to_upper (hi : T1) (zq dq tq : Q) :
  (Fin dq >? 0)%T1 = true ->
  (Fin zq + Fin tq * Fin dq >? hi)%T1 = true ->
  let t := ((hi - Fin zq) / Fin dq)%T1 in
  T1eq (Fin zq + t * Fin dq)%T1 hi
  /\ (is_finite t = true \/ (t <=? 0)%T1 = true).
Proof.
  unfold T1gtb. intros Hd Ht. apply T1ltb_Fin in Hd.
  destruct hi as [h| | |]; try discriminate; cbn.
  - destruct (Qeq_bool dq 0) eqn:E0; [apply Qeq_bool_eq in E0; lra|].
    cbn. split; [|left; reflexivity]. field. lra.
  - destruct (Qcompare_spec dq 0) as [H|H|H]; try lra.
    cbn. destruct (Qcompare_spec 0 dq) as [H'|H'|H']; try lra.
    cbn. split; [exact I|right; reflexivity].
Qed.

Lemma primal_blocking_loop_explained (d0 : casadi_qp_data) (e : T1) (ix0 sg0 : Z)
  (t0 : T1) :
  (forall j, (j < nz (prob d0))%nat ->
     is_finite (rd (z d0) j) = true /\ is_finite (rd (dz d0) j) = true) ->
  forall (n i : nat) (ix sg : Z) (d : casadi_qp_data),
    (i + n = nz (prob d0))%nat ->
    z d = z d0 -> dz d = dz d0 -> lbz d = lbz d0 -> ubz d = ubz d0 ->
    lam d = lam d0 ->
    is_finite (tau d) = true ->
    ((ix = ix0 /\ sg = sg0 /\ tau d = t0)
     \/ exists j, (j < nz (prob d0))%nat /\ blocking_row d0 e j ix sg (tau d)) ->
    let r := casadi_qp_primal_blocking_loop e n i (ix, sg, d) in
    (fst (fst r) = ix0 /\ snd (fst r) = sg0 /\ tau (snd r) = t0)
    \/ exists j, (j < nz (prob d0))%nat
         /\ blocking_row d0 e j (fst (fst r)) (snd (fst r)) (tau (snd r)).
Proof.
  intros Hfin.
  induction n as [|n IH]; intros i ix sg d Hn Hz Hdz Hl Hu Hlam Ft Hex;
    [cbn; exact Hex|].
  cbn [casadi_qp_primal_blocking_loop]. cbn zeta. data_fields.
  assert (Hi : (i < nz (prob d0))%nat) by lia.
  destruct (Hfin i Hi) as [Fz Fd].
  rewrite Hz, Hdz, Hl, Hu, Hlam.
  destruct (rd (z d0) i) as [zq| | |] eqn:Ez; try discriminate.
  destruct (rd (dz d0) i) as [dq| | |] eqn:Ed; try discriminate.
  destruct (tau d) as [tq| | |] eqn:Et; try discriminate.
  destruct (Fin dq =? 0)%T1.
  { apply IH; auto; [lia|rewrite Et; reflexivity|rewrite Et; exact Hex]. }
  assert (Next : forall ix' sg' d',
            z d' = z d0 -> dz d' = dz d0 -> lbz d' = lbz d0 -> ubz d' = ubz d0 ->
            lam d' = lam d0 ->
            (is_finite (tau d') = true \/ (tau d' <=? 0)%T1 = true) ->
            ((ix' = ix0 /\ sg' = sg0 /\ tau d' = t0)
             \/ exists j, (j < nz (prob d0))%nat
                  /\ blocking_row d0 e j ix' sg' (tau d')) ->
            let r := if (tau (snd (ix', sg', d')) <=? 0)%T1 then (ix', sg', d')
                     else casadi_qp_primal_blocking_loop e n (S i) (ix', sg', d') in
            (fst (fst r) = ix0 /\ snd (fst r) = sg0 /\ tau (snd r) = t0)
            \/ exists j, (j < nz (prob d0))%nat
                 /\ blocking_row d0 e j (fst (fst r)) (snd (fst r)) (tau (snd r))).
  { intros ix' sg' d' Hz' Hdz' Hl' Hu' Hlam' Ft' Hex'. cbn [snd].
    destruct (tau d' <=? 0)%T1 eqn:Stop; cbn zeta; cbn [fst snd]; [exact Hex'|].
    apply IH; auto; [lia|]. destruct Ft' as [F|F]; [exact F|discriminate]. }
  destruct ((Fin dq <? 0)%T1 && (Fin zq + Fin tq * Fin dq <? rd (lbz d0) i - e)%T1)
    eqn:Lo.
  - apply andb_prop in Lo. destruct Lo as [Lo1 Lo2].
    destruct (step_to_lower (rd (lbz d0) i - e)%T1 zq dq tq Lo1 Lo2) as [On Fs].
    cbn zeta in On, Fs.
    apply Next; unfold casadi_qp_log; data_fields; auto.
    right. exists i. split; [exact Hi|]. left.
    rewrite Ez, Ed. repeat split; auto.
  - destruct ((Fin dq >? 0)%T1 && (Fin zq + Fin tq * Fin dq >? rd (ubz d0) i + e)%T1)
      eqn:Up.
    + apply andb_prop in Up. destruct Up as [Up1 Up2].
      destruct (step_to_upper (rd (ubz d0) i + e)%T1 zq dq tq Up1 Up2) as [On Fs].
      cbn zeta in On, Fs.
      apply Next; unfold casadi_qp_log; data_fields; auto.
      right. exists i. split; [exact Hi|]. right.
      rewrite Ez, Ed. repeat split; auto.
    + apply Next; auto; rewrite Et; [left; reflexivity|exact Hex].
Qed.



(** ** The residual of the KKT system *)

Lemma rd_tabulate (F : nat -> T1) (n : nat) (r : list T1) (k : nat) :
  (n <= length r)%nat ->
  rd (for_range 0 n (fun i r => upd r i (F i)) r) k
  = if (k <? n)%nat then F k else rd r k.
Proof.
  intros Hn.
  apply (for_range_inv
           (fun m l => length l = length r
                       /\ rd l k = if (k <? m)%nat then F k else rd r k));
    [lia|split; reflexivity|].
  intros i t Hi [Hl Ht]. split; [rewrite length_upd; exact Hl|].
  destruct (Nat.eq_dec i k) as [->|Hne].
  - rewrite rd_upd_same by lia.
    destruct (Nat.ltb_spec k (S k)); [reflexivity|lia].
  - rewrite rd_upd_other by exact Hne. rewrite Ht.
    destruct (Nat.ltb_spec k i), (Nat.ltb_spec k (S i)); try lia; reflexivity.
Qed.

Lemma residual_zero_bound (b : T1) (zq : Q) :
  (b - Fin zq =? 0)%T1 = (Fin zq =? b)%T1.
Proof.
  destruct b as [q| | |]; cbn; try reflexivity.
  destruct (Qcompare_spec (q + - zq) 0), (Qcompare_spec zq q);
    try reflexivity; exfalso; lra.
Qed.

Lemma residual_zero_inactive (l g_ : T1) :
  isnan l = false -> (l >? 0)%T1 = false -> (l <? 0)%T1 = false ->
  (l - g_ =? 0)%T1 = (g_ =? 0)%T1 /\ (l =? 0)%T1 = true.
Proof.
  unfold T1gtb.
  destruct l as [a| | |], g_ as [b| | |]; cbn; intros; try discriminate;
    q_cases; try discriminate; try (split; reflexivity); cbn; q_cases;
    try (split; reflexivity); exfalso; lra.
Qed.

(** The right-hand side that [casadi_qp_kkt_residual] writes for row [i]
    is zero exactly when the row needs no step: an active bound holds with
    equality, the dual infeasibility of an inactive variable vanishes; for
    an inactive linear constraint it is always zero. *)
Theorem casadi_qp_kkt_residual_zero (d : casadi_qp_data) (r : list T1) (i : nat) :
  (nz (prob d) <= length r)%nat -> (i < nz (prob d))%nat ->
  is_finite (rd (z d) i) = true -> isnan (rd (lam d) i) = false ->
  (rd (casadi_qp_kkt_residual d r) i =? 0)%T1
  = if (rd (lam d) i >? 0)%T1 then (rd (z d) i =? rd (ubz d) i)%T1
    else if (rd (lam d) i <? 0)%T1 then (rd (z d) i =? rd (lbz d) i)%T1
    else if (i <? nx (prob d))%nat then (rd (infeas d) i =? 0)%T1
    else true.
Proof.
  intros Hr Hi Fz Nl. unfold casadi_qp_kkt_residual. cbn zeta.
  rewrite (for_range_ext 0 (nz (prob d)) _
             (fun i r =>
                upd r i
                  (if (rd (lam d) i >? 0)%T1 then (rd (ubz d) i - rd (z d) i)%T1
                   else if (rd (lam d) i <? 0)%T1 then (rd (lbz d) i - rd (z d) i)%T1
                   else if (i <? nx (prob d))%nat
                        then (rd (lam d) i - rd (infeas d) i)%T1
                        else rd (lam d) i))).
  2:{ intros k t _.
      destruct (rd (lam d) k >? 0)%T1; [reflexivity|].
      destruct (rd (lam d) k <? 0)%T1; [reflexivity|].
      destruct (k <? nx (prob d))%nat; reflexivity. }
  rewrite rd_tabulate by exact Hr.
  destruct (Nat.ltb_spec i (nz (prob d))); [|lia].
  destruct (rd (z d) i) as [zq| | |]; try discriminate.
  destruct (rd (lam d) i >? 0)%T1 eqn:Ep; [apply residual_zero_bound|].
  destruct (rd (lam d) i <? 0)%T1 eqn:En; [apply residual_zero_bound|].
  destruct (residual_zero_inactive (rd (lam d) i) (rd (infeas d) i) Nl Ep En)
    as [A B].
  destruct (i <? nx (prob d))%nat; [exact A|exact B].
Qed.

Lemma casadi_qp_kkt_residual_zero_witness :
  let d := qp_stale in
  (rd (casadi_qp_kkt_residual d (zeros 4)) 1 =? 0)%T1
  = if (rd (lam d) 1 >? 0)%T1 then (rd (z d) 1 =? rd (ubz d) 1)%T1
    else if (rd (lam d) 1 <? 0)%T1 then (rd (z d) 1 =? rd (lbz d) 1)%T1
    else if (1 <? nx (prob d))%nat then (rd (infeas d) 1 =? 0)%T1
    else true.
Proof.
  apply (casadi_qp_kkt_residual_zero qp_stale (zeros 4) 1).
  - cbn; lia.
  - cbn; lia.
  - reflexivity.
  - reflexivity.
Defined.

(** ** The dual error after dropping a bound *)

Lemma skipn_upd_before {A : Type} (l : list A) (i n : nat) (v : A) :
  (i < n)%nat -> skipn n (upd l i v) = skipn n l.
Proof.
  revert i n. induction l as [|h t IH]; intros [|i] [|n] Hi; cbn; auto; try lia.
  apply IH. lia.
Qed.

Lemma drop_infeas (g_ m : T1) :
  is_finite (g_ + m)%T1 = true ->
  T1eq (fabs (g_ + 0)) (fabs (g_ + m - m)).
Proof.
  destruct g_ as [a| | |], m as [b| | |]; try discriminate. intros _.
  cbn [fabs T1add T1sub T1opp T1eq]. apply Qabs_wd. lra.
Qed.



(** ** The dual line search keeps the dual error *)

Lemma convex_within (e a t s u : Q) :
  - e <= a <= e -> - e <= a + u * t <= e -> 0 <= s <= u ->
  - e <= a + s * t <= e.
Proof. intros H0 Hu Hs. destruct (Qlt_le_dec t 0); split; nra. Qed.

Lemma fabs_within (e a : Q) : (fabs (Fin a) <=? Fin e)%T1 = true <-> - e <= a <= e.
Proof.
  cbn [fabs]. rewrite T1leb_Fin.
  destruct (Qabs_cases a) as [[H E]|[H E]]; rewrite E; split; intros; try split; lra.
Qed.

(** One variable of the scan of [casadi_qp_dual_blocking]: if the end of
    the interval violates the budget, the proposed [tau1] is [tau_k] plus
    the step [dl] that puts the infeasibility on the budget. *)
Lemma dual_scan_step (e a t tk dt : Q) :
  - e <= a <= e -> 0 <= dt -> 0 <= tk ->
  let new_infeas := (Fin a + Fin dt * Fin t)%T1 in
  if (fabs new_infeas >? Fin e)%T1 then
    exists dl, 0 <= dl /\ - e <= a + dl * t <= e
      /\ exists q1,
           fmax 0%T1
             (Fin tk + ((if (new_infeas >? 0)%T1 then Fin e else (- Fin e)%T1) - Fin a)
                       / Fin t)%T1 = Fin q1
           /\ q1 == tk + dl
  else - e <= a + dt * t <= e.
Proof.
  intros Ha Hdt Htk. cbn zeta. unfold T1gtb.
  destruct (Fin e <? fabs (Fin a + Fin dt * Fin t))%T1 eqn:V.
  - cbn [T1add T1mul fabs] in V. apply T1ltb_Fin in V.
    assert (Ht : ~ t == 0).
    { intros E. assert (E2 : a + dt * t == a) by (rewrite E; ring).
      rewrite E2 in V. destruct (Qabs_cases a) as [[H E']|[H E']]; lra. }
    cbn [T1add T1mul].
    destruct (0 <? Fin (a + dt * t))%T1 eqn:Pos.
    + apply T1ltb_Fin in Pos.
      assert (Hn : e < a + dt * t)
        by (destruct (Qabs_cases (a + dt * t)) as [[H E']|[H E']]; lra).
      assert (Htp : 0 < t) by nra.
      exists ((e - a) / t). split.
      * apply Qle_shift_div_l; [exact Htp|lra].
      * split.
        -- assert (E : a + (e - a) / t * t == e) by (field; exact Ht).
           rewrite E. lra.
        -- cbn [T1sub T1opp T1add T1div].
           destruct (Qeq_bool t 0) eqn:E0; [apply Qeq_bool_eq in E0; contradiction|].
           cbn [T1add fmax T1ltb T1compare].
           assert (Hq : 0 <= (e + - a) / t)
             by (apply Qle_shift_div_l; [exact Htp|lra]).
           destruct (Qcompare_spec 0 (tk + (e + - a) / t)) as [H|H|H].
           ++ exists 0. split; [reflexivity|]. rewrite H.
              unfold Qminus. reflexivity.
           ++ exists (tk + (e + - a) / t). split; [reflexivity|].
              unfold Qminus. reflexivity.
           ++ exfalso. lra.
    + assert (Hn : a + dt * t < - e).
      { destruct (Qabs_cases (a + dt * t)) as [[H E']|[H E']]; [|lra].
        exfalso. rewrite E' in V.
        assert (Hp : ~ 0 < a + dt * t) by (intros Hp; apply T1ltb_Fin in Hp; congruence).
        lra. }
      assert (Htn : t < 0) by nra.
      assert (Hq : 0 <= (- e + - a) / t).
      { assert (E : (- e + - a) / t == (e + a) / (- t)) by (field; lra).
        rewrite E. apply Qle_shift_div_l; lra. }
      exists ((- e - a) / t). split; [exact Hq|]. split.
      * assert (E : a + (- e - a) / t * t == - e) by (field; exact Ht).
        rewrite E. lra.
      * cbn [T1sub T1opp T1add T1div].
        destruct (Qeq_bool t 0) eqn:E0; [apply Qeq_bool_eq in E0; contradiction|].
        cbn [T1add fmax T1ltb T1compare].
        destruct (Qcompare_spec 0 (tk + (- e + - a) / t)) as [H|H|H].
        -- exists 0. split; [reflexivity|]. rewrite H. unfold Qminus. reflexivity.
        -- exists (tk + (- e + - a) / t). split; [reflexivity|].
           unfold Qminus. reflexivity.
        -- exfalso. lra.
  - cbn [T1add T1mul] in V.
    apply fabs_within.
    destruct (fabs (Fin (a + dt * t)) <=? Fin e)%T1 eqn:L; [reflexivity|].
    exfalso. cbn [fabs] in V, L.
    assert (A : ~ e < Qabs (a + dt * t))
      by (intros H; apply T1ltb_Fin in H; congruence).
    assert (B : ~ Qabs (a + dt * t) <= e)
      by (intros H; apply T1leb_Fin in H; congruence).
    lra.
Qed.

Lemma dual_blocking_scan_within (e tk dt T0 : Q) (n : nat) (d : casadi_qp_data)
  (i0 : Z) :
  0 <= dt -> 0 <= tk -> tau d = Fin T0 -> tk <= T0 ->
  (forall k, (k < n)%nat ->
     exists a t, rd (infeas d) k = Fin a /\ rd (tinfeas d) k = Fin t /\ - e <= a <= e) ->
  let r :=
    for_range 0 n (fun k (s : casadi_qp_data * Z) =>
      let (d, du_index) := s in
      let new_infeas := (rd (infeas d) k + Fin dt * rd (tinfeas d) k)%T1 in
      if (fabs new_infeas >? Fin e)%T1 then
        let tau1 :=
          fmax 0%T1
            (Fin tk + ((if (new_infeas >? 0)%T1 then Fin e else (- Fin e)%T1)
                       - rd (infeas d) k)
                      / rd (tinfeas d) k)%T1 in
        if (tau1 <? tau d)%T1 then (set_tau tau1 d, Z.of_nat k) else s
      else s) (d, i0) in
  exists T, tau (fst r) = Fin T /\ tk <= T <= T0
    /\ forall k, (k < n)%nat -> forall s, 0 <= s -> s <= T - tk -> s <= dt ->
         dual_within d (Fin e) k s.
Proof.
  intros Hdt Htk Et HT0 Hfin. cbn zeta.
  apply (for_range_inv
    (fun m (r : casadi_qp_data * Z) =>
       infeas (fst r) = infeas d /\ tinfeas (fst r) = tinfeas d
       /\ exists T, tau (fst r) = Fin T /\ tk <= T <= T0
            /\ forall k, (k < m)%nat -> forall s, 0 <= s -> s <= T - tk -> s <= dt ->
                 dual_within d (Fin e) k s)); [lia| |].
  - cbn [fst]. split; [reflexivity|]. split; [reflexivity|].
    exists T0. split; [exact Et|]. split; [lra|]. intros; lia.
  - intros k [t ix] Hk (Ei & Eti & T & ET & HT & Done). cbn [fst snd] in *.
    rewrite Ei, Eti.
    destruct (Hfin k ltac:(lia)) as (a & tt & Ea & Ett & Ha).
    rewrite Ea, Ett.
    pose proof (dual_scan_step e a tt tk dt Ha Hdt Htk) as Step. cbn zeta in Step.
    assert (At0 : forall u, - e <= a + u * tt <= e ->
              forall s, 0 <= s -> s <= u -> dual_within d (Fin e) k s).
    { intros u Hu s Hs1 Hs2. unfold dual_within. rewrite Ea, Ett.
      cbn [T1add T1mul]. apply fabs_within.
      apply (convex_within e a tt s u); auto. }
    destruct (fabs (Fin a + Fin dt * Fin tt) >? Fin e)%T1.
    + destruct Step as (dl & Hdl & Hon & q1 & E1 & Eq1). rewrite E1, ET.
      destruct (Fin q1 <? Fin T)%T1 eqn:Lt; cbn [fst snd]; data_fields.
      * apply T1ltb_Fin in Lt.
        split; [exact Ei|]. split; [exact Eti|].
        exists q1. split; [reflexivity|]. split; [lra|].
        intros k' Hk' s Hs1 Hs2 Hs3.
        destruct (Nat.eq_dec k' k) as [->|Hne].
        -- apply (At0 dl Hon s Hs1). lra.
        -- apply Done; [lia|exact Hs1|lra|exact Hs3].
      * assert (Ge : T <= q1).
        { destruct (Qlt_le_dec q1 T) as [H|H]; [|exact H].
          apply T1ltb_Fin in H. congruence. }
        split; [exact Ei|]. split; [exact Eti|].
        exists T. split; [exact ET|]. split; [exact HT|].
        intros k' Hk' s Hs1 Hs2 Hs3.
        destruct (Nat.eq_dec k' k) as [->|Hne].
        -- apply (At0 dl Hon s Hs1). lra.
        -- apply Done; [lia|exact Hs1|exact Hs2|exact Hs3].
    + cbn [fst snd].
      split; [exact Ei|]. split; [exact Eti|].
      exists T. split; [exact ET|]. split; [exact HT|].
      intros k' Hk' s Hs1 Hs2 Hs3.
      destruct (Nat.eq_dec k' k) as [->|Hne].
      * apply (At0 dt Step s Hs1 Hs3).
      * apply Done; [lia|exact Hs1|exact Hs2|exact Hs3].
Qed.

Lemma fmin_Fin (x y : Q) :
  exists s, fmin (Fin x) (Fin y) = Fin s /\ s <= x /\ s <= y /\ (s == x \/ s == y).
Proof.
  cbn [fmin]. destruct (Fin y <? Fin x)%T1 eqn:E.
  - apply T1ltb_Fin in E. exists y.
    split; [reflexivity|]. split; [lra|]. split; [lra|]. right; reflexivity.
  - assert (H : x <= y).
    { destruct (Qlt_le_dec y x) as [H|H]; [|exact H].
      apply T1ltb_Fin in H. congruence. }
    exists x.
    split; [reflexivity|]. split; [lra|]. split; [exact H|]. left; reflexivity.
Qed.

Lemma is_finite_sub_mul (x y v : T1) :
  is_finite x = true -> is_finite y = true -> is_finite v = true ->
  is_finite (x - y * v)%T1 = true.
Proof. destruct x, y, v; cbn; intros; try discriminate; reflexivity. Qed.

Lemma is_finite_sub (x y : T1) :
  is_finite x = true -> is_finite y = true -> is_finite (x - y)%T1 = true.
Proof. destruct x, y; cbn; intros; try discriminate; reflexivity. Qed.

Lemma is_finite_upd (l : list T1) (i : nat) (v : T1) :
  (forall k, is_finite (rd l k) = true) -> is_finite v = true ->
  forall k, is_finite (rd (upd l i v) k) = true.
Proof.
  intros Hl Hv k. destruct (Nat.eq_dec i k) as [<-|Hne].
  - destruct (Nat.lt_ge_cases i (length l)) as [Hin|Hout].
    + rewrite rd_upd_same by exact Hin. exact Hv.
    + rewrite upd_out by exact Hout. apply Hl.
  - rewrite rd_upd_other by exact Hne. apply Hl.
Qed.

(** The update of the tangent when a multiplier of a linear constraint
    becomes zero. *)
Lemma tangent_update_finite (p : casadi_qp_prob) (a b i : nat) (d : casadi_qp_data) :
  (forall k, is_finite (rd (tinfeas d) k) = true) ->
  (forall k, is_finite (rd (nz_at d) k) = true) ->
  (forall k, is_finite (rd (dlam d) k) = true) ->
  let d' :=
    for_range a b
      (fun k d =>
         let r := sp_row (sp_at p) (na p) k in
         set_tinfeas
           (upd (tinfeas d) r (rd (tinfeas d) r - rd (nz_at d) k * rd (dlam d) i)%T1)
           d) d in
  (prob d' = prob d /\ w d' = w d /\ dlam d' = dlam d /\ nz_at d' = nz_at d
   /\ infeas d' = infeas d /\ tau d' = tau d)
  /\ forall k, is_finite (rd (tinfeas d') k) = true.
Proof.
  intros Ft Fa Fd. cbn zeta.
  destruct (Nat.le_gt_cases a b) as [Hab|Hab];
    [|rewrite for_range_empty by lia; auto 10].
  apply (for_range_inv
           (fun _ d' =>
              (prob d' = prob d /\ w d' = w d /\ dlam d' = dlam d
               /\ nz_at d' = nz_at d /\ infeas d' = infeas d /\ tau d' = tau d)
              /\ forall k, is_finite (rd (tinfeas d') k) = true));
    [exact Hab|auto 10|].
  intros k t _ ((H1 & H2 & H3 & H4 & H5 & H6) & Hf). data_fields.
  split; [auto 10|].
  apply is_finite_upd; [exact Hf|].
  apply is_finite_sub_mul; [apply Hf|rewrite H4; apply Fa|rewrite H3; apply Fd].
Qed.

Lemma dual_blocking_step_within (e T0 : Q) (wl : list T1) (d0 : casadi_qp_data)
  (n_tau j : nat) (s : dual_blocking_state) :
  (nx (prob d0) <= length (infeas d0))%nat ->
  (forall i, is_finite (rd (dlam d0) i) = true) ->
  (forall k, is_finite (rd (nz_at d0) k) = true) ->
  (forall j, (j < n_tau)%nat -> exists q, rd wl j = Fin q /\ 0 <= q <= T0) ->
  (forall j, (S j < n_tau)%nat ->
     exists q q', rd wl j = Fin q /\ rd wl (S j) = Fin q' /\ q <= q') ->
  (j < n_tau)%nat ->
  dual_blocking_inv e T0 wl d0 j s ->
  dual_blocking_inv e T0 wl d0 (S j) (casadi_qp_dual_blocking_step (Fin e) j s).
Proof.
  intros Li Fdl Fat W1 W2 Hj (Hp & Hw & Hdl & Hat & Hlen & Hin & Hti & Hrun).
  cbn zeta in Hp, Hw, Hdl, Hat, Hlen, Hin, Hti, Hrun.
  unfold casadi_qp_dual_blocking_step.
  destruct (db_done s) eqn:Done.
  { unfold dual_blocking_inv. cbn zeta. rewrite Done.
    repeat (split; [assumption|]). discriminate. }
  destruct (Hrun eq_refl) as [Etau Etk]. clear Hrun.
  destruct (W1 j Hj) as (wq & Ew & Hwq).
  assert (Tk : exists tkq, db_tau_k s = Fin tkq /\ 0 <= tkq <= wq).
  { destruct j as [|j'].
    - exists 0. split; [exact Etk|lra].
    - destruct (W2 j' Hj) as (q & q' & E1 & E2 & Hq).
      destruct (W1 j' ltac:(lia)) as (q0 & E0 & Hq0).
      rewrite Ew in E2. injection E2 as <-. rewrite E1 in E0. injection E0 as <-.
      exists q. split; [congruence|lra]. }
  destruct Tk as (tkq & Etkq & Htkq). clear Etk.
  cbn zeta. rewrite Hw, Ew, Etkq, Hp.
  (* the scan over the variables *)
  pose proof (dual_blocking_scan (Fin e) (Fin tkq) (Fin wq - Fin tkq)%T1
                (nx (prob d0)) (db_d s) (db_du_index s)) as SF.
  pose proof (dual_blocking_scan_within e tkq (wq + - tkq) T0 (nx (prob d0)) (db_d s)
                (db_du_index s) ltac:(lra) ltac:(lra) Etau ltac:(lra)) as SW.
  cbn zeta in SF, SW.
  match goal with
  | |- context [for_range 0 (nx (prob d0)) ?body (db_d s, db_du_index s)] =>
      set (r := for_range 0 (nx (prob d0)) body (db_d s, db_du_index s)) in *
  end.
  assert (SW' : exists T, tau (fst r) = Fin T /\ tkq <= T <= T0
            /\ forall k, (k < nx (prob d0))%nat -> forall u, 0 <= u -> u <= T - tkq ->
                 u <= wq + - tkq -> dual_within (db_d s) (Fin e) k u).
  { apply SW. intros k Hk. destruct (Hin k Hk) as (a & Ea & Ha).
    pose proof (Hti k) as Ft.
    destruct (rd (tinfeas (db_d s)) k) as [t| | |]; try discriminate.
    exists a, t. auto. }
  clear SW. clearbody r. destruct r as [d1 ix]. cbn [fst snd] in SF, SW'.
  destruct SF as (S1 & S2 & S3 & S4 & S5 & S6 & S7 & S8 & S9 & S10 & S11 & SC).
  destruct SW' as (T & ET & HT & Within).
  rewrite ET, S4, S5.
  (* the update of the infeasibility *)
  destruct (fmin_Fin (T + - tkq) (wq + - tkq)) as (u & Eu & Hu1 & Hu2 & Hu3).
  cbn [T1sub T1add T1opp]. rewrite Eu.
  set (inf1 := casadi_axpy (nx (prob d0)) (Fin u) (tinfeas (db_d s)) (infeas (db_d s))).
  assert (Hu0 : 0 <= u) by (destruct Hu3 as [E|E]; rewrite E; lra).
  assert (Hin1 : forall k, (k < nx (prob d0))%nat ->
            exists a, rd inf1 k = Fin a /\ - e <= a <= e).
  { intros k Hk. unfold inf1. rewrite rd_axpy by lia.
    destruct (Nat.ltb_spec k (nx (prob d0))); [|lia].
    pose proof (Within k Hk u Hu0 ltac:(lra) Hu2) as Wk. unfold dual_within in Wk.
    destruct (Hin k Hk) as (a & Ea & Ha). pose proof (Hti k) as Ft.
    rewrite Ea in *.
    destruct (rd (tinfeas (db_d s)) k) as [t| | |]; try discriminate.
    cbn [T1add T1mul] in *. exists (a + u * t). split; [reflexivity|].
    apply fabs_within. exact Wk. }
  assert (Llen : length inf1 = length (infeas d0)).
  { unfold inf1. rewrite length_axpy. exact Hlen. }
  clearbody inf1.
  destruct (ix >=? 0)%Z eqn:Ge.
  { unfold dual_blocking_inv. cbn [db_d db_done db_du_index db_tau_k]. data_fields.
    rewrite S1, S2, S5, S9, S11.
    repeat (split; [assumption|]). discriminate. }
  assert (ET0 : tau d1 = Fin T0).
  { destruct SC as [[_ E]|(C & _)]; [congruence|lia]. }
  data_fields.
  destruct (rdi (iw d1) j <? 0)%Z.
  { unfold dual_blocking_inv. cbn [db_d db_done db_du_index db_tau_k]. data_fields.
    rewrite S1, S2, S5, S9, S11.
    repeat (split; [assumption|]). discriminate. }
  set (i := Z.to_nat (rdi (iw d1) j)).
  unfold dual_blocking_inv. cbn [db_d db_done db_du_index db_tau_k].
  destruct (negb (rdb (neverzero d1) i)).
  - destruct (i <? nx (prob d0))%nat.
    + data_fields. rewrite S1, S2, S9, S11.
      repeat (split; [assumption|]).
      split.
      * apply is_finite_upd; [rewrite ?S5; exact Hti|].
        apply is_finite_sub; [rewrite ?S5; apply Hti|rewrite ?S9, ?Hdl; apply Fdl].
      * intros _. split; [exact ET0|rewrite ?Hw; reflexivity].
    + match goal with
      | |- context [for_range ?a ?b _ ?dd] =>
          pose proof (tangent_update_finite (prob d0) a b i dd) as TU
      end.
      cbn zeta in TU. data_fields_in TU.
      destruct TU as ((U1 & U2 & U3 & U4 & U5 & U6) & UF).
      { rewrite S5. exact Hti. }
      { rewrite S11, Hat. exact Fat. }
      { rewrite S9, Hdl. exact Fdl. }
      rewrite U1, U2, U3, U4, U5, U6, S1, S2, S9, S11.
      repeat (split; [assumption|]).
      rewrite Hw. reflexivity.
  - data_fields. rewrite S1, S2, S5, S9, S11.
    repeat (split; [assumption|]).
    rewrite Hw. reflexivity.
Qed.
(** A breakpoint of a sign change over a step [tq >= 0] is not negative. *)
Lemma breakpoint_after_zero (d : casadi_qp_data) (tq : Q) (i : nat) :
  0 <= tq ->
  is_finite (rd (lam d) i) = true -> is_finite (rd (dlam d) i) = true ->
  breakpoint_row d (Fin tq) i = true ->
  exists q, fst (breakpoint_of d i) = Fin q /\ 0 <= q.
Proof.
  intros Ht Fl Fd. unfold breakpoint_row, breakpoint_of. cbn [fst].
  destruct (rd (lam d) i) as [a| | |]; try discriminate.
  destruct (rd (dlam d) i) as [b| | |]; try discriminate.
  intros H.
  apply andb_prop in H as [H H3]. apply andb_prop in H as [H1 H2].
  apply negb_true_iff in H1, H2, H3.
  assert (Hb : ~ b == 0).
  { intros C. apply T1eqb_Fin in C. rewrite C in H1. discriminate. }
  assert (Ha : ~ a == 0).
  { intros C. apply T1eqb_Fin in C. rewrite C in H2. discriminate. }
  cbn [T1opp T1div].
  destruct (Qeq_bool b 0) eqn:EB; [apply Qeq_bool_iff in EB; contradiction|].
  exists (- a / b). split; [reflexivity|].
  pose proof (Qdiv_mul_cancel (- a) b Hb) as Hm.
  unfold T1gtb, T1geb in H3. cbn in H3.
  destruct (Qlt_le_dec 0 a) as [Hpos|Hneg].
  - assert (P : (Fin 0 <? Fin a)%T1 = true) by (apply T1ltb_Fin; exact Hpos).
    cbn in P. rewrite P in H3.
    assert (a + tq * b < 0).
    { destruct (Qlt_le_dec (a + tq * b) 0) as [|C]; auto.
      apply T1leb_Fin in C. cbn in C. rewrite C in H3. discriminate. }
    assert (b < 0) by nra. nra.
  - assert (P : (Fin 0 <? Fin a)%T1 = false).
    { destruct (Fin 0 <? Fin a)%T1 eqn:C; auto. apply T1ltb_Fin in C. lra. }
    cbn in P. rewrite P in H3.
    assert (0 < a + tq * b).
    { destruct (Qlt_le_dec 0 (a + tq * b)) as [|C]; auto.
      apply T1leb_Fin in C. cbn in C. rewrite C in H3. discriminate. }
    assert (a < 0) by (destruct (Qeq_dec a 0); [contradiction|lra]).
    assert (0 < b) by nra. nra.
Qed.

(** The list of [casadi_qp_dual_breakpoints] for a step [tq >= 0]: its
    entries are numbers of [[0, tq]] in ascending order. *)
Lemma dual_breakpoints_range (d : casadi_qp_data) (tl0 : list T1) (il0 : list Z)
  (e : T1) (tq : Q) :
  0 <= tq ->
  (length (filter (breakpoint_row d (Fin tq)) (seq 0 (nz (prob d)))) < length tl0)%nat ->
  (length (filter (breakpoint_row d (Fin tq)) (seq 0 (nz (prob d)))) < length il0)%nat ->
  (forall i, (i < nz (prob d))%nat ->
     is_finite (rd (lam d) i) = true /\ is_finite (rd (dlam d) i) = true) ->
  let r := casadi_qp_dual_breakpoints d tl0 il0 e (Fin tq) in
  let n := fst (fst r) in
  let tl := snd (fst r) in
  (forall j, (j < n)%nat -> exists q, rd tl j = Fin q /\ 0 <= q <= tq)
  /\ (forall j, (S j < n)%nat ->
        exists q q', rd tl j = Fin q /\ rd tl (S j) = Fin q' /\ q <= q').
Proof.
  intros Ht Lt Li Hfin.
  unfold casadi_qp_dual_breakpoints; cbn zeta.
  pose proof (dual_breakpoints_inv d tl0 il0 tq (nz (prob d)) Ht
                (Nat.le_refl _) Lt Li Hfin) as H.
  destruct (for_range 0 (nz (prob d)) _ _) as [[n tl] il].
  cbn [fst snd].
  destruct H as (Hn & Ltl & Lil & Hlast & Hlasti & Hle & Hsorted & Hperm).
  assert (R : forall j, (j < n)%nat -> exists q, rd tl j = Fin q /\ 0 <= q <= tq).
  { intros j Hj. destruct (Hle j Hj) as (q & Eq & Hq).
    exists q. split; [exact Eq|]. split; [|exact Hq].
    destruct (Nat.eq_dec j (n - 1)) as [->|Hne].
    - rewrite Hlast in Eq. injection Eq as <-. exact Ht.
    - assert (Hin : In (rd tl j, rdi il j)
                      (combine (firstn (n - 1) tl) (firstn (n - 1) il))).
      { assert (L1 : length (firstn (n - 1) tl) = (n - 1)%nat)
          by (rewrite length_firstn; lia).
        assert (L2 : length (firstn (n - 1) il) = (n - 1)%nat)
          by (rewrite length_firstn; lia).
        replace (rd tl j, rdi il j)
          with (nth j (combine (firstn (n - 1) tl) (firstn (n - 1) il)) (0%T1, 0%Z)).
        - apply nth_In. rewrite length_combine. lia.
        - rewrite combine_nth by lia. unfold rd, rdi.
          rewrite !nth_firstn.
          assert (E : (j <? n - 1)%nat = true) by (apply Nat.ltb_lt; lia).
          rewrite E. reflexivity. }
      apply (Permutation_in _ Hperm) in Hin.
      apply in_map_iff in Hin as (i & Ei & Hi).
      apply filter_In in Hi as [Hi Row].
      apply in_seq in Hi.
      destruct (Hfin i ltac:(lia)) as [F1 F2].
      destruct (breakpoint_after_zero d tq i Ht F1 F2 Row) as (q' & Eq' & Hq').
      rewrite Ei in Eq'. cbn [fst] in Eq'. rewrite Eq in Eq'.
      injection Eq' as <-. exact Hq'. }
  split; [exact R|].
  intros j Hj.
  destruct (R j ltac:(lia)) as (q & Eq & _).
  destruct (R (S j) Hj) as (q' & Eq' & _).
  exists q, q'. split; [exact Eq|]. split; [exact Eq'|].
  specialize (Hsorted j ltac:(lia)).
  replace (j + 1)%nat with (S j) in Hsorted by lia.
  rewrite Eq, Eq' in Hsorted. apply T1leb_Fin. exact Hsorted.
Qed.

(** On that record the search with [e = 5] stops at [tau = 7/12], where the
    dual error of variable 0 reaches [-5]. *)
Example casadi_qp_dual_blocking_example :
  let r := casadi_qp_dual_blocking qp_dual_search (Fin 5) in
  fst r = 0%Z /\ T1eq (tau (snd r)) (Fin (7 # 12))
  /\ Forall2 T1eq (infeas (snd r)) [Fin (-5); Fin (5 # 2)].
Proof. vm_compute. repeat split. repeat constructor. Qed.
